(** * VideoSort: a shallow embedding of the identification pipeline,
      the season/episode parser, the logo detector and the backup log,
      with the properties of the specification settled against it. *)

From Stdlib Require Import ZArith NArith QArith Qminmax Qround Lqa Ascii String List Bool Lia.
From Stdlib Require Uint63 PrimFloat SpecFloat FloatOps.
From stdpp Require Import base list strings gmap.

Local Open Scope string_scope.
Local Open Scope list_scope.

(* ===================================================================== *)
(** * Python string helpers *)
(* ===================================================================== *)

Module PyStr.

(** Python [str] values are modelled as strings of ASCII characters;
    the regular expressions below work on the list of characters. *)
Definition chars (s : string) : list ascii := list_ascii_of_string s.

Definition is_digit (c : ascii) : bool :=
  (48 <=? nat_of_ascii c)%nat && (nat_of_ascii c <=? 57)%nat.

Definition is_upper (c : ascii) : bool :=
  (65 <=? nat_of_ascii c)%nat && (nat_of_ascii c <=? 90)%nat.

Definition to_lower (c : ascii) : ascii :=
  if is_upper c then ascii_of_nat (nat_of_ascii c + 32) else c.

(** [str.isspace] on ASCII: TAB..CR, FS..US and the blank. *)
Definition is_space (c : ascii) : bool :=
  let n := nat_of_ascii c in
  ((9 <=? n)%nat && (n <=? 13)%nat) || ((28 <=? n)%nat && (n <=? 32)%nat).

Definition digit_val (c : ascii) : N := N_of_ascii c - 48.

Definition newline : ascii := ascii_of_nat 10.

Definition cons_head (c : ascii) (parts : list string) : list string :=
  match parts with
  | h :: t => String c h :: t
  | [] => [String c ""]
  end.

(** [s.split(sep)] for a separator of one character. *)
Fixpoint split_char (sep : ascii) (s : string) : list string :=
  match s with
  | EmptyString => [""]
  | String c s' =>
      if Ascii.eqb c sep then "" :: split_char sep s'
      else cons_head c (split_char sep s')
  end.

(** [s.split('\n\n')]: the cuts are taken from the left and do not
    overlap. *)
Fixpoint split_blank_line (s : string) : list string :=
  match s with
  | EmptyString => [""]
  | String c s' =>
      match s' with
      | String c' s'' =>
          if Ascii.eqb c newline && Ascii.eqb c' newline
          then "" :: split_blank_line s''
          else cons_head c (split_blank_line s')
      | EmptyString => [String c ""]
      end
  end.

Fixpoint lstrip (s : string) : string :=
  match s with
  | String c s' => if is_space c then lstrip s' else s
  | EmptyString => ""
  end.

Fixpoint rstrip (s : string) : string :=
  match s with
  | EmptyString => ""
  | String c s' =>
      match rstrip s' with
      | EmptyString => if is_space c then "" else String c ""
      | r => String c r
      end
  end.

(** [s.strip()] *)
Definition strip (s : string) : string := lstrip (rstrip s).

(** [s.startswith(p)] *)
Definition startswith (s p : string) : bool := String.prefix p s.

(** [sep.join(parts)] *)
Definition join (sep : string) (parts : list string) : string :=
  String.concat sep parts.

(** Truth value of a [str]. *)
Definition nonempty (s : string) : bool :=
  match s with EmptyString => false | _ => true end.

(** [int(ds)] for a string of decimal digits (Python integers are
    unbounded; a file name is far below the 4300 digits at which recent
    interpreters refuse the conversion). *)
Definition int_of_digits (ds : list ascii) : N :=
  fold_left (fun acc c => 10 * acc + digit_val c)%N ds 0%N.

End PyStr.

(* ===================================================================== *)
(** * The fragment of [re] used by video_analysis.py *)
(* ===================================================================== *)

Module Re.
Import PyStr.

(** The seven patterns of [extract_season_episode_from_filename] are
    sequences of single-character classes under a greedy quantifier,
    some of them wrapped in a capturing group.  [re.IGNORECASE] makes
    every literal letter match both of its cases. *)
Inductive CharClass :=
| CDigit                 (* \d *)
| CNonDigit              (* [^0-9] *)
| CLit (c : ascii).      (* a literal character, case-insensitively *)

Definition class_mem (k : CharClass) (x : ascii) : bool :=
  match k with
  | CDigit => is_digit x
  | CNonDigit => negb (is_digit x)
  | CLit c => Ascii.eqb (to_lower x) (to_lower c)
  end.

Record Atom := mkAtom {
  cls : CharClass;
  rmin : nat;
  rmax : option nat;      (* None: unbounded *)
  capture : bool
}.

Definition Pattern := list Atom.

Definition lit (c : ascii) : Atom := mkAtom (CLit c) 1 (Some 1) false.
Definition lits (s : string) : Pattern := map lit (chars s).
(** [(\d+)] *)
Definition digits1 : Atom := mkAtom CDigit 1 None true.
(** [(\d{1,2})] and [(\d{2})] *)
Definition digits_1_2 : Atom := mkAtom CDigit 1 (Some 2) true.
Definition digits_2 : Atom := mkAtom CDigit 2 (Some 2) true.
(** [[^0-9]] and [[^0-9]*] *)
Definition nondigit : Atom := mkAtom CNonDigit 1 (Some 1) false.
Definition nondigits : Atom := mkAtom CNonDigit 0 None false.

(** Length of the longest prefix of [s] inside the class. *)
Fixpoint run_length (k : CharClass) (s : list ascii) : nat :=
  match s with
  | x :: s' => if class_mem k x then S (run_length k s') else 0
  | [] => 0
  end.

Definition cap_at (m : option nat) (n : nat) : nat :=
  match m with Some b => Nat.min b n | None => n end.

(** Greedy repetition with backtracking: the counts [k], [k-1], ..., [lo]
    are tried in this order and the first success is kept. *)
Fixpoint try_down {R} (f : nat -> option R) (lo k : nat) : option R :=
  if (k <? lo)%nat then None
  else match f k with
       | Some r => Some r
       | None => match k with
                 | O => None
                 | S k' => try_down f lo k'
                 end
       end.

(** [re.match]: the groups captured and the text left after the match. *)
Fixpoint match_here (p : Pattern) (s : list ascii)
  : option (list (list ascii) * list ascii) :=
  match p with
  | [] => Some ([], s)
  | a :: p' =>
      try_down
        (fun k =>
           match match_here p' (drop k s) with
           | Some (caps, rest) =>
               Some (if capture a then take k s :: caps else caps, rest)
           | None => None
           end)
        (rmin a) (cap_at (rmax a) (run_length (cls a) s))
  end.

(** [re.search]: the leftmost start position at which the pattern
    matches, the end of the string included. *)
Fixpoint search (p : Pattern) (s : list ascii)
  : option (list (list ascii) * list ascii) :=
  match match_here p s with
  | Some r => Some r
  | None => match s with
            | [] => None
            | _ :: s' => search p s'
            end
  end.

End Re.

(* ===================================================================== *)
(** * video_analysis.py *)
(* ===================================================================== *)

Module VideoAnalysis.
Import PyStr Re.

Definition pat_SxxEyy : Pattern :=               (* S(\d+)E(\d+) *)
  lits "S" ++ [digits1] ++ lits "E" ++ [digits1].
Definition pat_NxNN : Pattern :=                 (* (\d+)x(\d+) *)
  [digits1] ++ lits "x" ++ [digits1].
Definition pat_compact : Pattern :=              (* [^0-9](\d{1,2})(\d{2})[^0-9] *)
  [nondigit; digits_1_2; digits_2; nondigit].
Definition pat_season_episode : Pattern :=       (* Season[^0-9]*(\d+)[^0-9]*Episode[^0-9]*(\d+) *)
  lits "Season" ++ [nondigits; digits1; nondigits] ++ lits "Episode"
    ++ [nondigits; digits1].
Definition pat_temporada_capitulo : Pattern :=   (* Temporada[^0-9]*(\d+)[^0-9]*Capitulo[^0-9]*(\d+) *)
  lits "Temporada" ++ [nondigits; digits1; nondigits] ++ lits "Capitulo"
    ++ [nondigits; digits1].
Definition pat_TC : Pattern :=                   (* T(\d+)[^0-9]*C(\d+) *)
  lits "T" ++ [digits1; nondigits] ++ lits "C" ++ [digits1].
Definition pat_temp_cap : Pattern :=             (* Temp(\d+)[^0-9]*Cap(\d+) *)
  lits "Temp" ++ [digits1; nondigits] ++ lits "Cap" ++ [digits1].

Definition patterns : list Pattern :=
  [pat_SxxEyy; pat_NxNN; pat_compact; pat_season_episode;
   pat_temporada_capitulo; pat_TC; pat_temp_cap].

(** [season, episode = match.groups(); return int(season), int(episode)] *)
Definition groups_to_pair (caps : list (list ascii)) : option (N * N) :=
  match caps with
  | [season; episode] => Some (int_of_digits season, int_of_digits episode)
  | _ => None
  end.

Fixpoint first_match (ps : list Pattern) (s : list ascii) : option (N * N) :=
  match ps with
  | [] => None
  | p :: ps' =>
      match search p s with
      | Some (caps, _) => groups_to_pair caps
      | None => first_match ps' s
      end
  end.

(** [None] stands for the pair [(None, None)]. *)
Definition extract_season_episode_from_filename (filename : string)
  : option (N * N) :=
  first_match patterns (chars filename).

End VideoAnalysis.

(* ===================================================================== *)
(** * tmdb_api.py *)
(* ===================================================================== *)

Module Tmdb.

(** One entry of a TMDb answer (a JSON object).  [id] and [popularity]
    are the two members the code computes with; every other member is
    kept as text.  A Python dict is falsy exactly when it has no key. *)
Record Item := mkItem {
  item_id : option Z;
  item_popularity : option Q;
  item_fields : list (string * string)
}.

Definition item_truthy (it : Item) : bool :=
  match item_id it, item_popularity it, item_fields it with
  | None, None, [] => false
  | _, _, _ => true
  end.

(** [result.get('popularity', 0)] *)
Definition popularity (it : Item) : Q :=
  match item_popularity it with Some q => q | None => 0%Q end.

(** The four endpoints the module calls. *)
Inductive Request :=
| SearchTitle (is_series : bool) (query lang : string)
    (* /3/search/{movie|tv}?query=..&language=.. *)
| Details (is_series : bool) (id : Z)
    (* /3/{movie|tv}/{id}?language=en *)
| SearchPerson (actor : string)
    (* /3/search/person?query=..&language=en-US *)
| Credits (is_series : bool) (actor_id : Z).
    (* /3/person/{id}/{movie_credits|tv_credits} *)

(** What one [requests.get] followed by [response.json()] gives.
    [Raised]: the call, the decoding or the shape of the document raised
    an exception.  Otherwise the status code with the decoded document,
    read through the two views the code uses: the list under its
    ["results"] / ["cast"] key (empty when the key is missing) and the
    document itself as an object. *)
Inductive Outcome :=
| Raised
| Response (status : Z) (items : list Item) (object : Item).

(** The network: the answer to a request may depend on everything that
    was requested before. *)
Definition Net := list Request -> Request -> Outcome.

(** Computations that issue requests; the state is the log of requests
    issued so far. *)
Definition M (A : Type) : Type := list Request -> A * list Request.

Definition ret {A} (a : A) : M A := fun tr => (a, tr).
Definition bind {A B} (m : M A) (k : A -> M B) : M B :=
  fun tr => let (a, tr') := m tr in k a tr'.

Declare Scope tmdb_scope.
Delimit Scope tmdb_scope with tmdb.
Notation "x <- m ;; k" := (bind m (fun x => k))
  (at level 100, m at next level, right associativity) : tmdb_scope.
Local Open Scope tmdb_scope.

Record Config := mkConfig {
  output_language : string;     (* config["processing"]["output_language"] *)
  capture_frames : bool;
  detect_actors : bool;
  detect_studios : bool
}.

(** [(best_result, result_type)]: the second component is [True] for a
    movie and [False] for a series. *)
Definition SearchResult : Type := option Item * option bool.

(** [if result:] *)
Definition truthy (r : SearchResult) : bool :=
  match fst r with Some it => item_truthy it | None => false end.

Section WithNet.
Variable net : Net.

Definition http_get (r : Request) : M Outcome :=
  fun tr => (net tr r, tr ++ [r]).

(** [best_result is None or result.get('popularity', 0) >
    best_result.get('popularity', 0)] *)
Definition improves (result : Item) (best : option Item) : bool :=
  match best with
  | None => true
  | Some b => negb (Qle_bool (popularity result) (popularity b))
  end.

(** The body of the [try] for one language.  [None]: an exception was
    raised; otherwise the new [(best_result, result_type)]. *)
Definition try_language (cfg : Config) (query : string) (is_series : bool)
    (lang : string) (best : SearchResult) : M (option SearchResult) :=
  o <- http_get (SearchTitle is_series query lang) ;;
  match o with
  | Raised => ret None
  | Response status items _ =>
      if (status =? 200)%Z then
        match items with
        | result :: _ =>
            if improves result (fst best) then
              if negb (String.eqb lang "en")
                 && String.eqb (output_language cfg) "en" then
                match item_id result with
                | None => ret None                       (* result['id'] *)
                | Some id_result =>
                    o2 <- http_get (Details is_series id_result) ;;
                    match o2 with
                    | Raised => ret None
                    | Response status2 _ detail =>
                        let result' :=
                          if (status2 =? 200)%Z then detail else result in
                        ret (Some (Some result', Some (negb is_series)))
                    end
                end
              else ret (Some (Some result, Some (negb is_series)))
            else ret (Some best)
        | [] => ret (Some best)
        end
      else ret (Some best)
  end.

(** [for lang in languages], with the [except] branch: [retry] is the
    recursive call when [attempts > 1], and absent otherwise (the loop
    then goes on with the next language). *)
Fixpoint lang_loop (retry : option (M SearchResult)) (cfg : Config)
    (query : string) (is_series : bool) (langs : list string)
    (best : SearchResult) : M SearchResult :=
  match langs with
  | [] => ret best
  | lang :: rest =>
      r <- try_language cfg query is_series lang best ;;
      match r with
      | Some best' => lang_loop retry cfg query is_series rest best'
      | None =>
          match retry with
          | Some again => again
          | None => lang_loop retry cfg query is_series rest best
          end
      end
  end.

Definition languages : list string := ["es"; "en"].

Fixpoint search_tmdb_multilang (attempts : nat) (cfg : Config)
    (query : string) (is_series : bool) : M SearchResult :=
  lang_loop
    match attempts with
    | S (S _ as attempts') =>
        Some (search_tmdb_multilang attempts' cfg query is_series)
    | _ => None
    end
    cfg query is_series languages (None, None).

Definition default_attempts : nat := 3.

(** First loop of [search_by_actors]: the ids of the actors.  [None]:
    an exception was raised. *)
Fixpoint resolve_actors (actors : list string) (ids : list Z)
  : M (option (list Z)) :=
  match actors with
  | [] => ret (Some ids)
  | actor :: rest =>
      o <- http_get (SearchPerson actor) ;;
      match o with
      | Raised => ret None
      | Response status items _ =>
          if (status =? 200)%Z then
            match items with
            | first :: _ =>
                match item_id first with
                | Some i => resolve_actors rest (ids ++ [i])
                | None => ret None                 (* ...[0]["id"] *)
                end
            | [] => resolve_actors rest ids
            end
          else resolve_actors rest ids
      end
  end.

(** Second loop: the credits of every resolved actor, appended. *)
Fixpoint collect_credits (is_series : bool) (ids : list Z)
    (all_results : list Item) : M (option (list Item)) :=
  match ids with
  | [] => ret (Some all_results)
  | actor_id :: rest =>
      o <- http_get (Credits is_series actor_id) ;;
      match o with
      | Raised => ret None
      | Response status items _ =>
          if (status =? 200)%Z
          then collect_credits is_series rest (all_results ++ items)
          else collect_credits is_series rest all_results
      end
  end.

(** [counter[k] += 1] on a [Counter], which keeps its keys in the
    order of their first insertion. *)
Fixpoint counter_incr (k : Z) (counter : list (Z * nat)) : list (Z * nat) :=
  match counter with
  | [] => [(k, 1%nat)]
  | (k', n) :: rest =>
      if (k' =? k)%Z then (k', S n) :: rest
      else (k', n) :: counter_incr k rest
  end.

(** The counting loop: [counter] and [id_to_info]. *)
Fixpoint count_titles (all_results : list Item)
    (counter : list (Z * nat)) (id_to_info : gmap Z Item)
  : list (Z * nat) * gmap Z Item :=
  match all_results with
  | [] => (counter, id_to_info)
  | item :: rest =>
      match item_id item with
      | Some i => count_titles rest (counter_incr i counter)
                               (<[i := item]> id_to_info)
      | None => count_titles rest counter id_to_info
      end
  end.

(** [counter.most_common()[0]]: the sort is stable, so of the keys
    with the largest count the one inserted first comes out. *)
Fixpoint most_common_first (counter : list (Z * nat)) : option (Z * nat) :=
  match counter with
  | [] => None
  | (k, n) :: rest =>
      match most_common_first rest with
      | Some (k', n') => if (n <? n')%nat then Some (k', n') else Some (k, n)
      | None => Some (k, n)
      end
  end.

Definition pick_title (is_series : bool) (actor_ids : list Z)
    (all_results : list Item) : SearchResult :=
  let '(counter, id_to_info) := count_titles all_results [] ∅ in
  match most_common_first counter with
  | Some (best_id, frequency) =>
      match id_to_info !! best_id with
      | Some best_result =>
          if (Nat.min 2 (length actor_ids) <=? frequency)%nat
          then (Some best_result, Some (negb is_series))
          else (None, None)
      | None => (None, None)
      end
  | None => (None, None)
  end.

Definition search_by_actors (actors : list string) (cfg : Config)
    (is_series : bool) : M SearchResult :=
  match actors with
  | [] => ret (None, None)
  | _ =>
      ids <- resolve_actors actors [] ;;
      match ids with
      | None => ret (None, None)
      | Some [] => ret (None, None)
      | Some actor_ids =>
          credits <- collect_credits is_series actor_ids [] ;;
          match credits with
          | None => ret (None, None)
          | Some all_results => ret (pick_title is_series actor_ids all_results)
          end
      end
  end.

End WithNet.

End Tmdb.

(* ===================================================================== *)
(** * process.py: the identification pipeline *)
(* ===================================================================== *)

Module Process.
Import PyStr Tmdb VideoAnalysis.
Local Open Scope tmdb_scope.

(** A step that may raise an exception carrying a message. *)
Inductive Raises (A : Type) :=
| Raise (msg : string)
| Return (a : A).
Arguments Raise {A} msg.
Arguments Return {A} a.

(** [analyze_video_content]: it returns its dictionary on every path. *)
Record Content := mkContent {
  subtitles_text : string;
  ocr_text : string;
  quality : string
}.

(** What the machine the pipeline runs on provides for one video. *)
Record Local := mkLocal {
  content : Content;
  (** [os.listdir(temp_dir)], restricted to the frame_*.png entries *)
  frame_files : Raises (list string);
  (** [detect_studios_in_frames] and [detect_actors_in_frames]; both
      catch their own exceptions *)
  studios_in_frames : list string -> list string;
  actors_in_frames : list string -> list string
}.

(** The dictionaries [process_single_video] returns. *)
Inductive VideoResult :=
| Invalid
    (* identificado False, mensaje "Archivo invalido o no existe" *)
| Identified (es_pelicula : option bool) (info : Item) (quality : string)
    (season episode : option N) (detected_studios detected_actors : list string)
| NotIdentified (quality : string) (detected_studios detected_actors : list string)
    (* identificado False, mensaje "No se pudo identificar" *)
| Failed (mensaje : string).
    (* identificado False, mensaje "Error: ..." *)

(** Lines 85-88: the stripped lines of the OCR text longer than 15. *)
Definition ocr_fragments (ocr : string) : list string :=
  List.filter (fun l => (15 <? String.length l)%nat)
              (map strip (split_char newline ocr)).

(** Line 109: the lines of a block, without those that begin (after
    stripping) with the arrow. *)
Definition block_lines (block : string) : list string :=
  List.filter (fun l => negb (startswith (strip l) "-->"))
              (split_char newline block).

Section Pipeline.
Variable net : Net.
(** [utils.clean_filename], a chain of [re.sub] calls; the pipeline
    only passes its result on. *)
Variable clean_filename : string -> string.

Definition search (cfg : Config) (query : string) (is_series : bool)
  : M SearchResult :=
  search_tmdb_multilang net default_attempts cfg query is_series.

(** Lines 91-98. *)
Fixpoint fragment_loop (cfg : Config) (fragments : list string)
    (result : SearchResult) : M SearchResult :=
  match fragments with
  | [] => ret result
  | fragment :: rest =>
      r <- search cfg fragment false ;;
      if truthy r then ret r else
      r <- search cfg fragment true ;;
      if truthy r then ret r else fragment_loop cfg rest r
  end.

(** Lines 107-119. *)
Fixpoint block_loop (cfg : Config) (blocks : list string)
    (result : SearchResult) : M SearchResult :=
  match blocks with
  | [] => ret result
  | block :: rest =>
      match block_lines block with
      | [] => block_loop cfg rest result
      | lines =>
          let search_text := join " " lines in
          r <- search cfg search_text false ;;
          if truthy r then ret r else
          r <- search cfg search_text true ;;
          if truthy r then ret r else block_loop cfg rest r
      end
  end.

Definition nonempty_list {A} (l : list A) : bool :=
  match l with [] => false | _ => true end.

(** Lines 122-143: the frames, then the two detectors. *)
Definition detect (cfg : Config) (loc : Local)
  : Raises (list string * list string) :=
  let frames :=
    if capture_frames cfg && (detect_actors cfg || detect_studios cfg)
    then frame_files loc else Return [] in
  match frames with
  | Raise msg => Raise msg
  | Return fs =>
      let detected_studios :=
        if detect_studios cfg && nonempty_list fs
        then studios_in_frames loc fs else [] in
      let detected_actors :=
        if detect_actors cfg && nonempty_list fs
        then actors_in_frames loc fs else [] in
      Return (detected_studios, detected_actors)
  end.

(** Lines 154-196. *)
Definition prepare (original_filename : string) (loc : Local)
    (result : SearchResult) (detected_studios detected_actors : list string)
  : VideoResult :=
  match fst result with
  | Some info =>
      if item_truthy info then
        let is_movie := snd result in
        let '(season, episode) :=
          match is_movie with
          | Some true => (None, None)
          | _ =>
              match extract_season_episode_from_filename original_filename with
              | Some (se, ep) => (Some se, Some ep)
              | None => (Some 1%N, Some 1%N)
              end
          end in
        Identified is_movie info (quality (content loc)) season episode
                   detected_studios detected_actors
      else NotIdentified (quality (content loc)) detected_studios detected_actors
  | None => NotIdentified (quality (content loc)) detected_studios detected_actors
  end.

(** The body of the [try], lines 58-196. *)
Definition identify (original_filename : string) (cfg : Config)
    (loc : Local) : M (Raises VideoResult) :=
  let cleaned_name := clean_filename original_filename in
  result <- search cfg cleaned_name false ;;
  result <- (if negb (truthy result)
             then search cfg cleaned_name true else ret result) ;;
  result <- (if negb (truthy result) && nonempty (ocr_text (content loc))
             then fragment_loop cfg
                    (take 5 (ocr_fragments (ocr_text (content loc)))) result
             else ret result) ;;
  result <- (if negb (truthy result) && nonempty (subtitles_text (content loc))
             then block_loop cfg
                    (take 5 (split_blank_line (subtitles_text (content loc))))
                    result
             else ret result) ;;
  match detect cfg loc with
  | Raise msg => ret (Raise msg)
  | Return (detected_studios, detected_actors) =>
      result <- (if negb (truthy result) && nonempty_list detected_actors
                 then
                   r <- search_by_actors net detected_actors cfg false ;;
                   if negb (truthy r)
                   then search_by_actors net detected_actors cfg true
                   else ret r
                 else ret result) ;;
      ret (Return (prepare original_filename loc result
                           detected_studios detected_actors))
  end.

(** [process_single_video]: [valid] is the outcome of the test of
    line 39; the [except] branch turns an exception of the body into
    a result. *)
Definition process_single_video (valid : bool) (original_filename : string)
    (cfg : Config) (loc : Local) : M VideoResult :=
  if valid then
    r <- identify original_filename cfg loc ;;
    match r with
    | Return res => ret res
    | Raise msg => ret (Failed ("Error: " +:+ msg))
    end
  else ret Invalid.

End Pipeline.

End Process.

(* ===================================================================== *)
(** * Python floats *)
(* ===================================================================== *)

Module PyFloat.
Import PrimFloat.

(** A Python [float] is an IEEE 754 binary64 number, the format of the
    primitive floats; the operations below are the hardware ones. *)
Abbreviation float := PrimFloat.float.

(** [float(z)] for an integer below 2^63 in absolute value; the
    conversion is exact below 2^53, which covers the side of every
    image. *)
Definition of_int (z : Z) : float :=
  if (z <? 0)%Z
  then PrimFloat.opp (PrimFloat.of_uint63 (Uint63.of_Z (- z)))
  else PrimFloat.of_uint63 (Uint63.of_Z z).

(** [a / b] on two integers: [None] stands for [ZeroDivisionError].
    Both operands are exact floats, so the quotient is the correctly
    rounded one, as Python computes it. *)
Definition truediv (a b : Z) : option float :=
  if (b =? 0)%Z then None else Some (PrimFloat.div (of_int a) (of_int b)).

(** [min(a, b)]: the second argument replaces the first only when it
    is smaller. *)
Definition min2 (a b : float) : float :=
  if PrimFloat.ltb b a then b else a.

(** [int(x)]: truncation towards zero; [None] for the infinities and
    NaN, on which [int] raises. *)
Definition to_int (x : float) : option Z :=
  match FloatOps.Prim2SF x with
  | SpecFloat.S754_zero _ => Some 0%Z
  | SpecFloat.S754_finite negative m e =>
      let magnitude :=
        match e with
        | Z0 => Z.pos m
        | Zpos k => Z.shiftl (Z.pos m) (Z.pos k)
        | Zneg k => Z.shiftr (Z.pos m) (Z.pos k)
        end in
      Some (if negative then (- magnitude)%Z else magnitude)
  | _ => None
  end.

(** The rational a finite float stands for. *)
Definition to_Q (x : float) : option Q :=
  match FloatOps.Prim2SF x with
  | SpecFloat.S754_zero _ => Some 0%Q
  | SpecFloat.S754_finite negative m e =>
      let magnitude :=
        match e with
        | Z0 => inject_Z (Z.pos m)
        | Zpos k => inject_Z (Z.shiftl (Z.pos m) (Z.pos k))
        | Zneg k => Z.pos m # Pos.shiftl 1 (N.pos k)
        end in
      Some (if negative then (- magnitude)%Q else magnitude)
  | _ => None
  end.

(** The literals [0.8] and [0.7]: the floats nearest to 8/10 and
    7/10. *)
Definition eight_tenths : float := 0x1.999999999999ap-1%float.
Definition seven_tenths : float := 0x1.6666666666666p-1%float.

End PyFloat.

(* ===================================================================== *)
(** * studio_detect.py: the logo detector *)
(* ===================================================================== *)

Module StudioDetect.
Import PyFloat.

(** What one logo file comes to, lines 150-179: it is passed over
    (unreadable, or still larger than the frame), a call raises, or
    template matching gives its best score. *)
Inductive Probe :=
| Skipped
| Raised
| Scored (max_val : Q).

(** The default of the parameter [threshold], the float [0.7], as the
    rational it stands for. *)
Definition default_threshold : Q := 3152519739159347 # 4503599627370496.

Section Cv2.
(** OpenCV, as far as the detector uses it.  A score is a finite
    float and is carried as the rational it stands for, so that the
    comparisons of the code are the comparisons of these rationals;
    a score that is not a number fails the test of line 176 like
    any score below the threshold. *)
Variable Image : Type.
(** [(img.shape[0], img.shape[1])]: rows, columns *)
Variable shape : Image -> Z * Z.
(** [cv2.imread]; [None] when the file cannot be read as an image *)
Variable imread : string -> option Image.
(** [cv2.resize(img, (new_width, new_height))]; [None] when it raises *)
Variable resize : Image -> Z -> Z -> option Image.
(** [max_val] of [cv2.minMaxLoc(cv2.matchTemplate(image, logo,
    cv2.TM_CCOEFF_NORMED))]; [None] when it raises *)
Variable max_corr : Image -> Image -> option Q.

(** Lines 157-158 and 169-170. *)
Definition exceeds (logo image : Image) : bool :=
  (fst (shape image) <? fst (shape logo))%Z
  || (snd (shape image) <? snd (shape logo))%Z.

(** Lines 160-161; [None] when a division raises. *)
Definition fitting_scale (logo image : Image) : option float :=
  match truediv (fst (shape image)) (fst (shape logo)) with
  | None => None
  | Some by_height =>
      match truediv (snd (shape image)) (snd (shape logo)) with
      | None => None
      | Some by_width => Some (min2 by_height by_width)
      end
  end.

(** Lines 160-165: [(new_height, new_width)]; [None] when one of
    the steps raises. *)
Definition reduced_size (logo image : Image) : option (Z * Z) :=
  match fitting_scale logo image with
  | None => None
  | Some scale =>
      let scale := PrimFloat.mul scale eight_tenths in
      match to_int (PrimFloat.mul (of_int (fst (shape logo))) scale) with
      | None => None
      | Some new_height =>
          match to_int (PrimFloat.mul (of_int (snd (shape logo))) scale) with
          | None => None
          | Some new_width => Some (new_height, new_width)
          end
      end
  end.

Definition probe (image : Image) (logo_path : string) : Probe :=
  match imread logo_path with
  | None => Skipped
  | Some logo_img =>
      let fitted :=
        if exceeds logo_img image
        then match reduced_size logo_img image with
             | Some (new_height, new_width) =>
                 resize logo_img new_width new_height
             | None => None
             end
        else Some logo_img in
      match fitted with
      | None => Raised
      | Some logo_img =>
          if exceeds logo_img image then Skipped
          else match max_corr image logo_img with
               | None => Raised
               | Some max_val => Scored max_val
               end
      end
  end.

(** The loop of lines 149-179.  [None]: an exception left the loop. *)
Fixpoint collect_matches (image : Image) (threshold : Q)
    (logo_files : list (string * string)) (matches : list (string * Q))
  : option (list (string * Q)) :=
  match logo_files with
  | [] => Some matches
  | (studio, logo_path) :: rest =>
      match probe image logo_path with
      | Skipped => collect_matches image threshold rest matches
      | Raised => None
      | Scored max_val =>
          if Qle_bool threshold max_val
          then collect_matches image threshold rest
                               (matches ++ [(studio, max_val)])
          else collect_matches image threshold rest matches
      end
  end.

(** [max(matches, key=lambda x: x[1])]: a later element replaces the
    best one only when its score is strictly larger. *)
Fixpoint best_of (best : string * Q) (rest : list (string * Q)) : string * Q :=
  match rest with
  | [] => best
  | m :: rest' =>
      if negb (Qle_bool (snd m) (snd best))
      then best_of m rest' else best_of best rest'
  end.

(** [logo_files] is the answer of [get_logo_files(logos_dir)]; the
    [except] of line 186 turns every exception into "no studio". *)
Definition detect_studio_from_logo (cv2_available logos_dir_exists : bool)
    (logo_files : list (string * string)) (image : Image) (threshold : Q)
  : option string :=
  if negb cv2_available || negb logos_dir_exists then None
  else
    match logo_files with
    | [] => None
    | _ =>
        match collect_matches image threshold logo_files [] with
        | Some (m :: ms) => Some (fst (best_of m ms))
        | _ => None
        end
    end.

(** The logo at [logo_path] is an accepted match with this score. *)
Definition accepted (image : Image) (threshold : Q) (logo_path : string)
    (score : Q) : Prop :=
  probe image logo_path = Scored score /\ (threshold <= score)%Q.

(** The reading of "among all accepted matches the detector returns
    the studio with the highest score": an accepted logo whose score
    is above the score of every other accepted logo is the answer. *)
Definition returns_best_accepted (logo_files : list (string * string))
    (image : Image) (threshold : Q) : Prop :=
  forall studio path score,
    In (studio, path) logo_files -> accepted image threshold path score ->
    (forall studio' path' score',
        In (studio', path') logo_files ->
        accepted image threshold path' score' ->
        (studio', path') <> (studio, path) -> (score' < score)%Q) ->
    detect_studio_from_logo true true logo_files image threshold = Some studio.

End Cv2.

(** ** The size the specification gives to a reduced logo

    Height and width are both multiplied by 0.8 times the fitting
    scale, the smaller of the two frame-to-logo ratios, and cut to
    integers.  [float_size] computes with floats, as a Python program
    does; [exact_size] with rationals. *)
Definition float_size (h w H W : Z) : option Z * option Z :=
  let ratio := min2 (PrimFloat.div (of_int H) (of_int h))
                    (PrimFloat.div (of_int W) (of_int w)) in
  let scale := PrimFloat.mul ratio eight_tenths in
  (to_int (PrimFloat.mul (of_int h) scale),
   to_int (PrimFloat.mul (of_int w) scale)).

Definition exact_size (h w H W : Z) : Z * Z :=
  let ratio := Qmin (inject_Z H / inject_Z h) (inject_Z W / inject_Z w) in
  let scale := (ratio * (8 # 10))%Q in
  (Qfloor (inject_Z h * scale), Qfloor (inject_Z w * scale)).

(** ** A concrete OpenCV for the examples: an image is its size and the
    score it reaches as a template; [resize] refuses an empty size, as
    [cv2.resize] does. *)
Definition ToyImage : Type := Z * Z * Q.
Definition toy_shape (i : ToyImage) : Z * Z := fst i.
Definition toy_imread (path : string) : option ToyImage :=
  if String.eqb path "logos/HBO.png" then Some (40%Z, 80%Z, 75 # 100)
  else if String.eqb path "logos/FOX.png" then Some (50%Z, 50%Z, 9 # 10)
  else if String.eqb path "logos/AMC.png" then Some (1025%Z, 1025%Z, 8 # 10)
  else if String.eqb path "logos/LINE.png" then Some (10000%Z, 4%Z, 95 # 100)
  else None.
Definition toy_resize (i : ToyImage) (w h : Z) : option ToyImage :=
  if ((w <=? 0) || (h <=? 0))%Z then None else Some (h, w, snd i).
Definition toy_max_corr (image logo : ToyImage) : option Q := Some (snd logo).
Definition toy_frame : ToyImage := (720%Z, 1280%Z, 0%Q).

End StudioDetect.

(* ===================================================================== *)
(** * files_ops.py: moves and the backup log *)
(* ===================================================================== *)

Module FilesOps.
Import PyStr.

(** ** Paths (POSIX flavour of [os.path]) *)

(** [p.rfind(c)]: the index of the last [c], if any. *)
Fixpoint rfind (c : ascii) (p : list ascii) : option nat :=
  match p with
  | [] => None
  | x :: p' =>
      match rfind c p' with
      | Some i => Some (S i)
      | None => if Ascii.eqb x c then Some 0%nat else None
      end
  end.

(** [os.path.basename] *)
Definition basename (p : string) : string :=
  let l := chars p in
  match rfind "/" l with
  | Some i => string_of_list_ascii (drop (S i) l)
  | None => p
  end.

(** [os.path.splitext]: the extension starts at the last dot of the
    last component, unless that component has only dots before it. *)
Definition splitext (p : string) : string * string :=
  let l := chars p in
  let start := match rfind "/" l with Some i => S i | None => 0%nat end in
  match rfind "." l with
  | Some dot =>
      if (start <=? dot)%nat
         && existsb (fun x => negb (Ascii.eqb x "."))
                    (take (dot - start) (drop start l))
      then (string_of_list_ascii (take dot l), string_of_list_ascii (drop dot l))
      else (p, "")
  | None => (p, "")
  end.

(** ** The file system and its failures *)

(** Regular files only: a path is bound to the content of its file. *)
Abbreviation FS := (gmap string string).

(** [os.path.exists] *)
Definition exists_path (fs : FS) (p : string) : bool :=
  match fs !! p with Some _ => true | None => false end.

(** Which calls raise: [os.makedirs(os.path.dirname(p))], asked by the
    path [p], and [shutil.move(src, dst)]. *)
Record IO := mkIO {
  makedirs_fails : string -> bool;
  move_fails : string -> string -> bool
}.

(** [shutil.move] onto a regular file or a free name: the destination
    is replaced. *)
Definition move (src dst : string) (fs : FS) : FS :=
  match fs !! src with
  | Some data => <[dst := data]> (delete src fs)
  | None => fs
  end.

(** Lines 74-108. *)
Definition safe_move_file (io : IO) (source_path dest_path : string)
    (fs : FS) : bool * FS :=
  if negb (exists_path fs source_path) then (false, fs)
  else if makedirs_fails io dest_path then (false, fs)
  else
    let dest_path :=
      if exists_path fs dest_path
      then let '(base, ext) := splitext dest_path in
           base +:+ "_duplicado" +:+ ext
      else dest_path in
    if move_fails io source_path dest_path then (false, fs)
    else (true, move source_path dest_path fs).

(** ** The backup log *)

Record BackupRecord := mkRecord {
  nombre_original : string;
  ruta_original : string;
  nombre_nuevo : string;
  ruta_nueva : string;
  status : string;
  timestamp : string
}.

(** The state a batch works on: the files, and the rows of the CSV log
    in the order they were appended. *)
Record Disk := mkDisk {
  files : FS;
  backup : list BackupRecord
}.

(** [append_to_backup]: the row is stamped and written at the end. *)
Definition append_to_backup (now : string) (row : BackupRecord) (d : Disk) : Disk :=
  {| files := files d;
     backup := backup d ++ [{| nombre_original := nombre_original row;
                               ruta_original := ruta_original row;
                               nombre_nuevo := nombre_nuevo row;
                               ruta_nueva := ruta_nueva row;
                               status := status row;
                               timestamp := now |}] |}.

Definition row (name path new_name new_path st : string) : BackupRecord :=
  mkRecord name path new_name new_path st "".

Section Operation.
Variable Result : Type.
(** Lines 226-250: the destination file computed from the result of
    the identification ([create_movie_path], [create_tv_path] or
    [create_studio_path]); [inl msg] when that computation raises. *)
Variable plan_destination : Result -> string -> string -> string + string.
Variable io : IO.
Variable now : string.

(** Lines 196-284; the row written is also returned. *)
Definition process_file_operation (source_path : string)
    (result_info : Result) (output_dir : string) (d : Disk)
  : BackupRecord * Disk :=
  if negb (exists_path (files d) source_path) then
    let result := row (basename source_path) source_path "" "" "error_origen" in
    (result, append_to_backup now result d)
  else
    let original_filename := basename source_path in
    match plan_destination result_info output_dir original_filename with
    | inr dest_file =>
        let '(moved, fs') := safe_move_file io source_path dest_file (files d) in
        let result :=
          row original_filename source_path (basename dest_file) dest_file
              (if moved then "success" else "error_mover") in
        (result, append_to_backup now result (mkDisk fs' (backup d)))
    | inl e =>
        let result := row original_filename source_path "" "" ("error: " +:+ e) in
        (result, append_to_backup now result d)
    end.

(** [process_batch], lines 257-268: the file operation of one video. *)
Definition batch_file_step (rename_files : bool) (video : string)
    (result_info : Result) (output_dir : string) (d : Disk)
  : BackupRecord * Disk :=
  if rename_files
  then process_file_operation video result_info output_dir d
  else
    let file_op_result := row (basename video) video "" "" "no_action" in
    (file_op_result, append_to_backup now file_op_result d).

End Operation.

(** ** Restore *)

(** The counters of [restore_from_backup], the files, and the moves
    made so far, oldest first. *)
Record Restore := mkRestore {
  r_files : FS;
  restored : nat;
  errors : nat;
  moves : list (string * string)
}.

(** The body of the loop for one row, lines 307-317.  [None]: the
    [os.makedirs] of line 309 raised, which ends the loop. *)
Definition restore_row (io : IO) (r : BackupRecord) (st : Restore)
  : option Restore :=
  if String.eqb (status r) "success" && exists_path (r_files st) (ruta_nueva r)
  then
    if makedirs_fails io (ruta_original r) then None
    else if move_fails io (ruta_nueva r) (ruta_original r)
    then Some {| r_files := r_files st; restored := restored st;
                 errors := S (errors st); moves := moves st |}
    else Some {| r_files := move (ruta_nueva r) (ruta_original r) (r_files st);
                 restored := S (restored st); errors := errors st;
                 moves := moves st ++ [(ruta_nueva r, ruta_original r)] |}
  else Some st.

(** [for row in reader] *)
Fixpoint restore_rows (io : IO) (rows : list BackupRecord) (st : Restore)
  : Restore :=
  match rows with
  | [] => st
  | r :: rest =>
      match restore_row io r st with
      | Some st' => restore_rows io rest st'
      | None => st
      end
  end.

(** [restore_from_backup] on a log that exists. *)
Definition restore_from_backup (io : IO) (d : Disk) : Restore :=
  restore_rows io (backup d) (mkRestore (files d) 0 0 []).

(** The rows a restore may replay, and the move each one asks for. *)
Definition is_success (r : BackupRecord) : bool := String.eqb (status r) "success".
Definition move_of (r : BackupRecord) : string * string :=
  (ruta_nueva r, ruta_original r).

(** The statuses the specification lists, and those the code writes. *)
Definition listed_status (s : string) : Prop :=
  s = "success" \/ s = "error_origin" \/ s = "error_move" \/
  s = "no_action" \/ exists msg, s = "error:" +:+ msg.

Definition written_status (s : string) : Prop :=
  s = "success" \/ s = "error_origen" \/ s = "error_mover" \/
  s = "no_action" \/ exists msg, s = "error: " +:+ msg.

(** An environment in which no call fails. *)
Definition reliable : IO :=
  {| makedirs_fails := fun _ => false; move_fails := fun _ _ => false |}.

(** The reading of "restore replays the success records in reverse". *)
Definition replays_in_reverse (io : IO) (d : Disk) : Prop :=
  moves (restore_from_backup io d)
  = rev (map move_of (List.filter is_success (backup d))).

(** The name [safe_move_file] falls back to when the destination is
    taken. *)
Definition duplicate_name (dest_path : string) : string :=
  let '(base, ext) := splitext dest_path in base +:+ "_duplicado" +:+ ext.

(** ** Concrete disks *)

(** Two films placed by an earlier batch, and its log. *)
Definition placed_twice : Disk :=
  {| files := {[ "lib/A.mkv" := "a"; "lib/B.mkv" := "b" ]};
     backup := [ mkRecord "a.mkv" "in/a.mkv" "A.mkv" "lib/A.mkv" "success" "t1";
                 mkRecord "b.mkv" "in/b.mkv" "B.mkv" "lib/B.mkv" "success" "t2" ] |}.

(** Three incoming files that resolve to the same destination. *)
Definition incoming : FS :=
  {[ "in/a.mkv" := "A"; "in/b.mkv" := "B"; "in/c.mkv" := "C" ]}.

Definition place_three : list bool * FS :=
  let '(ok1, fs1) := safe_move_file reliable "in/a.mkv" "out/Film.mkv" incoming in
  let '(ok2, fs2) := safe_move_file reliable "in/b.mkv" "out/Film.mkv" fs1 in
  let '(ok3, fs3) := safe_move_file reliable "in/c.mkv" "out/Film.mkv" fs2 in
  ([ok1; ok2; ok3], fs3).

End FilesOps.

(* ===================================================================== *)
(** * The fallback chain, as the specification words it *)
(* ===================================================================== *)

Module ChainSpec.
Import PyStr Tmdb Process.
Local Open Scope tmdb_scope.

(** One evidence source put to the metadata service. *)
Inductive Source :=
| ByTitle (is_series : bool) (text : string)
| ByActors (is_series : bool) (actors : list string).

Definition run_source (net : Net) (cfg : Config) (s : Source) : M SearchResult :=
  match s with
  | ByTitle is_series text => search net cfg text is_series
  | ByActors is_series actors => search_by_actors net actors cfg is_series
  end.

(** Try the sources in order and stop at the first one that yields a
    result; the sources tried are returned with the last answer. *)
Fixpoint first_accepted (net : Net) (cfg : Config) (sources : list Source)
    (last : SearchResult) : M (list Source * SearchResult) :=
  match sources with
  | [] => ret ([], last)
  | s :: rest =>
      r <- run_source net cfg s ;;
      if truthy r then ret ([s], r)
      else
        tr <- first_accepted net cfg rest r ;;
        ret (s :: fst tr, snd tr)
  end.

(** The answer alone. *)
Definition chain_result (net : Net) (cfg : Config) (sources : list Source)
    (last : SearchResult) : M SearchResult :=
  p <- first_accepted net cfg sources last ;; ret (snd p).

(** Once a result is held, a later stage of the chain changes
    nothing. *)
Definition stage (net : Net) (cfg : Config) (l : list Source)
    (p : SearchResult * list Request) : SearchResult * list Request :=
  if truthy (fst p) then p else chain_result net cfg l (fst p) (snd p).

(** A text is asked as a movie, then as a series. *)
Definition title_sources (text : string) : list Source :=
  [ByTitle false text; ByTitle true text].

Definition ocr_queries (c : Content) : list string :=
  if nonempty (ocr_text c) then take 5 (ocr_fragments (ocr_text c)) else [].

Definition block_query (block : string) : option string :=
  match block_lines block with
  | [] => None
  | lines => Some (join " " lines)
  end.

Definition subtitle_queries (c : Content) : list string :=
  if nonempty (subtitles_text c)
  then omap block_query (take 5 (split_blank_line (subtitles_text c)))
  else [].

Definition actor_sources (actors : list string) : list Source :=
  match actors with
  | [] => []
  | _ => [ByActors false actors; ByActors true actors]
  end.

(** The five kinds of evidence, in the order of the specification. *)
Definition candidates (cleaned_name : string) (c : Content)
    (detected_actors : list string) : list Source :=
  title_sources cleaned_name
    ++ flat_map title_sources (ocr_queries c)
    ++ flat_map title_sources (subtitle_queries c)
    ++ actor_sources detected_actors.

(** The requests a source issues when every one of them raises: a
    title is asked [attempts - 1] times in Spanish, each answered by a
    retry, then once more in Spanish and once in English; the actor
    search gives up at its first request. *)
Definition failing_requests (s : Source) : list Request :=
  match s with
  | ByTitle is_series text =>
      replicate (default_attempts - 1) (SearchTitle is_series text "es")
        ++ [SearchTitle is_series text "es"; SearchTitle is_series text "en"]
  | ByActors _ actors =>
      match actors with
      | a :: _ => [SearchPerson a]
      | [] => []
      end
  end.

(** Every request for [q] raises. *)
Definition unreachable_for (net : Net) (q : string) : Prop :=
  forall tr ser lang, net tr (SearchTitle ser q lang) = Raised.

(** Every round of [search_tmdb_multilang] opens with the request in
    the first language; the rounds of a log are counted by these. *)
Definition opens_round (r : Request) : bool :=
  match r with
  | SearchTitle _ _ lang => String.eqb lang "es"
  | _ => false
  end.

Definition rounds (log : list Request) : nat :=
  length (List.filter opens_round log).

Definition first_language (lang : string) : nat :=
  if String.eqb lang "es" then 1%nat else 0%nat.

(** How often the title [k] is listed in the credits gathered. *)
Definition frequency (k : Z) (all_results : list Item) : nat :=
  length (List.filter
            (fun it => match item_id it with
                       | Some i => (i =? k)%Z
                       | None => false
                       end)
            all_results).

(** [counter[k]] *)
Fixpoint counter_get (k : Z) (counter : list (Z * nat)) : nat :=
  match counter with
  | [] => 0
  | (k', n) :: rest => if (k' =? k)%Z then n else counter_get k rest
  end.

(** A network on which every request raises. *)
Definition dead_net : Net := fun _ _ => Raised.

End ChainSpec.

(* ===================================================================== *)
(** * Concrete runs used below *)
(* ===================================================================== *)

Module Scenario.
Import PyStr Tmdb Process.

Definition nl : string := String newline "".

Definition plain_config : Config :=
  {| output_language := "es"; capture_frames := false;
     detect_actors := false; detect_studios := false |}.

Definition no_item : Item := mkItem None None [].

(** A video without OCR text, with one SubRip block as ffmpeg writes
    it: counter, timing line, text. *)
Definition srt_block : string :=
  "1" +:+ nl +:+ "00:00:01,000 --> 00:00:04,000" +:+ nl +:+ "Hello there".

Definition srt_video : Local :=
  {| content := {| subtitles_text := srt_block; ocr_text := "";
                   quality := "720p" |};
     frame_files := Return [];
     studios_in_frames := fun _ => [];
     actors_in_frames := fun _ => [] |}.

Definition silent_video : Local :=
  {| content := {| subtitles_text := ""; ocr_text := ""; quality := "720p" |};
     frame_files := Return [];
     studios_in_frames := fun _ => [];
     actors_in_frames := fun _ => [] |}.

Definition series_item : Item :=
  mkItem (Some 1399%Z) (Some (369 # 10)%Q)
         [("name", "Juego de tronos"); ("first_air_date", "2011-04-17")].

(** The service knows one series and no movie. *)
Definition series_net : Net :=
  fun _ r =>
    match r with
    | SearchTitle true _ _ => Response 200 [series_item] series_item
    | _ => Response 200 [] no_item
    end.

Definition keep_name (s : string) : string := s.

(** Three recognized actors; the service resolves each of them. *)
Definition cast_names : list string := ["Ana"; "Ben"; "Cid"].

Definition person_id (actor : string) : Z :=
  if String.eqb actor "Ana" then 1
  else if String.eqb actor "Ben" then 2 else 3.

Definition film : Item :=
  mkItem (Some 603%Z) (Some (80 # 1)%Q) [("title", "The Matrix")].

(** The credits of actor 1 are [ana_credits]; nobody else has any. *)
Definition credits_net (ana_credits : list Item) : Net :=
  fun _ r =>
    match r with
    | SearchPerson a => Response 200 [mkItem (Some (person_id a)) None []] no_item
    | Credits false 1 => Response 200 ana_credits no_item
    | _ => Response 200 [] no_item
    end.

End Scenario.

(* ===================================================================== *)
(** * What a pattern means, and the two shapes the specification names *)
(* ===================================================================== *)

Module ReSpec.
Import PyStr Re.

(** Declarative reading of a pattern: the matched text is cut into one
    block per atom, each block inside the atom's class and of an allowed
    length; capturing atoms contribute their block to the groups. *)
Inductive Matches : Pattern -> list ascii -> list (list ascii) -> Prop :=
| Matches_nil : Matches [] [] []
| Matches_cons a p cs m caps :
    Forall (fun x => class_mem (cls a) x = true) cs ->
    (rmin a <= length cs)%nat ->
    (forall b, rmax a = Some b -> (length cs <= b)%nat) ->
    Matches p m caps ->
    Matches (a :: p) (cs ++ m) (if capture a then cs :: caps else caps).

(** The pattern occurs somewhere in [s]. *)
Definition occurs (p : Pattern) (s : list ascii) : Prop :=
  exists pre m post caps, s = pre ++ m ++ post /\ Matches p m caps.

End ReSpec.

Module SeasonEpisodeSpec.
Import PyStr Re.

Definition all_digits (d : list ascii) : Prop :=
  Forall (fun c => is_digit c = true) d.

(** [m] reads S<d1>E<d2>, in either case of the letters. *)
Definition is_SxxEyy (m d1 d2 : list ascii) : Prop :=
  exists c1 c2, m = c1 :: d1 ++ c2 :: d2 /\
    to_lower c1 = "s"%char /\ to_lower c2 = "e"%char /\
    all_digits d1 /\ d1 <> [] /\ all_digits d2 /\ d2 <> [].

(** [m] reads <d1>x<d2>. *)
Definition is_NxNN (m d1 d2 : list ascii) : Prop :=
  exists c, m = d1 ++ c :: d2 /\ to_lower c = "x"%char /\
    all_digits d1 /\ d1 <> [] /\ all_digits d2 /\ d2 <> [].

Definition Shape := list ascii -> list ascii -> list ascii -> Prop.

Definition occurrence (shape : Shape) (s pre d1 d2 post : list ascii) : Prop :=
  exists m, s = pre ++ m ++ post /\ shape m d1 d2.

Definition contains (shape : Shape) (s : list ascii) : Prop :=
  exists pre d1 d2 post, occurrence shape s pre d1 d2 post.

(** The occurrence that starts first, with its last number read to the
    end of its digits. *)
Definition leftmost_longest (shape : Shape) (s pre d1 d2 post : list ascii)
  : Prop :=
  occurrence shape s pre d1 d2 post /\
  run_length CDigit post = 0%nat /\
  forall pre' e1 e2 post', occurrence shape s pre' e1 e2 post' ->
                           (length pre <= length pre')%nat.

End SeasonEpisodeSpec.


(* ===================================================================== *)
(** * Further vocabulary for the metadata searches *)
(* ===================================================================== *)

Module TmdbSpec.
Import Tmdb.

(** The answer of a search for movies ([ser = false]) or for series
    ([ser = true]): nothing at all, or a result with its kind. *)
Definition well_typed (ser : bool) (r : SearchResult) : Prop :=
  match r with
  | (None, None) => True
  | (Some _, Some t) => t = negb ser
  | _ => False
  end.

(** The requests of the actor search. *)
Definition actor_request (ser : bool) (actors : list string) (r : Request) : Prop :=
  (exists a, In a actors /\ r = SearchPerson a) \/
  (exists i, r = Credits ser i).

(** The computation [m] only appends to the log, and at most [n]
    requests. *)
Definition costs {A} (m : M A) (n : nat) : Prop :=
  forall tr, exists new, snd (m tr) = tr ++ new /\ (length new <= n)%nat.

(** A service that answers every search in Spanish with [a] and every
    search in English with [b]. *)
Definition two_answers (a b : Item) : Net :=
  fun _ r =>
    match r with
    | SearchTitle _ _ lang =>
        if String.eqb lang "es" then Response 200 [a] a else Response 200 [b] b
    | _ => Raised
    end.

End TmdbSpec.

(* ===================================================================== *)
(** * video_analysis.py: OCR text, quality, year *)
(* ===================================================================== *)

Module Ocr.
Import PyStr.

Definition is_lower (c : ascii) : bool :=
  (97 <=? nat_of_ascii c)%nat && (nat_of_ascii c <=? 122)%nat.

(** [c.isalnum()] on ASCII. *)
Definition is_alnum (c : ascii) : bool := is_digit c || is_upper c || is_lower c.

(** [sum(1 for c in line if c.isalnum())] *)
Definition letters (line : string) : nat :=
  length (List.filter is_alnum (chars line)).

(** Line 261. *)
Definition useful (line : string) : bool :=
  (5 <? String.length line)%nat && (3 <? letters line)%nat.

(** What tesseract reads on one frame: the three texts of lines 242,
    246 and 251, or nothing when the image cannot be loaded or a call
    raises (the frame is then passed over). *)
Definition Reading : Type := option (string * string * string).

(** Lines 253-265: the contribution of one frame, if any. *)
Definition frame_text (reading : Reading) : option string :=
  match reading with
  | None => None
  | Some (text1, text2, text3) =>
      let combined_text := text1 +:+ " " +:+ text2 +:+ " " +:+ text3 in
      match List.filter useful (split_char newline combined_text) with
      | [] => None
      | useful_lines => Some (join " " useful_lines)
      end
  end.

(** [perform_ocr_on_frames]; [available] stands for the two
    availability flags of line 229. *)
Definition perform_ocr_on_frames (available : bool) (readings : list Reading)
  : string :=
  if negb available then "" else join " " (omap frame_text readings).

(** No character of [s] is [c]. *)
Definition free_of (c : ascii) (s : string) : Prop := ~ In c (chars s).

End Ocr.

Module Year.
Import PyStr Re.

(** [(\d{4})] *)
Definition digits_4 : Atom := mkAtom CDigit 4 (Some 4) true.

Definition pat_parens : Pattern := [lit "("; digits_4; lit ")"].       (* \((\d{4})\) *)
Definition pat_brackets : Pattern := [lit "["; digits_4; lit "]"].     (* \[(\d{4})\] *)
Definition pat_isolated : Pattern := [nondigit; digits_4; nondigit].   (* [^0-9](\d{4})[^0-9] *)

Definition year_patterns : list Pattern :=
  [pat_parens; pat_brackets; pat_isolated].

(** [1900 <= int(year) <= 2099] *)
Definition plausible (year : list ascii) : bool :=
  (1900 <=? int_of_digits year)%N && (int_of_digits year <=? 2099)%N.

(** The loop of lines 371-377: the first match of each pattern is
    looked at, and the next pattern is tried when there is none or its
    year is not plausible. *)
Fixpoint first_year (ps : list Pattern) (s : list ascii) : option string :=
  match ps with
  | [] => None
  | p :: ps' =>
      match search p s with
      | Some (year :: _, _) =>
          if plausible year then Some (string_of_list_ascii year)
          else first_year ps' s
      | _ => first_year ps' s
      end
  end.

Definition extract_year_from_filename (filename : string) : option string :=
  first_year year_patterns (chars filename).

End Year.

(* ===================================================================== *)
(** * studio_detect.py and actor_detect.py: detection over frames *)
(* ===================================================================== *)

Module Detect.
Import PyStr.

(** [s.lower()] on ASCII. *)
Fixpoint lower (s : string) : string :=
  match s with
  | EmptyString => ""
  | String c s' => String (to_lower c) (lower s')
  end.

(** [pattern in text] *)
Fixpoint is_substring (pattern text : string) : bool :=
  String.prefix pattern text
  || match text with
     | String _ text' => is_substring pattern text'
     | EmptyString => false
     end.

(** The table of [load_studios_mapping], in the order of the file. *)
Definition Mapping : Type := list (string * list string).

(** Lines 88-98. *)
Definition detect_studio_from_text (ocr_text : string) (studios_mapping : Mapping)
  : option string :=
  if negb (nonempty ocr_text) then None
  else
    let text_lower := lower ocr_text in
    match List.find
            (fun entry => existsb (fun pattern => is_substring pattern text_lower)
                                  (snd entry))
            studios_mapping with
    | Some (studio, _) => Some studio
    | None => None
    end.

(** [if x not in l: l.append(x)] *)
Definition add_new (l : list string) (x : string) : list string :=
  if bool_decide (x ∈ l) then l else l ++ [x].

(** [if studio and studio not in l: l.append(studio)], for the answer
    of a detector ([None] or a name, possibly empty). *)
Definition add_detected (l : list string) (studio : option string) : list string :=
  match studio with
  | Some name => if nonempty name then add_new l name else l
  | None => l
  end.

(** What the libraries give for one frame file: nothing when
    [cv2.imread] returns [None]; otherwise the text tesseract reads
    ([None] when pytesseract is not installed, [inl] when it raises)
    and the answer of the logo detector ([None] when OpenCV is not
    installed). *)
Record FrameView := mkFrameView {
  fv_text : option (string + string);
  fv_logo : option (option string)
}.

(** [analyze_frame_for_studios], lines 203-222. *)
Definition analyze_frame_for_studios (frame : FrameView)
    (studios_mapping : Mapping) : list string :=
  let detected_studios := [] in
  match fv_text frame with
  | Some (inl _) => detected_studios        (* the except branch *)
  | text =>
      let detected_studios :=
        match text with
        | Some (inr ocr_text) =>
            add_detected detected_studios
                         (detect_studio_from_text ocr_text studios_mapping)
        | _ => detected_studios
        end in
      match fv_logo frame with
      | Some studio => add_detected detected_studios studio
      | None => detected_studios
      end
  end.

(** [detect_studios_in_frames], lines 236-253. *)
Definition detect_studios_in_frames (frames : list (option FrameView))
    (studios_mapping : Mapping) : list string :=
  fold_left
    (fun all_detected_studios frame =>
       match frame with
       | None => all_detected_studios
       | Some view =>
           fold_left add_new (analyze_frame_for_studios view studios_mapping)
                     all_detected_studios
       end)
    frames [].

Section Faces.
(** A face descriptor and the comparison of the face library. *)
Variable Encoding : Type.
(** [face_recognition.compare_faces([known], face, tolerance)[0]] *)
Variable same_face : Encoding -> Encoding -> bool.

(** Lines 107-119: the encodings of one actor against one face.  The
    [break] is taken only when the name is new. *)
Fixpoint scan_encodings (recognized_actors : list string) (actor_name : string)
    (actor_encodings : list Encoding) (face_encoding : Encoding) : list string :=
  match actor_encodings with
  | [] => recognized_actors
  | actor_encoding :: rest =>
      if same_face actor_encoding face_encoding then
        if bool_decide (actor_name ∈ recognized_actors)
        then scan_encodings recognized_actors actor_name rest face_encoding
        else recognized_actors ++ [actor_name]
      else scan_encodings recognized_actors actor_name rest face_encoding
  end.

(** Lines 104-121, for the faces found in the image; the data base
    is read in the order of its file. *)
Definition recognize_faces (face_encodings : list Encoding)
    (actors_db : list (string * list Encoding)) : list string :=
  fold_left
    (fun recognized face_encoding =>
       fold_left
         (fun recognized entry =>
            scan_encodings recognized (fst entry) (snd entry) face_encoding)
         actors_db recognized)
    face_encodings [].

(** [recognize_actors]: [faces] is [None] when a library call raises. *)
Definition recognize_actors (available : bool)
    (faces : option (list Encoding))
    (actors_db : list (string * list Encoding)) : list string :=
  if negb available then []
  else match actors_db with
       | [] => []
       | _ => match faces with
              | Some face_encodings => recognize_faces face_encodings actors_db
              | None => []
              end
       end.

(** [detect_actors_in_frames]: a frame is [None] when it cannot be
    read. *)
Definition detect_actors_in_frames (available : bool)
    (frames : list (option (option (list Encoding))))
    (actors_db : list (string * list Encoding)) : list string :=
  fold_left
    (fun all_detected_actors frame =>
       match frame with
       | None => all_detected_actors
       | Some faces =>
           fold_left add_new (recognize_actors available faces actors_db)
                     all_detected_actors
       end)
    frames [].

End Faces.

(** [pattern] stands somewhere in [text]. *)
Definition occurs_in (pattern text : string) : Prop :=
  exists pre post, text = pre +:+ pattern +:+ post.

Definition has_upper (s : string) : Prop :=
  exists c, In c (chars s) /\ is_upper c = true.

(** One of the patterns of the entry stands in the lower-cased text. *)
Definition hits (text : string) (entry : string * list string) : Prop :=
  exists pattern, In pattern (snd entry) /\ occurs_in pattern (lower text).

End Detect.

(* ===================================================================== *)
(** * process.py: a batch of videos *)
(* ===================================================================== *)

Module Batch.
Import PyStr Tmdb Process FilesOps.

(** The statistics dictionary of [process_batch]. *)
Record Stats := mkStats {
  total : nat;
  procesados : nat;
  identificados : nat;
  no_identificados : nat;
  errores : nat
}.

(** [result["identificado"]] *)
Definition identificado (result : VideoResult) : bool :=
  match result with
  | Identified _ _ _ _ _ _ _ => true
  | _ => false
  end.

(** [result["mensaje"]], for the dictionaries that have the key. *)
Definition mensaje (result : VideoResult) : option string :=
  match result with
  | Invalid => Some "Archivo inválido o no existe"
  | Identified _ _ _ _ _ _ _ => None
  | NotIdentified _ _ _ => Some "No se pudo identificar"
  | Failed m => Some m
  end.

(** Lines 245-252 (and 276-283): one result is counted. *)
Definition count (stats : Stats) (result : VideoResult) : Stats :=
  let stats := {| total := total stats;
                  procesados := S (procesados stats);
                  identificados := identificados stats;
                  no_identificados := no_identificados stats;
                  errores := errores stats |} in
  if identificado result then
    {| total := total stats; procesados := procesados stats;
       identificados := S (identificados stats);
       no_identificados := no_identificados stats;
       errores := errores stats |}
  else
    match mensaje result with
    | Some m =>
        if startswith m "Error" then
          {| total := total stats; procesados := procesados stats;
             identificados := identificados stats;
             no_identificados := no_identificados stats;
             errores := S (errores stats) |}
        else
          {| total := total stats; procesados := procesados stats;
             identificados := identificados stats;
             no_identificados := S (no_identificados stats);
             errores := errores stats |}
    | None =>
        {| total := total stats; procesados := procesados stats;
           identificados := identificados stats;
           no_identificados := S (no_identificados stats);
           errores := errores stats |}
    end.

(** The state of the loop: the statistics, the files with the log of
    the batch, and the list [results]. *)
Record BatchState := mkBatch {
  b_stats : Stats;
  b_disk : Disk;
  b_results : list (VideoResult * BackupRecord)
}.

Section Batch.
(** [process_single_video(video, config)], as a function of the
    video. *)
Variable process : string -> VideoResult.
Variable plan_destination : VideoResult -> string -> string -> string + string.
Variable io : IO.
Variable now : string.
(** [config["processing"]["rename_files"]] *)
Variable rename_files : bool.
Variable output_dir : string.

Definition initial (video_files : list string) (d : Disk) : BatchState :=
  {| b_stats := mkStats (length video_files) 0 0 0 0;
     b_disk := d;
     b_results := [] |}.

(** Lines 256-270: the file operation of one video and the entry of
    [results]. *)
Definition file_step (stats : Stats) (video : string) (result : VideoResult)
    (st : BatchState) : BatchState :=
  let '(file_op_result, d) :=
    batch_file_step VideoResult plan_destination io now rename_files
                    video result output_dir (b_disk st) in
  {| b_stats := stats;
     b_disk := d;
     b_results := b_results st ++ [(result, file_op_result)] |}.

(** The body of the sequential loop, lines 243-270. *)
Definition debug_step (st : BatchState) (video : string) : BatchState :=
  let result := process video in
  file_step (count (b_stats st) result) video result st.

(** [process_batch] in debug mode. *)
Definition process_batch_debug (video_files : list string) (d : Disk)
  : BatchState :=
  fold_left debug_step video_files (initial video_files d).

(** The body of the loop over the pool, lines 275-304: the result
    that arrives is paired with the video at the index of its
    arrival. *)
Definition pool_step (video_files : list string) (st : BatchState)
    (result : VideoResult) : BatchState :=
  let stats := count (b_stats st) result in
  let video_idx := (procesados stats - 1)%nat in
  match video_files !! video_idx with
  | Some video => file_step stats video result st
  | None => {| b_stats := stats; b_disk := b_disk st;
               b_results := b_results st |}
  end.

(** [process_batch] with the pool; [results_iter] is what
    [imap_unordered] yields, in the order of arrival. *)
Definition process_batch_pool (results_iter : list VideoResult)
    (video_files : list string) (d : Disk) : BatchState :=
  fold_left (pool_step video_files) results_iter (initial video_files d).

(** The destination planned for a video, if the plan does not
    raise. *)
Definition destination_of (video : string) : option string :=
  match plan_destination (process video) output_dir (basename video) with
  | inr dest_file => Some dest_file
  | inl _ => None
  end.

End Batch.

(** How many results satisfy [p]. *)
Definition how_many (p : VideoResult -> bool) (results : list VideoResult) : nat :=
  length (List.filter p results).

Definition is_error (result : VideoResult) : bool :=
  match result with
  | Failed m => startswith m "Error"
  | _ => false
  end.

Definition is_unidentified (result : VideoResult) : bool :=
  negb (identificado result) && negb (is_error result).

(** The moves [sources -> destinations], one after the other. *)
Definition move_all (jobs : list (string * string)) (fs : FS) : FS :=
  fold_left (fun fs job => move (fst job) (snd job) fs) jobs fs.

(** Every source is a file, every destination is a free name, and no
    name is used twice. *)
Definition clean (jobs : list (string * string)) (fs : FS) : Prop :=
  NoDup (map fst jobs ++ map snd jobs) /\
  (forall s, In s (map fst jobs) -> exists_path fs s = true) /\
  (forall t, In t (map snd jobs) -> exists_path fs t = false).

End Batch.

(* ===================================================================== *)
(** * utils.py and files_ops.py: names and destinations *)
(* ===================================================================== *)

From Stdlib Require Import DecimalString DecimalN.

Module Paths.
Import PyStr Tmdb Process FilesOps.

(** The characters line 122 removes: the angle brackets, the colon,
    the double quote, the two slashes, the bar, the question mark and
    the star. *)
Definition invalid_chars : list ascii :=
  ["<"; ">"; ":"; ascii_of_nat 34; "/"; "\"; "|"; "?"; "*"]%char.

Definition invalid_char (c : ascii) : bool :=
  existsb (Ascii.eqb c) invalid_chars.

Definition remove_invalid (filename : string) : string :=
  string_of_list_ascii
    (List.filter (fun c => negb (invalid_char c)) (chars filename)).

(** [sanitize_filename], utils.py lines 119-129. *)
Definition sanitize_filename (filename : string) : string :=
  let filename := remove_invalid filename in
  if (240 <? String.length filename)%nat then
    let '(base, ext) := splitext filename in
    string_of_list_ascii (take 236 (chars base)) +:+ ext
  else filename.

(** [path.endswith('/')] *)
Definition ends_with_sep (path : string) : bool :=
  match rev (chars path) with
  | c :: _ => Ascii.eqb c "/"
  | [] => false
  end.

(** One round of the loop of [posixpath.join]. *)
Definition join_step (path b : string) : string :=
  if startswith b "/" then b
  else if negb (nonempty path) || ends_with_sep path then path +:+ b
  else path +:+ "/" +:+ b.

(** [os.path.join(a, *p)] *)
Definition path_join (a : string) (p : list string) : string :=
  fold_left join_step p a.

(** [f"{n}"] for a natural number. *)
Definition decimal (n : N) : string := NilZero.string_of_uint (N.to_uint n).

(** [f"{n:02d}"] *)
Definition two_digits (n : N) : string :=
  let s := decimal n in
  if (String.length s <? 2)%nat then "0" +:+ s else s.

(** files_ops.py lines 110-135. *)
Definition create_movie_path (base_dir title year quality extension : string)
  : string * string :=
  let safe_title := sanitize_filename title in
  let folder_name := safe_title +:+ " (" +:+ year +:+ ")" in
  let file_name :=
    safe_title +:+ " (" +:+ year +:+ ") [" +:+ quality +:+ "]" +:+ extension in
  let movie_dir := path_join base_dir ["Movies"; folder_name] in
  let movie_file := path_join movie_dir [file_name] in
  (movie_dir, movie_file).

(** files_ops.py lines 137-169. *)
Definition create_tv_path (base_dir title year : string) (season episode : N)
    (quality extension : string) : string * string :=
  let safe_title := sanitize_filename title in
  let season_str := two_digits season in
  let episode_str := two_digits episode in
  let series_folder := safe_title +:+ " (" +:+ year +:+ ")" in
  let season_folder := "Season " +:+ season_str in
  let file_name :=
    safe_title +:+ " S" +:+ season_str +:+ "E" +:+ episode_str
               +:+ " [" +:+ quality +:+ "]" +:+ extension in
  let season_dir := path_join base_dir ["Shows"; series_folder; season_folder] in
  let episode_file := path_join season_dir [file_name] in
  (season_dir, episode_file).

(** files_ops.py lines 171-194; no studio is [None]. *)
Definition create_studio_path (base_dir : string) (studio_name : option string)
    (original_filename : string) : string * string :=
  let studio_folder :=
    match studio_name with
    | Some name => if nonempty name then sanitize_filename name
                   else "SinCadenaTelevisiva"
    | None => "SinCadenaTelevisiva"
    end in
  let studio_dir := path_join base_dir ["ByStudio"; studio_folder] in
  let file_path := path_join studio_dir [original_filename] in
  (studio_dir, file_path).

(** [info.get(key)] on the text members of an entry. *)
Fixpoint field (key : string) (fields : list (string * string)) : option string :=
  match fields with
  | [] => None
  | (k, v) :: rest => if String.eqb k key then Some v else field key rest
  end.

(** [info.get(key, '')[:4] if info.get(key) else 'Unknown'] *)
Definition year_of (key : string) (info : Item) : string :=
  match field key (item_fields info) with
  | Some date =>
      if nonempty date then string_of_list_ascii (take 4 (chars date))
      else "Unknown"
  | None => "Unknown"
  end.

(** [info.get(key, 'Unknown')] *)
Definition title_of (key : string) (info : Item) : string :=
  match field key (item_fields info) with
  | Some t => t
  | None => "Unknown"
  end.

(** What [int(None)] raises. *)
Definition int_of_none : string :=
  "int() argument must be a string, a bytes-like object or a real number, not 'NoneType'".

(** [process_file_operation], lines 222-250: the destination file
    computed from the result; [inl] carries the message of the
    exception the computation raises. *)
Definition plan_destination (result_info : VideoResult)
    (output_dir original_filename : string) : string + string :=
  let extension := Detect.lower (snd (splitext original_filename)) in
  match result_info with
  | Identified es_pelicula info quality season episode _ _ =>
      match es_pelicula with
      | Some true =>
          let title := title_of "title" info in
          let year := year_of "release_date" info in
          inr (snd (create_movie_path output_dir title year quality extension))
      | _ =>
          let title := title_of "name" info in
          let year := year_of "first_air_date" info in
          match season, episode with
          | Some season, Some episode =>
              inr (snd (create_tv_path output_dir title year season episode
                                       quality extension))
          | _, _ => inl int_of_none
          end
      end
  | NotIdentified _ detected_studios _ =>
      inr (snd (create_studio_path output_dir (head detected_studios)
                                   original_filename))
  | Invalid | Failed _ =>
      inr (snd (create_studio_path output_dir None original_filename))
  end.

(** No character of [s] is a digit. *)
Definition no_digit (s : string) : Prop :=
  forall c, In c (chars s) -> is_digit c = false.

(** No character of [s] is the separator. *)
Definition no_separator (s : string) : Prop := ~ In "/"%char (chars s).

(** The three library folders. *)
Definition library_folder (result_info : VideoResult) : string :=
  match result_info with
  | Identified (Some true) _ _ _ _ _ _ => "Movies"
  | Identified _ _ _ _ _ _ _ => "Shows"
  | _ => "ByStudio"
  end.

End Paths.

(* ===================================================================== *)
(** * tmdb_api.py: where a result comes from *)
(* ===================================================================== *)

Module Provenance.
Import Tmdb.

(** The log [tr'] continues the log [tr]. *)
Definition extends (tr tr' : list Request) : Prop :=
  exists new, tr' = tr ++ new.

(** Between the logs [tr] and [tr'] the request [r] was sent and the
    service answered it with the status 200 and the document read as
    [items] and [object]. *)
Definition answered (net : Net) (tr tr' : list Request) (r : Request)
    (items : list Item) (object : Item) : Prop :=
  exists before after,
    tr' = tr ++ before ++ r :: after /\
    net (tr ++ before) r = Response 200 items object.

(** [it] is the first entry of the answer to a search for [q], or the
    document of a details request. *)
Definition from_title_search (net : Net) (ser : bool) (q : string)
    (tr tr' : list Request) (it : Item) : Prop :=
  (exists lang items object,
      answered net tr tr' (SearchTitle ser q lang) items object /\
      head items = Some it) \/
  (exists i items, answered net tr tr' (Details ser i) items it).

(** [it] is an entry of the cast list of a credits answer. *)
Definition from_credits (net : Net) (ser : bool)
    (tr tr' : list Request) (it : Item) : Prop :=
  exists i items object,
    answered net tr tr' (Credits ser i) items object /\ In it items.

(** The result, if any, came from the service. *)
Definition served (origin : Item -> Prop) (r : SearchResult) : Prop :=
  match fst r with
  | Some it => origin it
  | None => True
  end.

End Provenance.

(* ===================================================================== *)
(** * utils.py: the name that is searched for *)
(* ===================================================================== *)

Module CleanName.
Import PyStr FilesOps.

(** [re.sub(r'\[[^\]]*\]', '', name)] and [re.sub(r'\([^)]*\)', '', name)]:
    from an opening character to the first closing one after it.
    [inside] is set while the text of a group is passed over; a group
    is entered only when its closing character is ahead. *)
Fixpoint remove_groups (opening closing : ascii) (inside : bool)
    (s : list ascii) : list ascii :=
  match s with
  | [] => []
  | c :: s' =>
      if inside then
        if Ascii.eqb c closing then remove_groups opening closing false s'
        else remove_groups opening closing true s'
      else if Ascii.eqb c opening && existsb (Ascii.eqb closing) s'
      then remove_groups opening closing true s'
      else c :: remove_groups opening closing false s'
  end.

(** [re.sub(r'[._-]', ' ', name)] *)
Definition is_mark (c : ascii) : bool :=
  Ascii.eqb c "." || Ascii.eqb c "_" || Ascii.eqb c "-".

Definition blank_marks (s : list ascii) : list ascii :=
  map (fun c => if is_mark c then " "%char else c) s.

(** [\w] on ASCII. *)
Definition is_word (c : ascii) : bool :=
  is_digit c || is_upper c || Ocr.is_lower c || Ascii.eqb c "_".

(** [\b] between the characters [a] and [b]; [None] is an end of the
    text. *)
Definition boundary (a b : option ascii) : bool :=
  xorb (match a with Some c => is_word c | None => false end)
       (match b with Some c => is_word c | None => false end).

Definition common_terms : list string :=
  [ "Latino"; "Castellano"; "Español"; "ESP"; "LAT"; "Subtitulado"; "Subs";
    "Temporada"; "Capitulo"; "Cap"; "Temp"; "T"; "E"; "S"; "Serie";
    "Completa"; "Saga"; "Trilogia"; "Duologia";
    "Season"; "Episode"; "Complete"; "Trilogy"; "Duology";
    "HDTV"; "BluRay"; "BRRip"; "DVDRip"; "WEB-DL"; "WEBRip";
    "XviD"; "MP4"; "x264"; "x265"; "HEVC"; "AAC"; "AC3";
    "Rip"; "Screener"; "CAM"; "TS"; "HD"; "FHD"; "UHD"; "4K" ].

(** [word] stands at the head of [s], whatever the case of the
    letters. *)
Fixpoint head_is (word s : list ascii) : bool :=
  match word, s with
  | [], _ => true
  | w :: word', c :: s' => Ascii.eqb (to_lower w) (to_lower c) && head_is word' s'
  | _ :: _, [] => false
  end.

(** The alternation at one position: the first of the terms that
    stands there with a word boundary after it; its length. *)
Definition term_here (terms : list string) (s : list ascii) : option nat :=
  match List.find
          (fun term =>
             let w := chars term in
             head_is w s
             && boundary (last (take (length w) s)) (head (drop (length w) s)))
          terms with
  | Some term => Some (String.length term)
  | None => None
  end.

(** [re.sub(r'\b(...)\b', '', name, flags=re.IGNORECASE)]: [prev] is
    the character before the position, [skip] the number of characters
    of a match still to be passed over. *)
Fixpoint remove_terms (terms : list string) (prev : option ascii) (skip : nat)
    (s : list ascii) : list ascii :=
  match s with
  | [] => []
  | c :: s' =>
      match skip with
      | S k => remove_terms terms (Some c) k s'
      | O =>
          if boundary prev (Some c) then
            match term_here terms s with
            | Some (S k) => remove_terms terms (Some c) k s'
            | _ => c :: remove_terms terms (Some c) 0 s'
            end
          else c :: remove_terms terms (Some c) 0 s'
      end
  end.

(** [re.sub(r'\s+', ' ', name)] *)
Fixpoint collapse (in_run : bool) (s : list ascii) : list ascii :=
  match s with
  | [] => []
  | c :: s' =>
      if is_space c then
        if in_run then collapse true s' else " "%char :: collapse true s'
      else c :: collapse false s'
  end.

Definition articles : list string :=
  ["El"; "La"; "Los"; "Las"; "Un"; "Una"; "Unos"; "Unas"; "The"; "A"; "An"].

(** [re.sub(r'^(El|La|...|An) ', '', name, flags=re.IGNORECASE)] *)
Definition remove_article (s : list ascii) : list ascii :=
  match List.find (fun a => head_is (chars a ++ [" "%char]) s) articles with
  | Some a => drop (S (String.length a)) s
  | None => s
  end.

(** [clean_filename], utils.py lines 82-117. *)
Definition clean_filename (filename : string) : string :=
  let name := chars (fst (splitext filename)) in
  let name := remove_groups "[" "]" false name in
  let name := remove_groups "(" ")" false name in
  let name := blank_marks name in
  let name := remove_terms common_terms None 0 name in
  let name := chars (strip (string_of_list_ascii (collapse false name))) in
  string_of_list_ascii (remove_article name).

(** The shape of a cleaned name: no dot, underscore or hyphen; no
    white space but the blank; no blank at either end and no two
    blanks in a row. *)
Fixpoint single_blanks (s : list ascii) : Prop :=
  match s with
  | a :: (b :: _) as s' => ~ (a = " "%char /\ b = " "%char) /\ single_blanks s'
  | _ => True
  end.

Definition tidy (s : list ascii) : Prop :=
  Forall (fun c => is_mark c = false /\ (is_space c = true -> c = " "%char)) s /\
  head s <> Some " "%char /\ last s <> Some " "%char /\ single_blanks s.

End CleanName.

(* ===================================================================== *)
(** * config.py: the configuration and its defaults *)
(* ===================================================================== *)

Module ConfigStore.
Import PyStr.

(** A JSON document as Python holds it: a dict keeps its keys in the
    order of their insertion; numbers, booleans and null are atoms. *)
Local Unset Elimination Schemes.
Inductive Json :=
| JObj (members : list (string * Json))
| JStr (s : string)
| JList (items : list Json)
| JAtom (text : string).
Local Set Elimination Schemes.

(** [d.get(key)] *)
Fixpoint member (key : string) (members : list (string * Json)) : option Json :=
  match members with
  | [] => None
  | (k, v) :: rest => if String.eqb k key then Some v else member key rest
  end.

(** [d[key] = value]: an existing key keeps its place. *)
Fixpoint assign (key : string) (value : Json) (members : list (string * Json))
  : list (string * Json) :=
  match members with
  | [] => [(key, value)]
  | (k, v) :: rest =>
      if String.eqb k key then (k, value) :: rest
      else (k, v) :: assign key value rest
  end.

(** Lines 109-116: the walk along [parts] and the assignment at its
    end.  [None]: a [TypeError], which a value on the way that is not
    a dict raises; nothing has been changed then. *)
Fixpoint set_path (parts : list string) (value : Json) (current : Json)
  : option Json :=
  match current with
  | JObj members =>
      match parts with
      | [] => Some current
      | [last] => Some (JObj (assign last value members))
      | part :: rest =>
          let child := match member part members with
                       | Some c => c
                       | None => JObj []
                       end in
          match set_path rest value child with
          | Some child' => Some (JObj (assign part child' members))
          | None => None
          end
      end
  | _ => match parts with [] => Some current | _ => None end
  end.

(** What [get_config_value] comes to. *)
Inductive Got :=
| Found (value : Json)
| Default
| TypeError.

(** [part in current] for a list: an item that is this string. *)
Definition has_item (part : string) (items : list Json) : bool :=
  existsb (fun j => match j with JStr s => String.eqb s part | _ => false end) items.

(** Lines 128-134. *)
Fixpoint get_path (parts : list string) (current : Json) : Got :=
  match parts with
  | [] => Found current
  | part :: rest =>
      match current with
      | JObj members =>
          match member part members with
          | Some child => get_path rest child
          | None => Default
          end
      | JStr s => if Detect.is_substring part s then TypeError else Default
      | JList items => if has_item part items then TypeError else Default
      | JAtom _ => TypeError
      end
  end.

(** ["." in key] *)
Definition dotted (key : string) : bool := existsb (Ascii.eqb ".") (chars key).

(** The configuration file, and the module-level [DEFAULT_CONFIG]. *)
Inductive FileState :=
| Missing
| Unreadable                 (* it exists, and reading it raises *)
| Holds (document : Json).

Record Store := mkStore {
  file : FileState;
  default_config : Json
}.

(** [save_config]; [writable]: the file can be opened for writing. *)
Definition save_config (writable : bool) (config : Json) (st : Store)
  : bool * Store :=
  if writable then (true, {| file := Holds config;
                             default_config := default_config st |})
  else (false, st).

(** [load_config]: the document read from the file, or the defaults
    after they have been saved.  The flag tells that the object
    returned is [DEFAULT_CONFIG] itself. *)
Definition load_config (writable : bool) (st : Store) : Json * bool * Store :=
  match file st with
  | Holds document => (document, false, st)
  | _ =>
      let '(_, st') := save_config writable (default_config st) st in
      (default_config st', true, st')
  end.

(** The assignment of [update_config], lines 108-118. *)
Definition assign_key (key : string) (value : Json) (config : Json) : option Json :=
  if dotted key then set_path (split_char "." key) value config
  else match config with
       | JObj members => Some (JObj (assign key value members))
       | _ => None
       end.

(** [update_config]: [None] when the assignment raises.  A change made
    to the object that [load_config] returned is a change of
    [DEFAULT_CONFIG] when it is that object. *)
Definition update_config (writable : bool) (key : string) (value : Json)
    (st : Store) : option (bool * Store) :=
  let '(config, shared, st) := load_config writable st in
  match assign_key key value config with
  | Some config' =>
      let st := if shared
                then {| file := file st; default_config := config' |}
                else st in
      Some (save_config writable config' st)
  | None => None
  end.

(** The reading of [get_config_value], lines 126-136;
    [AttributeError] and [TypeError] are not told apart. *)
Definition read_key (key : string) (config : Json) : Got :=
  if dotted key then get_path (split_char "." key) config
  else match config with
       | JObj members =>
           match member key members with
           | Some v => Found v
           | None => Default
           end
       | _ => TypeError
       end.

(** [get_config_value] *)
Definition get_config_value (writable : bool) (key : string) (st : Store)
  : Got * Store :=
  let '(config, _, st) := load_config writable st in
  (read_key key config, st).

Definition readable (st : Store) : bool :=
  match file st with Holds _ => true | _ => false end.

End ConfigStore.

(* ===================================================================== *)
(** * process.py: [process_single_video] from its first line *)
(* ===================================================================== *)

Module ProcessEntry.
Import PyStr Tmdb Process.
Local Open Scope tmdb_scope.

(** What the machine answers to the calls [process_single_video] makes
    before its [try] and in its [finally]. *)
Record Host := mkHost {
  (** [os.path.exists(filepath) and is_valid_video(filepath, config)],
      line 39 *)
  valid_video : string -> bool;
  (** [datetime.now().strftime("%Y%m%d_%H%M%S")], line 52 *)
  timestamp : string;
  (** [os.makedirs(path, exist_ok=True)], line 55: the message of the
      [OSError] it raises, if it raises *)
  makedirs_error : string -> option string;
  (** [shutil.rmtree(path)] raises, line 213 *)
  rmtree_fails : string -> bool
}.

(** How a call ends: with the dictionary it returns or with the
    exception that leaves it, and with the temporary directory still on
    disk or not. *)
Record Ended := mkEnded {
  outcome : Raises VideoResult;
  temp_dir_left : bool
}.

Section Entry.
Variable net : Net.
Variable clean_filename : string -> string.
(** [config.TEMP_DIR] *)
Variable TEMP_DIR : string.
Variable host : Host.
(** [config["processing"]["debug"]] *)
Variable debug : bool.

(** Lines 51-53. *)
Definition temp_dir_for (original_filename : string)
    (temp_dir : option string) : string :=
  match temp_dir with
  | Some dir => dir
  | None =>
      Paths.path_join TEMP_DIR
        [clean_filename original_filename +:+ "_" +:+ timestamp host]
  end.

(** Lines 207-214: the [finally] block removes the directory unless
    the run is a debug run; a failure of [shutil.rmtree] is logged
    and the directory stays. *)
Definition left_after_cleanup (temp_dir : string) : bool :=
  debug || rmtree_fails host temp_dir.

(** Lines 27-214.  The validity test, the name of the temporary
    directory and [os.makedirs] come before the [try]; the [try]
    with its [except] is [Process.process_single_video]. *)
Definition process_single_video (filepath : string) (cfg : Config)
    (loc : Local) (temp_dir : option string) : M Ended :=
  if negb (valid_video host filepath)
  then ret (mkEnded (Return Invalid) false)
  else
    let original_filename := FilesOps.basename filepath in
    let temp_dir := temp_dir_for original_filename temp_dir in
    match makedirs_error host temp_dir with
    | Some msg => ret (mkEnded (Raise msg) false)
    | None =>
        res <- Process.process_single_video net clean_filename true
                 original_filename cfg loc ;;
        ret (mkEnded (Return res) (left_after_cleanup temp_dir))
    end.

End Entry.

(** ** A machine with the usual limit on names *)

(** NAME_MAX of the common file systems. *)
Definition NAME_MAX : nat := 255.

(** [os.makedirs] refuses a path one of whose components is longer than
    [NAME_MAX] (errno 36, ENAMETOOLONG). *)
Definition name_too_long (path : string) : bool :=
  existsb (fun component => (NAME_MAX <? String.length component)%nat)
          (split_char "/" path).

Definition posix_host : Host :=
  {| valid_video := fun _ => true;
     timestamp := "20240131_235959";
     makedirs_error := fun path =>
       if name_too_long path
       then Some ("[Errno 36] File name too long: '" +:+ path +:+ "'")
       else None;
     rmtree_fails := fun _ => false |}.

(** A file name of 250 characters. *)
Definition long_name : string :=
  string_of_list_ascii (repeat "a"%char 246) +:+ ".mkv".

End ProcessEntry.

(* ===================================================================== *)
(** * Text as Python has it: sequences of code points *)
(* ===================================================================== *)

Module Unicode.
Import PyStr.

(** A Python [str] is a sequence of Unicode code points. *)
Definition Str : Type := list N.

Definition code (c : ascii) : N := N_of_ascii c.

(** The [str] written by an ASCII literal. *)
Definition str (s : string) : Str := map code (chars s).

(** The rows of the Unicode character database that [re] and [int]
    read for one character. *)
Record Ucd := mkUcd {
  (** [Py_UNICODE_TODECIMAL]: the value of a decimal digit (category
      Nd), nothing for any other character *)
  decimal : N -> option N;
  (** [_sre.unicode_tolower] and the upper-case counterpart *)
  tolower : N -> N;
  toupper : N -> N;
  (** the table [_ignorecase_fixes] of the [re] compiler: the
      lower-case characters that count as the same letter as this
      one although lower-casing does not map them to it *)
  fixes : N -> list N
}.

(** [Py_UNICODE_ISDECIMAL] *)
Definition is_decimal (u : Ucd) (x : N) : bool :=
  match decimal u x with Some _ => true | None => false end.

(** [_sre.unicode_iscased] *)
Definition iscased (u : Ucd) (ch : N) : bool :=
  negb (N.eqb ch (tolower u ch)) || negb (N.eqb ch (toupper u ch)).

Definition between (lo hi x : N) : bool := ((lo <=? x) && (x <=? hi))%N.

(** ['0' <= x <= '9'] *)
Definition is_ascii_digit (x : N) : bool := between 48 57 x.

Definition is_ascii_letter (c : ascii) : bool :=
  between 65 90 (code c) || between 97 122 (code c).

(** ** Some rows of the database

    ASCII, the capital letters of Latin-1, the dotted capital I, the
    dotless i, the long s, the micro and Kelvin signs, and three sets
    of decimal digits: ASCII, Arabic-Indic (U+0660..) and fullwidth
    (U+FF10..). *)
Definition rows : Ucd :=
  {| decimal := fun x =>
       if between 48 57 x then Some (x - 48)%N
       else if between 1632 1641 x then Some (x - 1632)%N
       else if between 65296 65305 x then Some (x - 65296)%N
       else None;
     tolower := fun x =>
       if between 65 90 x then (x + 32)%N
       else if between 192 222 x && negb (N.eqb x 215) then (x + 32)%N
       else if N.eqb x 304 then 105%N
       else if N.eqb x 8490 then 107%N
       else x;
     toupper := fun x =>
       if between 97 122 x then (x - 32)%N
       else if between 224 254 x && negb (N.eqb x 247) then (x - 32)%N
       else if N.eqb x 181 then 924%N
       else if N.eqb x 255 then 376%N
       else if N.eqb x 305 then 73%N
       else if N.eqb x 383 then 83%N
       else x;
     fixes := fun x =>
       if N.eqb x 105 then [305%N]
       else if N.eqb x 305 then [105%N]
       else if N.eqb x 115 then [383%N]
       else if N.eqb x 383 then [115%N]
       else if N.eqb x 181 then [956%N]
       else if N.eqb x 956 then [181%N]
       else [] |}.

End Unicode.

(* ===================================================================== *)
(** * [re.search] with [re.IGNORECASE] on [str] *)
(* ===================================================================== *)

Module UnicodeRe.
Import PyStr Re Unicode.

Section WithUcd.
Variable u : Ucd.

(** A literal under [re.IGNORECASE], as the compiler of [re] emits
    it: a character without case is compared as it is; for a cased
    one the lower-cased subject character is looked up among the
    lower-cased literal and its equivalents. *)
Definition literal_mem (c : ascii) (x : N) : bool :=
  if iscased u (code c)
  then let lo := tolower u (code c) in
       existsb (N.eqb (tolower u x)) (lo :: fixes u lo)
  else N.eqb x (code c).

(** [\d] is the class of decimal digits of every script; [[^0-9]]
    excludes the ten ASCII digits only. *)
Definition class_mem (k : CharClass) (x : N) : bool :=
  match k with
  | CDigit => is_decimal u x
  | CNonDigit => negb (is_ascii_digit x)
  | CLit c => literal_mem c x
  end.

Fixpoint run_length (k : CharClass) (s : Str) : nat :=
  match s with
  | x :: s' => if class_mem k x then S (run_length k s') else 0
  | [] => 0
  end.

(** [re.match] *)
Fixpoint match_here (p : Pattern) (s : Str) : option (list Str * Str) :=
  match p with
  | [] => Some ([], s)
  | a :: p' =>
      try_down
        (fun k =>
           match match_here p' (drop k s) with
           | Some (caps, rest) =>
               Some (if capture a then take k s :: caps else caps, rest)
           | None => None
           end)
        (rmin a) (cap_at (rmax a) (run_length (cls a) s))
  end.

(** [re.search] *)
Fixpoint search (p : Pattern) (s : Str) : option (list Str * Str) :=
  match match_here p s with
  | Some r => Some r
  | None => match s with
            | [] => None
            | _ :: s' => search p s'
            end
  end.

(** ** video_analysis.py, lines 325-352, on [str] *)

Definition digit_val (x : N) : N :=
  match decimal u x with Some v => v | None => 0%N end.

(** [int(ds)] for a group of decimal digits: each digit is read
    through its decimal value, whatever its script. *)
Definition int_of_digits (ds : Str) : N :=
  fold_left (fun acc x => 10 * acc + digit_val x)%N ds 0%N.

(** [season, episode = match.groups(); return int(season), int(episode)] *)
Definition groups_to_pair (caps : list Str) : option (N * N) :=
  match caps with
  | [season; episode] => Some (int_of_digits season, int_of_digits episode)
  | _ => None
  end.

Fixpoint first_match (ps : list Pattern) (s : Str) : option (N * N) :=
  match ps with
  | [] => None
  | p :: ps' =>
      match search p s with
      | Some (caps, _) => groups_to_pair caps
      | None => first_match ps' s
      end
  end.

(** [None] stands for the pair [(None, None)]. *)
Definition extract_season_episode_from_filename (filename : Str)
  : option (N * N) :=
  first_match VideoAnalysis.patterns filename.

(** ** What a pattern says *)

Inductive Matches : Pattern -> Str -> list Str -> Prop :=
| Matches_nil : Matches [] [] []
| Matches_cons a p cs m caps :
    Forall (fun x => class_mem (cls a) x = true) cs ->
    (rmin a <= length cs)%nat ->
    (forall b, rmax a = Some b -> (length cs <= b)%nat) ->
    Matches p m caps ->
    Matches (a :: p) (cs ++ m) (if capture a then cs :: caps else caps).

Definition occurs (p : Pattern) (s : Str) : Prop :=
  exists pre m post caps, s = pre ++ m ++ post /\ Matches p m caps.

(** ** What a file name says *)

(** [x] is the ASCII letter [c] in one of its cases: it lower-cases
    to the small letter, or to an equivalent of it. *)
Definition reads_as (c : ascii) (x : N) : Prop :=
  let small := code (to_lower c) in
  tolower u x = small \/ In (tolower u x) (fixes u small).

Definition all_digits (d : Str) : Prop :=
  Forall (fun x => exists v, decimal u x = Some v) d.

(** The number a group of digits writes in base ten: each digit
    counts for its value times the power of ten of its place. *)
Fixpoint number (d : Str) : N :=
  match d with
  | [] => 0
  | x :: rest =>
      match decimal u x with
      | Some v => v * 10 ^ N.of_nat (length rest) + number rest
      | None => number rest
      end
  end%N.

(** [m] reads S<d1>E<d2>, in either case of the letters. *)
Definition is_SxxEyy (m d1 d2 : Str) : Prop :=
  exists c1 c2, m = c1 :: d1 ++ c2 :: d2 /\
    reads_as "S" c1 /\ reads_as "E" c2 /\
    all_digits d1 /\ d1 <> [] /\ all_digits d2 /\ d2 <> [].

(** [m] reads <d1>x<d2>. *)
Definition is_NxNN (m d1 d2 : Str) : Prop :=
  exists c, m = d1 ++ c :: d2 /\ reads_as "x" c /\
    all_digits d1 /\ d1 <> [] /\ all_digits d2 /\ d2 <> [].

Definition Shape := Str -> Str -> Str -> Prop.

Definition occurrence (shape : Shape) (s pre d1 d2 post : Str) : Prop :=
  exists m, s = pre ++ m ++ post /\ shape m d1 d2.

Definition contains (shape : Shape) (s : Str) : Prop :=
  exists pre d1 d2 post, occurrence shape s pre d1 d2 post.

(** The occurrence that starts first, with its last number read to
    the end of its digits. *)
Definition leftmost_longest (shape : Shape) (s pre d1 d2 post : Str) : Prop :=
  occurrence shape s pre d1 d2 post /\
  (forall x rest, post = x :: rest -> decimal u x = None) /\
  forall pre' e1 e2 post', occurrence shape s pre' e1 e2 post' ->
                           (length pre <= length pre')%nat.

(** What the theorems ask of the database: the ASCII letters have
    their ASCII cases; no decimal digit is changed by lower-casing;
    no small ASCII letter, and no equivalent of one, is a decimal
    digit. *)
Definition coherent : Prop :=
  (forall c, is_ascii_letter c = true ->
             tolower u (code c) = code (to_lower c) /\
             (is_upper c = false -> toupper u (code c) <> code c)) /\
  (forall x v, decimal u x = Some v -> tolower u x = x) /\
  (forall c, is_ascii_letter c = true ->
             decimal u (code (to_lower c)) = None /\
             Forall (fun y => decimal u y = None)
                    (fixes u (code (to_lower c)))).

End WithUcd.

End UnicodeRe.

(* ===================================================================== *)
(** * studio_detect.py: the text detector on [str] *)
(* ===================================================================== *)

Module UnicodeDetect.
Import Unicode.

(** [text.startswith(pattern)] *)
Fixpoint is_prefix (pattern text : Str) : bool :=
  match pattern, text with
  | [], _ => true
  | x :: pattern', y :: text' => N.eqb x y && is_prefix pattern' text'
  | _ :: _, [] => false
  end.

(** [pattern in text] *)
Fixpoint is_substring (pattern text : Str) : bool :=
  is_prefix pattern text
  || match text with
     | _ :: text' => is_substring pattern text'
     | [] => false
     end.

(** The table of [load_studios_mapping], in the order of the file. *)
Definition Mapping : Type := list (Str * list Str).

(** [pattern] stands somewhere in [text]. *)
Definition occurs_in (pattern text : Str) : Prop :=
  exists pre post, text = pre ++ pattern ++ post.

Section Lower.
(** [str.lower]: the lower-casing of Unicode, which reaches the
    letters of every script and may change the number of
    characters. *)
Variable lower : Str -> Str.

(** Lines 88-98. *)
Definition detect_studio_from_text (ocr_text : Str) (studios_mapping : Mapping)
  : option Str :=
  match ocr_text with
  | [] => None
  | _ =>
      let text_lower := lower ocr_text in
      match List.find
              (fun entry =>
                 existsb (fun pattern => is_substring pattern text_lower)
                         (snd entry))
              studios_mapping with
      | Some (studio, _) => Some studio
      | None => None
      end
  end.

(** One of the patterns of the entry stands in the lower-cased
    text. *)
Definition hits (text : Str) (entry : Str * list Str) : Prop :=
  exists pattern, In pattern (snd entry) /\ occurs_in pattern (lower text).

End Lower.

(** [str.lower] on the characters of [Unicode.rows]: one character for
    one, but for the dotted capital I, which becomes an i and a
    combining dot. *)
Definition lower_rows (s : Str) : Str :=
  flat_map (fun x => if N.eqb x 304 then [105; 775]%N else [tolower rows x]) s.

(** TELEVISION ESPANOLA with its accent and its tilde, in capitals and
    in small letters. *)
Definition television_espanola : Str :=
  str "TELEVISI" ++ [211%N] ++ str "N ESPA" ++ [209%N] ++ str "OLA".
Definition television_espanola_small : Str :=
  str "televisi" ++ [243%N] ++ str "n espa" ++ [241%N] ++ str "ola".

End UnicodeDetect.

(* ===================================================================== *)
(** * From ASCII names to [str] *)
(* ===================================================================== *)

Module AsciiNames.
Import PyStr Re Unicode.

(** The classes of the seven patterns: the two digit classes and
    ASCII letters. *)
Definition of_letters (k : CharClass) : bool :=
  match k with
  | CLit c => is_ascii_letter c
  | _ => true
  end.

Definition atoms_of_letters (p : Pattern) : Prop :=
  Forall (fun a => of_letters (cls a) = true) p.

(** Every group of the seven patterns is a group of digits. *)
Definition captures_digits (p : Pattern) : Prop :=
  Forall (fun a => capture a = true -> cls a = CDigit) p.

(** The groups and the rest of a match, as [str]. *)
Definition lift (r : list (list ascii) * list ascii) : list Str * Str :=
  (map (map code) (fst r), map code (snd r)).

End AsciiNames.
(* ===================================================================== *)
(** * Properties of the regular-expression matcher *)
(* ===================================================================== *)

Module ReFacts.
Import PyStr Re ReSpec.

Lemma run_length_take k s :
  Forall (fun x => class_mem k x = true) (take (run_length k s) s).
Proof.
  induction s as [|x s IH]; simpl; [constructor|].
  destruct (class_mem k x) eqn:E; simpl; [|constructor].
  constructor; assumption.
Qed.

Lemma run_length_ge k cs r :
  Forall (fun x => class_mem k x = true) cs ->
  (length cs <= run_length k (cs ++ r))%nat.
Proof.
  induction 1 as [|x cs Hx _ IH]; simpl; [lia|].
  rewrite Hx. lia.
Qed.

Lemma run_length_le k s : (run_length k s <= length s)%nat.
Proof.
  induction s as [|x s IH]; simpl; [lia|].
  destruct (class_mem k x); simpl; lia.
Qed.

Lemma cap_at_le m n : (cap_at m n <= n)%nat.
Proof. destruct m; simpl; lia. Qed.

Lemma take_Forall_le {A} (P : A -> Prop) (s : list A) j n :
  (j <= n)%nat -> Forall P (take n s) -> Forall P (take j s).
Proof.
  intros Hj H. replace j with (Nat.min j n) by lia.
  rewrite <- take_take. apply Forall_take. assumption.
Qed.

Lemma try_down_Some {R} (f : nat -> option R) lo k r :
  try_down f lo k = Some r ->
  exists j, (lo <= j <= k)%nat /\ f j = Some r /\
            forall i, (j < i <= k)%nat -> f i = None.
Proof.
  induction k as [|k IH]; simpl.
  - destruct (0 <? lo)%nat eqn:E; [discriminate|].
    apply Nat.ltb_ge in E.
    destruct (f 0%nat) eqn:F; [|discriminate].
    intros [= <-]. exists 0%nat.
    split; [lia|]. split; [assumption|]. intros i Hi; lia.
  - destruct (S k <? lo)%nat eqn:E; [discriminate|].
    apply Nat.ltb_ge in E.
    destruct (f (S k)) eqn:F.
    + intros [= <-]. exists (S k).
      split; [lia|]. split; [assumption|]. intros i Hi; lia.
    + intros H. destruct (IH H) as (j & Hj & Fj & Hn).
      exists j. split; [lia|]. split; [assumption|].
      intros i Hi. destruct (decide (i = S k)) as [->|]; [assumption|].
      apply Hn; lia.
Qed.

Lemma try_down_complete {R} (f : nat -> option R) lo k j :
  (lo <= j <= k)%nat -> is_Some (f j) -> is_Some (try_down f lo k).
Proof.
  induction k as [|k IH]; simpl; intros Hj Hs.
  - assert (j = 0)%nat as -> by lia.
    destruct (0 <? lo)%nat eqn:E; [apply Nat.ltb_lt in E; lia|].
    destruct (f 0%nat); [eauto|]. destruct Hs; discriminate.
  - destruct (S k <? lo)%nat eqn:E; [apply Nat.ltb_lt in E; lia|].
    destruct (f (S k)) eqn:F; [eauto|].
    apply IH; [|assumption].
    destruct (decide (j = S k)) as [->|]; [|lia].
    rewrite F in Hs. destruct Hs; discriminate.
Qed.

(** Soundness: what the matcher accepts is a match of the pattern. *)
Lemma match_here_sound p : forall s caps rest,
  match_here p s = Some (caps, rest) ->
  exists m, s = m ++ rest /\ Matches p m caps.
Proof.
  induction p as [|a p IH]; simpl; intros s caps rest H.
  - injection H as <- <-. exists []. split; [reflexivity|constructor].
  - apply try_down_Some in H as (j & Hj & Fj & _).
    destruct (match_here p (drop j s)) as [[caps' rest']|] eqn:E;
      [|discriminate].
    injection Fj as <- <-.
    destruct (IH _ _ _ E) as (m & Hm & HM).
    exists (take j s ++ m). split.
    + rewrite <- app_assoc, <- Hm. symmetry. apply take_drop.
    + pose proof (cap_at_le (rmax a) (run_length (cls a) s)) as Hc.
      pose proof (run_length_le (cls a) s) as Hl.
      constructor; auto.
      * apply take_Forall_le with (n := run_length (cls a) s); [lia|].
        apply run_length_take.
      * rewrite length_take. lia.
      * intros b Hb. rewrite length_take. rewrite Hb in Hj. simpl in Hj. lia.
Qed.

(** Completeness: wherever the pattern matches, the matcher succeeds. *)
Lemma match_here_complete p m caps :
  Matches p m caps -> forall rest, is_Some (match_here p (m ++ rest)).
Proof.
  induction 1 as [|a p cs m caps Hcs Hmin Hmax HM IH]; intros rest; simpl.
  - eauto.
  - apply try_down_complete with (j := length cs).
    + split; [assumption|].
      rewrite <- app_assoc.
      pose proof (run_length_ge (cls a) cs (m ++ rest) Hcs) as Hr.
      destruct (rmax a) as [b|] eqn:Eb; simpl; [|lia].
      specialize (Hmax b eq_refl). lia.
    + rewrite <- app_assoc, drop_app_length.
      destruct (IH rest) as [[caps' rest'] ->]. eauto.
Qed.

(** Greediness: after a match whose last atom is unbounded, the text
    left over does not begin inside that atom's class. *)
Lemma match_here_greedy_last p a : forall s caps rest,
  rmax a = None ->
  match_here (p ++ [a]) s = Some (caps, rest) ->
  run_length (cls a) rest = 0%nat.
Proof.
  induction p as [|b p IH]; simpl; intros s caps rest Ha H.
  - rewrite Ha in H. simpl in H.
    apply try_down_Some in H as (j & Hj & Fj & Hn).
    injection Fj as _ <-.
    destruct (decide (j = run_length (cls a) s)) as [->|Hne].
    + clear. induction s as [|x s IH]; simpl; [reflexivity|].
      destruct (class_mem (cls a) x) eqn:E; simpl; [assumption|].
      rewrite E. reflexivity.
    + specialize (Hn (run_length (cls a) s)). simpl in Hn.
      discriminate Hn. lia.
  - apply try_down_Some in H as (j & _ & Fj & _).
    destruct (match_here (p ++ [a]) (drop j s)) as [[caps' rest']|] eqn:E;
      [|discriminate].
    injection Fj as _ <-. eapply IH; eauto.
Qed.

Lemma Matches_groups p m caps :
  Matches p m caps -> length caps = length (List.filter capture p).
Proof.
  induction 1 as [|a p cs m caps _ _ _ _ IH]; [reflexivity|].
  simpl. destruct (capture a); simpl; congruence.
Qed.

(** [search] returns the match at the leftmost start position. *)
Lemma search_Some p : forall s r,
  search p s = Some r ->
  exists pre suf, s = pre ++ suf /\ match_here p suf = Some r /\
    forall pre1 suf1, s = pre1 ++ suf1 -> (length pre1 < length pre)%nat ->
                      match_here p suf1 = None.
Proof.
  induction s as [|x s IH]; intros r H.
  - simpl in H. destruct (match_here p []) eqn:E; [|discriminate].
    exists [], []. repeat split; [congruence|]. simpl; intros; lia.
  - simpl in H. destruct (match_here p (x :: s)) eqn:E.
    + exists [], (x :: s). repeat split; [congruence|]. simpl; intros; lia.
    + destruct (IH _ H) as (pre & suf & -> & Hm & Hleft).
      exists (x :: pre), suf. repeat split; auto.
      intros [|y pre1] suf1 Heq Hlen; simpl in *.
      * subst suf1. assumption.
      * injection Heq as -> Heq. apply (Hleft pre1 suf1 Heq). lia.
Qed.

Lemma search_None p : forall s,
  search p s = None ->
  forall pre suf, s = pre ++ suf -> match_here p suf = None.
Proof.
  induction s as [|x s IH]; simpl; intros H pre suf Heq.
  - destruct (match_here p []) eqn:E; [discriminate|].
    symmetry in Heq. apply app_eq_nil in Heq as [-> ->]. assumption.
  - destruct (match_here p (x :: s)) eqn:E; [discriminate|].
    destruct pre as [|y pre]; simpl in Heq.
    + subst suf. assumption.
    + injection Heq as -> Heq. eapply IH; eauto.
Qed.

Lemma search_occurs p s : is_Some (search p s) <-> occurs p s.
Proof.
  split.
  - intros [[caps rest] H].
    apply search_Some in H as (pre & suf & -> & Hm & _).
    apply match_here_sound in Hm as (m & -> & HM).
    exists pre, m, rest, caps. split; [reflexivity|assumption].
  - intros (pre & m & post & caps & -> & HM).
    destruct (search p (pre ++ m ++ post)) eqn:E; [eauto|].
    pose proof (search_None _ _ E pre (m ++ post) eq_refl) as Hn.
    destruct (match_here_complete _ _ _ HM post) as [r Hr]. congruence.
Qed.

End ReFacts.

Module SeasonEpisodeFacts.
Import PyStr Re ReSpec ReFacts VideoAnalysis SeasonEpisodeSpec.

Lemma Matches_nil_inv m caps : Matches [] m caps -> m = [] /\ caps = [].
Proof. inversion 1; auto. Qed.

Lemma Matches_lit_inv c p m caps :
  Matches (lit c :: p) m caps ->
  exists x m', m = x :: m' /\ to_lower x = to_lower c /\ Matches p m' caps.
Proof.
  inversion 1 as [|a p' cs m' caps' Hcs Hmin Hmax HM]; subst.
  simpl in *. specialize (Hmax 1%nat eq_refl).
  destruct cs as [|x [|y cs]]; simpl in *; try lia.
  exists x, m'. split; [reflexivity|]. split; [|assumption].
  apply Forall_cons in Hcs as [Hx _]. apply Ascii.eqb_eq in Hx. assumption.
Qed.

Lemma Matches_lit_intro c p x m caps :
  to_lower x = to_lower c -> Matches p m caps ->
  Matches (lit c :: p) (x :: m) caps.
Proof.
  intros Hx HM.
  apply (Matches_cons (lit c) p [x] m caps); simpl; auto.
  - constructor; [|constructor]. apply Ascii.eqb_eq. assumption.
  - intros b [= <-]. lia.
Qed.

Lemma Matches_digits1_inv p m caps :
  Matches (digits1 :: p) m caps ->
  exists d m' caps', m = d ++ m' /\ all_digits d /\ d <> [] /\
                     caps = d :: caps' /\ Matches p m' caps'.
Proof.
  inversion 1 as [|a p' cs m' caps' Hcs Hmin Hmax HM]; subst.
  simpl in *. exists cs, m', caps'. repeat split; auto.
  intros ->. simpl in Hmin. lia.
Qed.

Lemma Matches_digits1_intro p d m caps :
  all_digits d -> d <> [] -> Matches p m caps ->
  Matches (digits1 :: p) (d ++ m) (d :: caps).
Proof.
  intros Hd Hne HM.
  apply (Matches_cons digits1 p d m caps); simpl; auto.
  - destruct d; [congruence|simpl; lia].
  - discriminate.
Qed.

Lemma Matches_SxxEyy m caps :
  Matches pat_SxxEyy m caps <->
  exists d1 d2, is_SxxEyy m d1 d2 /\ caps = [d1; d2].
Proof.
  unfold pat_SxxEyy, lits; simpl. split.
  - intros H.
    apply Matches_lit_inv in H as (c1 & m1 & -> & Hc1 & H).
    apply Matches_digits1_inv in H as (d1 & m2 & caps1 & -> & Hd1 & Hn1 & -> & H).
    apply Matches_lit_inv in H as (c2 & m3 & -> & Hc2 & H).
    apply Matches_digits1_inv in H as (d2 & m4 & caps2 & -> & Hd2 & Hn2 & -> & H).
    apply Matches_nil_inv in H as [-> ->].
    exists d1, d2. split; [|reflexivity].
    exists c1, c2. rewrite app_nil_r. repeat split; auto.
  - intros (d1 & d2 & (c1 & c2 & -> & Hc1 & Hc2 & Hd1 & Hn1 & Hd2 & Hn2) & ->).
    apply Matches_lit_intro; [exact Hc1|].
    apply Matches_digits1_intro; auto.
    apply Matches_lit_intro; [exact Hc2|].
    rewrite <- (app_nil_r d2) at 1.
    apply Matches_digits1_intro; auto. constructor.
Qed.

Lemma Matches_NxNN m caps :
  Matches pat_NxNN m caps <->
  exists d1 d2, is_NxNN m d1 d2 /\ caps = [d1; d2].
Proof.
  unfold pat_NxNN, lits; simpl. split.
  - intros H.
    apply Matches_digits1_inv in H as (d1 & m2 & caps1 & -> & Hd1 & Hn1 & -> & H).
    apply Matches_lit_inv in H as (c2 & m3 & -> & Hc2 & H).
    apply Matches_digits1_inv in H as (d2 & m4 & caps2 & -> & Hd2 & Hn2 & -> & H).
    apply Matches_nil_inv in H as [-> ->].
    exists d1, d2. split; [|reflexivity].
    exists c2. rewrite app_nil_r. repeat split; auto.
  - intros (d1 & d2 & (c & -> & Hc & Hd1 & Hn1 & Hd2 & Hn2) & ->).
    apply Matches_digits1_intro; auto.
    apply Matches_lit_intro; [exact Hc|].
    rewrite <- (app_nil_r d2) at 1.
    apply Matches_digits1_intro; auto. constructor.
Qed.

(** A pattern that ends in [(\d+)], read through its shape: the search
    returns the leftmost occurrence, its last number read in full. *)
Lemma search_leftmost_longest (shape : Shape) (p0 : Pattern) (s : list ascii) :
  (forall m caps, Matches (p0 ++ [digits1]) m caps <->
                  exists d1 d2, shape m d1 d2 /\ caps = [d1; d2]) ->
  contains shape s ->
  exists pre d1 d2 post,
    leftmost_longest shape s pre d1 d2 post /\
    search (p0 ++ [digits1]) s = Some ([d1; d2], post).
Proof.
  intros Hshape (pre0 & e1 & e2 & post0 & m0 & Hs0 & Hm0).
  assert (occurs (p0 ++ [digits1]) s) as Hoc.
  { exists pre0, m0, post0, [e1; e2]. split; [assumption|].
    apply Hshape. eauto. }
  apply search_occurs in Hoc as [[caps post] Hsearch].
  destruct (search_Some _ _ _ Hsearch) as (pre & suf & Hs & Hm & Hleft).
  pose proof (match_here_greedy_last p0 digits1 _ _ _ eq_refl Hm) as Hgreedy.
  simpl in Hgreedy.
  destruct (match_here_sound _ _ _ _ Hm) as (m & -> & HM).
  apply Hshape in HM as (d1 & d2 & Hsh & ->).
  exists pre, d1, d2, post. split; [|assumption].
  split; [exists m; auto|]. split; [assumption|].
  intros pre' f1 f2 post' (m' & Hs' & Hsh').
  destruct (le_lt_dec (length pre) (length pre')) as [|Hlt]; [assumption|].
  assert (Matches (p0 ++ [digits1]) m' [f1; f2]) as HM' by (apply Hshape; eauto).
  destruct (match_here_complete _ _ _ HM' post') as [r Hr].
  rewrite (Hleft pre' (m' ++ post') Hs') in Hr; [discriminate|lia].
Qed.

Lemma digit_not_upper c : is_digit c = true -> to_lower c = c.
Proof.
  unfold to_lower, is_upper, is_digit. intros H.
  apply andb_true_iff in H as [_ H]. apply Nat.leb_le in H.
  destruct (65 <=? nat_of_ascii c)%nat eqn:E; [|reflexivity].
  apply Nat.leb_le in E. lia.
Qed.

Lemma letter_not_digit c (l : ascii) :
  to_lower c = l -> is_digit l = false -> is_digit c = false.
Proof.
  intros Hl Hd. destruct (is_digit c) eqn:E; [|reflexivity].
  rewrite (digit_not_upper c E) in Hl. congruence.
Qed.

Lemma run_length_digit_cons c r :
  is_digit c = true -> run_length CDigit (c :: r) <> 0%nat.
Proof. simpl. intros ->. discriminate. Qed.

Lemma run_length_nondigit_cons c r :
  is_digit c = false -> run_length CDigit (c :: r) = 0%nat.
Proof. simpl. intros ->. reflexivity. Qed.

(** A run of digits followed by something that is not a digit can be
    cut in one way only. *)
Lemma digits_split_unique d : forall d' r r',
  all_digits d -> all_digits d' -> d ++ r = d' ++ r' ->
  run_length CDigit r = 0%nat -> run_length CDigit r' = 0%nat ->
  d = d' /\ r = r'.
Proof.
  induction d as [|x d IH]; intros [|y d'] r r' Hd Hd' Heq Hr Hr'; simpl in *.
  - auto.
  - subst r. apply Forall_cons in Hd' as [Hy _].
    exfalso. exact (run_length_digit_cons y _ Hy Hr).
  - subst r'. apply Forall_cons in Hd as [Hx _].
    exfalso. exact (run_length_digit_cons x _ Hx Hr').
  - injection Heq as -> Heq.
    apply Forall_cons in Hd as [_ Hd]. apply Forall_cons in Hd' as [_ Hd'].
    destruct (IH d' r r' Hd Hd' Heq Hr Hr') as [-> ->]. auto.
Qed.

Lemma leftmost_same_start (shape : Shape) s pre d1 d2 post pre' e1 e2 post' :
  leftmost_longest shape s pre d1 d2 post ->
  leftmost_longest shape s pre' e1 e2 post' ->
  exists m m', shape m d1 d2 /\ shape m' e1 e2 /\ pre = pre' /\
               m ++ post = m' ++ post'.
Proof.
  intros (Ho & _ & Hl) (Ho' & _ & Hl').
  pose proof (Hl _ _ _ _ Ho') as H1. pose proof (Hl' _ _ _ _ Ho) as H2.
  destruct Ho as (m & Hs & Hm). destruct Ho' as (m' & Hs' & Hm').
  exists m, m'. rewrite Hs in Hs'.
  apply app_inj_1 in Hs' as [-> ->]; [auto|lia].
Qed.

Lemma leftmost_longest_SxxEyy_unique s pre d1 d2 post pre' e1 e2 post' :
  leftmost_longest is_SxxEyy s pre d1 d2 post ->
  leftmost_longest is_SxxEyy s pre' e1 e2 post' ->
  e1 = d1 /\ e2 = d2.
Proof.
  intros H H'.
  destruct (leftmost_same_start _ _ _ _ _ _ _ _ _ _ H H')
    as (m & m' & Hm & Hm' & _ & Heq).
  destruct H as (_ & Hp & _). destruct H' as (_ & Hp' & _).
  destruct Hm as (c1 & c2 & -> & _ & Hc2 & Hd1 & _ & Hd2 & _).
  destruct Hm' as (c1' & c2' & -> & _ & Hc2' & He1 & _ & He2 & _).
  simpl in Heq. injection Heq as _ Heq.
  rewrite <- !app_assoc in Heq. simpl in Heq.
  apply digits_split_unique in Heq as [-> Heq]; auto.
  - injection Heq as _ Heq.
    apply digits_split_unique in Heq as [-> _]; auto.
  - apply run_length_nondigit_cons.
    eapply letter_not_digit; [exact Hc2|reflexivity].
  - apply run_length_nondigit_cons.
    eapply letter_not_digit; [exact Hc2'|reflexivity].
Qed.

Lemma leftmost_longest_NxNN_unique s pre d1 d2 post pre' e1 e2 post' :
  leftmost_longest is_NxNN s pre d1 d2 post ->
  leftmost_longest is_NxNN s pre' e1 e2 post' ->
  e1 = d1 /\ e2 = d2.
Proof.
  intros H H'.
  destruct (leftmost_same_start _ _ _ _ _ _ _ _ _ _ H H')
    as (m & m' & Hm & Hm' & _ & Heq).
  destruct H as (_ & Hp & _). destruct H' as (_ & Hp' & _).
  destruct Hm as (c & -> & Hc & Hd1 & _ & Hd2 & _).
  destruct Hm' as (c' & -> & Hc' & He1 & _ & He2 & _).
  rewrite <- !app_assoc in Heq. simpl in Heq.
  apply digits_split_unique in Heq as [-> Heq]; auto.
  - injection Heq as _ Heq.
    apply digits_split_unique in Heq as [-> _]; auto.
  - apply run_length_nondigit_cons.
    eapply letter_not_digit; [exact Hc|reflexivity].
  - apply run_length_nondigit_cons.
    eapply letter_not_digit; [exact Hc'|reflexivity].
Qed.

Lemma patterns_two_groups :
  Forall (fun p => length (List.filter capture p) = 2%nat) patterns.
Proof. repeat constructor. Qed.

Lemma search_two_groups p s caps rest :
  length (List.filter capture p) = 2%nat ->
  search p s = Some (caps, rest) ->
  exists g1 g2, caps = [g1; g2].
Proof.
  intros H2 Hs.
  apply search_Some in Hs as (pre & suf & _ & Hm & _).
  apply match_here_sound in Hm as (m & _ & HM).
  apply Matches_groups in HM. rewrite H2 in HM.
  destruct caps as [|g1 [|g2 [|g3 caps]]]; simpl in HM; try lia. eauto.
Qed.

Lemma first_match_None ps s :
  Forall (fun p => length (List.filter capture p) = 2%nat) ps ->
  (first_match ps s = None <-> forall p, In p ps -> ~ occurs p s).
Proof.
  induction 1 as [|p ps H2 _ IH]; simpl.
  - split; [intros _ p []|reflexivity].
  - destruct (search p s) as [[caps rest]|] eqn:E.
    + destruct (search_two_groups _ _ _ _ H2 E) as (g1 & g2 & ->). simpl.
      split; [discriminate|]. intros Hno. exfalso.
      apply (Hno p); [auto|]. apply search_occurs. eauto.
    + rewrite IH. split.
      * intros Hno q [<-|Hq]; [|auto].
        intros Hoc. apply search_occurs in Hoc as [r Hr]. congruence.
      * intros Hno q Hq. apply Hno. auto.
Qed.

Lemma contains_occurs_SxxEyy s :
  contains is_SxxEyy s <-> occurs pat_SxxEyy s.
Proof.
  split.
  - intros (pre & d1 & d2 & post & m & Hs & Hm).
    exists pre, m, post, [d1; d2]. split; [assumption|].
    apply Matches_SxxEyy. eauto.
  - intros (pre & m & post & caps & Hs & HM).
    apply Matches_SxxEyy in HM as (d1 & d2 & Hm & _).
    exists pre, d1, d2, post, m. auto.
Qed.

(** The extraction on ASCII names.  (1) A file name that contains an
    SxxEyy pattern yields the two integers written in its leftmost
    occurrence, the episode number read to its last digit; that
    occurrence is the only one of this kind.  (2) A file name without
    SxxEyy that contains an NxNN pattern yields, in the same way, the
    integers of its leftmost NxNN occurrence.  (3) The answer is
    "not found" exactly when none of the seven patterns occurs in the
    file name. *)
Lemma season_episode_extraction_ascii (filename : string) :
  let s := chars filename in
  (contains is_SxxEyy s ->
     exists pre d1 d2 post,
       leftmost_longest is_SxxEyy s pre d1 d2 post /\
       (forall pre' e1 e2 post',
           leftmost_longest is_SxxEyy s pre' e1 e2 post' -> e1 = d1 /\ e2 = d2) /\
       extract_season_episode_from_filename filename
         = Some (int_of_digits d1, int_of_digits d2)) /\
  (~ contains is_SxxEyy s -> contains is_NxNN s ->
     exists pre d1 d2 post,
       leftmost_longest is_NxNN s pre d1 d2 post /\
       (forall pre' e1 e2 post',
           leftmost_longest is_NxNN s pre' e1 e2 post' -> e1 = d1 /\ e2 = d2) /\
       extract_season_episode_from_filename filename
         = Some (int_of_digits d1, int_of_digits d2)) /\
  ((forall p, In p patterns -> ~ occurs p s) <->
     extract_season_episode_from_filename filename = None).
Proof.
  intros s. unfold extract_season_episode_from_filename. fold s.
  split; [|split].
  - intros Hc.
    destruct (search_leftmost_longest is_SxxEyy
                [lit "S"%char; digits1; lit "E"%char] s Matches_SxxEyy Hc)
      as (pre & d1 & d2 & post & Hll & Hsearch).
    exists pre, d1, d2, post. split; [assumption|]. split.
    + intros pre' e1 e2 post' Hll'.
      eapply leftmost_longest_SxxEyy_unique; eauto.
    + unfold patterns, first_match.
      change (search pat_SxxEyy s)
        with (search ([lit "S"%char; digits1; lit "E"%char] ++ [digits1]) s).
      rewrite Hsearch. reflexivity.
  - intros Hno Hc.
    destruct (search_leftmost_longest is_NxNN
                [digits1; lit "x"%char] s Matches_NxNN Hc)
      as (pre & d1 & d2 & post & Hll & Hsearch).
    exists pre, d1, d2, post. split; [assumption|]. split.
    + intros pre' e1 e2 post' Hll'.
      eapply leftmost_longest_NxNN_unique; eauto.
    + unfold patterns, first_match.
      destruct (search pat_SxxEyy s) as [r|] eqn:E.
      * exfalso. apply Hno, contains_occurs_SxxEyy, search_occurs. eauto.
      * change (search pat_NxNN s)
          with (search ([digits1; lit "x"%char] ++ [digits1]) s).
        rewrite Hsearch. reflexivity.
  - symmetry. apply first_match_None, patterns_two_groups.
Qed.

End SeasonEpisodeFacts.

(* ===================================================================== *)
(** * Properties of the metadata searches *)
(* ===================================================================== *)

Module TmdbFacts.
Import PyStr Tmdb ChainSpec.

Ltac run_bind := unfold bind, ret, http_get in *; simpl in *.

Lemma rounds_app l1 l2 : rounds (l1 ++ l2) = (rounds l1 + rounds l2)%nat.
Proof. unfold rounds. rewrite List.filter_app, length_app. reflexivity. Qed.

Lemma try_language_trace net cfg q ser lang best tr :
  exists new, snd (try_language net cfg q ser lang best tr) = tr ++ new /\
              (length new <= 2)%nat /\ rounds new = first_language lang.
Proof.
  assert (rounds [SearchTitle ser q lang] = first_language lang) as R1
    by (unfold rounds, first_language; cbn; destruct (String.eqb lang "es");
        reflexivity).
  assert (forall i, rounds [SearchTitle ser q lang; Details ser i]
                    = first_language lang) as R2
    by (intros i; unfold rounds, first_language; cbn;
        destruct (String.eqb lang "es"); reflexivity).
  unfold try_language. run_bind.
  destruct (net tr (SearchTitle ser q lang)) as [|status items obj]; simpl.
  { exists [SearchTitle ser q lang]. split; [reflexivity|]. split; [simpl; lia|exact R1]. }
  destruct (status =? 200)%Z;
    [|exists [SearchTitle ser q lang]; split; [reflexivity|];
      split; [simpl; lia|exact R1]].
  destruct items as [|result items];
    [exists [SearchTitle ser q lang]; split; [reflexivity|];
     split; [simpl; lia|exact R1]|].
  destruct (improves result (fst best));
    [|exists [SearchTitle ser q lang]; split; [reflexivity|];
      split; [simpl; lia|exact R1]].
  destruct (negb (String.eqb lang "en") && String.eqb (output_language cfg) "en");
    [|exists [SearchTitle ser q lang]; split; [reflexivity|];
      split; [simpl; lia|exact R1]].
  destruct (item_id result) as [i|];
    [|exists [SearchTitle ser q lang]; split; [reflexivity|];
      split; [simpl; lia|exact R1]].
  destruct (net (tr ++ [SearchTitle ser q lang]) (Details ser i));
    exists [SearchTitle ser q lang; Details ser i];
    (split; [simpl; rewrite <- app_assoc; reflexivity|];
     split; [simpl; lia|apply R2]).
Qed.

Lemma lang_loop_trace net retry cfg q ser B R :
  (forall again, retry = Some again ->
     forall tr, exists new, snd (again tr) = tr ++ new /\
                            (length new <= B)%nat /\ (rounds new <= R)%nat) ->
  forall langs best tr,
    exists new, snd (lang_loop net retry cfg q ser langs best tr) = tr ++ new /\
                (length new <= 2 * length langs + B)%nat /\
                (rounds new <= list_sum (map first_language langs) + R)%nat.
Proof.
  intros Hretry. induction langs as [|lang langs IH]; intros best tr; simpl.
  - exists []. rewrite app_nil_r. split; [reflexivity|].
    split; unfold rounds; simpl; lia.
  - unfold bind.
    destruct (try_language_trace net cfg q ser lang best tr)
      as (n1 & H1 & L1 & R1).
    destruct (try_language net cfg q ser lang best tr) as [[best'|] tr1];
      simpl in H1; subst tr1.
    + destruct (IH best' (tr ++ n1)) as (n2 & H2 & L2 & R2).
      exists (n1 ++ n2). rewrite H2, app_assoc, length_app, rounds_app.
      split; [reflexivity|]. split; lia.
    + destruct retry as [again|].
      * destruct (Hretry again eq_refl (tr ++ n1)) as (n2 & H2 & L2 & R2).
        exists (n1 ++ n2). rewrite H2, app_assoc, length_app, rounds_app.
        split; [reflexivity|]. split; lia.
      * destruct (IH best (tr ++ n1)) as (n2 & H2 & L2 & R2).
        exists (n1 ++ n2). rewrite H2, app_assoc, length_app, rounds_app.
        split; [reflexivity|]. split; lia.
Qed.

(** However the network answers, one call of [search_tmdb_multilang]
    runs at most [attempts] rounds (one round when [attempts] is 0) of
    at most four requests each. *)
Lemma search_tmdb_multilang_bounded net cfg q ser attempts : forall tr,
  exists new,
    snd (search_tmdb_multilang net attempts cfg q ser tr) = tr ++ new /\
    (length new <= 4 * Nat.max attempts 1)%nat /\
    (rounds new <= Nat.max attempts 1)%nat.
Proof.
  induction attempts as [|[|n] IH]; intros tr.
  - destruct (lang_loop_trace net None cfg q ser 0%nat 0%nat) with
      (langs := languages) (best := (None, None) : SearchResult) (tr := tr)
      as (new & H & L & R); [discriminate|].
    exists new. split; [exact H|].
    change (list_sum (map first_language languages)) with 1%nat in R.
    change (length languages) with 2%nat in L. split; lia.
  - destruct (lang_loop_trace net None cfg q ser 0%nat 0%nat) with
      (langs := languages) (best := (None, None) : SearchResult) (tr := tr)
      as (new & H & L & R); [discriminate|].
    exists new. split; [exact H|].
    change (list_sum (map first_language languages)) with 1%nat in R.
    change (length languages) with 2%nat in L. split; lia.
  - destruct (lang_loop_trace net
                (Some (search_tmdb_multilang net (S n) cfg q ser)) cfg q ser
                (4 * Nat.max (S n) 1)%nat (Nat.max (S n) 1)) with
      (langs := languages) (best := (None, None) : SearchResult) (tr := tr)
      as (new & H & L & R).
    + intros again [= <-]. exact IH.
    + exists new. split; [exact H|].
      change (list_sum (map first_language languages)) with 1%nat in R.
      change (length languages) with 2%nat in L. split; lia.
Qed.

(** A query whose every attempt fails: [attempts - 1] retries, a last
    round over both languages, and no result. *)
Lemma search_tmdb_multilang_all_fail net cfg q ser attempts :
  unreachable_for net q ->
  forall tr,
    search_tmdb_multilang net attempts cfg q ser tr
    = ((None, None),
       tr ++ replicate (attempts - 1) (SearchTitle ser q "es")
          ++ [SearchTitle ser q "es"; SearchTitle ser q "en"]).
Proof.
  intros Hdead.
  assert (forall lang best tr,
            try_language net cfg q ser lang best tr
            = (None, tr ++ [SearchTitle ser q lang])) as Htry.
  { intros lang best tr. unfold try_language, bind, http_get.
    rewrite Hdead. reflexivity. }
  induction attempts as [|[|n] IH]; intros tr.
  - cbn [search_tmdb_multilang lang_loop languages]. unfold bind.
    rewrite !Htry. cbn. rewrite <- app_assoc. reflexivity.
  - cbn [search_tmdb_multilang lang_loop languages]. unfold bind.
    rewrite !Htry. cbn. rewrite <- app_assoc. reflexivity.
  - change (search_tmdb_multilang net (S (S n)) cfg q ser tr)
      with (lang_loop net (Some (search_tmdb_multilang net (S n) cfg q ser))
              cfg q ser languages (None, None) tr).
    cbn [lang_loop languages]. unfold bind. rewrite Htry.
    rewrite IH. cbn [replicate Nat.sub].
    rewrite Nat.sub_0_r, <- app_assoc. reflexivity.
Qed.

(** ** The title picked from the credits *)

Lemma counter_get_incr k k' counter :
  counter_get k (counter_incr k' counter)
  = (counter_get k counter + if (k' =? k)%Z then 1 else 0)%nat.
Proof.
  induction counter as [|[k0 n] counter IH]; simpl.
  - destruct (k' =? k)%Z; reflexivity.
  - destruct (Z.eqb_spec k0 k') as [->|N0]; simpl.
    + destruct (k' =? k)%Z; lia.
    + destruct (Z.eqb_spec k0 k) as [->|N1]; [|exact IH].
      destruct (Z.eqb_spec k' k) as [->|N2]; [congruence|lia].
Qed.

Lemma counter_incr_keys k counter :
  NoDup (map fst counter) ->
  NoDup (map fst (counter_incr k counter)) /\
  (forall k', In k' (map fst (counter_incr k counter)) <->
              k' = k \/ In k' (map fst counter)).
Proof.
  induction counter as [|[k0 n] counter IH]; simpl; intros Hnd.
  - split; [repeat constructor; intros H; inversion H|].
    intros k'. split; [intros [<-|[]]; auto|intros [->|[]]; auto].
  - apply NoDup_cons in Hnd as [Hnotin Hnd].
    destruct (IH Hnd) as [IH1 IH2].
    destruct (k0 =? k)%Z eqn:E; simpl.
    + apply Z.eqb_eq in E. subst k0.
      split; [apply NoDup_cons; auto|].
      intros k'. split; [intros [<-|H]; auto|intros [->|[<-|H]]; auto].
    + apply Z.eqb_neq in E. split.
      * apply NoDup_cons. split; [|exact IH1].
        rewrite list_elem_of_In, IH2. rewrite list_elem_of_In in Hnotin.
        intros [->|H]; [congruence|auto].
      * intros k'. rewrite IH2. tauto.
Qed.

Lemma counter_get_In k counter :
  NoDup (map fst counter) ->
  forall n, In (k, n) counter -> counter_get k counter = n.
Proof.
  induction counter as [|[k0 n0] counter IH]; simpl; intros Hnd n Hin; [tauto|].
  apply NoDup_cons in Hnd as [Hnotin Hnd].
  destruct Hin as [[= -> ->]|Hin].
  - rewrite Z.eqb_refl. reflexivity.
  - destruct (k0 =? k)%Z eqn:E; [|apply IH; auto].
    apply Z.eqb_eq in E. subst k0. exfalso. apply Hnotin.
    apply list_elem_of_In, in_map_iff. exists (k, n). auto.
Qed.

Lemma counter_get_notin k counter :
  ~ In k (map fst counter) -> counter_get k counter = 0%nat.
Proof.
  induction counter as [|[k0 n0] counter IH]; simpl; intros Hnot; [reflexivity|].
  destruct (k0 =? k)%Z eqn:E; [|apply IH; tauto].
  apply Z.eqb_eq in E. tauto.
Qed.

(** The head of [most_common()] holds a largest count. *)
Lemma most_common_first_max counter :
  match most_common_first counter with
  | Some (k, n) => In (k, n) counter /\
                   forall k' n', In (k', n') counter -> (n' <= n)%nat
  | None => counter = []
  end.
Proof.
  induction counter as [|[k0 n0] counter IH]; simpl; [reflexivity|].
  destruct (most_common_first counter) as [[k1 n1]|].
  - destruct IH as [Hin Hmax].
    destruct (n0 <? n1)%nat eqn:E.
    + apply Nat.ltb_lt in E. split; [auto|].
      intros k' n' [[= <- <-]|H]; [lia|eauto].
    + apply Nat.ltb_ge in E. split; [auto|].
      intros k' n' [[= <- <-]|H]; [lia|]. specialize (Hmax _ _ H). lia.
  - subst counter. split; [auto|]. intros k' n' [[= <- <-]|[]]. lia.
Qed.

(** What the counting loop maintains. *)
Lemma count_titles_spec all_results : forall counter info,
  NoDup (map fst counter) ->
  (forall k, In k (map fst counter) -> is_Some (info !! k)) ->
  (forall k it, info !! k = Some it -> item_id it = Some k) ->
  let '(counter', info') := count_titles all_results counter info in
  NoDup (map fst counter') /\
  (forall k, In k (map fst counter') -> is_Some (info' !! k)) /\
  (forall k it, info' !! k = Some it -> item_id it = Some k) /\
  (forall k, counter_get k counter'
             = (counter_get k counter + frequency k all_results)%nat).
Proof.
  induction all_results as [|item rest IH]; intros counter info Hnd Hdom Hid.
  - cbn. repeat split; auto.
  - cbn [count_titles]. destruct (item_id item) as [i|] eqn:Ei.
    + destruct (counter_incr_keys i counter Hnd) as [Hnd' Hkeys].
      specialize (IH (counter_incr i counter) (<[i:=item]> info) Hnd').
      destruct (count_titles rest (counter_incr i counter) (<[i:=item]> info))
        as [counter' info'].
      destruct IH as (H1 & H2 & H3 & H4).
      * intros k Hk. apply Hkeys in Hk as [->|Hk].
        -- rewrite lookup_insert_eq. eauto.
        -- destruct (decide (i = k)) as [->|Hne].
           ++ rewrite lookup_insert_eq. eauto.
           ++ rewrite lookup_insert_ne by exact Hne. auto.
      * intros k it. destruct (decide (i = k)) as [->|Hne].
        -- rewrite lookup_insert_eq. intros [= <-]. exact Ei.
        -- rewrite lookup_insert_ne by exact Hne. apply Hid.
      * repeat split; auto.
        intros k. rewrite H4, counter_get_incr.
        unfold frequency. cbn [List.filter]. rewrite Ei.
        destruct (i =? k)%Z; simpl; lia.
    + specialize (IH counter info Hnd Hdom Hid).
      destruct (count_titles rest counter info) as [counter' info'].
      destruct IH as (H1 & H2 & H3 & H4). repeat split; auto.
      intros k. rewrite H4. unfold frequency. cbn [List.filter].
      rewrite Ei. reflexivity.
Qed.

(** The acceptance test of the actor search, on the credits gathered:
    a title is returned exactly when the largest number of listings of
    one title reaches [min(2, number of resolved actors)], and the
    title returned is one with that largest number of listings. *)
Lemma pick_title_threshold ser actor_ids all_results :
  match pick_title ser actor_ids all_results with
  | (Some best, kind) =>
      kind = Some (negb ser) /\
      exists k, item_id best = Some k /\
        (Nat.min 2 (length actor_ids) <= frequency k all_results)%nat /\
        forall k', (frequency k' all_results <= frequency k all_results)%nat
  | (None, kind) =>
      kind = None /\
      (actor_ids <> [] ->
       forall k, (frequency k all_results < Nat.min 2 (length actor_ids))%nat)
  end.
Proof.
  unfold pick_title.
  pose proof (count_titles_spec all_results [] ∅) as Hspec.
  destruct (count_titles all_results [] ∅) as [counter info].
  destruct Hspec as (Hnd & Hdom & Hid & Hget).
  { constructor. } { intros k []. } { intros k it. rewrite lookup_empty. discriminate. }
  assert (forall k, counter_get k counter = frequency k all_results) as Hfreq
    by (intros k; rewrite Hget; reflexivity).
  pose proof (most_common_first_max counter) as Hmax.
  destruct (most_common_first counter) as [[best_id n]|].
  - destruct Hmax as [Hin Hmax].
    assert (frequency best_id all_results = n) as Hn
      by (rewrite <- Hfreq; apply counter_get_In; auto).
    assert (forall k', (frequency k' all_results <= n)%nat) as Hle.
    { intros k'. rewrite <- Hfreq.
      destruct (in_dec Z.eq_dec k' (map fst counter)) as [Hk|Hk].
      - apply in_map_iff in Hk as ([k1 n1] & <- & Hk). simpl.
        rewrite (counter_get_In _ _ Hnd _ Hk). eauto.
      - rewrite (counter_get_notin _ _ Hk). lia. }
    destruct (Hdom best_id) as [it Hit].
    { apply in_map_iff. exists (best_id, n). auto. }
    rewrite Hit.
    destruct (Nat.min 2 (length actor_ids) <=? n)%nat eqn:E.
    + apply Nat.leb_le in E. split; [reflexivity|].
      exists best_id. rewrite Hn. split; [eauto|]. split; [exact E|exact Hle].
    + apply Nat.leb_gt in E. split; [reflexivity|].
      intros _ k. specialize (Hle k). lia.
  - subst counter. split; [reflexivity|].
    intros Hids k. rewrite <- Hfreq. simpl.
    destruct actor_ids; [congruence|]. simpl. lia.
Qed.

(** C2 — three recognized actors, one title.  When the title is listed
    once, in the credits of one actor only, the search returns nothing;
    when the credits of that same single actor list it twice, the
    search returns it, although it still appears in the credits of one
    actor out of three: the count is over listings, not over actors. *)
Theorem title_of_one_actor_is_accepted :
  search_by_actors (Scenario.credits_net [Scenario.film]) Scenario.cast_names
    Scenario.plain_config false []
  = ((None, None),
     [SearchPerson "Ana"; SearchPerson "Ben"; SearchPerson "Cid";
      Credits false 1; Credits false 2; Credits false 3]) /\
  search_by_actors (Scenario.credits_net [Scenario.film; Scenario.film])
    Scenario.cast_names Scenario.plain_config false []
  = ((Some Scenario.film, Some true),
     [SearchPerson "Ana"; SearchPerson "Ben"; SearchPerson "Cid";
      Credits false 1; Credits false 2; Credits false 3]).
Proof. split; vm_compute; reflexivity. Qed.

End TmdbFacts.

(* ===================================================================== *)
(** * Properties of the identification pipeline *)
(* ===================================================================== *)

Module ProcessFacts.
Import PyStr Tmdb Process ChainSpec VideoAnalysis TmdbFacts.

Section Chain.
Variable net : Net.
Variable cfg : Config.

Lemma chain_result_nil last tr :
  chain_result net cfg [] last tr = (last, tr).
Proof. reflexivity. Qed.

Lemma chain_result_cons s rest last tr :
  chain_result net cfg (s :: rest) last tr
  = let (r, tr1) := run_source net cfg s tr in
    if truthy r then (r, tr1) else chain_result net cfg rest r tr1.
Proof.
  unfold chain_result. cbn [first_accepted]. unfold bind, ret.
  destruct (run_source net cfg s tr) as [r tr1].
  destruct (truthy r); [reflexivity|].
  destruct (first_accepted net cfg rest r tr1) as [[t r'] tr2]. reflexivity.
Qed.

Lemma chain_result_app l1 : forall l2 last tr,
  truthy last = false ->
  chain_result net cfg (l1 ++ l2) last tr
  = let (r1, tr1) := chain_result net cfg l1 last tr in
    if truthy r1 then (r1, tr1) else chain_result net cfg l2 r1 tr1.
Proof.
  induction l1 as [|s l1 IH]; intros l2 last tr Hlast.
  - rewrite chain_result_nil, Hlast. reflexivity.
  - cbn [app]. rewrite !chain_result_cons.
    destruct (run_source net cfg s tr) as [r tr1].
    destruct (truthy r) eqn:E; [rewrite E; reflexivity|].
    apply IH. exact E.
Qed.

(** The sources tried form a prefix of the list; none of them but the
    last gave a result; and when the last did not either, the whole
    list was tried. *)
Lemma first_accepted_prefix sources : forall last tr,
  truthy last = false ->
  let '(tried, r, _) := first_accepted net cfg sources last tr in
  tried `prefix_of` sources /\
  (truthy r = true -> tried <> []) /\
  (truthy r = false -> tried = sources).
Proof.
  induction sources as [|s rest IH]; intros last tr Hlast.
  - cbn. split; [reflexivity|]. split; congruence.
  - cbn [first_accepted]. unfold bind, ret.
    destruct (run_source net cfg s tr) as [r tr1].
    destruct (truthy r) eqn:E.
    + split; [apply prefix_cons, prefix_nil|].
      split; [discriminate|]. congruence.
    + specialize (IH r tr1 E).
      destruct (first_accepted net cfg rest r tr1) as [[tried r'] tr2].
      destruct IH as (Hp & Hne & Hall). cbn [fst snd].
      split; [apply prefix_cons; exact Hp|].
      split; [discriminate|].
      intros Hr'. rewrite (Hall Hr'). reflexivity.
Qed.

Lemma fragment_loop_chain texts : forall last tr,
  fragment_loop net cfg texts last tr
  = chain_result net cfg (flat_map title_sources texts) last tr.
Proof.
  induction texts as [|f texts IH]; intros last tr; [reflexivity|].
  cbn [flat_map title_sources app fragment_loop].
  rewrite chain_result_cons. cbn [run_source]. unfold bind, ret.
  destruct (search net cfg f false tr) as [r tr1].
  destruct (truthy r); [reflexivity|].
  rewrite chain_result_cons. cbn [run_source].
  destruct (search net cfg f true tr1) as [r2 tr2].
  destruct (truthy r2); [reflexivity|]. apply IH.
Qed.

Lemma omap_cons_eq {A B} (g : A -> option B) (x : A) (l : list A) :
  omap g (x :: l)
  = match g x with Some y => y :: omap g l | None => omap g l end.
Proof. reflexivity. Qed.

Lemma block_loop_chain blocks : forall last tr,
  block_loop net cfg blocks last tr
  = chain_result net cfg
      (flat_map title_sources (omap block_query blocks)) last tr.
Proof.
  induction blocks as [|b blocks IH]; intros last tr; [reflexivity|].
  cbn [block_loop]. rewrite omap_cons_eq. unfold block_query at 1.
  destruct (block_lines b) as [|l ls] eqn:E.
  - apply IH.
  - cbn [flat_map title_sources app].
    rewrite chain_result_cons. cbn [run_source]. unfold bind, ret.
    destruct (search net cfg (join " " (l :: ls)) false tr) as [r tr1].
    destruct (truthy r); [reflexivity|].
    rewrite chain_result_cons. cbn [run_source].
    destruct (search net cfg (join " " (l :: ls)) true tr1) as [r2 tr2].
    destruct (truthy r2); [reflexivity|]. apply IH.
Qed.

Variable clean_filename : string -> string.

Lemma chain_result_stage l1 l2 last tr :
  truthy last = false ->
  chain_result net cfg (l1 ++ l2) last tr
  = stage net cfg l2 (chain_result net cfg l1 last tr).
Proof.
  intros H. rewrite chain_result_app by exact H. unfold stage.
  destruct (chain_result net cfg l1 last tr) as [r1 tr1]. reflexivity.
Qed.

Lemma stage_app l1 l2 p :
  stage net cfg (l1 ++ l2) p = stage net cfg l2 (stage net cfg l1 p).
Proof.
  unfold stage. destruct p as [r tr]. cbn [fst snd].
  destruct (truthy r) eqn:E; cbn [fst snd]; [rewrite E; reflexivity|].
  rewrite chain_result_app by exact E.
  destruct (chain_result net cfg l1 r tr) as [r1 tr1]. reflexivity.
Qed.

Lemma stage_nil p : stage net cfg [] p = p.
Proof.
  unfold stage. destruct p as [r tr]. cbn [fst snd].
  destruct (truthy r); reflexivity.
Qed.

(** The search part of the pipeline is the chain over the candidate
    sources; its answer is then dressed by [prepare]. *)
Lemma identify_chain fn loc tr studios actors :
  detect cfg loc = Return (studios, actors) ->
  identify net clean_filename fn cfg loc tr
  = let (r, tr') :=
      chain_result net cfg
        (candidates (clean_filename fn) (content loc) actors) (None, None) tr in
    (Return (prepare fn loc r studios actors), tr').
Proof.
  intros Hdet. unfold candidates.
  rewrite chain_result_stage by reflexivity.
  rewrite !stage_app.
  unfold identify. rewrite Hdet. unfold bind, ret.
  set (name := clean_filename fn).
  change (title_sources name) with [ByTitle false name; ByTitle true name].
  rewrite chain_result_cons. cbn [run_source].
  destruct (search net cfg name false tr) as [r1 tr1].
  assert ((if negb (truthy r1) then search net cfg name true
           else fun tr0 => (r1, tr0)) tr1
          = (if truthy r1 then (r1, tr1)
             else chain_result net cfg [ByTitle true name] r1 tr1)) as ->.
  { destruct (truthy r1); cbn [negb]; [reflexivity|].
    rewrite chain_result_cons. cbn [run_source].
    destruct (search net cfg name true tr1) as [r2 tr2].
    destruct (truthy r2); reflexivity. }
  generalize (if truthy r1 then (r1, tr1)
              else chain_result net cfg [ByTitle true name] r1 tr1).
  intros [r2 tr2].
  assert ((if negb (truthy r2) && nonempty (ocr_text (content loc))
           then fragment_loop net cfg
                  (take 5 (ocr_fragments (ocr_text (content loc)))) r2
           else fun tr0 => (r2, tr0)) tr2
          = stage net cfg (flat_map title_sources (ocr_queries (content loc)))
                  (r2, tr2)) as ->.
  { unfold stage, ocr_queries. cbn [fst snd].
    destruct (truthy r2); cbn [negb andb]; [reflexivity|].
    destruct (nonempty (ocr_text (content loc)));
      [apply fragment_loop_chain|reflexivity]. }
  generalize (stage net cfg (flat_map title_sources (ocr_queries (content loc)))
                    (r2, tr2)).
  intros [r3 tr3].
  assert ((if negb (truthy r3) && nonempty (subtitles_text (content loc))
           then block_loop net cfg
                  (take 5 (split_blank_line (subtitles_text (content loc)))) r3
           else fun tr0 => (r3, tr0)) tr3
          = stage net cfg (flat_map title_sources (subtitle_queries (content loc)))
                  (r3, tr3)) as ->.
  { unfold stage, subtitle_queries. cbn [fst snd].
    destruct (truthy r3); cbn [negb andb]; [reflexivity|].
    destruct (nonempty (subtitles_text (content loc)));
      [apply block_loop_chain|reflexivity]. }
  generalize (stage net cfg (flat_map title_sources (subtitle_queries (content loc)))
                    (r3, tr3)).
  intros [r4 tr4].
  match goal with
  | |- (let (_, _) := ?e in _) = _ =>
      assert (e = stage net cfg (actor_sources actors) (r4, tr4)) as ->
  end.
  { unfold stage, actor_sources. cbn [fst snd].
    destruct (truthy r4); cbn [negb andb]; [reflexivity|].
    destruct actors as [|a actors']; [reflexivity|]. cbn [nonempty_list].
    rewrite chain_result_cons. cbn [run_source].
    destruct (search_by_actors net (a :: actors') cfg false tr4) as [r5 tr5].
    destruct (truthy r5); cbn [negb]; [reflexivity|].
    rewrite chain_result_cons. cbn [run_source].
    destruct (search_by_actors net (a :: actors') cfg true tr5) as [r6 tr6].
    destruct (truthy r6); reflexivity. }
  reflexivity.
Qed.

(** An exception of the local stage reaches the [except] branch, and
    nothing else does: the network cannot make the pipeline fail. *)
Lemma identify_raises fn loc tr msg :
  fst (identify net clean_filename fn cfg loc tr) = Raise msg <->
  detect cfg loc = Raise msg.
Proof.
  unfold identify, bind, ret.
  destruct (search net cfg (clean_filename fn) false tr) as [r1 tr1].
  destruct ((if negb (truthy r1) then search net cfg (clean_filename fn) true
             else fun tr0 => (r1, tr0)) tr1) as [r2 tr2].
  destruct ((if negb (truthy r2) && nonempty (ocr_text (content loc))
             then fragment_loop net cfg
                    (take 5 (ocr_fragments (ocr_text (content loc)))) r2
             else fun tr0 => (r2, tr0)) tr2) as [r3 tr3].
  destruct ((if negb (truthy r3) && nonempty (subtitles_text (content loc))
             then block_loop net cfg
                    (take 5 (split_blank_line (subtitles_text (content loc)))) r3
             else fun tr0 => (r3, tr0)) tr3) as [r4 tr4].
  destruct (detect cfg loc) as [m|[studios actors]]; cbn [fst].
  - split; congruence.
  - match goal with |- context [let (_, _) := ?e in _] => destruct e end.
    cbn [fst]. split; discriminate.
Qed.

Lemma process_single_video_chain fn loc tr studios actors :
  detect cfg loc = Return (studios, actors) ->
  process_single_video net clean_filename true fn cfg loc tr
  = let (r, tr') :=
      chain_result net cfg
        (candidates (clean_filename fn) (content loc) actors) (None, None) tr in
    (prepare fn loc r studios actors, tr').
Proof.
  intros Hdet. unfold process_single_video, bind, ret.
  rewrite (identify_chain fn loc tr studios actors Hdet).
  destruct (chain_result net cfg _ _ tr) as [r tr']. reflexivity.
Qed.

(** Every result of the pipeline is the invalid-file answer, the
    answer of the [except] branch, or an answer built by [prepare]. *)
Lemma process_single_video_shape valid fn loc tr :
  let res := fst (process_single_video net clean_filename valid fn cfg loc tr) in
  res = Invalid \/
  (exists msg, detect cfg loc = Raise msg /\ res = Failed ("Error: " +:+ msg)) \/
  (exists r studios actors,
      detect cfg loc = Return (studios, actors) /\
      res = prepare fn loc r studios actors).
Proof.
  destruct valid; [|left; reflexivity]. right.
  destruct (detect cfg loc) as [msg|[studios actors]] eqn:Hdet.
  - left. exists msg. split; [reflexivity|].
    unfold process_single_video, bind, ret.
    pose proof (proj2 (identify_raises fn loc tr msg) Hdet) as H.
    destruct (identify net clean_filename fn cfg loc tr) as [x tr'].
    cbn [fst] in H. subst x. reflexivity.
  - right. rewrite (process_single_video_chain fn loc tr studios actors Hdet).
    destruct (chain_result net cfg _ _ tr) as [r tr'].
    exists r, studios, actors. split; reflexivity.
Qed.

End Chain.

Lemma prepare_series fn loc r studios actors esp info q se ep st ac :
  prepare fn loc r studios actors = Identified esp info q se ep st ac ->
  esp <> Some true ->
  match extract_season_episode_from_filename fn with
  | Some (s, e) => se = Some s /\ ep = Some e
  | None => se = Some 1%N /\ ep = Some 1%N
  end.
Proof.
  unfold prepare. destruct (fst r) as [info'|]; [|discriminate].
  destruct (item_truthy info'); [|discriminate].
  destruct (snd r) as [[|]|];
    destruct (extract_season_episode_from_filename fn) as [[s e]|];
    intros [= <- <- <- <- <- <- <-] Hesp; try congruence; auto.
Qed.

Lemma run_title_unreachable net cfg q ser tr :
  unreachable_for net q ->
  run_source net cfg (ByTitle ser q) tr
  = ((None, None), tr ++ failing_requests (ByTitle ser q)).
Proof.
  intros H. cbn [run_source failing_requests]. unfold search.
  apply search_tmdb_multilang_all_fail. exact H.
Qed.

Lemma run_source_dead cfg s tr :
  run_source dead_net cfg s tr = ((None, None), tr ++ failing_requests s).
Proof.
  destruct s as [ser q|ser actors].
  - apply run_title_unreachable. intros ? ? ?. reflexivity.
  - cbn [run_source failing_requests]. destruct actors as [|a actors].
    + cbn. rewrite app_nil_r. reflexivity.
    + reflexivity.
Qed.

Lemma chain_result_dead cfg l : forall tr,
  chain_result dead_net cfg l (None, None) tr
  = ((None, None), tr ++ flat_map failing_requests l).
Proof.
  induction l as [|s l IH]; intros tr.
  - cbn. rewrite app_nil_r. reflexivity.
  - rewrite chain_result_cons, run_source_dead. cbn [truthy fst].
    rewrite IH. cbn [flat_map]. rewrite <- app_assoc. reflexivity.
Qed.

(** Network and API errors inside the [try].  (1) Whatever the
    network does, one metadata query runs at most [attempts] rounds,
    that is at most [attempts - 1] retries, of at most four requests
    each.  (2) A query whose every request raises is retried
    [attempts - 1] times, asked once more in both languages, and then
    given up with no result.  (3) The network never drives the body
    into its [except] branch: that answer is produced only when a
    local step raised.  (4) When the queries for the cleaned file name
    all fail, processing goes on with the remaining sources, from the
    log those failures left.  (5) On a network where every request
    raises, every candidate source is still tried, in order, and the
    file comes out unmatched with its studios and actors. *)
Lemma network_errors_inside_try :
  (forall net cfg q ser attempts tr,
      exists new,
        snd (search_tmdb_multilang net attempts cfg q ser tr) = tr ++ new /\
        (length new <= 4 * Nat.max attempts 1)%nat /\
        (rounds new <= Nat.max attempts 1)%nat) /\
  (forall net cfg q ser attempts tr,
      unreachable_for net q ->
      search_tmdb_multilang net attempts cfg q ser tr
      = ((None, None),
         tr ++ replicate (attempts - 1) (SearchTitle ser q "es")
            ++ [SearchTitle ser q "es"; SearchTitle ser q "en"])) /\
  (forall net clean_filename valid fn cfg loc tr msg,
      fst (process_single_video net clean_filename valid fn cfg loc tr)
        = Failed msg ->
      exists m, detect cfg loc = Raise m) /\
  (forall net clean_filename fn cfg loc tr studios actors,
      unreachable_for net (clean_filename fn) ->
      detect cfg loc = Return (studios, actors) ->
      process_single_video net clean_filename true fn cfg loc tr
      = let (r, tr') :=
          chain_result net cfg
            (flat_map title_sources (ocr_queries (content loc))
               ++ flat_map title_sources (subtitle_queries (content loc))
               ++ actor_sources actors)
            (None, None)
            (tr ++ failing_requests (ByTitle false (clean_filename fn))
                ++ failing_requests (ByTitle true (clean_filename fn))) in
        (prepare fn loc r studios actors, tr')) /\
  (forall clean_filename fn cfg loc tr studios actors,
      detect cfg loc = Return (studios, actors) ->
      process_single_video dead_net clean_filename true fn cfg loc tr
      = (NotIdentified (quality (content loc)) studios actors,
         tr ++ flat_map failing_requests
                 (candidates (clean_filename fn) (content loc) actors))).
Proof.
  split; [|split; [|split; [|split]]].
  - intros. apply search_tmdb_multilang_bounded.
  - intros. apply search_tmdb_multilang_all_fail. assumption.
  - intros net clean_filename valid fn cfg loc tr msg H.
    destruct (process_single_video_shape net cfg clean_filename valid fn loc tr)
      as [H1|[(m & Hm & _)|(r & studios & actors & _ & H1)]].
    + rewrite H1 in H. discriminate.
    + eauto.
    + rewrite H1 in H. unfold prepare in H.
      destruct (fst r) as [info|]; [|discriminate].
      destruct (item_truthy info); [|discriminate].
      destruct (snd r) as [[|]|];
        destruct (extract_season_episode_from_filename fn) as [[s e]|];
        discriminate.
  - intros net clean_filename fn cfg loc tr studios actors Hdead Hdet.
    rewrite (process_single_video_chain net cfg clean_filename fn loc tr
               studios actors Hdet).
    unfold candidates.
    change (title_sources (clean_filename fn) ++ ?l)
      with (ByTitle false (clean_filename fn)
              :: ByTitle true (clean_filename fn) :: l).
    rewrite chain_result_cons, (run_title_unreachable _ _ _ _ _ Hdead).
    cbn [truthy fst].
    rewrite chain_result_cons, (run_title_unreachable _ _ _ _ _ Hdead).
    cbn [truthy fst]. rewrite <- app_assoc. reflexivity.
  - intros clean_filename fn cfg loc tr studios actors Hdet.
    rewrite (process_single_video_chain dead_net cfg clean_filename fn loc tr
               studios actors Hdet).
    rewrite chain_result_dead. reflexivity.
Qed.

Lemma ocr_queries_bounds c :
  (length (ocr_queries c) <= 5)%nat /\
  Forall (fun q => (15 < String.length q)%nat) (ocr_queries c).
Proof.
  unfold ocr_queries. destruct (nonempty (ocr_text c)).
  - split; [rewrite length_take; lia|].
    apply Forall_take. unfold ocr_fragments.
    apply List.Forall_forall. intros q Hq.
    apply List.filter_In in Hq as [_ Hq]. apply Nat.ltb_lt. exact Hq.
  - split; [simpl; lia|constructor].
Qed.

Lemma omap_length_le {A B} (g : A -> option B) (l : list A) :
  (length (omap g l) <= length l)%nat.
Proof.
  induction l as [|x l IH]; [reflexivity|].
  rewrite omap_cons_eq. destruct (g x); simpl; lia.
Qed.

Lemma subtitle_queries_bound c : (length (subtitle_queries c) <= 5)%nat.
Proof.
  unfold subtitle_queries. destruct (nonempty (subtitles_text c)).
  - etransitivity; [apply omap_length_le|]. rewrite length_take. lia.
  - simpl. lia.
Qed.

(** The order of the fallback chain.  The pipeline behaves as the chain
    over [candidates]: cleaned name as movie then series, at most five
    OCR fragments longer than 15 characters, at most five subtitle
    queries, then the actors as movie then series.  The sources tried
    are a prefix of that list, which ends at the first source that gave
    a result; and a run in which none did ends unmatched, with the
    studios and actors detected. *)
Theorem fallback_chain_order
    (net : Net) (clean_filename : string -> string) (fn : string)
    (cfg : Config) (loc : Local) (tr : list Request)
    (studios actors : list string) :
  detect cfg loc = Return (studios, actors) ->
  let sources := candidates (clean_filename fn) (content loc) actors in
  let '(tried, r, tr') := first_accepted net cfg sources (None, None) tr in
  process_single_video net clean_filename true fn cfg loc tr
    = (prepare fn loc r studios actors, tr') /\
  tried `prefix_of` sources /\
  (truthy r = true -> tried <> []) /\
  (truthy r = false ->
     tried = sources /\
     prepare fn loc r studios actors
       = NotIdentified (quality (content loc)) studios actors) /\
  (length (ocr_queries (content loc)) <= 5)%nat /\
  Forall (fun q => (15 < String.length q)%nat) (ocr_queries (content loc)) /\
  (length (subtitle_queries (content loc)) <= 5)%nat.
Proof.
  intros Hdet sources.
  pose proof (process_single_video_chain net cfg clean_filename fn loc tr
                studios actors Hdet) as Hrun.
  pose proof (first_accepted_prefix net cfg sources (None, None) tr eq_refl)
    as Hpre.
  unfold chain_result, bind, ret in Hrun. fold sources in Hrun.
  destruct (first_accepted net cfg sources (None, None) tr) as [[tried r] tr'].
  cbn [snd] in Hrun. destruct Hpre as (Hp & Hne & Hall).
  split; [exact Hrun|]. split; [exact Hp|]. split; [exact Hne|].
  split.
  - intros Hr. split; [exact (Hall Hr)|].
    unfold prepare. unfold truthy in Hr.
    destruct (fst r) as [info|]; [|reflexivity]. rewrite Hr. reflexivity.
  - pose proof (ocr_queries_bounds (content loc)) as [H1 H2].
    pose proof (subtitle_queries_bound (content loc)) as H3. auto.
Qed.

Lemma fallback_chain_order_witness :
  detect Scenario.plain_config Scenario.srt_video = Return ([], []) /\
  let sources :=
    candidates (Scenario.keep_name "Juego de tronos.mkv")
               (content Scenario.srt_video) [] in
  let '(tried, r, tr') :=
    first_accepted Scenario.series_net Scenario.plain_config sources
                   (None, None) [] in
  process_single_video Scenario.series_net Scenario.keep_name true
    "Juego de tronos.mkv" Scenario.plain_config Scenario.srt_video []
    = (prepare "Juego de tronos.mkv" Scenario.srt_video r [] [], tr') /\
  tried `prefix_of` sources /\
  (truthy r = true -> tried <> []) /\
  (truthy r = false ->
     tried = sources /\
     prepare "Juego de tronos.mkv" Scenario.srt_video r [] []
       = NotIdentified (quality (content Scenario.srt_video)) [] []) /\
  (length (ocr_queries (content Scenario.srt_video)) <= 5)%nat /\
  Forall (fun q => (15 < String.length q)%nat)
         (ocr_queries (content Scenario.srt_video)) /\
  (length (subtitle_queries (content Scenario.srt_video)) <= 5)%nat.
Proof.
  split; [reflexivity|].
  exact (fallback_chain_order Scenario.series_net Scenario.keep_name
           "Juego de tronos.mkv" Scenario.plain_config
           Scenario.srt_video [] [] [] eq_refl).
Defined.

(** C1 — the subtitle stage on a SubRip block.  The line filter keeps
    every line that does not begin with the arrow, so the timing line
    of a block written by ffmpeg ("start arrow end") stays in the text
    of the query: it is sent to the metadata service together with the
    counter line and the dialogue. *)
Theorem subtitle_timing_line_is_queried :
  block_lines Scenario.srt_block
    = ["1"; "00:00:01,000 --> 00:00:04,000"; "Hello there"] /\
  block_query Scenario.srt_block
    = Some "1 00:00:01,000 --> 00:00:04,000 Hello there" /\
  In (SearchTitle false "1 00:00:01,000 --> 00:00:04,000 Hello there" "es")
     (snd (process_single_video dead_net Scenario.keep_name true "clip.mkv"
             Scenario.plain_config Scenario.srt_video [])).
Proof.
  split; [vm_compute; reflexivity|]. split; [vm_compute; reflexivity|].
  vm_compute. do 8 right. left. reflexivity.
Qed.

(** C10 — a result identified as a series always carries a season and
    an episode number: the pair read from the file name when the
    extraction finds one, and otherwise 1 and 1. *)
Theorem series_result_has_season_and_episode
    (net : Net) (clean_filename : string -> string) (valid : bool)
    (fn : string) (cfg : Config) (loc : Local) (tr : list Request)
    esp info q se ep st ac :
  fst (process_single_video net clean_filename valid fn cfg loc tr)
    = Identified esp info q se ep st ac ->
  esp <> Some true ->
  (exists s e, se = Some s /\ ep = Some e) /\
  (extract_season_episode_from_filename fn = None ->
     se = Some 1%N /\ ep = Some 1%N) /\
  (forall s e, extract_season_episode_from_filename fn = Some (s, e) ->
     se = Some s /\ ep = Some e).
Proof.
  intros Hres Hesp.
  destruct (process_single_video_shape net cfg clean_filename valid fn loc tr)
    as [H|[(msg & _ & H)|(r & studios & actors & _ & H)]];
    rewrite H in Hres; try discriminate.
  pose proof (prepare_series _ _ _ _ _ _ _ _ _ _ _ _ Hres Hesp) as Hp.
  destruct (extract_season_episode_from_filename fn) as [[s e]|].
  - destruct Hp as [-> ->]. split; [eauto|]. split; [discriminate|].
    intros s' e' [= <- <-]. auto.
  - destruct Hp as [-> ->]. split; [eauto|]. split; [auto|]. discriminate.
Qed.

Lemma series_result_has_season_and_episode_witness :
  fst (process_single_video Scenario.series_net Scenario.keep_name true
         "Juego de tronos.mkv" Scenario.plain_config Scenario.silent_video [])
    = Identified (Some false) Scenario.series_item "720p"
                 (Some 1%N) (Some 1%N) [] [] /\
  (exists s e, Some 1%N = Some s /\ Some 1%N = Some e) /\
  (extract_season_episode_from_filename "Juego de tronos.mkv" = None ->
     Some 1%N = Some 1%N /\ Some 1%N = Some 1%N) /\
  (forall s e,
      extract_season_episode_from_filename "Juego de tronos.mkv" = Some (s, e) ->
      Some 1%N = Some s /\ Some 1%N = Some e).
Proof.
  assert (fst (process_single_video Scenario.series_net Scenario.keep_name true
                 "Juego de tronos.mkv" Scenario.plain_config
                 Scenario.silent_video [])
          = Identified (Some false) Scenario.series_item "720p"
                       (Some 1%N) (Some 1%N) [] []) as H
    by (vm_compute; reflexivity).
  split; [exact H|].
  apply (series_result_has_season_and_episode _ _ _ _ _ _ _ _ _ _ _ _ _ _ H).
  discriminate.
Defined.

End ProcessFacts.

(* ===================================================================== *)
(** * Properties of the file operations *)
(* ===================================================================== *)

Module FilesOpsFacts.
Import PyStr FilesOps.

Lemma exists_path_true fs p : exists_path fs p = true <-> is_Some (fs !! p).
Proof.
  unfold exists_path. destruct (fs !! p); split; intros H; eauto.
  - discriminate.
  - destruct H; discriminate.
Qed.

Lemma exists_path_false fs p : exists_path fs p = false <-> fs !! p = None.
Proof.
  unfold exists_path. destruct (fs !! p); split; congruence.
Qed.

(** ** Restore *)

Lemma restore_row_moves io r st st' :
  restore_row io r st = Some st' ->
  moves st' = moves st \/
  (moves st' = moves st ++ [move_of r] /\ status r = "success" /\
   is_Some (r_files st !! ruta_nueva r)).
Proof.
  unfold restore_row.
  destruct (String.eqb (status r) "success") eqn:Es; cbn [andb];
    [|intros [= <-]; auto].
  destruct (exists_path (r_files st) (ruta_nueva r)) eqn:Ee;
    [|intros [= <-]; auto].
  destruct (makedirs_fails io (ruta_original r)); [discriminate|].
  destruct (move_fails io (ruta_nueva r) (ruta_original r));
    intros [= <-]; cbn; [auto|].
  right. split; [reflexivity|]. split.
  - apply String.eqb_eq. exact Es.
  - apply exists_path_true. exact Ee.
Qed.

Lemma restore_rows_moves io rows : forall st,
  exists done,
    moves (restore_rows io rows st) = moves st ++ map move_of done /\
    done `sublist_of` List.filter is_success rows.
Proof.
  induction rows as [|r rows IH]; intros st; cbn [restore_rows].
  - exists []. rewrite app_nil_r. split; [reflexivity|constructor].
  - destruct (restore_row io r st) as [st'|] eqn:E.
    + destruct (IH st') as (done & Hm & Hs).
      destruct (restore_row_moves _ _ _ _ E) as [H|(H & Hst & _)].
      * exists done. rewrite Hm, H. split; [reflexivity|].
        cbn [List.filter]. destruct (is_success r); [|exact Hs].
        apply sublist_cons. exact Hs.
      * exists (r :: done). rewrite Hm, H, <- app_assoc. split; [reflexivity|].
        cbn [List.filter]. unfold is_success at 1. rewrite Hst. cbn.
        apply sublist_skip. exact Hs.
    + exists []. rewrite app_nil_r. split; [reflexivity|apply sublist_nil_l].
Qed.

(** C5 — restore moves a file only for a row whose status is
    "success" and whose recorded new path still exists.  (1) A row with
    any other status leaves everything as it was.  (2) A success row
    whose new path is missing is skipped: no move, no restored count,
    no error count.  (3) A row that changes anything is a success row
    whose new path exists.  (4) Every move of a whole restore goes from
    the new path to the original path of some success row of the log.
    (5) A log with no eligible row restores nothing and reports no
    error. *)
Theorem restore_moves_only_existing_success_rows :
  (forall io r st, status r <> "success" -> restore_row io r st = Some st) /\
  (forall io r st,
      status r = "success" -> r_files st !! ruta_nueva r = None ->
      restore_row io r st = Some st) /\
  (forall io r st st',
      restore_row io r st = Some st' -> st' <> st ->
      status r = "success" /\ is_Some (r_files st !! ruta_nueva r)) /\
  (forall io d src dst,
      In (src, dst) (moves (restore_from_backup io d)) ->
      exists r, In r (backup d) /\ status r = "success" /\
                ruta_nueva r = src /\ ruta_original r = dst) /\
  (forall io d,
      (forall r, In r (backup d) ->
                 status r <> "success" \/ files d !! ruta_nueva r = None) ->
      restore_from_backup io d = mkRestore (files d) 0 0 []).
Proof.
  split; [|split; [|split; [|split]]].
  - intros io r st H. unfold restore_row.
    apply String.eqb_neq in H. rewrite H. reflexivity.
  - intros io r st _ H. unfold restore_row.
    apply exists_path_false in H. rewrite H, andb_false_r. reflexivity.
  - intros io r st st' H Hne. unfold restore_row in H.
    destruct (String.eqb (status r) "success") eqn:Es; cbn [andb] in H;
      [|congruence].
    destruct (exists_path (r_files st) (ruta_nueva r)) eqn:Ee; [|congruence].
    split; [apply String.eqb_eq; exact Es|apply exists_path_true; exact Ee].
  - intros io d src dst Hin. unfold restore_from_backup in Hin.
    destruct (restore_rows_moves io (backup d) (mkRestore (files d) 0 0 []))
      as (done & Hm & Hs).
    rewrite Hm in Hin. cbn [moves app] in Hin.
    apply in_map_iff in Hin as (r & Hr & Hin).
    apply list_elem_of_In in Hin.
    pose proof (elem_of_sublist _ _ _ Hin Hs) as Hf.
    apply list_elem_of_In, List.filter_In in Hf as [Hb Hsucc].
    exists r. split; [exact Hb|]. split; [apply String.eqb_eq; exact Hsucc|].
    unfold move_of in Hr. injection Hr as -> ->. auto.
  - intros io d Hall. unfold restore_from_backup.
    assert (forall rows st,
               (forall r, In r rows ->
                          status r <> "success" \/ files d !! ruta_nueva r = None) ->
               r_files st = files d ->
               restore_rows io rows st = st) as Hgen.
    { induction rows as [|r rows IH]; intros st Hrows Hfs; [reflexivity|].
      cbn [restore_rows].
      assert (restore_row io r st = Some st) as ->.
      { unfold restore_row. destruct (Hrows r (or_introl eq_refl)) as [H|H].
        - apply String.eqb_neq in H. rewrite H. reflexivity.
        - rewrite <- Hfs in H. apply exists_path_false in H.
          rewrite H, andb_false_r. reflexivity. }
      apply IH; [|exact Hfs]. intros r' Hr'. apply Hrows. right. exact Hr'. }
    apply Hgen; [exact Hall|reflexivity].
Qed.

Lemma restore_moves_only_existing_success_rows_witness :
  In ("lib/A.mkv", "in/a.mkv") (moves (restore_from_backup reliable placed_twice)) /\
  exists r, In r (backup placed_twice) /\ status r = "success" /\
            ruta_nueva r = "lib/A.mkv" /\ ruta_original r = "in/a.mkv".
Proof.
  assert (In ("lib/A.mkv", "in/a.mkv")
             (moves (restore_from_backup reliable placed_twice))) as H
    by (vm_compute; left; reflexivity).
  split; [exact H|].
  exact (proj1 (proj2 (proj2 (proj2 restore_moves_only_existing_success_rows)))
           reliable placed_twice _ _ H).
Defined.

Lemma move_keeps_others src dst fs p :
  p <> src -> is_Some (fs !! p) -> is_Some (move src dst fs !! p).
Proof.
  intros Hne Hp. unfold move. destruct (fs !! src) as [data|]; [|exact Hp].
  destruct (decide (dst = p)) as [->|Hd].
  - rewrite lookup_insert_eq. eauto.
  - rewrite lookup_insert_ne by exact Hd.
    rewrite lookup_delete_ne by congruence. exact Hp.
Qed.

Lemma restore_rows_reliable rows : forall st,
  NoDup (map ruta_nueva (List.filter is_success rows)) ->
  (forall r, In r rows -> is_success r = true ->
             is_Some (r_files st !! ruta_nueva r)) ->
  let st' := restore_rows reliable rows st in
  moves st' = moves st ++ map move_of (List.filter is_success rows) /\
  restored st' = (restored st + length (List.filter is_success rows))%nat /\
  errors st' = errors st.
Proof.
  induction rows as [|r rows IH]; intros st Hnd Hex; cbn [restore_rows].
  - cbn. rewrite app_nil_r, Nat.add_0_r. auto.
  - unfold restore_row. fold (is_success r).
    cbn [List.filter] in Hnd |- *.
    destruct (is_success r) eqn:Es; cbn [andb].
    + destruct (Hex r (or_introl eq_refl) Es) as [data Hdata].
      assert (exists_path (r_files st) (ruta_nueva r) = true) as ->
        by (apply exists_path_true; eauto).
      cbn [reliable makedirs_fails move_fails].
      cbn [map] in Hnd. apply NoDup_cons in Hnd as [Hnotin Hnd].
      match goal with
      | |- context [restore_rows reliable rows ?s] =>
          destruct (IH s Hnd) as (H1 & H2 & H3)
      end.
      { intros r' Hr' Es'. cbn [r_files].
        apply move_keeps_others; [|apply Hex; [right; exact Hr'|exact Es']].
        intros Heq. apply Hnotin. apply list_elem_of_In, in_map_iff.
        exists r'. split; [exact Heq|]. apply List.filter_In.
        split; assumption. }
      cbn [moves restored errors] in H1, H2, H3.
      rewrite H1, H2, H3, <- app_assoc. cbn. repeat split; lia.
    + apply IH; [exact Hnd|]. intros r' Hr'. apply Hex. right. exact Hr'.
Qed.

(** The loop reads the log front to back.  (1) Whatever fails on the
    way, the moves made are, in order, moves of success rows taken from
    the log front to back.  (2) When nothing fails, the new paths of the
    success rows are distinct and all of them still exist, every
    success row is replayed, the row appended first being moved first. *)
Lemma restore_replays_in_log_order :
  (forall io d,
      exists done,
        moves (restore_from_backup io d) = map move_of done /\
        done `sublist_of` List.filter is_success (backup d)) /\
  (forall d,
      NoDup (map ruta_nueva (List.filter is_success (backup d))) ->
      (forall r, In r (backup d) -> is_success r = true ->
                 is_Some (files d !! ruta_nueva r)) ->
      moves (restore_from_backup reliable d)
        = map move_of (List.filter is_success (backup d)) /\
      restored (restore_from_backup reliable d)
        = length (List.filter is_success (backup d)) /\
      errors (restore_from_backup reliable d) = 0%nat).
Proof.
  split.
  - intros io d. unfold restore_from_backup.
    destruct (restore_rows_moves io (backup d) (mkRestore (files d) 0 0 []))
      as (done & Hm & Hs).
    exists done. split; [exact Hm|exact Hs].
  - intros d Hnd Hex. unfold restore_from_backup.
    destruct (restore_rows_reliable (backup d) (mkRestore (files d) 0 0 [])
                Hnd Hex) as (H1 & H2 & H3).
    cbn [moves restored errors app] in H1, H2, H3. auto.
Qed.

(** The two success rows of [placed_twice] are not replayed in reverse:
    the row appended first is moved back first. *)
Lemma restore_is_not_reversed : ~ replays_in_reverse reliable placed_twice.
Proof.
  unfold replays_in_reverse. intros H. vm_compute in H. discriminate H.
Qed.

(** ** Placement *)

(** A move that finds the destination free, or finds it taken while
    the fallback name is free, keeps every other file as it was. *)
Lemma safe_move_file_keeps io src dst fs fs' :
  safe_move_file io src dst fs = (true, fs') ->
  (exists_path fs dst = true -> fs !! duplicate_name dst = None) ->
  forall p data, p <> src -> fs !! p = Some data -> fs' !! p = Some data.
Proof.
  unfold safe_move_file, duplicate_name. intros H Hfree p data Hne Hp.
  destruct (exists_path fs src) eqn:Es; cbn [negb] in H; [|discriminate].
  destruct (makedirs_fails io dst); [discriminate|].
  apply exists_path_true in Es as [sdata Hs].
  destruct (exists_path fs dst) eqn:Ed.
  - specialize (Hfree eq_refl).
    destruct (splitext dst) as [base ext].
    destruct (move_fails io src (base +:+ "_duplicado" +:+ ext)); [discriminate|].
    injection H as <-. unfold move. rewrite Hs.
    rewrite lookup_insert_ne by congruence.
    rewrite lookup_delete_ne by congruence. exact Hp.
  - apply exists_path_false in Ed.
    destruct (move_fails io src dst); [discriminate|].
    injection H as <-. unfold move. rewrite Hs.
    rewrite lookup_insert_ne by congruence.
    rewrite lookup_delete_ne by congruence. exact Hp.
Qed.

(** C7 — three files placed on the same destination name.  The first
    takes the name, the second takes the name with the collision
    suffix, and the third is given that same suffixed name: it replaces
    the second file, whose content is then nowhere on the disk, while
    each of the three moves reports success. *)
Theorem third_placement_overwrites_second :
  fst place_three = [true; true; true] /\
  snd place_three
    = {[ "out/Film.mkv" := "A"; "out/Film_duplicado.mkv" := "C" ]} /\
  ~ exists p, snd place_three !! p = Some "B".
Proof.
  assert (snd place_three
          = {[ "out/Film.mkv" := "A"; "out/Film_duplicado.mkv" := "C" ]}) as H
    by (vm_compute; reflexivity).
  split; [vm_compute; reflexivity|]. split; [exact H|].
  rewrite H. intros [p Hp].
  destruct (decide ("out/Film.mkv" = p)) as [<-|N1].
  - rewrite lookup_insert_eq in Hp. discriminate.
  - rewrite lookup_insert_ne in Hp by exact N1.
    destruct (decide ("out/Film_duplicado.mkv" = p)) as [<-|N2].
    + rewrite lookup_singleton_eq in Hp. discriminate.
    + rewrite lookup_singleton_ne in Hp by exact N2. discriminate.
Qed.

(** ** Statuses *)

(** C9, as the code has it — every row a file operation appends to the
    backup log carries one of the statuses "success", "error_origen",
    "error_mover", "no_action", or "error: " followed by the message of
    the exception; and each operation appends exactly one row, stamped
    with the time of the call. *)
Theorem appended_rows_have_written_status
    (Result : Type)
    (plan_destination : Result -> string -> string -> string + string)
    (io : IO) (now : string) (rename_files : bool) (video : string)
    (result_info : Result) (output_dir : string) (d : Disk) :
  let '(r, d') := batch_file_step Result plan_destination io now rename_files
                    video result_info output_dir d in
  written_status (status r) /\
  exists r', backup d' = backup d ++ [r'] /\
             status r' = status r /\ timestamp r' = now.
Proof.
  unfold batch_file_step, process_file_operation.
  destruct rename_files.
  - destruct (exists_path (files d) video); cbn [negb].
    + destruct (plan_destination result_info output_dir (basename video))
        as [e|dest_file].
      * split; [do 4 right; eexists; reflexivity|].
        eexists. split; [reflexivity|]. split; reflexivity.
      * destruct (safe_move_file io video dest_file (files d)) as [moved fs'].
        split.
        -- destruct moved; cbn; [left|right; right; left]; reflexivity.
        -- eexists. split; [reflexivity|]. split; reflexivity.
    + split; [right; left; reflexivity|].
      eexists. split; [reflexivity|]. split; reflexivity.
  - split; [do 3 right; left; reflexivity|].
    eexists. split; [reflexivity|]. split; reflexivity.
Qed.

(** A file operation on a source that does not exist writes the status
    "error_origen", which is none of the statuses the specification
    lists. *)
Lemma missing_source_status_is_not_listed :
  let r := fst (process_file_operation unit (fun _ _ _ => inr "out/x.mkv")
                  reliable "2025-01-01 00:00:00" "in/missing.mkv" tt "out"
                  (mkDisk ∅ [])) in
  status r = "error_origen" /\ ~ listed_status (status r).
Proof.
  split; [reflexivity|].
  cbn. intros [H|[H|[H|[H|[msg H]]]]]; discriminate H.
Qed.

End FilesOpsFacts.

(* ===================================================================== *)
(** * Properties of the logo detector *)
(* ===================================================================== *)

Module StudioDetectFacts.
Import PyFloat StudioDetect.

Lemma Qgt_bool_iff a b : negb (Qle_bool a b) = true <-> (b < a)%Q.
Proof.
  destruct (Qle_bool a b) eqn:E; cbn.
  - apply Qle_bool_iff in E. split; [discriminate|].
    intros H. exfalso. exact (Qlt_not_le _ _ H E).
  - split; [|reflexivity]. intros _. apply Qnot_le_lt.
    intros H. apply Qle_bool_iff in H. congruence.
Qed.

Lemma best_of_max rest : forall best,
  In (best_of best rest) (best :: rest) /\
  forall x, In x (best :: rest) -> (snd x <= snd (best_of best rest))%Q.
Proof.
  induction rest as [|m rest IH]; intros best; cbn [best_of].
  - split; [left; reflexivity|]. intros x [<-|[]]. apply Qle_refl.
  - destruct (negb (Qle_bool (snd m) (snd best))) eqn:E.
    + apply Qgt_bool_iff in E. destruct (IH m) as [Hin Hmax].
      split; [right; exact Hin|].
      intros x [<-|Hx]; [|exact (Hmax x Hx)].
      apply Qlt_le_weak. eapply Qlt_le_trans; [exact E|].
      apply Hmax. left. reflexivity.
    + destruct (IH best) as [Hin Hmax].
      assert (snd m <= snd best)%Q as Hm.
      { apply Qle_bool_iff. destruct (Qle_bool (snd m) (snd best));
          [reflexivity|discriminate]. }
      split.
      * destruct Hin as [Hin|Hin]; [left; exact Hin|right; right; exact Hin].
      * intros x [<-|[<-|Hx]].
        -- apply Hmax. left. reflexivity.
        -- eapply Qle_trans; [exact Hm|]. apply Hmax. left. reflexivity.
        -- apply Hmax. right. exact Hx.
Qed.

(** The default threshold is the float written [0.7]. *)
Lemma default_threshold_is_the_float :
  match to_Q seven_tenths with
  | Some q => (q == default_threshold)%Q
  | None => False
  end.
Proof. vm_compute. reflexivity. Qed.

(** Floats and rationals part: a logo of 1025 by 1025 on a frame of
    720 by 1280 is reduced to 575 by 575 by the floats of the code,
    where exact arithmetic gives 576 by 576. *)
Lemma floats_round_below_the_exact_size :
  float_size 1025 1025 720 1280 = (Some 575%Z, Some 575%Z) /\
  exact_size 1025 1025 720 1280 = (576%Z, 576%Z).
Proof. split; vm_compute; reflexivity. Qed.

Section Cv2.
Variable Image : Type.
Variable shape : Image -> Z * Z.
Variable imread : string -> option Image.
Variable resize : Image -> Z -> Z -> option Image.
Variable max_corr : Image -> Image -> option Q.

Local Abbreviation probe := (probe Image shape imread resize max_corr).
Local Abbreviation accepted := (accepted Image shape imread resize max_corr).
Local Abbreviation collect_matches :=
  (collect_matches Image shape imread resize max_corr).
Local Abbreviation detect :=
  (detect_studio_from_logo Image shape imread resize max_corr true true).

Lemma collect_matches_spec image thr logos : forall acc ms,
  collect_matches image thr logos acc = Some ms ->
  forall studio v,
    In (studio, v) ms <->
    In (studio, v) acc \/
    exists path, In (studio, path) logos /\ accepted image thr path v.
Proof.
  induction logos as [|[s p] logos IH]; intros acc ms H studio v;
    cbn [StudioDetect.collect_matches] in H.
  - injection H as <-. split; [auto|]. intros [H|(path & [] & _)]. exact H.
  - destruct (probe image p) as [| |max_val] eqn:Ep; [|discriminate|].
    + rewrite (IH _ _ H). split.
      * intros [Ha|(path & Hin & Hacc)]; [auto|].
        right. exists path. split; [right; exact Hin|exact Hacc].
      * intros [Ha|(path & [[= <- <-]|Hin] & Hacc)]; [auto| |eauto].
        destruct Hacc as [Hacc _]. congruence.
    + destruct (Qle_bool thr max_val) eqn:Et.
      * rewrite (IH _ _ H). rewrite in_app_iff. split.
        -- intros [[Ha|[[= <- <-]|[]]]|(path & Hin & Hacc)]; [auto| |].
           ++ right. exists p. split; [left; reflexivity|].
              split; [exact Ep|apply Qle_bool_iff; exact Et].
           ++ right. exists path. split; [right; exact Hin|exact Hacc].
        -- intros [Ha|(path & [[= <- <-]|Hin] & Hacc)]; [auto| |eauto].
           destruct Hacc as [Hacc _]. rewrite Ep in Hacc.
           injection Hacc as <-. left. right. left. reflexivity.
      * rewrite (IH _ _ H). split.
        -- intros [Ha|(path & Hin & Hacc)]; [auto|].
           right. exists path. split; [right; exact Hin|exact Hacc].
        -- intros [Ha|(path & [[= <- <-]|Hin] & Hacc)]; [auto| |eauto].
           destruct Hacc as [Hacc Hle]. rewrite Ep in Hacc.
           injection Hacc as <-. apply Qle_bool_iff in Hle. congruence.
Qed.

Lemma collect_matches_total image thr logos : forall acc,
  (forall studio path, In (studio, path) logos -> probe image path <> Raised) ->
  is_Some (collect_matches image thr logos acc).
Proof.
  induction logos as [|[s p] logos IH]; intros acc Hok;
    cbn [StudioDetect.collect_matches]; [eauto|].
  assert (forall studio path, In (studio, path) logos ->
                              probe image path <> Raised) as Hok'
    by (intros studio path Hin; apply (Hok studio path); right; exact Hin).
  destruct (probe image p) as [| |max_val] eqn:Ep.
  - apply IH. exact Hok'.
  - exfalso. apply (Hok s p); [left; reflexivity|exact Ep].
  - destruct (Qle_bool thr max_val); apply IH; exact Hok'.
Qed.

Lemma collect_matches_raised image thr logos : forall acc,
  (exists studio path, In (studio, path) logos /\ probe image path = Raised) ->
  collect_matches image thr logos acc = None.
Proof.
  induction logos as [|[s p] logos IH]; intros acc (studio & path & Hin & Hr);
    [destruct Hin|].
  cbn [StudioDetect.collect_matches].
  destruct Hin as [[= <- <-]|Hin]; [rewrite Hr; reflexivity|].
  assert (exists studio path, In (studio, path) logos /\
                              probe image path = Raised) as Hrest by eauto.
  destruct (probe image p) as [| |max_val]; [apply IH, Hrest|reflexivity|].
  destruct (Qle_bool thr max_val); apply IH, Hrest.
Qed.

Lemma detect_raised image thr logos :
  (exists studio path, In (studio, path) logos /\ probe image path = Raised) ->
  detect logos image thr = None.
Proof.
  intros H. unfold detect_studio_from_logo. cbn [negb orb].
  destruct logos as [|l logos']; [reflexivity|].
  rewrite (collect_matches_raised image thr (l :: logos') [] H). reflexivity.
Qed.


End Cv2.



End StudioDetectFacts.

(* ===================================================================== *)
(** * The definitions at work on small inputs *)
(* ===================================================================== *)

Module Runs.
Import PyStr VideoAnalysis Process ChainSpec FilesOps.

Example extract_SxxEyy :
  extract_season_episode_from_filename "Show.S01E02.mkv" = Some (1, 2)%N.
Proof. reflexivity. Qed.

Example extract_lower_case :
  extract_season_episode_from_filename "show.s03e11.720p.mkv" = Some (3, 11)%N.
Proof. reflexivity. Qed.

Example extract_NxNN :
  extract_season_episode_from_filename "Show 2x05.avi" = Some (2, 5)%N.
Proof. reflexivity. Qed.

Example extract_SxxEyy_before_NxNN :
  extract_season_episode_from_filename "Show 2x05 S01E02.avi" = Some (1, 2)%N.
Proof. reflexivity. Qed.

(** The third pattern of the list reads three or four digits between
    two other characters as season and episode. *)
Example extract_compact :
  extract_season_episode_from_filename "Show 102 .mkv" = Some (1, 2)%N /\
  extract_season_episode_from_filename "Film 1080p.mkv" = Some (10, 80)%N.
Proof. split; reflexivity. Qed.

Example extract_nothing :
  extract_season_episode_from_filename "Film.mkv" = None.
Proof. reflexivity. Qed.

Example fragments_of_ocr :
  ocr_fragments ("short" +:+ Scenario.nl +:+ "   a line that is long enough  ")
  = ["a line that is long enough"].
Proof. reflexivity. Qed.

Example arrow_line_is_dropped :
  block_query ("--> cue" +:+ Scenario.nl +:+ "Hello there") = Some "Hello there".
Proof. reflexivity. Qed.

Example splitext_film :
  splitext "out/Film.mkv" = ("out/Film", ".mkv") /\
  splitext "out.d/Film" = ("out.d/Film", "") /\
  duplicate_name "out/Film.mkv" = "out/Film_duplicado.mkv".
Proof. repeat split; reflexivity. Qed.

End Runs.

(* ===================================================================== *)
(** * More on the metadata searches *)
(* ===================================================================== *)

Module TmdbMore.
Import PyStr Tmdb ChainSpec TmdbSpec TmdbFacts.

Lemma try_language_typed net cfg q ser lang best tr :
  well_typed ser best ->
  match fst (try_language net cfg q ser lang best tr) with
  | Some best' => well_typed ser best'
  | None => True
  end.
Proof.
  intros Hb. unfold try_language, bind, ret, http_get.
  destruct (net tr (SearchTitle ser q lang)) as [|status items obj]; cbn; [exact I|].
  destruct (status =? 200)%Z; cbn; [|exact Hb].
  destruct items as [|result items]; cbn; [exact Hb|].
  destruct (improves result (fst best)); cbn; [|exact Hb].
  destruct (negb (String.eqb lang "en") && String.eqb (output_language cfg) "en");
    cbn; [|reflexivity].
  destruct (item_id result) as [i|]; cbn; [|exact I].
  destruct (net (tr ++ [SearchTitle ser q lang]) (Details ser i)); cbn;
    [exact I|reflexivity].
Qed.

Lemma lang_loop_typed net retry cfg q ser :
  (forall again, retry = Some again ->
                 forall tr, well_typed ser (fst (again tr))) ->
  forall langs best tr,
    well_typed ser best ->
    well_typed ser (fst (lang_loop net retry cfg q ser langs best tr)).
Proof.
  intros Hretry. induction langs as [|lang langs IH]; intros best tr Hb.
  - exact Hb.
  - cbn [lang_loop]. unfold bind.
    pose proof (try_language_typed net cfg q ser lang best tr Hb) as Ht.
    destruct (try_language net cfg q ser lang best tr) as [[best'|] tr1];
      cbn [fst] in Ht.
    + apply IH. exact Ht.
    + destruct retry as [again|]; [apply (Hretry again eq_refl)|].
      apply IH. exact Hb.
Qed.

Lemma search_tmdb_multilang_typed net cfg q ser attempts : forall tr,
  well_typed ser (fst (search_tmdb_multilang net attempts cfg q ser tr)).
Proof.
  induction attempts as [|[|n] IH]; intros tr.
  - apply (lang_loop_typed net None); [discriminate|exact I].
  - apply (lang_loop_typed net None); [discriminate|exact I].
  - apply (lang_loop_typed net
             (Some (search_tmdb_multilang net (S n) cfg q ser)));
      [|exact I].
    intros again [= <-]. exact IH.
Qed.

Lemma pick_title_typed ser actor_ids all_results :
  well_typed ser (pick_title ser actor_ids all_results).
Proof.
  pose proof (pick_title_threshold ser actor_ids all_results) as H.
  destruct (pick_title ser actor_ids all_results) as [[best|] kind].
  - destruct H as [-> _]. reflexivity.
  - destruct H as [-> _]. exact I.
Qed.

Lemma search_by_actors_typed net actors cfg ser tr :
  well_typed ser (fst (search_by_actors net actors cfg ser tr)).
Proof.
  unfold search_by_actors. destruct actors as [|a actors]; [exact I|].
  unfold bind, ret.
  destruct (resolve_actors net (a :: actors) [] tr) as [[[|i ids]|] tr1];
    try exact I.
  destruct (collect_credits net ser (i :: ids) [] tr1) as [[all_results|] tr2];
    [|exact I].
  apply pick_title_typed.
Qed.

(** X1 — both searches answer with nothing at all or with a result
    together with its kind, and the kind is always the one asked for:
    a movie search never labels its result a series, nor the other way
    round, whatever the network answers. *)
Theorem search_results_carry_their_kind
    (net : Net) (cfg : Config) (q : string) (actors : list string)
    (ser : bool) (attempts : nat) (tr : list Request) :
  well_typed ser (fst (search_tmdb_multilang net attempts cfg q ser tr)) /\
  well_typed ser (fst (search_by_actors net actors cfg ser tr)).
Proof.
  split; [apply search_tmdb_multilang_typed|apply search_by_actors_typed].
Qed.

(** ** What is asked of the service *)

Lemma resolve_actors_requests net actors : forall ids tr,
  exists new,
    snd (resolve_actors net actors ids tr) = tr ++ new /\
    (length new <= length actors)%nat /\
    Forall (fun r => exists a, In a actors /\ r = SearchPerson a) new /\
    forall ids', fst (resolve_actors net actors ids tr) = Some ids' ->
                 (length ids' <= length ids + length actors)%nat.
Proof.
  induction actors as [|a actors IH]; intros ids tr.
  - exists []. cbn. rewrite app_nil_r. split; [reflexivity|].
    split; [lia|]. split; [constructor|]. intros ids' [= <-]. lia.
  - cbn [resolve_actors]. unfold bind, ret, http_get.
    assert (forall ids0,
               exists new,
                 snd (resolve_actors net actors ids0 (tr ++ [SearchPerson a]))
                 = tr ++ new /\
                 (length new <= length (a :: actors))%nat /\
                 Forall (fun r => exists a0, In a0 (a :: actors) /\
                                             r = SearchPerson a0) new /\
                 forall ids',
                   fst (resolve_actors net actors ids0 (tr ++ [SearchPerson a]))
                   = Some ids' ->
                   (length ids' <= length ids0 + length actors)%nat) as Hrec.
    { intros ids0.
      destruct (IH ids0 (tr ++ [SearchPerson a])) as (new & H & L & F & I).
      exists (SearchPerson a :: new). rewrite H, <- app_assoc.
      split; [reflexivity|]. split; [cbn; lia|]. split; [|exact I].
      constructor; [exists a; split; [left|]; reflexivity|].
      eapply Forall_impl; [exact F|].
      intros r (a0 & Ha0 & ->). exists a0. split; [right; exact Ha0|reflexivity]. }
    assert (exists new,
               tr ++ [SearchPerson a] = tr ++ new /\
               (length new <= length (a :: actors))%nat /\
               Forall (fun r => exists a0, In a0 (a :: actors) /\
                                           r = SearchPerson a0) new) as Hstop.
    { exists [SearchPerson a]. split; [reflexivity|]. split; [cbn; lia|].
      constructor; [|constructor]. exists a. split; [left|]; reflexivity. }
    destruct (net tr (SearchPerson a)) as [|status items obj]; cbn [fst snd].
    + destruct Hstop as (new & H & L & F). exists new. repeat split; auto.
      discriminate.
    + destruct (status =? 200)%Z.
      * destruct items as [|first items].
        -- destruct (Hrec ids) as (new & H & L & F & I).
           exists new. repeat split; auto. intros ids' Hi.
           specialize (I ids' Hi). cbn. lia.
        -- destruct (item_id first) as [i|].
           ++ destruct (Hrec (ids ++ [i])) as (new & H & L & F & I).
              exists new. repeat split; auto. intros ids' Hi.
              specialize (I ids' Hi). rewrite length_app in I. cbn in *. lia.
           ++ destruct Hstop as (new & H & L & F). exists new.
              repeat split; auto. discriminate.
      * destruct (Hrec ids) as (new & H & L & F & I).
        exists new. repeat split; auto. intros ids' Hi.
        specialize (I ids' Hi). cbn. lia.
Qed.

Lemma collect_credits_requests net ser ids : forall all_results tr,
  exists new,
    snd (collect_credits net ser ids all_results tr) = tr ++ new /\
    (length new <= length ids)%nat /\
    Forall (fun r => exists i, r = Credits ser i) new.
Proof.
  induction ids as [|i ids IH]; intros all_results tr.
  - exists []. cbn. rewrite app_nil_r. split; [reflexivity|].
    split; [lia|constructor].
  - cbn [collect_credits]. unfold bind, ret, http_get.
    assert (forall all0,
               exists new,
                 snd (collect_credits net ser ids all0 (tr ++ [Credits ser i]))
                 = tr ++ new /\
                 (length new <= length (i :: ids))%nat /\
                 Forall (fun r => exists j, r = Credits ser j) new) as Hrec.
    { intros all0.
      destruct (IH all0 (tr ++ [Credits ser i])) as (new & H & L & F).
      exists (Credits ser i :: new). rewrite H, <- app_assoc.
      split; [reflexivity|]. split; [cbn; lia|].
      constructor; [eauto|exact F]. }
    destruct (net tr (Credits ser i)) as [|status items obj]; cbn [snd].
    + exists [Credits ser i]. split; [reflexivity|]. split; [cbn; lia|].
      constructor; [eauto|constructor].
    + destruct (status =? 200)%Z; apply Hrec.
Qed.

(** X3 — the actor search issues at most two requests for each
    recognized actor, one to resolve the name and one for the credits,
    and nothing else; with no actor it stays silent. *)
Theorem actor_search_traffic
    (net : Net) (actors : list string) (cfg : Config) (ser : bool)
    (tr : list Request) :
  exists new,
    snd (search_by_actors net actors cfg ser tr) = tr ++ new /\
    (length new <= 2 * length actors)%nat /\
    Forall (actor_request ser actors) new.
Proof.
  unfold search_by_actors. destruct actors as [|a actors].
  { exists []. cbn. rewrite app_nil_r. split; [reflexivity|].
    split; [lia|constructor]. }
  unfold bind, ret.
  destruct (resolve_actors_requests net (a :: actors) [] tr)
    as (n1 & H1 & L1 & F1 & I1).
  assert (Forall (actor_request ser (a :: actors)) n1) as F1'.
  { eapply Forall_impl; [exact F1|]. intros r Hr. left. exact Hr. }
  destruct (resolve_actors net (a :: actors) [] tr) as [[[|i ids]|] tr1];
    cbn [fst snd] in *; subst tr1.
  - exists n1. split; [reflexivity|]. split; [lia|exact F1'].
  - specialize (I1 (i :: ids) eq_refl).
    destruct (collect_credits_requests net ser (i :: ids) [] (tr ++ n1))
      as (n2 & H2 & L2 & F2).
    assert (Forall (actor_request ser (a :: actors)) (n1 ++ n2)) as F12.
    { apply Forall_app. split; [exact F1'|].
      eapply Forall_impl; [exact F2|]. intros r Hr. right. exact Hr. }
    destruct (collect_credits net ser (i :: ids) [] (tr ++ n1))
      as [[all_results|] tr2]; cbn [snd] in *; subst tr2;
      exists (n1 ++ n2); rewrite app_assoc;
      (split; [reflexivity|]; split; [|exact F12]);
      rewrite length_app; cbn in *; lia.
  - exists n1. split; [reflexivity|]. split; [lia|exact F1'].
Qed.

(** X4 — when the service answers the search in both languages and the
    output language is not English, the Spanish result is kept unless
    the English one is strictly more popular; equal popularity keeps
    the Spanish one.  Two requests are made, whatever [attempts] is. *)
Theorem more_popular_language_wins
    (net : Net) (cfg : Config) (q : string) (ser : bool) (attempts : nat)
    (tr : list Request) (a b : Item) (la lb : list Item) (oa ob : Item) :
  output_language cfg <> "en" ->
  (forall log, net log (SearchTitle ser q "es") = Response 200 (a :: la) oa) ->
  (forall log, net log (SearchTitle ser q "en") = Response 200 (b :: lb) ob) ->
  search_tmdb_multilang net attempts cfg q ser tr
  = ((Some (if Qle_bool (popularity b) (popularity a) then a else b),
      Some (negb ser)),
     tr ++ [SearchTitle ser q "es"; SearchTitle ser q "en"]).
Proof.
  intros Hout Hes Hen. apply String.eqb_neq in Hout.
  assert (forall retry,
             lang_loop net retry cfg q ser languages (None, None) tr
             = ((Some (if Qle_bool (popularity b) (popularity a) then a else b),
                 Some (negb ser)),
                tr ++ [SearchTitle ser q "es"; SearchTitle ser q "en"])) as H.
  { intros retry. cbn [lang_loop languages]. unfold bind.
    unfold try_language at 1. unfold bind, ret, http_get.
    rewrite Hes. cbn [Z.eqb Pos.eqb improves fst]. rewrite Hout, andb_false_r.
    cbn [lang_loop]. unfold bind. unfold try_language, bind, ret, http_get.
    rewrite Hen. cbn [Z.eqb Pos.eqb improves fst].
    cbn [String.eqb Ascii.eqb Bool.eqb negb andb].
    rewrite <- app_assoc. cbn [app].
    destruct (Qle_bool (popularity b) (popularity a)); reflexivity. }
  destruct attempts as [|[|n]]; apply H.
Qed.

Lemma more_popular_language_wins_witness :
  output_language Scenario.plain_config <> "en" /\
  search_tmdb_multilang (two_answers Scenario.film Scenario.series_item)
    default_attempts Scenario.plain_config "Matrix" false []
  = ((Some Scenario.film, Some true),
     [SearchTitle false "Matrix" "es"; SearchTitle false "Matrix" "en"]).
Proof.
  assert (output_language Scenario.plain_config <> "en") as H by discriminate.
  split; [exact H|].
  exact (more_popular_language_wins
           (two_answers Scenario.film Scenario.series_item)
           Scenario.plain_config "Matrix" false default_attempts []
           Scenario.film Scenario.series_item [] [] Scenario.film
           Scenario.series_item H (fun _ => eq_refl) (fun _ => eq_refl)).
Defined.

End TmdbMore.

(* ===================================================================== *)
(** * More on the pipeline *)
(* ===================================================================== *)

Module ProcessMore.
Import PyStr Tmdb Process ChainSpec TmdbSpec VideoAnalysis TmdbFacts
       TmdbMore ProcessFacts.

Lemma run_source_typed net cfg s tr :
  exists ser, well_typed ser (fst (run_source net cfg s tr)).
Proof.
  destruct s as [ser q|ser actors]; exists ser; cbn [run_source].
  - apply search_tmdb_multilang_typed.
  - apply search_by_actors_typed.
Qed.

Lemma chain_result_typed net cfg sources : forall last tr,
  (exists ser, well_typed ser last) ->
  exists ser, well_typed ser (fst (chain_result net cfg sources last tr)).
Proof.
  induction sources as [|s sources IH]; intros last tr Hlast.
  - exact Hlast.
  - rewrite chain_result_cons.
    pose proof (run_source_typed net cfg s tr) as Hs.
    destruct (run_source net cfg s tr) as [r tr1]. cbn [fst] in Hs.
    destruct (truthy r); [exact Hs|]. apply IH. exact Hs.
Qed.

Lemma prepare_typed ser fn loc r studios actors esp info q se ep st ac :
  well_typed ser r ->
  prepare fn loc r studios actors = Identified esp info q se ep st ac ->
  item_truthy info = true /\ q = quality (content loc) /\
  st = studios /\ ac = actors /\
  ((esp = Some true /\ se = None /\ ep = None) \/
   (esp = Some false /\ is_Some se /\ is_Some ep)).
Proof.
  unfold prepare. destruct r as [[info'|] [t|]]; cbn [fst snd well_typed];
    try contradiction; try discriminate.
  intros ->. destruct (item_truthy info') eqn:Et; [|discriminate].
  destruct ser; cbn [negb].
  - destruct (extract_season_episode_from_filename fn) as [[s e]|];
      intros [= <- <- <- <- <- <- <-]; repeat split; auto; right; eauto.
  - intros [= <- <- <- <- <- <- <-]. repeat split; auto.
Qed.

(** X5 — an identified result is complete and consistent: its info is
    a non-empty record, its quality is the one measured, its studios
    and actors are those detected, and it is either a movie without
    season and episode or a series with both. *)
Theorem identified_result_is_consistent
    (net : Net) (clean_filename : string -> string) (valid : bool)
    (fn : string) (cfg : Config) (loc : Local) (tr : list Request)
    esp info q se ep st ac :
  fst (process_single_video net clean_filename valid fn cfg loc tr)
    = Identified esp info q se ep st ac ->
  item_truthy info = true /\ q = quality (content loc) /\
  detect cfg loc = Return (st, ac) /\
  ((esp = Some true /\ se = None /\ ep = None) \/
   (esp = Some false /\ is_Some se /\ is_Some ep)).
Proof.
  intros Hres. destruct valid; [|discriminate].
  destruct (detect cfg loc) as [msg|[studios actors]] eqn:Hdet.
  - destruct (process_single_video_shape net cfg clean_filename true fn loc tr)
      as [H|[(m & _ & H)|(r & s & a & Hd & _)]]; try congruence.
  - rewrite (process_single_video_chain net cfg clean_filename fn loc tr
               studios actors Hdet) in Hres.
    destruct (chain_result_typed net cfg
                (candidates (clean_filename fn) (content loc) actors)
                (None, None) tr) as [ser Hty]; [exists false; exact I|].
    destruct (chain_result net cfg _ _ tr) as [r tr']. cbn [fst] in *.
    destruct (prepare_typed _ _ _ _ _ _ _ _ _ _ _ _ _ Hty Hres)
      as (H1 & H2 & -> & -> & H5).
    auto.
Qed.

Lemma identified_result_is_consistent_witness :
  fst (process_single_video Scenario.series_net Scenario.keep_name true
         "Juego de tronos.mkv" Scenario.plain_config Scenario.silent_video [])
    = Identified (Some false) Scenario.series_item "720p"
                 (Some 1%N) (Some 1%N) [] [] /\
  item_truthy Scenario.series_item = true.
Proof.
  assert (fst (process_single_video Scenario.series_net Scenario.keep_name true
                 "Juego de tronos.mkv" Scenario.plain_config
                 Scenario.silent_video [])
          = Identified (Some false) Scenario.series_item "720p"
                       (Some 1%N) (Some 1%N) [] []) as H
    by (vm_compute; reflexivity).
  split; [exact H|].
  exact (proj1 (identified_result_is_consistent _ _ _ _ _ _ _ _ _ _ _ _ _ _ H)).
Defined.

(** ** The work done for one video *)

Lemma costs_ret {A} (a : A) : costs (ret a) 0.
Proof. intros tr. exists []. cbn. rewrite app_nil_r. auto. Qed.

Lemma costs_bind {A B} (m : M A) (k : A -> M B) n p :
  costs m n -> (forall a, costs (k a) p) -> costs (bind m k) (n + p).
Proof.
  intros Hm Hk tr. unfold bind.
  destruct (Hm tr) as (n1 & H1 & L1).
  destruct (m tr) as [a tr1]. cbn [snd] in H1. subst tr1.
  destruct (Hk a (tr ++ n1)) as (n2 & H2 & L2).
  exists (n1 ++ n2). rewrite H2, app_assoc, length_app. split; [reflexivity|lia].
Qed.

Lemma costs_weaken {A} (m : M A) n p : costs m n -> (n <= p)%nat -> costs m p.
Proof.
  intros Hm Hle tr. destruct (Hm tr) as (new & H & L).
  exists new. split; [exact H|lia].
Qed.

Lemma costs_search net cfg q ser : costs (search net cfg q ser) 12.
Proof.
  intros tr. unfold search.
  destruct (search_tmdb_multilang_bounded net cfg q ser default_attempts tr)
    as (new & H & L & _).
  exists new. split; [exact H|]. cbn in L. lia.
Qed.

Lemma costs_actors net actors cfg ser :
  costs (search_by_actors net actors cfg ser) (2 * length actors).
Proof.
  intros tr.
  destruct (actor_search_traffic net actors cfg ser tr) as (new & H & L & _).
  exists new. auto.
Qed.

Lemma costs_fragment_loop net cfg fragments : forall result,
  costs (fragment_loop net cfg fragments result) (24 * length fragments).
Proof.
  induction fragments as [|f fragments IH]; intros result; cbn [fragment_loop].
  - apply costs_ret.
  - apply costs_weaken with (12 + (12 + 24 * length fragments))%nat;
      [|cbn [length]; lia].
    apply costs_bind; [apply costs_search|]. intros r.
    destruct (truthy r);
      [apply costs_weaken with 0%nat; [apply costs_ret|lia]|].
    apply costs_bind; [apply costs_search|]. intros r2.
    destruct (truthy r2);
      [apply costs_weaken with 0%nat; [apply costs_ret|lia]|apply IH].
Qed.

Lemma costs_block_loop net cfg blocks : forall result,
  costs (block_loop net cfg blocks result) (24 * length blocks).
Proof.
  induction blocks as [|b blocks IH]; intros result; cbn [block_loop].
  - apply costs_ret.
  - destruct (block_lines b) as [|l ls].
    + apply costs_weaken with (24 * length blocks)%nat; [apply IH|cbn [length]; lia].
    + apply costs_weaken with (12 + (12 + 24 * length blocks))%nat;
        [|cbn [length]; lia].
      apply costs_bind; [apply costs_search|]. intros r.
      destruct (truthy r);
        [apply costs_weaken with 0%nat; [apply costs_ret|lia]|].
      apply costs_bind; [apply costs_search|]. intros r2.
      destruct (truthy r2);
        [apply costs_weaken with 0%nat; [apply costs_ret|lia]|apply IH].
Qed.

(** X6 — the network work for one video is bounded: the pipeline only
    appends to the request log, at most 264 requests for the text
    stages (file name, five OCR fragments, five subtitle blocks, each
    as movie and series, twelve requests at most per query) and four
    more for each detected actor; an invalid file costs none. *)
Theorem requests_per_video_are_bounded
    (net : Net) (clean_filename : string -> string) (valid : bool)
    (fn : string) (cfg : Config) (loc : Local) (tr : list Request) :
  exists new,
    snd (process_single_video net clean_filename valid fn cfg loc tr)
      = tr ++ new /\
    (length new <=
       if valid
       then 264 + 4 * match detect cfg loc with
                      | Return (_, actors) => length actors
                      | Raise _ => 0
                      end
       else 0)%nat.
Proof.
  revert tr. change (costs (process_single_video net clean_filename valid fn cfg loc)
                       (if valid
                        then 264 + 4 * match detect cfg loc with
                                       | Return (_, actors) => length actors
                                       | Raise _ => 0
                                       end
                        else 0)).
  unfold process_single_video. destruct valid; [|apply costs_ret].
  set (n := match detect cfg loc with
            | Return (_, actors) => length actors
            | Raise _ => 0%nat
            end).
  apply costs_weaken with ((12 + (12 + (120 + (120 + (4 * n + 0))))) + 0)%nat;
    [|lia].
  apply costs_bind; [|intros [msg|res]; apply costs_ret].
  unfold identify.
  apply costs_bind; [apply costs_search|]. intros r1.
  apply costs_bind.
  { destruct (negb (truthy r1));
      [apply costs_search|apply costs_weaken with 0%nat; [apply costs_ret|lia]]. }
  intros r2. apply costs_bind.
  { destruct (negb (truthy r2) && nonempty (ocr_text (content loc)));
      [|apply costs_weaken with 0%nat; [apply costs_ret|lia]].
    eapply costs_weaken; [apply costs_fragment_loop|].
    rewrite length_take. lia. }
  intros r3. apply costs_bind.
  { destruct (negb (truthy r3) && nonempty (subtitles_text (content loc)));
      [|apply costs_weaken with 0%nat; [apply costs_ret|lia]].
    eapply costs_weaken; [apply costs_block_loop|].
    rewrite length_take. lia. }
  intros r4. subst n.
  destruct (detect cfg loc) as [msg|[studios actors]].
  - apply costs_weaken with 0%nat; [apply costs_ret|lia].
  - apply costs_bind; [|intros r5; apply costs_ret].
    destruct (negb (truthy r4) && nonempty_list actors);
      [|apply costs_weaken with 0%nat; [apply costs_ret|lia]].
    apply costs_weaken with (2 * length actors + 2 * length actors)%nat; [|lia].
    apply costs_bind; [apply costs_actors|]. intros r5.
    destruct (negb (truthy r5));
      [apply costs_actors|apply costs_weaken with 0%nat; [apply costs_ret|lia]].
Qed.

End ProcessMore.

(* ===================================================================== *)
(** * The OCR text and what the pipeline makes of it *)
(* ===================================================================== *)

Module OcrFacts.
Import PyStr Process ChainSpec Ocr.

Lemma chars_append s1 s2 : chars (s1 +:+ s2) = chars s1 ++ chars s2.
Proof.
  unfold chars. induction s1 as [|c s1 IH]; [reflexivity|].
  simpl. f_equal. exact IH.
Qed.

Lemma free_of_append c s1 s2 :
  free_of c s1 -> free_of c s2 -> free_of c (s1 +:+ s2).
Proof.
  unfold free_of. rewrite chars_append, in_app_iff. tauto.
Qed.

Lemma free_of_cons_head sep c parts :
  c <> sep -> Forall (free_of sep) parts -> Forall (free_of sep) (cons_head c parts).
Proof.
  intros Hc Hp. destruct parts as [|h t]; cbn.
  - constructor; [|constructor]. intros [H|[]]. congruence.
  - apply Forall_cons in Hp as [Hh Ht]. constructor; [|exact Ht].
    intros [H|H]; [congruence|exact (Hh H)].
Qed.

(** The pieces of a split hold no separator. *)
Lemma split_char_free sep s : Forall (free_of sep) (split_char sep s).
Proof.
  induction s as [|c s IH]; cbn [split_char].
  - constructor; [intros []|constructor].
  - destruct (Ascii.eqb c sep) eqn:E.
    + constructor; [intros []|exact IH].
    + apply free_of_cons_head; [|exact IH].
      apply Ascii.eqb_neq. exact E.
Qed.

(** A text without the separator is not split. *)
Lemma split_char_whole sep s : free_of sep s -> split_char sep s = [s].
Proof.
  induction s as [|c s IH]; intros Hfree; [reflexivity|].
  cbn [split_char].
  assert (c <> sep) as Hc by (intros ->; apply Hfree; left; reflexivity).
  apply Ascii.eqb_neq in Hc. rewrite Hc.
  rewrite IH; [reflexivity|]. intros H. apply Hfree. right. exact H.
Qed.

Lemma join_free c sep parts :
  free_of c sep -> Forall (free_of c) parts -> free_of c (join sep parts).
Proof.
  intros Hsep. induction 1 as [|p parts Hp Hparts IH]; cbn.
  - intros [].
  - destruct parts as [|p' parts']; [exact Hp|].
    apply free_of_append; [exact Hp|].
    apply free_of_append; [exact Hsep|exact IH].
Qed.

Lemma blank_is_no_newline : free_of newline " ".
Proof. intros [H|[]]. discriminate H. Qed.

Lemma frame_text_free reading text :
  frame_text reading = Some text -> free_of newline text.
Proof.
  destruct reading as [[[t1 t2] t3]|]; cbn [frame_text]; [|discriminate].
  set (lines := split_char newline _).
  pose proof (split_char_free newline (t1 +:+ " " +:+ t2 +:+ " " +:+ t3)) as Hl.
  fold lines in Hl.
  assert (Forall (free_of newline) (List.filter useful lines)) as Hf.
  { apply List.Forall_forall. intros l Hin.
    apply List.filter_In in Hin as [Hin _].
    rewrite List.Forall_forall in Hl. apply Hl. exact Hin. }
  destruct (List.filter useful lines) as [|l ls]; [discriminate|].
  intros Heq. assert (text = join " " (l :: ls)) as -> by congruence.
  apply join_free; [apply blank_is_no_newline|exact Hf].
Qed.

Lemma perform_ocr_free available readings :
  free_of newline (perform_ocr_on_frames available readings).
Proof.
  unfold perform_ocr_on_frames. destruct available; cbn [negb]; [|intros []].
  apply join_free; [apply blank_is_no_newline|].
  apply List.Forall_forall. intros text Hin.
  apply list_elem_of_In, list_elem_of_omap in Hin as (reading & _ & Hr).
  exact (frame_text_free _ _ Hr).
Qed.

(** X7 — the text [perform_ocr_on_frames] returns never contains a line
    break (lines are joined with blanks), so the pipeline's split of
    the OCR text into lines yields that whole text as its single line:
    at most one OCR fragment is ever queried, however many frames and
    lines were read. *)
Theorem ocr_text_is_one_line (available : bool) (readings : list Reading)
    (subtitles quality : string) :
  let text := perform_ocr_on_frames available readings in
  free_of newline text /\
  split_char newline text = [text] /\
  (length (ocr_fragments text) <= 1)%nat /\
  (length (ocr_queries (mkContent subtitles text quality)) <= 1)%nat.
Proof.
  intros text.
  pose proof (perform_ocr_free available readings) as Hfree. fold text in Hfree.
  pose proof (split_char_whole newline text Hfree) as Hsplit.
  assert (length (ocr_fragments text) <= 1)%nat as Hfr.
  { unfold ocr_fragments. rewrite Hsplit. cbn [map List.filter].
    destruct (15 <? String.length (strip text))%nat; cbn; lia. }
  repeat split; auto.
  unfold ocr_queries. cbn [ocr_text].
  destruct (nonempty text); [|cbn; lia].
  rewrite length_take. lia.
Qed.

End OcrFacts.

(* ===================================================================== *)
(** * The year read from a file name *)
(* ===================================================================== *)

Module YearFacts.
Import PyStr Re ReSpec ReFacts SeasonEpisodeSpec Year.

Lemma Matches_one_inv a p m caps :
  Matches (a :: p) m caps ->
  exists cs m' caps',
    m = cs ++ m' /\ Forall (fun x => class_mem (cls a) x = true) cs /\
    (rmin a <= length cs)%nat /\
    (forall b, rmax a = Some b -> (length cs <= b)%nat) /\
    caps = (if capture a then cs :: caps' else caps') /\ Matches p m' caps'.
Proof.
  inversion 1; subst. eexists _, _, _. repeat split; eauto.
Qed.

(** Each of the three patterns captures four digits out of the text. *)
Lemma year_pattern_capture p s caps rest :
  In p year_patterns -> search p s = Some (caps, rest) ->
  exists pre year post,
    caps = [year] /\ s = pre ++ year ++ post /\
    length year = 4%nat /\ all_digits year.
Proof.
  intros Hp Hs.
  apply search_Some in Hs as (pre & suf & -> & Hm & _).
  apply match_here_sound in Hm as (m & -> & HM).
  assert (exists a1 a3, p = [a1; digits_4; a3] /\ capture a1 = false /\
                        capture a3 = false) as (a1 & a3 & -> & C1 & C3).
  { destruct Hp as [<-|[<-|[<-|[]]]]; eexists _, _; repeat split. }
  apply Matches_one_inv in HM as (c1 & m1 & caps1 & -> & _ & _ & _ & -> & HM).
  apply Matches_one_inv in HM as (y & m2 & caps2 & -> & Hy & Hmin & Hmax & -> & HM).
  apply Matches_one_inv in HM as (c3 & m3 & caps3 & -> & _ & _ & _ & -> & HM).
  inversion HM; subst. rewrite C1, C3. cbn [capture digits_4].
  exists (pre ++ c1), y, (c3 ++ [] ++ rest).
  split; [reflexivity|]. split; [rewrite <- !app_assoc; reflexivity|].
  cbn in Hmin. specialize (Hmax 4%nat eq_refl). split; [lia|exact Hy].
Qed.

Lemma first_year_sound ps s y :
  (forall p, In p ps -> In p year_patterns) ->
  first_year ps s = Some y ->
  exists pre post,
    s = pre ++ chars y ++ post /\ length (chars y) = 4%nat /\
    all_digits (chars y) /\
    (1900 <= int_of_digits (chars y) <= 2099)%N.
Proof.
  induction ps as [|p ps IH]; intros Hps H; cbn [first_year] in H;
    [discriminate|].
  assert (forall q, In q ps -> In q year_patterns) as Hps'
    by (intros q Hq; apply Hps; right; exact Hq).
  destruct (search p s) as [[caps rest]|] eqn:E; [|exact (IH Hps' H)].
  destruct (year_pattern_capture p s caps rest (Hps p (or_introl eq_refl)) E)
    as (pre & year & post & -> & Hs & Hlen & Hdig).
  destruct (plausible year) eqn:Ep; [|exact (IH Hps' H)].
  injection H as <-. unfold chars.
  rewrite list_ascii_of_string_of_list_ascii.
  exists pre, post. split; [exact Hs|]. split; [exact Hlen|].
  split; [exact Hdig|].
  unfold plausible in Ep. apply andb_true_iff in Ep as [E1 E2].
  apply N.leb_le in E1. apply N.leb_le in E2. lia.
Qed.

(** X8 — a year returned by [extract_year_from_filename] is always a
    group of exactly four digits that stands in the file name and reads
    as a number between 1900 and 2099; any other group makes the
    function move on, and [None] is the answer when none qualifies. *)
Theorem extracted_year_is_plausible (filename year : string) :
  extract_year_from_filename filename = Some year ->
  exists pre post,
    chars filename = pre ++ chars year ++ post /\
    length (chars year) = 4%nat /\ all_digits (chars year) /\
    (1900 <= int_of_digits (chars year) <= 2099)%N.
Proof.
  apply first_year_sound. auto.
Qed.

Lemma extracted_year_is_plausible_witness :
  extract_year_from_filename "Alien (1979) [1080p].mkv" = Some "1979" /\
  exists pre post,
    chars "Alien (1979) [1080p].mkv" = pre ++ chars "1979" ++ post /\
    length (chars "1979") = 4%nat /\ all_digits (chars "1979") /\
    (1900 <= int_of_digits (chars "1979") <= 2099)%N.
Proof.
  assert (extract_year_from_filename "Alien (1979) [1080p].mkv" = Some "1979")
    as H by reflexivity.
  split; [exact H|].
  exact (extracted_year_is_plausible _ _ H).
Defined.

End YearFacts.

(* ===================================================================== *)
(** * Properties of the detectors *)
(* ===================================================================== *)

Module DetectFacts.
Import PyStr Detect.

Lemma prefix_spec p : forall t,
  String.prefix p t = true <-> exists post, t = p +:+ post.
Proof.
  induction p as [|c p IH]; intros t.
  - split; [intros _; exists t; reflexivity|intros _; destruct t; reflexivity].
  - destruct t as [|d t]; cbn [String.prefix].
    { split; [discriminate|intros [post H]; discriminate]. }
    destruct (Ascii.ascii_dec c d) as [->|Hne].
    + split.
      * intros H. apply IH in H as [post ->]. exists post. reflexivity.
      * intros [post H]. cbn in H. injection H as H. apply IH. exists post. exact H.
    + split; [discriminate|]. intros [post H]. cbn in H.
      injection H as H1 H2. congruence.
Qed.

Lemma is_substring_spec p : forall t,
  is_substring p t = true <-> occurs_in p t.
Proof.
  induction t as [|d t IH]; cbn [is_substring].
  - rewrite orb_false_r, prefix_spec. split.
    + intros [post H]. exists "", post. exact H.
    + intros ([|c pre] & post & H); [exists post; exact H|discriminate].
  - rewrite orb_true_iff, prefix_spec, IH. split.
    + intros [[post H]|(pre & post & H)].
      * exists "", post. exact H.
      * exists (String d pre), post. rewrite H. reflexivity.
    + intros ([|c pre] & post & H).
      * left. exists post. exact H.
      * right. cbn in H. injection H as _ H. exists pre, post. exact H.
Qed.

Lemma find_first {A} (f : A -> bool) (l : list A) x :
  List.find f l = Some x ->
  exists l1 l2, l = l1 ++ x :: l2 /\ f x = true /\
                forall y, In y l1 -> f y = false.
Proof.
  induction l as [|a l IH]; cbn; [discriminate|].
  destruct (f a) eqn:E.
  - intros [= <-]. exists [], l. repeat split; auto. intros y [].
  - intros H. destruct (IH H) as (l1 & l2 & -> & Hx & Hl1).
    exists (a :: l1), l2. repeat split; auto.
    intros y [<-|Hy]; auto.
Qed.

Lemma hits_spec text entry :
  existsb (fun pattern => is_substring pattern (lower text)) (snd entry) = true
  <-> hits text entry.
Proof.
  rewrite existsb_exists. unfold hits.
  split; intros (p & Hp & H); exists p; (split; [exact Hp|]);
    apply is_substring_spec; exact H.
Qed.

Lemma to_lower_not_upper c : is_upper (to_lower c) = false.
Proof. destruct c as [[] [] [] [] [] [] [] []]; reflexivity. Qed.

Lemma lower_not_upper text c :
  In c (chars (lower text)) -> is_upper c = false.
Proof.
  induction text as [|d text IH]; cbn; [intros []|].
  intros [<-|H]; [apply to_lower_not_upper|apply IH, H].
Qed.

Lemma upper_pattern_never_occurs pattern text :
  has_upper pattern -> ~ occurs_in pattern (lower text).
Proof.
  intros (c & Hc & Hup) (pre & post & H).
  assert (In c (chars (lower text))) as Hin.
  { rewrite H, !OcrFacts.chars_append, !in_app_iff. auto. }
  apply lower_not_upper in Hin. congruence.
Qed.

(** X11 — the patterns are compared as they are written, against the
    lower-cased text: a studio all of whose patterns hold a capital
    letter is never found by them, and the answer is the one of the
    table without that entry. *)
Theorem capitalised_patterns_are_dead (text studio : string)
    (patterns : list string) (before after : Mapping)
    (Hcap : forall pattern, In pattern patterns -> has_upper pattern) :
  detect_studio_from_text text (before ++ (studio, patterns) :: after)
  = detect_studio_from_text text (before ++ after).
Proof.
  unfold detect_studio_from_text.
  destruct (negb (nonempty text)); [reflexivity|].
  set (f := fun entry : string * list string =>
              existsb (fun pattern => is_substring pattern (lower text)) (snd entry)).
  assert (f (studio, patterns) = false) as Hdead.
  { destruct (f (studio, patterns)) eqn:E; [|reflexivity]. exfalso.
    apply hits_spec in E. destruct E as (p & Hp & Hocc).
    exact (upper_pattern_never_occurs p text (Hcap p Hp) Hocc). }
  assert (List.find f (before ++ (studio, patterns) :: after)
          = List.find f (before ++ after)) as ->; [|reflexivity].
  induction before as [|b before IH]; cbn.
  - change (f (studio, patterns)) with
      (existsb (fun pattern => is_substring pattern (lower text)) patterns) in Hdead.
    fold f. cbn in Hdead |- *. unfold f at 1. cbn. rewrite Hdead. reflexivity.
  - destruct (f b); [reflexivity|exact IH].
Qed.

Lemma capitalised_patterns_are_dead_witness :
  (forall pattern, In pattern ["HBO"; "Home Box Office"] -> has_upper pattern) /\
  detect_studio_from_text "HBO presents"
    ([] ++ ("HBO", ["HBO"; "Home Box Office"]) :: [("Other", ["presents"])])
  = detect_studio_from_text "HBO presents" ([] ++ [("Other", ["presents"])]).
Proof.
  assert (forall pattern, In pattern ["HBO"; "Home Box Office"] -> has_upper pattern) as H.
  { intros p [<-|[<-|[]]]; exists "H"%char; (split; [cbn; auto|reflexivity]). }
  split; [exact H|].
  exact (capitalised_patterns_are_dead "HBO presents" "HBO"
           ["HBO"; "Home Box Office"] [] [("Other", ["presents"])] H).
Defined.

Lemma add_new_spec l x :
  NoDup l -> NoDup (add_new l x) /\ forall y, y ∈ add_new l x <-> y ∈ l \/ y = x.
Proof.
  intros Hl. unfold add_new. case_bool_decide as Hx.
  - split; [exact Hl|]. intros y. split; [auto|]. intros [H| ->]; assumption.
  - split.
    + apply NoDup_app. split; [exact Hl|]. split; [|apply NoDup_singleton].
      intros y Hy Hy'. apply list_elem_of_singleton in Hy'. subst. auto.
    + intros y. rewrite elem_of_app, list_elem_of_singleton. reflexivity.
Qed.

Lemma fold_add_new xs : forall acc,
  NoDup acc ->
  NoDup (fold_left add_new xs acc) /\
  forall y, y ∈ fold_left add_new xs acc <-> y ∈ acc \/ y ∈ xs.
Proof.
  induction xs as [|x xs IH]; intros acc Hacc; cbn [fold_left].
  - split; [exact Hacc|]. intros y. rewrite elem_of_nil. tauto.
  - destruct (add_new_spec acc x Hacc) as [Hnd Hmem].
    destruct (IH _ Hnd) as [Hnd' Hmem'].
    split; [exact Hnd'|]. intros y.
    rewrite Hmem', Hmem, elem_of_cons. tauto.
Qed.

Lemma add_detected_spec l studio :
  NoDup l ->
  NoDup (add_detected l studio) /\
  forall y, y ∈ add_detected l studio <-> y ∈ l \/ (y <> "" /\ studio = Some y).
Proof.
  intros Hl. destruct studio as [name|]; cbn [add_detected].
  - destruct name as [|c name]; cbn [nonempty].
    + split; [exact Hl|]. intros y. split; [auto|].
      intros [H|[Hne [= <-]]]; [exact H|congruence].
    + destruct (add_new_spec l (String c name) Hl) as [Hnd Hmem].
      split; [exact Hnd|]. intros y. rewrite Hmem. split.
      * intros [H| ->]; [auto|]. right. split; [discriminate|reflexivity].
      * intros [H|[_ [= <-]]]; auto.
  - split; [exact Hl|]. intros y. split; [auto|].
    intros [H|[_ H]]; [exact H|discriminate].
Qed.

(** What one frame gives: a name is in the answer iff it is not empty,
    tesseract did not raise, and the text detector or the logo detector
    answered it. *)
Lemma analyze_frame_spec frame mapping :
  NoDup (analyze_frame_for_studios frame mapping) /\
  forall s, s ∈ analyze_frame_for_studios frame mapping <->
    s <> "" /\
    ((exists ocr_text, fv_text frame = Some (inr ocr_text) /\
                       detect_studio_from_text ocr_text mapping = Some s) \/
     ((forall e, fv_text frame <> Some (inl e)) /\ fv_logo frame = Some (Some s))).
Proof.
  unfold analyze_frame_for_studios.
  destruct frame as [text logo]; cbn [fv_text fv_logo].
  destruct text as [[e|ocr_text]|].
  - split; [constructor|]. intros s. rewrite elem_of_nil. split; [tauto|].
    intros [_ [(t & [=] & _)|[H _]]]. exact (H e eq_refl).
  - destruct (add_detected_spec [] (detect_studio_from_text ocr_text mapping))
      as [Hnd Hmem]; [constructor|].
    destruct logo as [studio|].
    + destruct (add_detected_spec _ studio Hnd) as [Hnd' Hmem'].
      split; [exact Hnd'|]. intros s. rewrite Hmem', Hmem, elem_of_nil. split.
      * intros [[[]|[Hne H]]|[Hne ->]].
        -- split; [exact Hne|]. left. eauto.
        -- split; [exact Hne|]. right. split; [discriminate|reflexivity].
      * intros [Hne [(t & [= <-] & H)|[_ [= ->]]]]; auto.
    + split; [exact Hnd|]. intros s. rewrite Hmem, elem_of_nil. split.
      * intros [[]|[Hne H]]. split; [exact Hne|]. left. eauto.
      * intros [Hne [(t & [= <-] & H)|[_ [=]]]]. auto.
  - destruct logo as [studio|].
    + destruct (add_detected_spec [] studio) as [Hnd Hmem]; [constructor|].
      split; [exact Hnd|]. intros s. rewrite Hmem, elem_of_nil. split.
      * intros [[]|[Hne ->]]. split; [exact Hne|]. right.
        split; [discriminate|reflexivity].
      * intros [Hne [(t & [=] & _)|[_ [= ->]]]]. auto.
    + split; [constructor|]. intros s. rewrite elem_of_nil. split; [tauto|].
      intros [_ [(t & [=] & _)|[_ [=]]]].
Qed.

Lemma frames_fold {A} (one : A -> list string) (frames : list (option A)) :
  forall acc, NoDup acc ->
  let r := fold_left (fun all frame =>
                        match frame with
                        | None => all
                        | Some view => fold_left add_new (one view) all
                        end) frames acc in
  NoDup r /\
  forall s, s ∈ r <-> s ∈ acc \/ exists view, In (Some view) frames /\ s ∈ one view.
Proof.
  induction frames as [|frame frames IH]; intros acc Hacc; cbn [fold_left].
  - split; [exact Hacc|]. intros s. split; [auto|]. intros [H|(v & [] & _)]. exact H.
  - destruct frame as [view|].
    + destruct (fold_add_new (one view) acc Hacc) as [Hnd Hmem].
      destruct (IH _ Hnd) as [Hnd' Hmem']. split; [exact Hnd'|].
      intros s. rewrite Hmem', Hmem. split.
      * intros [[H|H]|(v & Hv & H)]; [auto| |].
        -- right. exists view. split; [left; reflexivity|exact H].
        -- right. exists v. split; [right; exact Hv|exact H].
      * intros [H|(v & Hv & Hs)]; [auto|].
        destruct Hv as [Hv|Hv]; [injection Hv as ->; auto|].
        right. exists v. auto.
    + destruct (IH _ Hacc) as [Hnd' Hmem']. split; [exact Hnd'|].
      intros s. rewrite Hmem'. split.
      * intros [H|(v & Hv & H)]; [auto|]. right. exists v. split; [right; exact Hv|exact H].
      * intros [H|(v & Hv & Hs)]; [auto|].
        destruct Hv as [Hv|Hv]; [discriminate|]. right. exists v. auto.
Qed.

(** X12 — the studios found in the frames of a video: the list names
    no studio twice and no empty name, and a studio is in it exactly
    when, on some frame that could be read and on which tesseract did
    not raise, the text detector or the logo detector answered it. *)
Theorem studios_in_frames_are_the_detected_ones
    (frames : list (option FrameView)) (mapping : Mapping) :
  NoDup (detect_studios_in_frames frames mapping) /\
  forall s, s ∈ detect_studios_in_frames frames mapping <->
    s <> "" /\
    exists frame, In (Some frame) frames /\
      ((exists ocr_text, fv_text frame = Some (inr ocr_text) /\
                         detect_studio_from_text ocr_text mapping = Some s) \/
       ((forall e, fv_text frame <> Some (inl e)) /\ fv_logo frame = Some (Some s))).
Proof.
  unfold detect_studios_in_frames.
  destruct (frames_fold (fun view => analyze_frame_for_studios view mapping)
                        frames [] (NoDup_nil_2)) as [Hnd Hmem].
  split; [exact Hnd|]. intros s. rewrite Hmem, elem_of_nil. split.
  - intros [[]|(v & Hv & H)]. apply analyze_frame_spec in H as [Hne H].
    split; [exact Hne|]. exists v. auto.
  - intros [Hne (v & Hv & H)]. right. exists v. split; [exact Hv|].
    apply analyze_frame_spec. auto.
Qed.

Section Faces.
Context {Encoding : Type} (same_face : Encoding -> Encoding -> bool).

(** Some stored encoding of the actor is the face. *)
Local Abbreviation known_as actors_db face a :=
  (exists encs e, In (a, encs) actors_db /\ In e encs /\ same_face e face = true).

Lemma scan_encodings_spec name face encs : forall rec,
  NoDup rec ->
  NoDup (scan_encodings Encoding same_face rec name encs face) /\
  forall a, a ∈ scan_encodings Encoding same_face rec name encs face <->
    a ∈ rec \/ (a = name /\ exists e, In e encs /\ same_face e face = true).
Proof.
  induction encs as [|e encs IH]; intros rec Hrec; cbn [scan_encodings].
  - split; [exact Hrec|]. intros a. split; [auto|].
    intros [H|[_ (e & [] & _)]]. exact H.
  - destruct (same_face e face) eqn:E.
    + case_bool_decide as Hin.
      * destruct (IH rec Hrec) as [Hnd Hmem]. split; [exact Hnd|].
        intros a. rewrite Hmem. split.
        -- intros [H|[-> (e' & He' & H)]]; [auto|]. right. split; [reflexivity|].
           exists e'. split; [right; exact He'|exact H].
        -- intros [H|[-> _]]; auto.
      * split.
        -- apply NoDup_app. split; [exact Hrec|]. split; [|apply NoDup_singleton].
           intros y Hy Hy'. apply list_elem_of_singleton in Hy'. subst. auto.
        -- intros a. rewrite elem_of_app, list_elem_of_singleton. split.
           ++ intros [H| ->]; [auto|]. right. split; [reflexivity|].
              exists e. split; [left; reflexivity|exact E].
           ++ intros [H|[-> _]]; auto.
    + destruct (IH rec Hrec) as [Hnd Hmem]. split; [exact Hnd|].
      intros a. rewrite Hmem. split.
      * intros [H|[-> (e' & He' & H)]]; [auto|]. right. split; [reflexivity|].
        exists e'. split; [right; exact He'|exact H].
      * intros [H|[-> (e' & [<-|He'] & H)]]; [auto|congruence|].
        right. split; [reflexivity|]. exists e'. auto.
Qed.

Lemma scan_db_spec face (actors_db : list (string * list Encoding)) : forall rec,
  NoDup rec ->
  let r := fold_left
             (fun recognized entry =>
                scan_encodings Encoding same_face recognized
                               (fst entry) (snd entry) face)
             actors_db rec in
  NoDup r /\ forall a, a ∈ r <-> a ∈ rec \/ known_as actors_db face a.
Proof.
  induction actors_db as [|[name encs] db IH]; intros rec Hrec; cbn [fold_left fst snd].
  - split; [exact Hrec|]. intros a. split; [auto|].
    intros [H|(encs & e & [] & _)]. exact H.
  - destruct (scan_encodings_spec name face encs rec Hrec) as [Hnd Hmem].
    destruct (IH _ Hnd) as [Hnd' Hmem']. split; [exact Hnd'|].
    intros a. rewrite Hmem', Hmem. split.
    + intros [[H|[-> (e & He & H)]]|(encs' & e & Hin & He & H)]; [auto| |].
      * right. exists encs, e. split; [left; reflexivity|auto].
      * right. exists encs', e. split; [right; exact Hin|auto].
    + intros [H|(encs' & e & Hin & He & H)]; [auto|].
      destruct Hin as [Hin|Hin].
      * injection Hin as <- <-. left. right. split; [reflexivity|]. exists e. auto.
      * right. exists encs', e. auto.
Qed.

Lemma recognize_faces_fold actors_db (faces : list Encoding) : forall rec,
  NoDup rec ->
  let r := fold_left
             (fun recognized face_encoding =>
                fold_left
                  (fun recognized entry =>
                     scan_encodings Encoding same_face recognized
                                    (fst entry) (snd entry) face_encoding)
                  actors_db recognized)
             faces rec in
  NoDup r /\
  forall a, a ∈ r <-> a ∈ rec \/ exists face, In face faces /\ known_as actors_db face a.
Proof.
  induction faces as [|face faces IH]; intros rec Hrec; cbn [fold_left].
  - split; [exact Hrec|]. intros a. split; [auto|].
    intros [H|(face & [] & _)]. exact H.
  - destruct (scan_db_spec face actors_db rec Hrec) as [Hnd Hmem].
    destruct (IH _ Hnd) as [Hnd' Hmem']. split; [exact Hnd'|].
    intros a. rewrite Hmem', Hmem. split.
    + intros [[H|H]|(face' & Hf & H)]; [auto| |].
      * right. exists face. split; [left; reflexivity|exact H].
      * right. exists face'. split; [right; exact Hf|exact H].
    + intros [H|(face' & Hf & H)]; [auto|].
      destruct Hf as [<-|Hf]; [auto|]. right. exists face'. auto.
Qed.

Lemma recognize_actors_spec available faces actors_db :
  NoDup (recognize_actors Encoding same_face available faces actors_db) /\
  forall a, a ∈ recognize_actors Encoding same_face available faces actors_db <->
    available = true /\
    exists face_encodings face,
      faces = Some face_encodings /\ In face face_encodings /\
      known_as actors_db face a.
Proof.
  unfold recognize_actors. destruct available; cbn [negb].
  2:{ split; [constructor|]. intros a. rewrite elem_of_nil. split; [tauto|].
      intros [[=] _]. }
  destruct actors_db as [|entry db] eqn:Edb.
  { split; [constructor|]. intros a. rewrite elem_of_nil. split; [tauto|].
    intros [_ (fs & face & _ & _ & encs & e & [] & _)]. }
  rewrite <- Edb. clear Edb entry db.
  destruct faces as [fs|].
  2:{ split; [constructor|]. intros a. rewrite elem_of_nil. split; [tauto|].
      intros [_ (fs & face & [=] & _)]. }
  destruct (recognize_faces_fold actors_db fs [] NoDup_nil_2) as [Hnd Hmem].
  split; [exact Hnd|]. intros a. unfold recognize_faces. rewrite Hmem, elem_of_nil.
  split.
  - intros [[]|(face & Hf & H)]. split; [reflexivity|]. exists fs, face. auto.
  - intros [_ (fs' & face & Hfs & Hf & H)]. injection Hfs as <-.
    right. exists face. auto.
Qed.

(** X13 — the actors found in the frames of a video: the list names
    no actor twice, and an actor is in it exactly when the face
    library is installed and, on some frame that could be read and
    analysed, some face is the same as one of the encodings stored
    for that actor. *)
Theorem actors_in_frames_are_the_recognised_ones (available : bool)
    (frames : list (option (option (list Encoding))))
    (actors_db : list (string * list Encoding)) :
  NoDup (detect_actors_in_frames Encoding same_face available frames actors_db) /\
  forall a,
    a ∈ detect_actors_in_frames Encoding same_face available frames actors_db <->
    available = true /\
    exists face_encodings face,
      In (Some (Some face_encodings)) frames /\ In face face_encodings /\
      known_as actors_db face a.
Proof.
  unfold detect_actors_in_frames.
  destruct (frames_fold
              (fun faces => recognize_actors Encoding same_face available faces actors_db)
              frames [] NoDup_nil_2) as [Hnd Hmem].
  split; [exact Hnd|]. intros a. rewrite Hmem, elem_of_nil. split.
  - intros [[]|(faces & Hin & H)].
    apply recognize_actors_spec in H as [Hav (fs & face & -> & Hf & H)].
    split; [exact Hav|]. exists fs, face. auto.
  - intros [Hav (fs & face & Hin & Hf & H)]. right. exists (Some fs).
    split; [exact Hin|]. apply recognize_actors_spec.
    split; [exact Hav|]. exists fs, face. auto.
Qed.

End Faces.

End DetectFacts.

(* ===================================================================== *)
(** * Properties of a batch *)
(* ===================================================================== *)

Module BatchFacts.
Import PyStr Tmdb Process FilesOps Batch.

(** ** Moves on the file system *)

Lemma move_lookup a b (fs : FS) k :
  move a b fs !! k =
  match fs !! a with
  | Some data => if decide (k = b) then Some data
                 else if decide (k = a) then None else fs !! k
  | None => fs !! k
  end.
Proof.
  unfold move. destruct (fs !! a) as [data|] eqn:E; [|reflexivity].
  destruct (decide (k = b)) as [->|Hb].
  - apply lookup_insert_eq.
  - rewrite lookup_insert_ne by congruence.
    destruct (decide (k = a)) as [->|Ha].
    + apply lookup_delete_eq.
    + apply lookup_delete_ne. congruence.
Qed.

Lemma move_lookup_other a b (fs : FS) k :
  k <> a -> k <> b -> move a b fs !! k = fs !! k.
Proof.
  intros Ha Hb. rewrite move_lookup.
  destruct (fs !! a); [|reflexivity].
  destruct (decide (k = b)); [congruence|].
  destruct (decide (k = a)); [congruence|reflexivity].
Qed.

Lemma move_back a b (fs : FS) :
  is_Some (fs !! a) -> fs !! b = None -> move b a (move a b fs) = fs.
Proof.
  intros [data Ha] Hb. assert (a <> b) as Hne by congruence.
  apply map_eq. intros k. rewrite (move_lookup b a).
  rewrite (move_lookup a b fs b), Ha.
  destruct (decide (b = b)); [|congruence].
  destruct (decide (k = a)) as [->|Hka]; [congruence|].
  destruct (decide (k = b)) as [->|Hkb]; [congruence|].
  apply move_lookup_other; assumption.
Qed.

Lemma move_comm a b c d (fs : FS) :
  a <> c -> a <> d -> b <> c -> b <> d ->
  move a b (move c d fs) = move c d (move a b fs).
Proof.
  intros Hac Had Hbc Hbd. apply map_eq. intros k.
  rewrite (move_lookup a b (move c d fs)), (move_lookup c d (move a b fs)).
  rewrite (move_lookup_other c d fs a), (move_lookup_other a b fs c) by congruence.
  rewrite (move_lookup a b fs k), (move_lookup c d fs k).
  destruct (fs !! a), (fs !! c);
    repeat (destruct (decide _)); subst; congruence.
Qed.

Lemma move_all_comm a b jobs : forall fs,
  ~ In a (map fst jobs ++ map snd jobs) ->
  ~ In b (map fst jobs ++ map snd jobs) ->
  move a b (move_all jobs fs) = move_all jobs (move a b fs).
Proof.
  induction jobs as [|[s t] jobs IH]; intros fs Ha Hb; [reflexivity|].
  cbn [move_all fold_left fst snd]. fold (move_all jobs (move s t fs)).
  fold (move_all jobs (move s t (move a b fs))).
  cbn [map fst snd] in Ha, Hb. rewrite in_app_iff in Ha, Hb. cbn [In] in Ha, Hb.
  rewrite IH.
  - f_equal. apply move_comm; intros ->; tauto.
  - rewrite in_app_iff. tauto.
  - rewrite in_app_iff. tauto.
Qed.

Lemma move_all_lookup_other jobs k : forall fs,
  ~ In k (map fst jobs ++ map snd jobs) -> move_all jobs fs !! k = fs !! k.
Proof.
  induction jobs as [|[s t] jobs IH]; intros fs Hk; [reflexivity|].
  cbn [move_all fold_left fst snd]. fold (move_all jobs (move s t fs)).
  cbn [map fst snd] in Hk. rewrite in_app_iff in Hk. cbn [In] in Hk.
  rewrite IH by (rewrite in_app_iff; tauto).
  apply move_lookup_other; intros ->; tauto.
Qed.

Lemma clean_head s t jobs fs :
  clean ((s, t) :: jobs) fs ->
  is_Some (fs !! s) /\ fs !! t = None /\ s <> t /\
  ~ In s (map fst jobs ++ map snd jobs) /\
  ~ In t (map fst jobs ++ map snd jobs) /\
  clean jobs (move s t fs).
Proof.
  intros (Hnd & Hsrc & Hdst). cbn [map fst snd app] in Hnd.
  apply NoDup_cons in Hnd as [Hs Hnd].
  apply NoDup_app in Hnd as (HA & Hdisj & HB).
  apply NoDup_cons in HB as [Ht HB].
  rewrite elem_of_app, elem_of_cons in Hs.
  assert (is_Some (fs !! s)) as Hs'.
  { apply FilesOpsFacts.exists_path_true, Hsrc. left. reflexivity. }
  assert (fs !! t = None) as Ht'.
  { apply FilesOpsFacts.exists_path_false, Hdst. left. reflexivity. }
  assert (s <> t) as Hst.
  { intros ->. rewrite Ht' in Hs'. destruct Hs'; discriminate. }
  assert (~ In s (map fst jobs ++ map snd jobs)) as Hs2.
  { rewrite <- list_elem_of_In, elem_of_app. tauto. }
  assert (~ In t (map fst jobs ++ map snd jobs)) as Ht2.
  { rewrite <- list_elem_of_In, elem_of_app. intros [H|H]; [|tauto].
    apply (Hdisj t H). left. }
  repeat split; try assumption.
  - apply NoDup_app. repeat split; try assumption.
    intros x Hx Hx'. apply (Hdisj x Hx). right. exact Hx'.
  - intros x Hx. unfold exists_path.
    rewrite move_lookup_other.
    + apply (Hsrc x). right. exact Hx.
    + intros ->. apply Hs2. apply in_app_iff. auto.
    + intros ->. apply Ht2. apply in_app_iff. auto.
  - intros x Hx. unfold exists_path.
    rewrite move_lookup_other.
    + apply (Hdst x). right. exact Hx.
    + intros ->. apply Hs2. apply in_app_iff. auto.
    + intros ->. apply Ht2. apply in_app_iff. auto.
Qed.

Lemma clean_tail job jobs fs : clean (job :: jobs) fs -> clean jobs fs.
Proof.
  destruct job as [s t]. intros (Hnd & Hsrc & Hdst). cbn [map fst snd app] in Hnd.
  apply NoDup_cons in Hnd as [_ Hnd].
  apply NoDup_app in Hnd as (HA & Hdisj & HB).
  apply NoDup_cons in HB as [_ HB].
  repeat split.
  - apply NoDup_app. repeat split; try assumption.
    intros x Hx Hx'. apply (Hdisj x Hx). right. exact Hx'.
  - intros x Hx. apply Hsrc. right. exact Hx.
  - intros x Hx. apply Hdst. right. exact Hx.
Qed.

Lemma move_all_delivers jobs : forall fs s t,
  clean jobs fs -> In (s, t) jobs ->
  move_all jobs fs !! t = fs !! s /\ move_all jobs fs !! s = None.
Proof.
  induction jobs as [|[s0 t0] jobs IH]; intros fs s t Hc Hin; [destruct Hin|].
  destruct (clean_head _ _ _ _ Hc) as (Hs0 & Ht0 & Hne & Hs0' & Ht0' & Hc').
  cbn [move_all fold_left fst snd]. fold (move_all jobs (move s0 t0 fs)).
  destruct Hin as [[= <- <-]|Hin].
  - rewrite !move_all_lookup_other by assumption.
    rewrite !move_lookup. destruct Hs0 as [data ->].
    destruct (decide (t0 = t0)); [|congruence].
    destruct (decide (s0 = t0)); [congruence|].
    destruct (decide (s0 = s0)); [|congruence]. auto.
  - destruct (IH _ _ _ Hc' Hin) as [H1 H2]. rewrite H1, H2. split; [|reflexivity].
    apply move_lookup_other.
    + intros ->. apply Hs0'. apply in_app_iff. left.
      apply (in_map fst _ _ Hin).
    + intros ->. apply Ht0'. apply in_app_iff. left.
      apply (in_map fst _ _ Hin).
Qed.

Section RoundTrip.
Variable process : string -> VideoResult.
Variable plan_destination : VideoResult -> string -> string -> string + string.
Variable now : string.
Variable output_dir : string.

(** The row written for a file that was placed. *)
Local Abbreviation placed job :=
  (mkRecord (basename (fst job)) (fst job) (basename (snd job)) (snd job)
            "success" now).

Local Abbreviation planned :=
  (fun v t => destination_of process plan_destination output_dir v = Some t).

Local Abbreviation step :=
  (debug_step process plan_destination reliable now true output_dir).

Lemma debug_step_places st v t :
  planned v t ->
  is_Some (files (b_disk st) !! v) -> files (b_disk st) !! t = None ->
  b_disk (step st v)
  = mkDisk (move v t (files (b_disk st))) (backup (b_disk st) ++ [placed (v, t)]).
Proof.
  intros Hp Hv Ht. unfold debug_step, file_step, batch_file_step,
    process_file_operation, destination_of in *.
  apply FilesOpsFacts.exists_path_true in Hv.
  apply FilesOpsFacts.exists_path_false in Ht.
  rewrite Hv. cbn [negb].
  destruct (plan_destination (process v) output_dir (basename v))
    as [e|dest]; [discriminate|].
  injection Hp as ->. unfold safe_move_file.
  rewrite Hv, Ht. cbn. reflexivity.
Qed.

Lemma debug_forward vs : forall ts st,
  Forall2 planned vs ts ->
  clean (zip vs ts) (files (b_disk st)) ->
  b_disk (fold_left step vs st)
  = mkDisk (move_all (zip vs ts) (files (b_disk st)))
           (backup (b_disk st) ++ map (fun job => placed job) (zip vs ts)).
Proof.
  induction vs as [|v vs IH]; intros ts st H2 Hc.
  - apply Forall2_nil_inv_l in H2 as ->. cbn. rewrite app_nil_r.
    destruct (b_disk st); reflexivity.
  - apply Forall2_cons_inv_l in H2 as (t & ts' & Hp & H2 & ->).
    cbn [zip zip_with] in Hc.
    destruct (clean_head _ _ _ _ Hc) as (Hs & Ht & _ & _ & _ & Hc').
    pose proof (debug_step_places st v t Hp Hs Ht) as Hstep.
    cbn [fold_left]. rewrite (IH ts' (step st v) H2); rewrite Hstep; cbn [files backup].
    + cbn [zip zip_with map move_all fold_left fst snd].
      rewrite <- app_assoc. reflexivity.
    + exact Hc'.
Qed.

Lemma restore_placed jobs : forall fs n e m,
  clean jobs fs ->
  restore_rows reliable (map (fun job => placed job) jobs)
               (mkRestore (move_all jobs fs) n e m)
  = mkRestore fs (n + length jobs) e
              (m ++ map (fun job => (snd job, fst job)) jobs).
Proof.
  induction jobs as [|[s t] jobs IH]; intros fs n e m Hc.
  - cbn. rewrite Nat.add_0_r, app_nil_r. reflexivity.
  - destruct (clean_head _ _ _ _ Hc) as (Hs & Ht & Hne & Hs' & Ht' & Hc').
    cbn [map restore_rows move_all fold_left fst snd].
    fold (move_all jobs (move s t fs)).
    unfold restore_row.
    cbn [status ruta_nueva ruta_original r_files restored errors moves
         makedirs_fails move_fails reliable].
    assert (exists_path (move_all jobs (move s t fs)) t = true) as ->.
    { apply FilesOpsFacts.exists_path_true.
      rewrite move_all_lookup_other by exact Ht'.
      rewrite move_lookup. destruct Hs as [data ->].
      destruct (decide (t = t)); [eauto|congruence]. }
    cbn [String.eqb Ascii.eqb Bool.eqb andb].
    rewrite move_all_comm by assumption.
    rewrite move_back by assumption.
    rewrite (IH fs (S n) e _ (clean_tail _ _ _ Hc)).
    cbn [length]. rewrite <- app_assoc, Nat.add_succ_r. reflexivity.
Qed.

(** X14 — a batch followed by a restore is a round trip.  When the
    videos are files, their planned destinations are free names and
    no name is used twice, and no call fails, then the batch puts
    every video at its destination, and restoring from the log of
    the batch brings every file back: the files are those of before
    the batch, and one file is counted for each video. *)
Theorem batch_then_restore_round_trip (videos dests : list string) (d : Disk)
    (Hplan : Forall2 planned videos dests)
    (Hclean : clean (zip videos dests) (files d))
    (Hlog : backup d = []) :
  let after :=
    b_disk (process_batch_debug process plan_destination reliable now true
                                output_dir videos d) in
  (forall v t, In (v, t) (zip videos dests) ->
               files after !! t = files d !! v /\ files after !! v = None) /\
  r_files (restore_from_backup reliable after) = files d /\
  restored (restore_from_backup reliable after) = length videos.
Proof.
  intros after. unfold process_batch_debug in after.
  assert (after = mkDisk (move_all (zip videos dests) (files d))
                         (map (fun job => placed job) (zip videos dests))) as ->.
  { unfold after.
    rewrite (debug_forward videos dests (initial videos d) Hplan Hclean).
    cbn [initial b_disk]. rewrite Hlog. reflexivity. }
  cbn [files]. split.
  - intros v t Hin. apply move_all_delivers; assumption.
  - unfold restore_from_backup. cbn [files backup].
    rewrite (restore_placed _ _ _ _ _ Hclean). cbn [r_files restored].
    split; [reflexivity|].
    rewrite length_zip_with. apply Forall2_length in Hplan. lia.
Qed.

End RoundTrip.

Lemma batch_then_restore_round_trip_witness :
  let process := fun _ : string => Invalid in
  let plan := fun (_ : VideoResult) (out name : string) =>
                (inr (out +:+ "/" +:+ name) : string + string) in
  let videos := ["in/a.mkv"; "in/b.mkv"] in
  let dests := ["lib/a.mkv"; "lib/b.mkv"] in
  let d := mkDisk {[ "in/a.mkv" := "A"; "in/b.mkv" := "B" ]} [] in
  let after := b_disk (process_batch_debug process plan reliable "t" true
                                           "lib" videos d) in
  Forall2 (fun v t => destination_of process plan "lib" v = Some t) videos dests /\
  clean (zip videos dests) (files d) /\
  r_files (restore_from_backup reliable after) = files d.
Proof.
  intros process plan videos dests d after.
  assert (Forall2 (fun v t => destination_of process plan "lib" v = Some t)
                  videos dests) as Hplan.
  { repeat constructor. }
  assert (clean (zip videos dests) (files d)) as Hclean.
  { split; [|split].
    - apply (bool_decide_unpack _). vm_compute. exact I.
    - intros s [<-|[<-|[]]]; vm_compute; reflexivity.
    - intros t [<-|[<-|[]]]; vm_compute; reflexivity. }
  split; [exact Hplan|]. split; [exact Hclean|].
  exact (proj1 (proj2 (batch_then_restore_round_trip
                         process plan "t" "lib" videos dests d
                         Hplan Hclean eq_refl))).
Defined.

End BatchFacts.

(* ===================================================================== *)
(** * More on the file operations *)
(* ===================================================================== *)

Module FilesOpsMore.
Import PyStr FilesOps.

Lemma string_of_list_app a b :
  string_of_list_ascii (a ++ b) = string_of_list_ascii a +:+ string_of_list_ascii b.
Proof.
  induction a as [|x a IH]; [reflexivity|].
  change (String x (string_of_list_ascii (a ++ b))
          = String x (string_of_list_ascii a +:+ string_of_list_ascii b)).
  rewrite IH. reflexivity.
Qed.

Lemma string_of_chars s : string_of_list_ascii (chars s) = s.
Proof. apply string_of_list_ascii_of_string. Qed.

Lemma length_append (a b : string) :
  String.length (a +:+ b) = (String.length a + String.length b)%nat.
Proof.
  induction a as [|x a IH]; [reflexivity|].
  change (String x a +:+ b) with (String x (a +:+ b)).
  cbn [String.length]. rewrite IH. reflexivity.
Qed.

(** The two parts [os.path.splitext] returns make up the path. *)
Lemma append_empty_r (s : string) : s +:+ "" = s.
Proof.
  induction s as [|x s IH]; [reflexivity|].
  change (String x (s +:+ "") = String x s). rewrite IH. reflexivity.
Qed.

Lemma splitext_join p : fst (splitext p) +:+ snd (splitext p) = p.
Proof.
  unfold splitext.
  destruct (rfind "." (chars p)) as [dot|]; [|apply append_empty_r].
  match goal with |- context [if ?c then _ else _] => destruct c end; cbn [fst snd].
  - rewrite <- string_of_list_app, take_drop. apply string_of_chars.
  - apply append_empty_r.
Qed.

Lemma duplicate_name_length dest :
  String.length (duplicate_name dest) = (String.length dest + 10)%nat.
Proof.
  unfold duplicate_name. pose proof (splitext_join dest) as H.
  destruct (splitext dest) as [base ext]. cbn [fst snd] in H.
  assert (String.length dest = (String.length base + String.length ext)%nat) as ->
    by (rewrite <- H; apply length_append).
  rewrite !length_append. cbn [String.length]. lia.
Qed.

Lemma duplicate_name_differs dest : duplicate_name dest <> dest.
Proof.
  intros H. pose proof (duplicate_name_length dest) as Hl. rewrite H in Hl. lia.
Qed.

Section Collision.
Variable Result : Type.
Variable plan_destination : Result -> string -> string -> string + string.
Variable now : string.

(** X15 — when the destination is taken, the file goes to the
    [_duplicado] name but the log records the destination that was
    asked for.  A restore from that log therefore moves the file
    that was already at the destination to the place the new file
    came from, and leaves the new file under its [_duplicado]
    name. *)
Theorem collision_is_logged_under_the_requested_name
    (source_path dest_file output_dir data other : string)
    (result_info : Result) (d : Disk)
    (Hsrc : files d !! source_path = Some data)
    (Hplan : plan_destination result_info output_dir (basename source_path)
             = inr dest_file)
    (Htaken : files d !! dest_file = Some other)
    (Hne : source_path <> dest_file)
    (Hdup : duplicate_name dest_file <> source_path)
    (Hlog : backup d = []) :
  let '(r, d') := process_file_operation Result plan_destination reliable now
                    source_path result_info output_dir d in
  let back := restore_from_backup reliable d' in
  status r = "success" /\ ruta_nueva r = dest_file /\
  files d' !! duplicate_name dest_file = Some data /\
  files d' !! dest_file = Some other /\
  restored back = 1%nat /\
  r_files back !! source_path = Some other /\
  r_files back !! dest_file = None /\
  r_files back !! duplicate_name dest_file = Some data.
Proof.
  pose proof (duplicate_name_differs dest_file) as Hdd.
  unfold process_file_operation, exists_path. rewrite Hsrc. cbn [negb]. rewrite Hplan.
  unfold safe_move_file, exists_path. rewrite Hsrc, Htaken.
  cbn [negb makedirs_fails move_fails reliable].
  fold (duplicate_name dest_file).
  set (dup := duplicate_name dest_file) in *.
  unfold append_to_backup, restore_from_backup. cbn [files backup row status ruta_nueva].
  rewrite Hlog. cbn [app restore_rows]. unfold restore_row.
  cbn [status ruta_nueva ruta_original nombre_original nombre_nuevo row
       r_files restored errors moves makedirs_fails move_fails reliable].
  assert (move source_path dup (files d) !! dest_file = Some other) as Hd1.
  { rewrite BatchFacts.move_lookup_other by congruence. exact Htaken. }
  assert (move source_path dup (files d) !! dup = Some data) as Hd2.
  { rewrite BatchFacts.move_lookup, Hsrc.
    destruct (decide (dup = dup)); congruence. }
  unfold exists_path. rewrite Hd1.
  cbn [String.eqb Ascii.eqb Bool.eqb andb r_files restored].
  repeat split; try assumption.
  - rewrite BatchFacts.move_lookup, Hd1.
    destruct (decide (source_path = source_path)); congruence.
  - rewrite BatchFacts.move_lookup, Hd1.
    destruct (decide (dest_file = source_path)); [congruence|].
    destruct (decide (dest_file = dest_file)); congruence.
  - rewrite BatchFacts.move_lookup_other by congruence. exact Hd2.
Qed.

End Collision.

Lemma collision_is_logged_under_the_requested_name_witness :
  let d := mkDisk {[ "in/b.mkv" := "B"; "out/Film.mkv" := "A" ]} [] in
  let plan := fun (_ : unit) (out name : string) =>
                (inr "out/Film.mkv" : string + string) in
  let '(r, d') := process_file_operation unit plan reliable "t"
                    "in/b.mkv" tt "out" d in
  files d !! "in/b.mkv" = Some "B" /\
  files d !! "out/Film.mkv" = Some "A" /\
  ruta_nueva r = "out/Film.mkv" /\
  r_files (restore_from_backup reliable d') !! "in/b.mkv" = Some "A".
Proof.
  intros d plan.
  assert (files d !! "in/b.mkv" = Some "B") as Hsrc by (vm_compute; reflexivity).
  assert (files d !! "out/Film.mkv" = Some "A") as Htaken by (vm_compute; reflexivity).
  assert (duplicate_name "out/Film.mkv" <> "in/b.mkv") as Hdup
    by (vm_compute; discriminate).
  assert ("in/b.mkv" <> "out/Film.mkv") as Hne by discriminate.
  pose proof (collision_is_logged_under_the_requested_name
                unit plan "t" "in/b.mkv" "out/Film.mkv" "out" "B" "A" tt d
                Hsrc eq_refl Htaken Hne Hdup eq_refl) as H.
  destruct (process_file_operation unit plan reliable "t" "in/b.mkv" tt "out" d)
    as [r d'].
  destruct H as (_ & H2 & _ & _ & _ & H6 & _).
  repeat split; assumption.
Defined.

(** ** What a restore can and cannot do *)

Lemma restore_row_frame io r st st' :
  restore_row io r st = Some st' ->
  (restored st' + errors st' <=
     restored st + errors st + (if is_success r then 1 else 0))%nat /\
  (restored st' + length (moves st) = restored st + length (moves st'))%nat /\
  (forall p, is_success r = false \/ (p <> ruta_nueva r /\ p <> ruta_original r) ->
             r_files st' !! p = r_files st !! p) /\
  (forall p data, r_files st' !! p = Some data ->
                  exists q, r_files st !! q = Some data).
Proof.
  unfold restore_row. fold (is_success r).
  destruct (is_success r) eqn:Es; cbn [andb].
  2:{ intros [= <-]. repeat split; try lia; eauto. }
  destruct (exists_path (r_files st) (ruta_nueva r)) eqn:Ee.
  2:{ intros [= <-]. repeat split; try lia; eauto. }
  destruct (makedirs_fails io (ruta_original r)); [discriminate|].
  destruct (move_fails io (ruta_nueva r) (ruta_original r)); intros [= <-];
    cbn [restored errors moves r_files].
  - repeat split; try lia; eauto.
  - rewrite length_app. cbn [length]. repeat split; try lia.
    + intros p [H|[H1 H2]]; [discriminate|].
      apply BatchFacts.move_lookup_other; assumption.
    + intros p data. rewrite BatchFacts.move_lookup.
      destruct (r_files st !! ruta_nueva r) as [moved|] eqn:Em; [|eauto].
      destruct (decide (p = ruta_original r)); [intros [= <-]; eauto|].
      destruct (decide (p = ruta_nueva r)); [discriminate|eauto].
Qed.

Lemma restore_rows_frame io rows : forall st,
  let st' := restore_rows io rows st in
  (restored st' + errors st' <=
     restored st + errors st + length (List.filter is_success rows))%nat /\
  (restored st' + length (moves st) = restored st + length (moves st'))%nat /\
  (forall p, (forall r, In r rows -> is_success r = true ->
                        p <> ruta_nueva r /\ p <> ruta_original r) ->
             r_files st' !! p = r_files st !! p) /\
  (forall p data, r_files st' !! p = Some data ->
                  exists q, r_files st !! q = Some data).
Proof.
  induction rows as [|r rows IH]; intros st; cbn [restore_rows].
  - cbn. repeat split; try lia; eauto.
  - destruct (restore_row io r st) as [st1|] eqn:E.
    2:{ cbn zeta. repeat split; try lia; eauto. }
    destruct (restore_row_frame _ _ _ _ E) as (H1 & H2 & H3 & H4).
    destruct (IH st1) as (I1 & I2 & I3 & I4). cbn zeta.
    repeat split.
    + cbn [List.filter]. destruct (is_success r); cbn [length]; lia.
    + lia.
    + intros p Hp. rewrite I3.
      * apply H3. destruct (is_success r) eqn:Es; [right|left; reflexivity].
        apply Hp; [left; reflexivity|exact Es].
      * intros r' Hr' Hs'. apply Hp; [right; exact Hr'|exact Hs'].
    + intros p data Hp. destruct (I4 p data Hp) as [q Hq]. eauto.
Qed.

(** X16 — what a restore can do, whatever fails on the way: it counts
    one restored file for each move it made and touches at most one
    file per success row of the log; a path that no success row names
    keeps what it had; and every content on the disk afterwards was
    on the disk before. *)
Theorem restore_only_moves_logged_files (io : IO) (d : Disk) :
  let back := restore_from_backup io d in
  restored back = length (moves back) /\
  (restored back + errors back <= length (List.filter is_success (backup d)))%nat /\
  (forall p, (forall r, In r (backup d) -> is_success r = true ->
                        p <> ruta_nueva r /\ p <> ruta_original r) ->
             r_files back !! p = files d !! p) /\
  (forall p data, r_files back !! p = Some data ->
                  exists q, files d !! q = Some data).
Proof.
  unfold restore_from_backup.
  destruct (restore_rows_frame io (backup d) (mkRestore (files d) 0 0 []))
    as (H1 & H2 & H3 & H4).
  cbn [restored errors moves r_files length] in *.
  repeat split; try assumption; lia.
Qed.

End FilesOpsMore.

(* ===================================================================== *)
(** * The statistics and the log of a batch *)
(* ===================================================================== *)

Module BatchStats.
Import PyStr Tmdb Process FilesOps Batch.

Lemma count_fields s result :
  total (count s result) = total s /\
  procesados (count s result) = S (procesados s) /\
  identificados (count s result)
  = (identificados s + if identificado result then 1 else 0)%nat /\
  errores (count s result)
  = (errores s + if is_error result then 1 else 0)%nat /\
  no_identificados (count s result)
  = (no_identificados s + if is_unidentified result then 1 else 0)%nat.
Proof.
  unfold count, is_unidentified.
  destruct result as [| | |m]; cbn; try (repeat split; lia).
  destruct (startswith m "Error"); cbn; repeat split; lia.
Qed.

Lemma how_many_cons p r rs :
  how_many p (r :: rs) = ((if p r then 1 else 0) + how_many p rs)%nat.
Proof. unfold how_many. cbn. destruct (p r); reflexivity. Qed.

Lemma fold_count rs : forall s,
  let s' := fold_left count rs s in
  total s' = total s /\
  procesados s' = (procesados s + length rs)%nat /\
  identificados s' = (identificados s + how_many identificado rs)%nat /\
  errores s' = (errores s + how_many is_error rs)%nat /\
  no_identificados s' = (no_identificados s + how_many is_unidentified rs)%nat.
Proof.
  induction rs as [|r rs IH]; intros s; cbn [fold_left].
  - unfold how_many. cbn. repeat split; lia.
  - destruct (IH (count s r)) as (H1 & H2 & H3 & H4 & H5).
    destruct (count_fields s r) as (C1 & C2 & C3 & C4 & C5). cbn zeta.
    rewrite H1, H2, H3, H4, H5, C1, C2, C3, C4, C5.
    rewrite (how_many_cons identificado), (how_many_cons is_error),
      (how_many_cons is_unidentified). cbn [length]. repeat split; lia.
Qed.

Lemma how_many_perm p rs rs' :
  Permutation rs rs' -> how_many p rs = how_many p rs'.
Proof.
  induction 1 as [|x l l' _ IH|x y l|l l' l'' _ IH1 _ IH2].
  - reflexivity.
  - rewrite !how_many_cons, IH. reflexivity.
  - rewrite !how_many_cons. lia.
  - congruence.
Qed.

Lemma how_many_split rs :
  (how_many identificado rs + how_many is_unidentified rs + how_many is_error rs
   = length rs)%nat.
Proof.
  induction rs as [|r rs IH]; [reflexivity|].
  rewrite !how_many_cons. cbn [length].
  assert ((if identificado r then 1 else 0) + (if is_unidentified r then 1 else 0)
          + (if is_error r then 1 else 0) = 1)%nat; [|lia].
  unfold is_unidentified.
  destruct r as [| | |m]; cbn; try reflexivity.
  destruct (startswith m "Error"); reflexivity.
Qed.

Lemma stats_eq s s' :
  total s = total s' -> procesados s = procesados s' ->
  identificados s = identificados s' ->
  no_identificados s = no_identificados s' -> errores s = errores s' -> s = s'.
Proof. destruct s, s'; cbn; congruence. Qed.

Section Modes.
Variable process : string -> VideoResult.
Variable plan_destination : VideoResult -> string -> string -> string + string.
Variable io : IO.
Variable now : string.
Variable rename_files : bool.
Variable output_dir : string.

Local Abbreviation file_step' :=
  (file_step plan_destination io now rename_files output_dir).
Local Abbreviation debug_step' :=
  (debug_step process plan_destination io now rename_files output_dir).
Local Abbreviation pool_step' :=
  (pool_step plan_destination io now rename_files output_dir).

Lemma file_step_stats stats video result st :
  b_stats (file_step' stats video result st) = stats.
Proof.
  unfold file_step.
  destruct (batch_file_step _ _ _ _ _ _ _ _ _); reflexivity.
Qed.

Lemma debug_stats vs : forall st,
  b_stats (fold_left debug_step' vs st)
  = fold_left count (map process vs) (b_stats st).
Proof.
  induction vs as [|v vs IH]; intros st; [reflexivity|].
  cbn [fold_left map]. rewrite IH. unfold debug_step.
  rewrite file_step_stats. reflexivity.
Qed.

Lemma pool_stats video_files rs : forall st,
  b_stats (fold_left (pool_step' video_files) rs st)
  = fold_left count rs (b_stats st).
Proof.
  induction rs as [|r rs IH]; intros st; [reflexivity|].
  cbn [fold_left]. rewrite IH. unfold pool_step.
  destruct (video_files !! _); [rewrite file_step_stats|]; reflexivity.
Qed.


End Modes.


(** ** The log *)

Section Log.
Variable plan_destination : VideoResult -> string -> string -> string + string.
Variable io : IO.
Variable now : string.
Variable rename_files : bool.
Variable output_dir : string.

Local Abbreviation file_step' :=
  (file_step plan_destination io now rename_files output_dir).

(** What one file operation appends. *)
Local Abbreviation row_for :=
  (fun (video : string) (r : BackupRecord) =>
     ruta_original r = video /\ nombre_original r = basename video /\
     timestamp r = now /\ written_status (status r) /\
     (rename_files = false -> status r = "no_action")).

Lemma file_step_row stats video result st :
  exists r,
    backup (b_disk (file_step' stats video result st))
    = backup (b_disk st) ++ [r] /\
    row_for video r /\
    (rename_files = false ->
     files (b_disk (file_step' stats video result st)) = files (b_disk st)).
Proof.
  unfold file_step, batch_file_step, process_file_operation.
  destruct rename_files.
  - destruct (exists_path (files (b_disk st)) video); cbn [negb].
    + destruct (plan_destination result output_dir (basename video)) as [e|dest].
      * eexists. cbn. split; [reflexivity|]. repeat split; try discriminate.
        unfold written_status. eauto 10.
      * destruct (safe_move_file io video dest (files (b_disk st))) as [moved fs'].
        eexists. cbn. split; [reflexivity|]. repeat split; try discriminate.
        unfold written_status. destruct moved; auto.
    + eexists. cbn. split; [reflexivity|]. repeat split; try discriminate.
      unfold written_status. auto.
  - eexists. cbn. split; [reflexivity|]. repeat split; try reflexivity.
    unfold written_status. auto.
Qed.

(** The rows for the videos [vs], in their order. *)
Local Abbreviation rows_for := (Forall2 row_for).

Lemma debug_log process vs : forall st,
  exists rows,
    backup (b_disk (fold_left
                      (debug_step process plan_destination io now rename_files
                                  output_dir) vs st))
    = backup (b_disk st) ++ rows /\
    rows_for vs rows /\
    (rename_files = false ->
     files (b_disk (fold_left
                      (debug_step process plan_destination io now rename_files
                                  output_dir) vs st))
     = files (b_disk st)).
Proof.
  induction vs as [|v vs IH]; intros st; cbn [fold_left].
  - exists []. rewrite app_nil_r. repeat split. constructor.
  - set (st1 := debug_step process plan_destination io now rename_files
                           output_dir st v).
    destruct (file_step_row (count (b_stats st) (process v)) v (process v) st)
      as (r & Hb & Hr & Hf).
    fold (debug_step process plan_destination io now rename_files output_dir st v)
      in Hb, Hf. fold st1 in Hb, Hf.
    destruct (IH st1) as (rows & Hb' & Hrows & Hf').
    exists (r :: rows). rewrite Hb', Hb, <- app_assoc. split; [reflexivity|].
    split; [constructor; assumption|].
    intros Hno. rewrite (Hf' Hno). exact (Hf Hno).
Qed.

Lemma pool_log post : forall pre rs st,
  procesados (b_stats st) = length pre -> length rs = length post ->
  exists rows,
    backup (b_disk (fold_left
                      (pool_step plan_destination io now rename_files output_dir
                                 (pre ++ post)) rs st))
    = backup (b_disk st) ++ rows /\
    rows_for post rows /\
    (rename_files = false ->
     files (b_disk (fold_left
                      (pool_step plan_destination io now rename_files output_dir
                                 (pre ++ post)) rs st))
     = files (b_disk st)).
Proof.
  induction post as [|v post IH]; intros pre rs st Hn Hlen.
  - destruct rs; [|discriminate]. exists []. cbn. rewrite app_nil_r.
    repeat split. constructor.
  - destruct rs as [|result rs]; [discriminate|]. cbn [fold_left].
    set (st1 := pool_step plan_destination io now rename_files output_dir
                          (pre ++ v :: post) st result).
    assert (st1 = file_step' (count (b_stats st) result) v result st) as Hst1.
    { unfold st1, pool_step.
      destruct (count_fields (b_stats st) result) as (_ & -> & _).
      rewrite Hn. replace (S (length pre) - 1)%nat with (length pre) by lia.
      rewrite list_lookup_middle by reflexivity. reflexivity. }
    destruct (file_step_row (count (b_stats st) result) v result st)
      as (r & Hb & Hr & Hf).
    rewrite <- Hst1 in Hb, Hf.
    assert (procesados (b_stats st1) = length (pre ++ [v])) as Hn1.
    { rewrite Hst1. unfold file_step.
      destruct (batch_file_step _ _ _ _ _ _ _ _ _). cbn [b_stats].
      destruct (count_fields (b_stats st) result) as (_ & -> & _).
      rewrite length_app, Hn. cbn. lia. }
    assert (pre ++ v :: post = (pre ++ [v]) ++ post) as Hsplit
      by (rewrite <- app_assoc; reflexivity).
    destruct (IH (pre ++ [v]) rs st1 Hn1) as (rows & Hb' & Hrows & Hf').
    { cbn in Hlen. lia. }
    rewrite <- Hsplit in Hb', Hf'.
    exists (r :: rows). rewrite Hb', Hb, <- app_assoc. split; [reflexivity|].
    split; [constructor; assumption|].
    intros Hno. rewrite (Hf' Hno). exact (Hf Hno).
Qed.

End Log.



(** ** The pairing of results and videos *)

Lemma file_step_places plan_destination now output_dir stats v result t st :
  plan_destination result output_dir (basename v) = inr t ->
  is_Some (files (b_disk st) !! v) -> files (b_disk st) !! t = None ->
  file_step plan_destination reliable now true output_dir stats v result st
  = mkBatch stats
            (mkDisk (move v t (files (b_disk st)))
                    (backup (b_disk st)
                     ++ [mkRecord (basename v) v (basename t) t "success" now]))
            (b_results st ++ [(result, row (basename v) v (basename t) t "success")]).
Proof.
  intros Hp Hv Ht. unfold file_step, batch_file_step, process_file_operation.
  apply FilesOpsFacts.exists_path_true in Hv.
  apply FilesOpsFacts.exists_path_false in Ht.
  rewrite Hv. cbn [negb]. rewrite Hp. unfold safe_move_file.
  rewrite Hv, Ht. cbn. reflexivity.
Qed.

(** X19 — with the pool, a result is paired with the video at the
    index of its arrival, not with the video it was computed from.
    When the result of the second video arrives first, the first
    video is filed at the destination planned from the second video's
    result, and the second video at the one planned from the first's;
    the log records both moves as successes. *)
Theorem pool_pairs_results_by_arrival
    (process : string -> VideoResult)
    (plan_destination : VideoResult -> string -> string -> string + string)
    (now output_dir a b ta tb : string) (d : Disk)
    (Hta : plan_destination (process b) output_dir (basename a) = inr ta)
    (Htb : plan_destination (process a) output_dir (basename b) = inr tb)
    (Hclean : clean [(a, ta); (b, tb)] (files d)) :
  let after :=
    b_disk (process_batch_pool plan_destination reliable now true output_dir
                               [process b; process a] [a; b] d) in
  files after !! ta = files d !! a /\
  files after !! tb = files d !! b /\
  backup after
  = backup d ++ [mkRecord (basename a) a (basename ta) ta "success" now;
                 mkRecord (basename b) b (basename tb) tb "success" now].
Proof.
  destruct (BatchFacts.clean_head _ _ _ _ Hclean) as (Ha & Hfa & _ & _ & _ & Hc').
  destruct (BatchFacts.clean_head _ _ _ _ Hc') as (Hb & Hfb & _ & _ & _ & _).
  intros after.
  assert (after = mkDisk (move_all [(a, ta); (b, tb)] (files d))
                         (backup d ++ [mkRecord (basename a) a (basename ta) ta
                                                "success" now;
                                       mkRecord (basename b) b (basename tb) tb
                                                "success" now])) as ->.
  { unfold after, process_batch_pool. cbn [fold_left].
    set (st0 := initial [a; b] d).
    assert (pool_step plan_destination reliable now true output_dir [a; b] st0
                      (process b)
            = file_step plan_destination reliable now true output_dir
                        (count (b_stats st0) (process b)) a (process b) st0) as ->.
    { unfold pool_step.
      destruct (count_fields (b_stats st0) (process b)) as (_ & -> & _).
      reflexivity. }
    rewrite (file_step_places _ _ _ _ _ _ ta st0 Hta Ha Hfa).
    set (st1 := mkBatch _ _ _).
    assert (pool_step plan_destination reliable now true output_dir [a; b] st1
                      (process a)
            = file_step plan_destination reliable now true output_dir
                        (count (b_stats st1) (process a)) b (process a) st1) as ->.
    { unfold pool_step.
      destruct (count_fields (b_stats st1) (process a)) as (_ & -> & _).
      unfold st1. cbn [b_stats].
      destruct (count_fields (b_stats st0) (process b)) as (_ & -> & _).
      reflexivity. }
    rewrite (file_step_places _ _ _ _ _ _ tb st1 Htb Hb Hfb).
    cbn [b_disk st1 st0 initial files backup move_all fold_left fst snd].
    rewrite <- app_assoc. reflexivity. }
  cbn [files backup]. split; [|split; [|reflexivity]].
  - apply (BatchFacts.move_all_delivers _ _ a ta Hclean). left. reflexivity.
  - apply (BatchFacts.move_all_delivers _ _ b tb Hclean). right. left. reflexivity.
Qed.

Lemma pool_pairs_results_by_arrival_witness :
  let process := fun v : string =>
                   if String.eqb v "in/a.mkv" then Failed "Error: x" else Invalid in
  let plan := fun (r : VideoResult) (out name : string) =>
                (match r with
                 | Invalid => inr (out +:+ "/invalid/" +:+ name)
                 | _ => inr (out +:+ "/other/" +:+ name)
                 end : string + string) in
  let d := mkDisk {[ "in/a.mkv" := "A"; "in/b.mkv" := "B" ]} [] in
  let after := b_disk (process_batch_pool plan reliable "t" true "out"
                         [process "in/b.mkv"; process "in/a.mkv"]
                         ["in/a.mkv"; "in/b.mkv"] d) in
  clean [("in/a.mkv", "out/invalid/a.mkv"); ("in/b.mkv", "out/other/b.mkv")]
        (files d) /\
  files after !! "out/invalid/a.mkv" = files d !! "in/a.mkv".
Proof.
  intros process plan d after.
  assert (clean [("in/a.mkv", "out/invalid/a.mkv"); ("in/b.mkv", "out/other/b.mkv")]
                (files d)) as Hclean.
  { split; [|split].
    - apply (bool_decide_unpack _). vm_compute. exact I.
    - intros s [<-|[<-|[]]]; vm_compute; reflexivity.
    - intros t [<-|[<-|[]]]; vm_compute; reflexivity. }
  split; [exact Hclean|].
  exact (proj1 (pool_pairs_results_by_arrival process plan "t" "out"
                  "in/a.mkv" "in/b.mkv" "out/invalid/a.mkv" "out/other/b.mkv" d
                  eq_refl eq_refl Hclean)).
Defined.

End BatchStats.

(* ===================================================================== *)
(** * Names and destinations *)
(* ===================================================================== *)

Module PathsFacts.
Import PyStr Tmdb Process FilesOps Paths.

Lemma chars_of_list l : chars (string_of_list_ascii l) = l.
Proof. apply list_ascii_of_string_of_list_ascii. Qed.

Lemma length_chars s : length (chars s) = String.length s.
Proof. induction s as [|c s IH]; cbn; [reflexivity|]. f_equal. exact IH. Qed.

Lemma chars_remove_invalid filename c :
  In c (chars (remove_invalid filename)) ->
  In c (chars filename) /\ invalid_char c = false.
Proof.
  unfold remove_invalid. rewrite chars_of_list, filter_In.
  intros [H1 H2]. split; [exact H1|]. destruct (invalid_char c); [discriminate|reflexivity].
Qed.

(** Every character of the sanitized name is a character of the
    name. *)
Lemma chars_sanitize filename c :
  In c (chars (sanitize_filename filename)) ->
  In c (chars filename) /\ invalid_char c = false.
Proof.
  unfold sanitize_filename.
  destruct (240 <? String.length (remove_invalid filename))%nat;
    [|apply chars_remove_invalid].
  pose proof (FilesOpsMore.splitext_join (remove_invalid filename)) as Hj.
  destruct (splitext (remove_invalid filename)) as [base ext]. cbn [fst snd] in Hj.
  rewrite OcrFacts.chars_append, chars_of_list, in_app_iff. intros H.
  apply chars_remove_invalid. rewrite <- Hj, OcrFacts.chars_append, in_app_iff.
  destruct H as [H|H]; [left|right; exact H].
  apply list_elem_of_In. apply list_elem_of_In in H.
  apply (subseteq_take 236). exact H.
Qed.

(** X20 — a sanitized name holds none of the nine characters that are
    not allowed in file names.  It is cut to 236 characters plus its
    extension, so it has at most 240 characters when the extension
    has at most four, the dot included (and more when the extension
    is longer).  A name of at most 240 characters that holds none of
    the nine characters is left as it is. *)
Theorem sanitized_name_is_valid (filename : string) :
  let name := sanitize_filename filename in
  let ext := snd (splitext (remove_invalid filename)) in
  (forall c, In c invalid_chars -> ~ In c (chars name)) /\
  (String.length name <= Nat.max 240 (236 + String.length ext))%nat /\
  ((forall c, In c invalid_chars -> ~ In c (chars filename)) ->
   (String.length filename <= 240)%nat -> name = filename).
Proof.
  cbn zeta. split; [|split].
  - intros c Hc Hin. apply chars_sanitize in Hin as [_ H].
    unfold invalid_char in H.
    assert (existsb (Ascii.eqb c) invalid_chars = true); [|congruence].
    apply existsb_exists. exists c. split; [exact Hc|apply Ascii.eqb_refl].
  - unfold sanitize_filename.
    destruct (240 <? String.length (remove_invalid filename))%nat eqn:E.
    + destruct (splitext (remove_invalid filename)) as [base ext]. cbn [snd].
      rewrite FilesOpsMore.length_append, <- length_chars, chars_of_list, length_take.
      lia.
    + apply Nat.ltb_ge in E. lia.
  - intros Hfree Hlen.
    assert (remove_invalid filename = filename) as Hid.
    { unfold remove_invalid.
      rewrite <- (FilesOpsMore.string_of_chars filename) at 2. f_equal.
      apply forallb_filter_id. apply forallb_forall. intros c Hc.
      destruct (invalid_char c) eqn:Ei; [|reflexivity]. exfalso.
      unfold invalid_char in Ei. apply existsb_exists in Ei as (x & Hx & Hcx).
      apply Ascii.eqb_eq in Hcx. subst x. exact (Hfree c Hx Hc). }
    unfold sanitize_filename. rewrite Hid.
    destruct (240 <? String.length filename)%nat eqn:E; [|reflexivity].
    apply Nat.ltb_lt in E. lia.
Qed.

(** ** Paths *)

Lemma chars_inj a b : chars a = chars b -> a = b.
Proof.
  intros H. rewrite <- (FilesOpsMore.string_of_chars a),
    <- (FilesOpsMore.string_of_chars b), H. reflexivity.
Qed.

Lemma append_assoc (a b c : string) : (a +:+ b) +:+ c = a +:+ (b +:+ c).
Proof. apply chars_inj. rewrite !OcrFacts.chars_append, app_assoc. reflexivity. Qed.

Lemma rfind_None c l : rfind c l = None <-> ~ In c l.
Proof.
  induction l as [|x l IH]; cbn; [tauto|].
  destruct (rfind c l) as [i|].
  - split; [discriminate|]. intros H. exfalso.
    assert (~ In c l) as Hn by tauto. apply IH in Hn. discriminate.
  - destruct (Ascii.eqb x c) eqn:E.
    + apply Ascii.eqb_eq in E. split; [discriminate|]. tauto.
    + apply Ascii.eqb_neq in E. split; [|reflexivity].
      intros _ [H|H]; [congruence|]. apply IH in H; [exact H|reflexivity].
Qed.

Lemma rfind_Some c l i : rfind c l = Some i -> ~ In c (drop (S i) l).
Proof.
  revert i. induction l as [|x l IH]; intros i; cbn [rfind]; [discriminate|].
  destruct (rfind c l) as [j|] eqn:E.
  - intros [= <-]. cbn [drop]. apply IH. reflexivity.
  - destruct (Ascii.eqb x c); [|discriminate]. intros [= <-].
    cbn [drop]. rewrite drop_0. apply rfind_None. exact E.
Qed.

Lemma rfind_app c l r : ~ In c r -> rfind c (l ++ c :: r) = Some (length l).
Proof.
  intros Hr. induction l as [|x l IH]; cbn [app rfind length].
  - apply rfind_None in Hr. rewrite Hr, Ascii.eqb_refl. reflexivity.
  - rewrite IH. reflexivity.
Qed.

(** A base name holds no separator. *)
Lemma basename_no_sep p : ~ In "/"%char (chars (basename p)).
Proof.
  unfold basename. destruct (rfind "/" (chars p)) as [i|] eqn:E.
  - rewrite chars_of_list. apply rfind_Some. exact E.
  - apply rfind_None. exact E.
Qed.

(** [os.path.basename] gives back the last component. *)
Lemma basename_join dir name :
  ~ In "/"%char (chars name) -> basename (dir +:+ "/" +:+ name) = name.
Proof.
  intros Hn. unfold basename.
  assert (chars (dir +:+ "/" +:+ name) = chars dir ++ "/"%char :: chars name) as ->
    by (rewrite !OcrFacts.chars_append; reflexivity).
  rewrite (rfind_app "/" (chars dir) (chars name) Hn).
  change ("/"%char :: chars name) with (["/"%char] ++ chars name).
  rewrite app_assoc, drop_app_length'.
  - apply FilesOpsMore.string_of_chars.
  - rewrite length_app. cbn. lia.
Qed.

Lemma startswith_sep b :
  startswith b "/" = match chars b with
                     | c :: _ => if Ascii.ascii_dec "/" c then true else false
                     | [] => false
                     end.
Proof.
  destruct b as [|c b]; [reflexivity|]. unfold startswith, chars.
  cbn [list_ascii_of_string].
  change (String.prefix "/" (String c b))
    with (if Ascii.ascii_dec "/" c then String.prefix "" b else false).
  destruct (Ascii.ascii_dec "/" c); [|reflexivity]. destruct b; reflexivity.
Qed.

Lemma no_sep_start b : ~ In "/"%char (chars b) -> startswith b "/" = false.
Proof.
  rewrite startswith_sep. destruct (chars b) as [|c l]; [reflexivity|].
  intros H. destruct (Ascii.ascii_dec "/" c) as [<-|]; [|reflexivity].
  exfalso. apply H. left. reflexivity.
Qed.

Lemma start_append a c r :
  ~ In "/"%char (chars a) -> c <> "/"%char ->
  startswith (a +:+ String c r) "/" = false.
Proof.
  intros Ha Hc. rewrite startswith_sep, OcrFacts.chars_append.
  destruct (chars a) as [|x l] eqn:E; unfold chars; cbn [app list_ascii_of_string].
  - destruct (Ascii.ascii_dec "/" c); [congruence|reflexivity].
  - destruct (Ascii.ascii_dec "/" x) as [<-|]; [|reflexivity].
    exfalso. apply Ha. left. reflexivity.
Qed.

Lemma nonempty_append a b : nonempty (a +:+ b) = nonempty a || nonempty b.
Proof. destruct a; [destruct b|]; reflexivity. Qed.

Lemma nonempty_chars b : nonempty b = true -> chars b <> [].
Proof. destruct b; [discriminate|]. cbn. discriminate. Qed.

Lemma ends_app a b :
  nonempty b = true -> ends_with_sep (a +:+ b) = ends_with_sep b.
Proof.
  intros Hb. apply nonempty_chars in Hb. unfold ends_with_sep.
  rewrite OcrFacts.chars_append, rev_app_distr.
  destruct (rev (chars b)) as [|c l] eqn:E; [|reflexivity].
  exfalso. apply Hb. rewrite <- (rev_involutive (chars b)), E. reflexivity.
Qed.

Lemma ends_no_sep b : ~ In "/"%char (chars b) -> ends_with_sep b = false.
Proof.
  intros Hb. unfold ends_with_sep.
  destruct (rev (chars b)) as [|c l] eqn:E; [reflexivity|].
  apply Ascii.eqb_neq. intros ->. apply Hb. apply in_rev. rewrite E. left. reflexivity.
Qed.

Lemma join_step_plain path b :
  nonempty path = true -> ends_with_sep path = false ->
  startswith b "/" = false ->
  join_step path b = path +:+ "/" +:+ b.
Proof. unfold join_step. intros -> -> ->. reflexivity. Qed.

(** A relative component is appended, with or without a separator. *)
Lemma join_step_relative path b :
  startswith b "/" = false ->
  exists front, join_step path b = front +:+ b.
Proof.
  unfold join_step. intros ->.
  destruct (negb (nonempty path) || ends_with_sep path).
  - exists path. reflexivity.
  - exists (path +:+ "/"). symmetry. apply append_assoc.
Qed.

(** The folder of the library under the output directory: it is not
    empty and does not end with a separator. *)
Lemma library_prefix output_dir folder :
  ~ In "/"%char (chars folder) -> nonempty folder = true ->
  nonempty (path_join output_dir [folder]) = true /\
  ends_with_sep (path_join output_dir [folder]) = false.
Proof.
  intros Hf Hn. cbn [path_join fold_left].
  destruct (join_step_relative output_dir folder (no_sep_start _ Hf)) as [front ->].
  rewrite nonempty_append, Hn, orb_true_r, (ends_app _ _ Hn).
  split; [reflexivity|apply ends_no_sep, Hf].
Qed.

Lemma path_join_snoc a p b : path_join a (p ++ [b]) = join_step (path_join a p) b.
Proof. unfold path_join. rewrite fold_left_app. reflexivity. Qed.

(** ** Decimal numbers *)

Lemma digits_of_uint d :
  Forall (fun c => is_digit c = true) (chars (NilEmpty.string_of_uint d)).
Proof. induction d; cbn; constructor; try reflexivity; assumption. Qed.

Lemma decimal_digits n :
  Forall (fun c => is_digit c = true) (chars (decimal n)) /\
  nonempty (decimal n) = true.
Proof.
  unfold decimal, NilZero.string_of_uint.
  destruct (N.to_uint n);
    (split; [first [apply digits_of_uint | repeat constructor] | reflexivity]).
Qed.

Lemma digit_not_sep c : is_digit c = true -> c <> "/"%char.
Proof. intros H ->. discriminate. Qed.

Lemma two_digits_digits n :
  Forall (fun c => is_digit c = true) (chars (two_digits n)) /\
  nonempty (two_digits n) = true.
Proof.
  destruct (decimal_digits n) as [Hd Hn]. unfold two_digits.
  destruct (String.length (decimal n) <? 2)%nat; [|split; assumption].
  split; [|reflexivity]. rewrite OcrFacts.chars_append.
  apply Forall_app. split; [repeat constructor|exact Hd].
Qed.

Lemma digits_no_sep s :
  Forall (fun c => is_digit c = true) (chars s) -> ~ In "/"%char (chars s).
Proof.
  intros H Hin. rewrite Forall_forall in H.
  apply list_elem_of_In in Hin. apply H in Hin. discriminate.
Qed.

(** ** The three layouts *)

Lemma sanitize_no_sep name : ~ In "/"%char (chars (sanitize_filename name)).
Proof. intros H. apply chars_sanitize in H as [_ H]. discriminate. Qed.

Ltac not_empty :=
  repeat rewrite nonempty_append; cbn [nonempty orb];
  repeat rewrite orb_true_r; reflexivity.

Ltac peel := repeat (rewrite ends_app by not_empty).

Lemma movie_layout base_dir title year quality extension :
  snd (create_movie_path base_dir title year quality extension)
  = path_join base_dir ["Movies"] +:+ "/"
    +:+ (sanitize_filename title +:+ " (" +:+ year +:+ ")") +:+ "/"
    +:+ (sanitize_filename title +:+ " (" +:+ year +:+ ") [" +:+ quality
         +:+ "]" +:+ extension).
Proof.
  unfold create_movie_path. cbn [snd].
  pose proof (sanitize_no_sep title) as HT.
  set (T := sanitize_filename title) in *.
  destruct (library_prefix base_dir "Movies") as [Hn He];
    [cbn; intuition discriminate|reflexivity|].
  set (P := path_join base_dir ["Movies"]) in *.
  change (path_join base_dir ["Movies"; T +:+ " (" +:+ year +:+ ")"])
    with (join_step P (T +:+ " (" +:+ year +:+ ")")).
  clearbody P.
  rewrite (join_step_plain P _ Hn He)
    by (apply (start_append T " " ("(" +:+ year +:+ ")") HT); discriminate).
  cbn [path_join fold_left]. rewrite join_step_plain.
  - rewrite !append_assoc. reflexivity.
  - rewrite !nonempty_append, Hn. reflexivity.
  - peel. reflexivity.
  - apply (start_append T " " ("(" +:+ year +:+ ") [" +:+ quality +:+ "]" +:+ extension)
                        HT). discriminate.
Qed.

Lemma tv_layout base_dir title year season episode quality extension :
  snd (create_tv_path base_dir title year season episode quality extension)
  = path_join base_dir ["Shows"] +:+ "/"
    +:+ (sanitize_filename title +:+ " (" +:+ year +:+ ")") +:+ "/"
    +:+ ("Season " +:+ two_digits season) +:+ "/"
    +:+ (sanitize_filename title +:+ " S" +:+ two_digits season +:+ "E"
         +:+ two_digits episode +:+ " [" +:+ quality +:+ "]" +:+ extension).
Proof.
  unfold create_tv_path. cbn [snd].
  pose proof (sanitize_no_sep title) as HT.
  set (T := sanitize_filename title) in *.
  destruct (two_digits_digits season) as [Hsd Hsn].
  set (ss := two_digits season) in *. set (ee := two_digits episode).
  destruct (library_prefix base_dir "Shows") as [Hn He];
    [cbn; intuition discriminate|reflexivity|].
  set (P := path_join base_dir ["Shows"]) in *.
  change (path_join base_dir ["Shows"; T +:+ " (" +:+ year +:+ ")"; "Season " +:+ ss])
    with (join_step (join_step P (T +:+ " (" +:+ year +:+ ")")) ("Season " +:+ ss)).
  clearbody P ss ee.
  rewrite (join_step_plain P _ Hn He)
    by (apply (start_append T " " ("(" +:+ year +:+ ")") HT); discriminate).
  rewrite (join_step_plain _ ("Season " +:+ ss)).
  2:{ rewrite !nonempty_append, Hn. reflexivity. }
  2:{ peel. reflexivity. }
  2:{ reflexivity. }
  cbn [path_join fold_left]. rewrite join_step_plain.
  - rewrite !append_assoc. reflexivity.
  - rewrite !nonempty_append, Hn. reflexivity.
  - peel. rewrite (ends_app _ ss Hsn). apply ends_no_sep, digits_no_sep, Hsd.
  - apply (start_append T " "). + exact HT. + discriminate.
Qed.

Lemma studio_layout base_dir studio_name original_filename :
  ~ In "/"%char (chars original_filename) ->
  exists folder,
    snd (create_studio_path base_dir studio_name original_filename)
    = path_join base_dir ["ByStudio"] +:+ "/" +:+ folder +:+ original_filename /\
    (folder = "" \/ exists dir, folder = dir +:+ "/").
Proof.
  intros Hname. unfold create_studio_path. cbn [snd].
  set (S := match studio_name with
            | Some name => if nonempty name then sanitize_filename name
                           else "SinCadenaTelevisiva"
            | None => "SinCadenaTelevisiva"
            end).
  assert (~ In "/"%char (chars S)) as HS.
  { unfold S. destruct studio_name as [name|];
      [destruct (nonempty name); [apply sanitize_no_sep|]|];
      cbn; intuition discriminate. }
  destruct (library_prefix base_dir "ByStudio") as [Hn He];
    [cbn; intuition discriminate|reflexivity|].
  set (P := path_join base_dir ["ByStudio"]) in *.
  change (path_join base_dir ["ByStudio"; S]) with (join_step P S).
  clearbody P S.
  rewrite (join_step_plain P S Hn He (no_sep_start _ HS)).
  cbn [path_join fold_left]. unfold join_step.
  rewrite (no_sep_start _ Hname), nonempty_append, Hn. cbn [orb negb].
  destruct (nonempty S) eqn:HSn.
  - assert (ends_with_sep (P +:+ "/" +:+ S) = false) as ->.
    { rewrite (ends_app P) by (rewrite nonempty_append; reflexivity).
      rewrite (ends_app "/" S HSn). apply ends_no_sep, HS. }
    exists (S +:+ "/"). split; [rewrite !append_assoc; reflexivity|].
    right. exists S. reflexivity.
  - destruct S; [|discriminate]. exists "".
    split; [|left; reflexivity].
    assert (ends_with_sep (P +:+ "/" +:+ "") = true) as ->.
    { change ("/" +:+ "") with "/". rewrite ends_app by reflexivity. reflexivity. }
    rewrite !append_assoc. reflexivity.
Qed.

Lemma inr_eq {A B} (x y : B) : @inr A B x = inr y -> x = y.
Proof. congruence. Qed.

Lemma studio_destination base_dir studio_name source_path :
  let dest := snd (create_studio_path base_dir studio_name (basename source_path)) in
  (exists rest, dest = path_join base_dir ["ByStudio"] +:+ "/" +:+ rest) /\
  basename dest = basename source_path.
Proof.
  cbn zeta.
  destruct (studio_layout base_dir studio_name (basename source_path)
                          (basename_no_sep source_path))
    as (folder & -> & Hfolder).
  split; [eexists; reflexivity|].
  destruct Hfolder as [->|[dir ->]].
  - change ("" +:+ basename source_path) with (basename source_path).
    apply basename_join, basename_no_sep.
  - replace (path_join base_dir ["ByStudio"] +:+ "/" +:+ (dir +:+ "/")
             +:+ basename source_path)
      with ((path_join base_dir ["ByStudio"] +:+ "/" +:+ dir) +:+ "/"
            +:+ basename source_path)
      by (rewrite !append_assoc; reflexivity).
    apply basename_join, basename_no_sep.
Qed.

(** X21 — where a file is put.  Whenever the destination can be
    computed, it lies under the output directory in the folder of the
    kind of the result: Movies for an identified film, Shows for any
    other identified result, ByStudio for everything that was not
    identified.  A file that was not identified keeps its name. *)
Theorem destination_layout (result_info : VideoResult)
    (output_dir source_path dest_file : string)
    (Hplan : plan_destination result_info output_dir (basename source_path)
             = inr dest_file) :
  (exists rest,
      dest_file = path_join output_dir [library_folder result_info] +:+ "/" +:+ rest) /\
  (Batch.identificado result_info = false ->
   basename dest_file = basename source_path).
Proof.
  destruct result_info as [|es_pelicula info quality season episode studios actors
                           |quality studios actors|m];
    unfold plan_destination, library_folder, Batch.identificado in *.
  - apply inr_eq in Hplan; subst dest_file.
    destruct (studio_destination output_dir None source_path) as [H1 H2]. auto.
  - split; [|discriminate].
    destruct es_pelicula as [[|]|].
    + apply inr_eq in Hplan; subst dest_file. rewrite movie_layout. eexists. reflexivity.
    + destruct season as [season|]; [|discriminate].
      destruct episode as [episode|]; [|discriminate].
      apply inr_eq in Hplan; subst dest_file. rewrite tv_layout. eexists. reflexivity.
    + destruct season as [season|]; [|discriminate].
      destruct episode as [episode|]; [|discriminate].
      apply inr_eq in Hplan; subst dest_file. rewrite tv_layout. eexists. reflexivity.
  - apply inr_eq in Hplan; subst dest_file.
    destruct (studio_destination output_dir (head studios) source_path) as [H1 H2].
    auto.
  - apply inr_eq in Hplan; subst dest_file.
    destruct (studio_destination output_dir None source_path) as [H1 H2]. auto.
Qed.

Lemma destination_layout_witness :
  plan_destination (NotIdentified "720p" ["HBO"] []) "lib" (basename "in/a.mkv")
  = inr "lib/ByStudio/HBO/a.mkv" /\
  basename "lib/ByStudio/HBO/a.mkv" = basename "in/a.mkv".
Proof.
  assert (plan_destination (NotIdentified "720p" ["HBO"] []) "lib"
                           (basename "in/a.mkv")
          = inr "lib/ByStudio/HBO/a.mkv") as H by (vm_compute; reflexivity).
  split; [exact H|].
  exact (proj2 (destination_layout (NotIdentified "720p" ["HBO"] []) "lib"
                                   "in/a.mkv" "lib/ByStudio/HBO/a.mkv" H)
               eq_refl).
Defined.

End PathsFacts.

(* ===================================================================== *)
(** * The names of the library are read back *)
(* ===================================================================== *)

Module NameRoundTrip.
Import PyStr Re ReSpec VideoAnalysis SeasonEpisodeSpec FilesOps Paths.

(** ** The value of a decimal numeral *)

Local Abbreviation shift := (fun acc c => 10 * acc + digit_val c)%N.

Ltac digit_value :=
  match goal with
  | |- context [digit_val ?c] =>
      let v := eval vm_compute in (digit_val c) in change (digit_val c) with v
  end.

Lemma value_of_uint_acc d : forall acc,
  fold_left shift (chars (NilEmpty.string_of_uint d)) (N.pos acc)
  = N.pos (Pos.of_uint_acc d acc).
Proof.
  induction d; intros acc; cbn [NilEmpty.string_of_uint Pos.of_uint_acc];
    [reflexivity|..];
    unfold chars; cbn [list_ascii_of_string fold_left]; fold (chars (NilEmpty.string_of_uint d));
    rewrite <- IHd; f_equal; digit_value; lia.
Qed.

Lemma value_of_uint d :
  fold_left shift (chars (NilEmpty.string_of_uint d)) 0%N = Pos.of_uint d.
Proof.
  induction d; cbn [NilEmpty.string_of_uint Pos.of_uint];
    [reflexivity|..];
    unfold chars; cbn [list_ascii_of_string fold_left]; fold (chars (NilEmpty.string_of_uint d));
    [exact IHd|..];
    rewrite <- value_of_uint_acc; f_equal.
Qed.

Lemma value_of_decimal n : int_of_digits (chars (decimal n)) = n.
Proof.
  unfold int_of_digits, decimal.
  rewrite <- (DecimalN.Unsigned.of_to n) at 2. unfold N.of_uint.
  destruct (N.to_uint n) eqn:E; try apply value_of_uint. reflexivity.
Qed.

Lemma value_of_two_digits n : int_of_digits (chars (two_digits n)) = n.
Proof.
  unfold two_digits. destruct (String.length (decimal n) <? 2)%nat.
  - rewrite OcrFacts.chars_append. unfold int_of_digits.
    rewrite fold_left_app. apply value_of_decimal.
  - apply value_of_decimal.
Qed.

(** ** The first pattern finds the marker the tool wrote *)

Lemma marker_is_found (front : list ascii) (ss ee tail : list ascii) :
  (forall c, In c front -> is_digit c = false) ->
  all_digits ss -> ss <> [] -> all_digits ee -> ee <> [] ->
  first_match patterns
    (front ++ " "%char :: "S"%char :: ss ++ "E"%char :: ee ++ " "%char :: tail)
  = Some (int_of_digits ss, int_of_digits ee).
Proof.
  intros Hfront Hss Hss' Hee Hee'.
  set (s := front ++ " "%char :: "S"%char :: ss ++ "E"%char :: ee ++ " "%char :: tail).
  set (pre := front ++ [" "%char]).
  set (post := " "%char :: tail).
  assert (s = pre ++ ("S"%char :: ss ++ "E"%char :: ee) ++ post) as Hs.
  { unfold s, pre, post. rewrite <- !app_assoc. cbn [app]. f_equal. f_equal. f_equal.
    rewrite <- app_assoc. reflexivity. }
  assert (occurrence is_SxxEyy s pre ss ee post) as Hocc.
  { exists ("S"%char :: ss ++ "E"%char :: ee). split; [exact Hs|].
    exists "S"%char, "E"%char. repeat split; auto. }
  assert (leftmost_longest is_SxxEyy s pre ss ee post) as Hll.
  { split; [exact Hocc|]. split; [reflexivity|].
    intros pre' e1 e2 post' (m' & Hs' & c1 & c2 & -> & Hc1 & _ & He1 & He1' & _).
    destruct (decide (length pre <= length pre')%nat) as [|Hlt]; [assumption|].
    exfalso. destruct e1 as [|d e1]; [congruence|].
    apply Forall_cons in He1 as [Hd _].
    assert (s !! length pre' = Some c1) as Hl0.
    { rewrite Hs'. rewrite lookup_app_r by lia.
      replace (length pre' - length pre')%nat with 0%nat by lia. reflexivity. }
    assert (s !! S (length pre') = Some d) as Hl1.
    { rewrite Hs'. rewrite lookup_app_r by lia.
      replace (S (length pre') - length pre')%nat with 1%nat by lia. reflexivity. }
    assert (length pre = S (length front)) as Hpre
      by (unfold pre; rewrite length_app; cbn; lia).
    destruct (decide (S (length pre') < length pre)%nat) as [Hin|Hlast].
    - assert (exists x, pre !! S (length pre') = Some x) as [x Hx].
      { apply lookup_lt_is_Some. exact Hin. }
      assert (s !! S (length pre') = Some x) as Hl2.
      { rewrite Hs. apply lookup_app_l_Some. exact Hx. }
      assert (x = d) as -> by congruence.
      apply list_elem_of_lookup_2 in Hx. unfold pre in Hx.
      apply elem_of_app in Hx as [Hx|Hx].
      + apply list_elem_of_In in Hx. apply Hfront in Hx. congruence.
      + apply list_elem_of_singleton in Hx. subst d. discriminate.
    - assert (length pre' = length front) as Hlen by lia.
      assert (s !! length pre' = Some " "%char) as Hl2.
      { rewrite Hs, Hlen. apply lookup_app_l_Some. unfold pre.
        apply list_lookup_middle. reflexivity. }
      assert (c1 = " "%char) as -> by congruence. discriminate. }
  assert (contains is_SxxEyy s) as Hc by (exists pre, ss, ee, post; exact Hocc).
  destruct (SeasonEpisodeFacts.search_leftmost_longest is_SxxEyy
              [lit "S"%char; digits1; lit "E"%char] s
              SeasonEpisodeFacts.Matches_SxxEyy Hc)
    as (pre' & d1 & d2 & post' & Hll' & Hsearch).
  destruct (SeasonEpisodeFacts.leftmost_longest_SxxEyy_unique
              _ _ _ _ _ _ _ _ _ Hll' Hll) as [-> ->].
  unfold patterns, first_match.
  change (search pat_SxxEyy s)
    with (search ([lit "S"%char; digits1; lit "E"%char] ++ [digits1]) s).
  rewrite Hsearch. reflexivity.
Qed.

Lemma two_digits_run n :
  all_digits (chars (two_digits n)) /\ chars (two_digits n) <> [].
Proof.
  destruct (PathsFacts.two_digits_digits n) as [Hd Hn].
  split; [exact Hd|apply PathsFacts.nonempty_chars, Hn].
Qed.

Lemma episode_file_chars T ss ee quality extension :
  chars (T +:+ " S" +:+ ss +:+ "E" +:+ ee +:+ " [" +:+ quality +:+ "]" +:+ extension)
  = chars T ++ " "%char :: "S"%char :: chars ss ++ "E"%char :: chars ee
      ++ " "%char :: ("["%char :: chars quality ++ "]"%char :: chars extension).
Proof.
  rewrite !OcrFacts.chars_append. reflexivity.
Qed.

(** X22 — the name the tool gives to an episode is read back by the
    tool: for a title without digits, the season and the episode that
    [extract_season_episode_from_filename] finds in the file name
    built by [create_tv_path] are the ones the name was built from,
    whatever their size. *)
Theorem library_episode_name_is_read_back
    (base_dir title year quality extension : string) (season episode : N)
    (Htitle : no_digit title)
    (Hquality : no_separator quality) (Hextension : no_separator extension) :
  extract_season_episode_from_filename
    (basename (snd (create_tv_path base_dir title year season episode
                                   quality extension)))
  = Some (season, episode).
Proof.
  rewrite PathsFacts.tv_layout.
  set (T := sanitize_filename title).
  set (ss := two_digits season). set (ee := two_digits episode).
  set (file := T +:+ " S" +:+ ss +:+ "E" +:+ ee +:+ " [" +:+ quality +:+ "]"
                 +:+ extension).
  destruct (two_digits_run season) as [Hsd Hsn].
  destruct (two_digits_run episode) as [Hed Hen].
  fold ss in Hsd, Hsn. fold ee in Hed, Hen.
  assert (~ In "/"%char (chars file)) as Hfile.
  { unfold file. rewrite episode_file_chars.
    pose proof (PathsFacts.sanitize_no_sep title) as HT. fold T in HT.
    pose proof (PathsFacts.digits_no_sep ss Hsd) as Hs1.
    pose proof (PathsFacts.digits_no_sep ee Hed) as Hs2.
    unfold no_separator in *.
    intros H.
    repeat (first [ apply in_app_iff in H | cbn [In] in H ];
            match type of H with _ \/ _ => destruct H as [H|H] end;
            try discriminate H; try contradiction). }
  replace (path_join base_dir ["Shows"] +:+ "/"
           +:+ (T +:+ " (" +:+ year +:+ ")") +:+ "/"
           +:+ ("Season " +:+ ss) +:+ "/" +:+ file)
    with ((path_join base_dir ["Shows"] +:+ "/"
           +:+ (T +:+ " (" +:+ year +:+ ")") +:+ "/"
           +:+ ("Season " +:+ ss)) +:+ "/" +:+ file)
    by (rewrite !PathsFacts.append_assoc; reflexivity).
  rewrite (PathsFacts.basename_join _ file Hfile).
  unfold extract_season_episode_from_filename, file.
  rewrite episode_file_chars, marker_is_found; try assumption.
  - unfold ss, ee. rewrite !value_of_two_digits. reflexivity.
  - intros c Hc. apply PathsFacts.chars_sanitize in Hc as [Hc _].
    apply Htitle, Hc.
Qed.

Lemma library_episode_name_is_read_back_witness :
  no_digit "Dark" /\ no_separator "1080p" /\ no_separator ".mkv" /\
  extract_season_episode_from_filename
    (basename (snd (create_tv_path "lib" "Dark" "2017" 1 12 "1080p" ".mkv")))
  = Some (1%N, 12%N).
Proof.
  assert (no_digit "Dark") as H1.
  { intros c Hc. cbn in Hc. intuition (subst; reflexivity). }
  assert (no_separator "1080p") as H2.
  { intros Hc. cbn in Hc. intuition discriminate. }
  assert (no_separator ".mkv") as H3.
  { intros Hc. cbn in Hc. intuition discriminate. }
  split; [exact H1|]. split; [exact H2|]. split; [exact H3|].
  exact (library_episode_name_is_read_back "lib" "Dark" "2017" "1080p" ".mkv"
                                           1 12 H1 H2 H3).
Defined.

End NameRoundTrip.

(* ===================================================================== *)
(** * From the result of the pipeline to the destination *)
(* ===================================================================== *)

Module ResultToPath.
Import PyStr Tmdb Process FilesOps Paths.

Lemma prepare_has_numbers fn loc r studios actors esp info q se ep st ac :
  prepare fn loc r studios actors = Identified esp info q se ep st ac ->
  esp = Some true \/ (is_Some se /\ is_Some ep).
Proof.
  unfold prepare. destruct (fst r) as [info'|]; [|discriminate].
  destruct (item_truthy info'); [|discriminate].
  destruct (snd r) as [[|]|];
    destruct (VideoAnalysis.extract_season_episode_from_filename fn) as [[s e]|];
    intros [= <- <- <- <- <- <- <-]; eauto.
Qed.

(** X23 — the season and the episode are there when the path of an
    episode is built.  Whatever the service answers and whatever the
    machine provides, the destination of the result of
    [process_single_video] can be computed: the result of a series
    always carries the two numbers that [create_tv_path] formats, so
    the conversion of a missing number never fails. *)
Theorem pipeline_result_has_a_destination
    (net : Net) (clean_filename : string -> string) (valid : bool)
    (fn : string) (cfg : Config) (loc : Local) (tr : list Request)
    (output_dir original_filename : string) :
  exists dest_file,
    plan_destination
      (fst (process_single_video net clean_filename valid fn cfg loc tr))
      output_dir original_filename
    = inr dest_file.
Proof.
  destruct (ProcessFacts.process_single_video_shape net cfg clean_filename
              valid fn loc tr)
    as [H|[(msg & _ & H)|(r & studios & actors & _ & H)]];
    cbn zeta in H; rewrite H.
  - eexists. reflexivity.
  - eexists. reflexivity.
  - destruct (prepare fn loc r studios actors)
      as [|esp info q se ep st ac|q st ac|m] eqn:E;
      try (eexists; reflexivity).
    destruct (prepare_has_numbers _ _ _ _ _ _ _ _ _ _ _ _ E)
      as [->|[[s ->] [e ->]]].
    + eexists. reflexivity.
    + unfold plan_destination. destruct esp as [[|]|]; eexists; reflexivity.
Qed.

End ResultToPath.

(* ===================================================================== *)
(** * The extension of a file that was identified *)
(* ===================================================================== *)

Module ExtensionFacts.
Import PyStr Tmdb Process FilesOps Paths.

Lemma rfind_lookup c l : forall i, rfind c l = Some i -> l !! i = Some c.
Proof.
  induction l as [|x l IH]; intros i; cbn [rfind]; [discriminate|].
  destruct (rfind c l) as [j|].
  - intros [= <-]. cbn. apply IH. reflexivity.
  - destruct (Ascii.eqb x c) eqn:E; [|discriminate]. intros [= <-].
    apply Ascii.eqb_eq in E. subst. reflexivity.
Qed.

(** An extension is empty, or a dot followed by characters that are
    neither dots nor separators. *)
Lemma splitext_shape p :
  snd (splitext p) = "" \/
  exists r, chars (snd (splitext p)) = "."%char :: r /\
            ~ In "."%char r /\ ~ In "/"%char r.
Proof.
  unfold splitext. set (l := chars p).
  destruct (rfind "." l) as [dot|] eqn:Edot; [|left; reflexivity].
  set (start := match rfind "/" l with Some i => S i | None => 0%nat end).
  destruct ((start <=? dot)%nat && _) eqn:Ec; [|left; reflexivity].
  right. cbn [snd]. rewrite PathsFacts.chars_of_list.
  apply andb_true_iff in Ec as [Hle _]. apply Nat.leb_le in Hle.
  exists (drop (S dot) l). split; [|split].
  - apply drop_S. apply rfind_lookup. exact Edot.
  - apply PathsFacts.rfind_Some. exact Edot.
  - assert (~ In "/"%char (drop start l)) as Hs.
    { unfold start. destruct (rfind "/" l) as [i|] eqn:Ei.
      - apply PathsFacts.rfind_Some. exact Ei.
      - rewrite drop_0. apply PathsFacts.rfind_None. exact Ei. }
    intros H. apply Hs. apply list_elem_of_In. apply list_elem_of_In in H.
    replace (S dot) with (start + (S dot - start))%nat in H by lia.
    rewrite <- drop_drop in H. eapply subseteq_drop. exact H.
Qed.

Lemma lower_chars s : chars (Detect.lower s) = map to_lower (chars s).
Proof. induction s as [|c s IH]; cbn; [reflexivity|]. f_equal. exact IH. Qed.

Lemma to_lower_keeps_marks c :
  (to_lower c = "."%char -> c = "."%char) /\ (to_lower c = "/"%char -> c = "/"%char).
Proof.
  destruct c as [[] [] [] [] [] [] [] []]; vm_compute; split; intros H;
    first [reflexivity | discriminate H].
Qed.

Lemma lower_shape e r :
  chars e = "."%char :: r -> ~ In "."%char r -> ~ In "/"%char r ->
  chars (Detect.lower e) = "."%char :: map to_lower r /\
  ~ In "."%char (map to_lower r) /\ ~ In "/"%char (map to_lower r).
Proof.
  intros He Hd Hs. rewrite lower_chars, He. split; [reflexivity|].
  split; intros H; apply in_map_iff in H as (x & Hx & Hin);
    apply to_lower_keeps_marks in Hx; subst x; tauto.
Qed.

(** A name that ends with a bracket and an extension is split before
    the extension. *)
Lemma splitext_after_bracket X r :
  ~ In "."%char r -> ~ In "/"%char r ->
  snd (splitext (string_of_list_ascii (X ++ "]"%char :: "."%char :: r)))
  = string_of_list_ascii ("."%char :: r).
Proof.
  intros Hd Hs. unfold splitext. rewrite PathsFacts.chars_of_list.
  set (l := X ++ "]"%char :: "."%char :: r).
  assert (l = (X ++ ["]"%char]) ++ "."%char :: r) as Hl
    by (unfold l; rewrite <- app_assoc; reflexivity).
  assert (rfind "." l = Some (S (length X))) as ->.
  { rewrite Hl, (PathsFacts.rfind_app "." _ r Hd), length_app. cbn. f_equal. lia. }
  set (start := match rfind "/" l with Some i => S i | None => 0%nat end).
  assert (start <= length X)%nat as Hstart.
  { unfold start. destruct (rfind "/" l) as [i|] eqn:Ei; [|lia].
    apply rfind_lookup in Ei.
    destruct (decide (i < length X)%nat) as [|Hge]; [lia|]. exfalso.
    unfold l in Ei. rewrite lookup_app_r in Ei by lia.
    apply list_elem_of_lookup_2 in Ei.
    apply elem_of_cons in Ei as [Ei|Ei]; [discriminate|].
    apply elem_of_cons in Ei as [Ei|Ei]; [discriminate|].
    apply list_elem_of_In in Ei. tauto. }
  assert ((start <=? S (length X))%nat = true) as -> by (apply Nat.leb_le; lia).
  assert (existsb (fun x => negb (Ascii.eqb x "."))
                  (take (S (length X) - start) (drop start l)) = true) as ->.
  { apply existsb_exists. exists "]"%char. split; [|reflexivity].
    apply list_elem_of_In. apply (list_elem_of_lookup_2 _ (length X - start)).
    rewrite lookup_take_lt by lia. rewrite lookup_drop.
    replace (start + (length X - start))%nat with (length X) by lia.
    unfold l. apply list_lookup_middle. reflexivity. }
  cbn [andb snd]. f_equal. rewrite Hl.
  rewrite drop_app_length'; [reflexivity|]. rewrite length_app. cbn. lia.
Qed.

Lemma lowered_extension name :
  snd (splitext name) <> "" ->
  exists r, chars (Detect.lower (snd (splitext name))) = "."%char :: r /\
            ~ In "."%char r /\ ~ In "/"%char r.
Proof.
  intros Hne. destruct (splitext_shape name) as [H|(r & Hr & Hd & Hs)];
    [congruence|].
  destruct (lower_shape _ r Hr Hd Hs) as (H1 & H2 & H3). eauto.
Qed.

Lemma ends_with_extension front extension :
  (exists r, chars extension = "."%char :: r /\
             ~ In "."%char r /\ ~ In "/"%char r) ->
  snd (splitext (front +:+ "]" +:+ extension)) = extension.
Proof.
  intros (r & Hr & Hd & Hs).
  rewrite <- (FilesOpsMore.string_of_chars (front +:+ "]" +:+ extension)).
  rewrite !OcrFacts.chars_append, Hr. cbn [chars list_ascii_of_string app].
  rewrite (splitext_after_bracket (chars front) r Hd Hs), <- Hr.
  apply FilesOpsMore.string_of_chars.
Qed.

(** X24 — a file that was identified keeps its extension, in lower
    case: when the original name has an extension, the extension of
    the destination of a film or an episode is that extension
    lower-cased, whatever the title, the year and the quality hold. *)
Theorem identified_file_keeps_its_extension
    (es_pelicula : option bool) (info : Item) (quality : string)
    (season episode : option N) (studios actors : list string)
    (output_dir original_filename dest_file : string)
    (Hplan : plan_destination
               (Identified es_pelicula info quality season episode studios actors)
               output_dir original_filename = inr dest_file)
    (Hext : snd (splitext original_filename) <> "") :
  snd (splitext dest_file) = Detect.lower (snd (splitext original_filename)).
Proof.
  pose proof (lowered_extension original_filename Hext) as Hshape.
  unfold plan_destination in Hplan.
  set (extension := Detect.lower (snd (splitext original_filename))) in *.
  clearbody extension.
  assert (forall title year (mid : string),
             snd (splitext (path_join output_dir [mid] +:+ "/"
                            +:+ year +:+ "/" +:+ title +:+ "]" +:+ extension))
             = extension) as Hend.
  { intros title year mid.
    replace (path_join output_dir [mid] +:+ "/" +:+ year +:+ "/"
             +:+ title +:+ "]" +:+ extension)
      with ((path_join output_dir [mid] +:+ "/" +:+ year +:+ "/" +:+ title)
            +:+ "]" +:+ extension)
      by (rewrite !PathsFacts.append_assoc; reflexivity).
    apply ends_with_extension, Hshape. }
  destruct es_pelicula as [[|]|].
  - apply PathsFacts.inr_eq in Hplan. subst dest_file.
    rewrite PathsFacts.movie_layout.
    replace (path_join output_dir ["Movies"] +:+ "/"
             +:+ (sanitize_filename (title_of "title" info) +:+ " ("
                  +:+ year_of "release_date" info +:+ ")") +:+ "/"
             +:+ (sanitize_filename (title_of "title" info) +:+ " ("
                  +:+ year_of "release_date" info +:+ ") [" +:+ quality
                  +:+ "]" +:+ extension))
      with (path_join output_dir ["Movies"] +:+ "/"
            +:+ (sanitize_filename (title_of "title" info) +:+ " ("
                 +:+ year_of "release_date" info +:+ ")") +:+ "/"
            +:+ (sanitize_filename (title_of "title" info) +:+ " ("
                 +:+ year_of "release_date" info +:+ ") [" +:+ quality)
            +:+ "]" +:+ extension)
      by (rewrite !PathsFacts.append_assoc; reflexivity).
    apply Hend.
  - destruct season as [s|]; [|discriminate].
    destruct episode as [e|]; [|discriminate].
    apply PathsFacts.inr_eq in Hplan. subst dest_file.
    rewrite PathsFacts.tv_layout.
    set (T := sanitize_filename (title_of "name" info)).
    set (Y := year_of "first_air_date" info).
    replace (path_join output_dir ["Shows"] +:+ "/"
             +:+ (T +:+ " (" +:+ Y +:+ ")") +:+ "/"
             +:+ ("Season " +:+ two_digits s) +:+ "/"
             +:+ (T +:+ " S" +:+ two_digits s +:+ "E" +:+ two_digits e
                  +:+ " [" +:+ quality +:+ "]" +:+ extension))
      with (path_join output_dir ["Shows"] +:+ "/"
            +:+ (T +:+ " (" +:+ Y +:+ ")" +:+ "/" +:+ "Season " +:+ two_digits s)
            +:+ "/"
            +:+ (T +:+ " S" +:+ two_digits s +:+ "E" +:+ two_digits e
                 +:+ " [" +:+ quality)
            +:+ "]" +:+ extension)
      by (rewrite !PathsFacts.append_assoc; reflexivity).
    apply Hend.
  - destruct season as [s|]; [|discriminate].
    destruct episode as [e|]; [|discriminate].
    apply PathsFacts.inr_eq in Hplan. subst dest_file.
    rewrite PathsFacts.tv_layout.
    set (T := sanitize_filename (title_of "name" info)).
    set (Y := year_of "first_air_date" info).
    replace (path_join output_dir ["Shows"] +:+ "/"
             +:+ (T +:+ " (" +:+ Y +:+ ")") +:+ "/"
             +:+ ("Season " +:+ two_digits s) +:+ "/"
             +:+ (T +:+ " S" +:+ two_digits s +:+ "E" +:+ two_digits e
                  +:+ " [" +:+ quality +:+ "]" +:+ extension))
      with (path_join output_dir ["Shows"] +:+ "/"
            +:+ (T +:+ " (" +:+ Y +:+ ")" +:+ "/" +:+ "Season " +:+ two_digits s)
            +:+ "/"
            +:+ (T +:+ " S" +:+ two_digits s +:+ "E" +:+ two_digits e
                 +:+ " [" +:+ quality)
            +:+ "]" +:+ extension)
      by (rewrite !PathsFacts.append_assoc; reflexivity).
    apply Hend.
Qed.

Lemma identified_file_keeps_its_extension_witness :
  let info := mkItem (Some 603%Z) None [("title", "The Matrix");
                                        ("release_date", "1999-03-31")] in
  plan_destination (Identified (Some true) info "1080p" None None [] [])
                   "lib" "matrix.MKV"
  = inr "lib/Movies/The Matrix (1999)/The Matrix (1999) [1080p].mkv" /\
  snd (splitext "matrix.MKV") <> "" /\
  snd (splitext "lib/Movies/The Matrix (1999)/The Matrix (1999) [1080p].mkv")
  = Detect.lower (snd (splitext "matrix.MKV")).
Proof.
  intros info.
  assert (plan_destination (Identified (Some true) info "1080p" None None [] [])
                           "lib" "matrix.MKV"
          = inr "lib/Movies/The Matrix (1999)/The Matrix (1999) [1080p].mkv") as H
    by (vm_compute; reflexivity).
  assert (snd (splitext "matrix.MKV") <> "") as Hext by (vm_compute; discriminate).
  split; [exact H|]. split; [exact Hext|].
  exact (identified_file_keeps_its_extension (Some true) info "1080p" None None
           [] [] "lib" "matrix.MKV" _ H Hext).
Defined.

End ExtensionFacts.

(* ===================================================================== *)
(** * Results come from the service *)
(* ===================================================================== *)

Module ProvenanceFacts.
Import PyStr Tmdb Provenance.

Lemma extends_refl tr : extends tr tr.
Proof. exists []. rewrite app_nil_r. reflexivity. Qed.

Lemma extends_trans a b c : extends a b -> extends b c -> extends a c.
Proof. intros [x ->] [y ->]. exists (x ++ y). rewrite app_assoc. reflexivity. Qed.

Lemma extends_snoc tr r : extends tr (tr ++ [r]).
Proof. exists [r]. reflexivity. Qed.

Lemma answered_widen net a b c d r items obj :
  extends a b -> answered net b c r items obj -> extends c d ->
  answered net a d r items obj.
Proof.
  intros [pre ->] (before & after & -> & Hnet) [post ->].
  exists (pre ++ before), (after ++ post). split.
  - rewrite <- !app_assoc. cbn [app]. rewrite <- ?app_assoc. reflexivity.
  - rewrite app_assoc. exact Hnet.
Qed.

Lemma answered_now net tr r items obj :
  net tr r = Response 200 items obj -> answered net tr (tr ++ [r]) r items obj.
Proof.
  intros H. exists [], []. split; [reflexivity|]. rewrite app_nil_r. exact H.
Qed.

Lemma from_title_widen net ser q a b c d it :
  extends a b -> from_title_search net ser q b c it -> extends c d ->
  from_title_search net ser q a d it.
Proof.
  intros Hab [(lang & items & obj & H & Hh)|(i & items & H)] Hcd.
  - left. exists lang, items, obj. split; [|exact Hh].
    eapply answered_widen; eauto.
  - right. exists i, items. eapply answered_widen; eauto.
Qed.

Lemma served_title_widen net ser q a b c d best :
  extends a b -> served (from_title_search net ser q b c) best -> extends c d ->
  served (from_title_search net ser q a d) best.
Proof.
  unfold served. destruct (fst best); [|auto]. apply from_title_widen.
Qed.

Lemma status_200 status : (status =? 200)%Z = true -> status = 200%Z.
Proof. apply Z.eqb_eq. Qed.

Lemma try_language_served net cfg q ser lang tr0 best tr :
  extends tr0 tr ->
  served (from_title_search net ser q tr0 tr) best ->
  extends tr (snd (try_language net cfg q ser lang best tr)) /\
  match fst (try_language net cfg q ser lang best tr) with
  | Some best' =>
      served (from_title_search net ser q tr0
                (snd (try_language net cfg q ser lang best tr))) best'
  | None => True
  end.
Proof.
  intros Hext Hbest.
  pose proof (extends_snoc tr (SearchTitle ser q lang)) as E1.
  assert (served (from_title_search net ser q tr0
                    (tr ++ [SearchTitle ser q lang])) best) as Hkeep.
  { eapply served_title_widen; [apply extends_refl|exact Hbest|exact E1]. }
  unfold try_language, bind, ret, http_get.
  destruct (net tr (SearchTitle ser q lang)) as [|status items obj] eqn:Hnet;
    cbn [fst snd]; [auto|].
  destruct (status =? 200)%Z eqn:Es; cbn [fst snd]; [|auto].
  apply status_200 in Es. subst status.
  destruct items as [|result items]; cbn [fst snd]; [auto|].
  assert (from_title_search net ser q tr0 (tr ++ [SearchTitle ser q lang]) result)
    as Hres.
  { left. exists lang, (result :: items), obj. split; [|reflexivity].
    eapply answered_widen; [exact Hext|apply answered_now; exact Hnet|
                            apply extends_refl]. }
  destruct (improves result (fst best)); cbn [fst snd]; [|auto].
  destruct (negb (String.eqb lang "en") && String.eqb (output_language cfg) "en");
    cbn [fst snd]; [|auto].
  destruct (item_id result) as [i|]; cbn [fst snd]; [|auto].
  pose proof (extends_snoc (tr ++ [SearchTitle ser q lang]) (Details ser i)) as E2.
  destruct (net (tr ++ [SearchTitle ser q lang]) (Details ser i))
    as [|status2 items2 detail] eqn:Hnet2; cbn [fst snd].
  { split; [eapply extends_trans; eauto|exact I]. }
  split; [eapply extends_trans; eauto|].
  unfold served. cbn [fst].
  destruct (status2 =? 200)%Z eqn:Es2.
  - apply status_200 in Es2. subst status2.
    right. exists i, items2.
    eapply answered_widen;
      [eapply extends_trans; [exact Hext|exact E1]
      |apply answered_now; exact Hnet2|apply extends_refl].
  - eapply from_title_widen; [apply extends_refl|exact Hres|exact E2].
Qed.

Lemma lang_loop_served net retry cfg q ser :
  (forall again, retry = Some again ->
     forall tr, extends tr (snd (again tr)) /\
                served (from_title_search net ser q tr (snd (again tr)))
                       (fst (again tr))) ->
  forall langs tr0 best tr,
    extends tr0 tr ->
    served (from_title_search net ser q tr0 tr) best ->
    extends tr (snd (lang_loop net retry cfg q ser langs best tr)) /\
    served (from_title_search net ser q tr0
              (snd (lang_loop net retry cfg q ser langs best tr)))
           (fst (lang_loop net retry cfg q ser langs best tr)).
Proof.
  intros Hretry. induction langs as [|lang langs IH]; intros tr0 best tr Hext Hbest.
  - cbn. split; [apply extends_refl|exact Hbest].
  - cbn [lang_loop]. unfold bind.
    destruct (try_language_served net cfg q ser lang tr0 best tr Hext Hbest)
      as [E1 Hb1].
    destruct (try_language net cfg q ser lang best tr) as [[best'|] tr1];
      cbn [fst snd] in *.
    + destruct (IH tr0 best' tr1 (extends_trans _ _ _ Hext E1) Hb1) as [E2 Hb2].
      split; [eapply extends_trans; eauto|exact Hb2].
    + destruct retry as [again|].
      * destruct (Hretry again eq_refl tr1) as [E2 Hb2].
        split; [eapply extends_trans; eauto|].
        eapply served_title_widen;
          [eapply extends_trans; [exact Hext|exact E1]|exact Hb2|apply extends_refl].
      * assert (served (from_title_search net ser q tr0 tr1) best) as Hkeep.
        { eapply served_title_widen; [apply extends_refl|exact Hbest|exact E1]. }
        destruct (IH tr0 best tr1 (extends_trans _ _ _ Hext E1) Hkeep) as [E2 Hb2].
        split; [eapply extends_trans; eauto|exact Hb2].
Qed.

Lemma search_tmdb_multilang_served net cfg q ser attempts : forall tr,
  extends tr (snd (search_tmdb_multilang net attempts cfg q ser tr)) /\
  served (from_title_search net ser q tr
            (snd (search_tmdb_multilang net attempts cfg q ser tr)))
         (fst (search_tmdb_multilang net attempts cfg q ser tr)).
Proof.
  induction attempts as [|[|n] IH]; intros tr.
  - apply (lang_loop_served net None); [discriminate|apply extends_refl|exact I].
  - apply (lang_loop_served net None); [discriminate|apply extends_refl|exact I].
  - apply (lang_loop_served net (Some (search_tmdb_multilang net (S n) cfg q ser)));
      [|apply extends_refl|exact I].
    intros again [= <-]. exact IH.
Qed.

(** ** The actor search *)

Lemma from_credits_widen net ser a b c d it :
  extends a b -> from_credits net ser b c it -> extends c d ->
  from_credits net ser a d it.
Proof.
  intros Hab (i & items & obj & H & Hin) Hcd.
  exists i, items, obj. split; [|exact Hin]. eapply answered_widen; eauto.
Qed.

Lemma collect_credits_served net ser tr0 ids : forall all_results tr,
  extends tr0 tr ->
  Forall (from_credits net ser tr0 tr) all_results ->
  extends tr (snd (collect_credits net ser ids all_results tr)) /\
  match fst (collect_credits net ser ids all_results tr) with
  | Some all' =>
      Forall (from_credits net ser tr0
                (snd (collect_credits net ser ids all_results tr))) all'
  | None => True
  end.
Proof.
  induction ids as [|i ids IH]; intros all_results tr Hext Hall.
  - cbn. split; [apply extends_refl|exact Hall].
  - cbn [collect_credits]. unfold bind, ret, http_get.
    pose proof (extends_snoc tr (Credits ser i)) as E1.
    assert (Forall (from_credits net ser tr0 (tr ++ [Credits ser i])) all_results)
      as Hkeep.
    { eapply Forall_impl; [exact Hall|]. intros it Hit.
      eapply from_credits_widen; [apply extends_refl|exact Hit|exact E1]. }
    destruct (net tr (Credits ser i)) as [|status items obj] eqn:Hnet;
      cbn [fst snd]; [auto|].
    destruct (status =? 200)%Z eqn:Es.
    + apply status_200 in Es. subst status.
      destruct (IH (all_results ++ items) (tr ++ [Credits ser i])
                   (extends_trans _ _ _ Hext E1)) as [E2 H2].
      { apply Forall_app. split; [exact Hkeep|].
        apply Forall_forall. intros it Hit. apply list_elem_of_In in Hit.
        exists i, items, obj. split; [|exact Hit].
        eapply answered_widen; [exact Hext|apply answered_now; exact Hnet|
                                apply extends_refl]. }
      split; [eapply extends_trans; eauto|exact H2].
    + destruct (IH all_results (tr ++ [Credits ser i])
                   (extends_trans _ _ _ Hext E1) Hkeep) as [E2 H2].
      split; [eapply extends_trans; eauto|exact H2].
Qed.

Lemma count_titles_members all_results : forall counter info,
  forall k it,
    snd (count_titles all_results counter info) !! k = Some it ->
    In it all_results \/ info !! k = Some it.
Proof.
  induction all_results as [|item rest IH]; intros counter info k it; cbn [count_titles].
  - auto.
  - destruct (item_id item) as [i|].
    + intros H. apply IH in H as [H|H]; [left; right; exact H|].
      destruct (decide (i = k)) as [->|Hne].
      * rewrite lookup_insert_eq in H. injection H as <-. left. left. reflexivity.
      * rewrite lookup_insert_ne in H by exact Hne. auto.
    + intros H. apply IH in H as [H|H]; auto. left. right. exact H.
Qed.

Lemma pick_title_member ser actor_ids all_results it :
  fst (pick_title ser actor_ids all_results) = Some it -> In it all_results.
Proof.
  unfold pick_title.
  pose proof (count_titles_members all_results [] ∅) as Hm.
  destruct (count_titles all_results [] ∅) as [counter info]. cbn [snd] in Hm.
  destruct (most_common_first counter) as [[best_id frequency]|]; [|discriminate].
  destruct (info !! best_id) as [best|] eqn:E; [|discriminate].
  destruct (Nat.min 2 (length actor_ids) <=? frequency)%nat; [|discriminate].
  intros [= <-]. destruct (Hm best_id best E) as [H|H]; [exact H|].
  rewrite lookup_empty in H. discriminate.
Qed.

Lemma search_by_actors_served net actors cfg ser tr :
  served (from_credits net ser tr (snd (search_by_actors net actors cfg ser tr)))
         (fst (search_by_actors net actors cfg ser tr)).
Proof.
  unfold search_by_actors. destruct actors as [|a actors]; [exact I|].
  unfold bind, ret.
  destruct (TmdbMore.resolve_actors_requests net (a :: actors) [] tr)
    as (new & Hnew & _).
  destruct (resolve_actors net (a :: actors) [] tr) as [[[|i ids]|] tr1];
    cbn [fst snd] in *; try exact I.
  assert (extends tr tr1) as E1 by (exists new; exact Hnew).
  destruct (collect_credits_served net ser tr (i :: ids) [] tr1 E1 (Forall_nil_2 _))
    as [E2 Hall].
  destruct (collect_credits net ser (i :: ids) [] tr1) as [[all_results|] tr2];
    cbn [fst snd] in *; [|exact I].
  unfold served.
  destruct (fst (pick_title ser (i :: ids) all_results)) as [it|] eqn:E; [|exact I].
  apply pick_title_member in E. rewrite Forall_forall in Hall.
  apply Hall. apply list_elem_of_In. exact E.
Qed.

(** X25 — a result always comes from the service.  The entry a title
    search returns is the first entry of an answer with status 200 to
    one of its own search requests, or the document of one of its own
    details requests; the entry an actor search returns is an entry of
    the cast list of an answer with status 200 to one of its own
    credits requests.  Neither search makes up a result, and neither
    returns one from an answer with another status. *)
Theorem results_come_from_the_service (net : Net) (cfg : Config) (ser : bool) :
  (forall attempts q tr,
      served (from_title_search net ser q tr
                (snd (search_tmdb_multilang net attempts cfg q ser tr)))
             (fst (search_tmdb_multilang net attempts cfg q ser tr))) /\
  (forall actors tr,
      served (from_credits net ser tr
                (snd (search_by_actors net actors cfg ser tr)))
             (fst (search_by_actors net actors cfg ser tr))).
Proof.
  split.
  - intros attempts q tr. apply search_tmdb_multilang_served.
  - intros actors tr. apply search_by_actors_served.
Qed.

End ProvenanceFacts.

(* ===================================================================== *)
(** * The shape of the name that is searched for *)
(* ===================================================================== *)

Module CleanNameFacts.
Import PyStr FilesOps CleanName.

(** ** Steps that only delete *)

Lemma remove_terms_keeps (P : ascii -> Prop) terms s : forall prev skip,
  Forall P s -> Forall P (remove_terms terms prev skip s).
Proof.
  induction s as [|c s IH]; intros prev skip H; cbn [remove_terms]; [constructor|].
  apply Forall_cons in H as [Hc Hs].
  destruct skip as [|k]; [|apply IH; exact Hs].
  destruct (boundary prev (Some c)).
  - destruct (term_here terms (c :: s)) as [[|k]|];
      try (constructor; [exact Hc|apply IH; exact Hs]).
    apply IH. exact Hs.
  - constructor; [exact Hc|apply IH; exact Hs].
Qed.

Lemma blank_marks_free s : Forall (fun c => is_mark c = false) (blank_marks s).
Proof.
  unfold blank_marks. apply Forall_map. apply Forall_forall. intros c _. cbn beta.
  destruct (is_mark c) eqn:E; [reflexivity|exact E].
Qed.

(** ** White space *)

Local Abbreviation plain :=
  (fun c : ascii => is_mark c = false /\ (is_space c = true -> c = " "%char)).

Lemma collapse_plain s : forall in_run,
  Forall (fun c => is_mark c = false) s -> Forall plain (collapse in_run s).
Proof.
  induction s as [|c s IH]; intros in_run H; cbn [collapse]; [constructor|].
  apply Forall_cons in H as [Hc Hs].
  destruct (is_space c) eqn:E.
  - destruct in_run; [apply IH; exact Hs|].
    constructor; [split; [reflexivity|reflexivity]|apply IH; exact Hs].
  - constructor; [split; [exact Hc|congruence]|apply IH; exact Hs].
Qed.

Lemma collapse_single s : forall in_run,
  single_blanks (collapse in_run s) /\
  (in_run = true -> head (collapse in_run s) <> Some " "%char).
Proof.
  induction s as [|c s IH]; intros in_run; cbn [collapse].
  - split; [exact I|discriminate].
  - destruct (is_space c) eqn:E.
    + destruct in_run.
      * apply IH.
      * destruct (IH true) as [H1 H2]. split; [|discriminate].
        cbn [single_blanks]. destruct (collapse true s) as [|b l] eqn:El; [exact I|].
        split; [|exact H1]. intros [_ ->]. apply H2; reflexivity.
    + destruct (IH false) as [H1 _]. split.
      * cbn [single_blanks]. destruct (collapse false s) as [|b l]; [exact I|].
        split; [|exact H1]. intros [-> _]. discriminate.
      * intros _ [= ->]. discriminate.
Qed.

Lemma single_blanks_app a b : single_blanks (a ++ b) -> single_blanks a /\ single_blanks b.
Proof.
  induction a as [|x a IH]; cbn [app]; [intros H; split; [exact I|exact H]|].
  destruct a as [|y a'].
  - cbn [app]. destruct b as [|z b']; [cbn; auto|]. cbn [single_blanks].
    intros [_ H]. split; [exact I|exact H].
  - cbn [app single_blanks] in *. intros [H1 H2].
    destruct (IH H2) as [Ha Hb]. auto.
Qed.

(** ** [strip] *)

Lemma lstrip_suffix s :
  exists pre, chars s = pre ++ chars (lstrip s).
Proof.
  induction s as [|c s [pre IH]]; [exists []; reflexivity|].
  cbn [lstrip]. destruct (is_space c).
  - exists (c :: pre). cbn. f_equal. exact IH.
  - exists []. reflexivity.
Qed.

Lemma lstrip_head s c : head (chars (lstrip s)) = Some c -> is_space c = false.
Proof.
  induction s as [|x s IH]; cbn [lstrip]; [discriminate|].
  destruct (is_space x) eqn:E; [exact IH|]. cbn. intros [= <-]. exact E.
Qed.

Lemma rstrip_prefix s :
  exists post, chars s = chars (rstrip s) ++ post.
Proof.
  induction s as [|c s [post IH]]; [exists []; reflexivity|].
  cbn [rstrip]. destruct (rstrip s) as [|y r] eqn:Er.
  - destruct (is_space c).
    + exists (c :: chars s). reflexivity.
    + exists (chars s). reflexivity.
  - exists post. cbn in *. f_equal. exact IH.
Qed.

Lemma rstrip_last s c : last (chars (rstrip s)) = Some c -> is_space c = false.
Proof.
  revert c. induction s as [|x s IH]; intros c; cbn [rstrip]; [discriminate|].
  destruct (rstrip s) as [|y r] eqn:Er.
  - destruct (is_space x) eqn:E; [discriminate|]. cbn. intros [= <-]. exact E.
  - intros H. apply IH. cbn in H |- *. exact H.
Qed.

Lemma last_suffix {A} (pre l : list A) : l <> [] -> last (pre ++ l) = last l.
Proof.
  intros Hl. destruct l as [|x l]; [congruence|]. clear Hl.
  induction pre as [|y pre IH]; [reflexivity|].
  cbn [app]. destruct (pre ++ x :: l) eqn:E; [destruct pre; discriminate|].
  cbn [last]. rewrite <- E in *. exact IH.
Qed.

Lemma strip_tidy x :
  Forall plain x -> single_blanks x ->
  tidy (chars (strip (string_of_list_ascii x))).
Proof.
  intros Hx Hs. unfold strip.
  set (X := string_of_list_ascii x).
  assert (chars X = x) as HX by apply PathsFacts.chars_of_list.
  destruct (rstrip_prefix X) as [post Hp].
  destruct (lstrip_suffix (rstrip X)) as [pre Hq].
  set (p := chars (rstrip X)) in *.
  set (r := chars (lstrip (rstrip X))) in *.
  assert (x = pre ++ r ++ post) as Hx'
    by (rewrite <- HX, Hp, Hq, <- app_assoc; reflexivity).
  rewrite Hx' in Hx, Hs.
  apply Forall_app in Hx as [_ Hx]. apply Forall_app in Hx as [Hr _].
  apply single_blanks_app in Hs as [_ Hs]. apply single_blanks_app in Hs as [Hs _].
  split; [exact Hr|]. split; [|split; [|exact Hs]].
  - intros H. apply lstrip_head in H. discriminate.
  - intros H. destruct r as [|c r'] eqn:Er; [discriminate|].
    assert (last p = Some " "%char) as Hl.
    { rewrite Hq, last_suffix by discriminate. exact H. }
    apply rstrip_last in Hl. discriminate.
Qed.

(** ** The article *)

Lemma to_lower_blank c : to_lower " " = to_lower c -> c = " "%char.
Proof.
  destruct c as [[] [] [] [] [] [] [] []]; vm_compute; intros H;
    first [reflexivity | discriminate H].
Qed.

Lemma head_is_split w : forall s,
  head_is (w ++ [" "%char]) s = true ->
  exists m rest, s = m ++ " "%char :: rest /\ length m = length w.
Proof.
  induction w as [|x w IH]; intros s; cbn [app head_is].
  - destruct s as [|c s]; [discriminate|]. intros H.
    apply andb_true_iff in H as [H _]. apply Ascii.eqb_eq in H.
    apply to_lower_blank in H. subst c. exists [], s. split; reflexivity.
  - destruct s as [|c s]; [discriminate|]. intros H.
    apply andb_true_iff in H as [_ H].
    destruct (IH s H) as (m & rest & -> & Hm).
    exists (c :: m), rest. split; [reflexivity|]. cbn. lia.
Qed.

Lemma remove_article_tidy s : tidy s -> tidy (remove_article s).
Proof.
  intros Ht. unfold remove_article.
  destruct (List.find _ articles) as [a|] eqn:E; [|exact Ht].
  apply List.find_some in E as [_ E].
  destruct (head_is_split _ _ E) as (m & rest & -> & Hm).
  rewrite PathsFacts.length_chars in Hm.
  assert (drop (S (String.length a)) (m ++ " "%char :: rest) = rest) as ->.
  { change (m ++ " "%char :: rest) with (m ++ [" "%char] ++ rest).
    rewrite app_assoc. apply drop_app_length'. rewrite length_app. cbn. lia. }
  destruct Ht as (Hall & _ & Hlast & Hs).
  apply Forall_app in Hall as [_ Hall]. apply Forall_cons in Hall as [_ Hall].
  apply single_blanks_app in Hs as [_ Hs].
  split; [exact Hall|]. split; [|split].
  - destruct rest as [|c rest']; [discriminate|]. cbn [single_blanks] in Hs.
    destruct Hs as [Hs _]. intros [= ->]. apply Hs. split; reflexivity.
  - destruct rest as [|c rest']; [discriminate|].
    change (m ++ " "%char :: c :: rest') with (m ++ [" "%char] ++ c :: rest') in Hlast.
    rewrite app_assoc, last_suffix in Hlast by discriminate. exact Hlast.
  - destruct rest as [|c rest']; [exact I|]. cbn [single_blanks] in Hs. apply Hs.
Qed.

(** X26 — the name that is searched for is tidy.  Whatever the file
    name, the cleaned name holds no dot, no underscore and no hyphen,
    no white space other than the blank, no blank at its beginning or
    at its end, and never two blanks in a row. *)
Theorem cleaned_name_is_tidy (filename : string) :
  tidy (chars (clean_filename filename)).
Proof.
  unfold clean_filename. rewrite PathsFacts.chars_of_list.
  apply remove_article_tidy, strip_tidy.
  - apply collapse_plain, remove_terms_keeps, blank_marks_free.
  - apply collapse_single.
Qed.

End CleanNameFacts.

(* ===================================================================== *)
(** * The configuration and its defaults *)
(* ===================================================================== *)

Module ConfigFacts.
Import PyStr ConfigStore.

Lemma member_assign key value members :
  member key (assign key value members) = Some value.
Proof.
  induction members as [|[k v] rest IH]; cbn [assign member].
  - rewrite String.eqb_refl. reflexivity.
  - destruct (String.eqb k key) eqn:E; cbn [member]; rewrite E; [reflexivity|exact IH].
Qed.

Lemma get_set value parts : forall current current',
  parts <> [] ->
  set_path parts value current = Some current' ->
  get_path parts current' = Found value.
Proof.
  induction parts as [|part rest IH]; intros current current' Hne; [congruence|].
  destruct current as [members|s|items|text]; cbn [set_path]; try discriminate.
  destruct rest as [|next rest'].
  - intros [= <-]. cbn [get_path]. rewrite member_assign. reflexivity.
  - set (child := match member part members with Some c => c | None => JObj [] end).
    destruct (set_path (next :: rest') value child) as [child'|] eqn:E;
      [|discriminate].
    intros [= <-]. cbn [get_path]. rewrite member_assign.
    apply (IH child child'); [discriminate|exact E].
Qed.

Lemma split_char_not_nil sep s : split_char sep s <> [].
Proof.
  destruct s as [|c s]; cbn [split_char]; [discriminate|].
  destruct (Ascii.eqb c sep); [discriminate|].
  destruct (split_char sep s); discriminate.
Qed.

(** What was assigned is what is read. *)
Lemma read_assigned key value config config' :
  assign_key key value config = Some config' ->
  read_key key config' = Found value.
Proof.
  unfold assign_key, read_key. destruct (dotted key).
  - apply get_set, split_char_not_nil.
  - destruct config as [members| | |]; try discriminate.
    intros [= <-]. rewrite member_assign. reflexivity.
Qed.

(** The store after an update that did not raise. *)
Lemma update_config_store writable key value st ok st' :
  update_config writable key value st = Some (ok, st') ->
  exists config config',
    assign_key key value config = Some config' /\
    ok = writable /\
    (if writable then file st' = Holds config'
     else file st' = file st) /\
    (if readable st
     then file st = Holds config /\ default_config st' = default_config st
     else config = default_config st /\ default_config st' = config').
Proof.
  unfold update_config, load_config, save_config, readable.
  destruct st as [f dflt]. cbn [file default_config].
  destruct f as [| |document]; destruct writable; cbn [file default_config];
    match goal with
    | |- context [assign_key key value ?c] =>
        destruct (assign_key key value c) as [config'|] eqn:E; [|discriminate];
        intros [= <- <-]; exists c, config'; cbn [file default_config]; auto
    end.
Qed.

(** X27 — an update is read back.  When [update_config] returns True,
    [get_config_value] gives the value that was set for the key,
    dotted or not.  It also gives it when the update returned False
    because nothing could be written, if the file could not be read
    either: the update was made to the defaults. *)
Theorem updated_value_is_read_back
    (writable writable' : bool) (key : string) (value : Json)
    (st st' : Store) (ok : bool)
    (Hupdate : update_config writable key value st = Some (ok, st'))
    (Hsaved : ok = true \/ readable st = false) :
  fst (get_config_value writable' key st') = Found value.
Proof.
  destruct (update_config_store _ _ _ _ _ _ Hupdate)
    as (config & config' & Hassign & -> & Hfile & Hdefault).
  apply read_assigned in Hassign.
  unfold get_config_value, load_config, save_config.
  destruct writable.
  - rewrite Hfile. exact Hassign.
  - destruct Hsaved as [|Hunread]; [discriminate|].
    rewrite Hunread in Hdefault. destruct Hdefault as [_ Hd].
    unfold readable in Hunread. rewrite Hfile.
    destruct (file st) as [| |document]; [| |discriminate];
      destruct writable'; cbn [fst default_config]; rewrite Hd; exact Hassign.
Qed.

Lemma updated_value_is_read_back_witness :
  let st := mkStore Missing (JObj [("processing", JObj [("debug", JAtom "true")])]) in
  exists st',
    update_config false "processing.debug" (JAtom "false") st = Some (false, st') /\
    readable st = false /\
    fst (get_config_value false "processing.debug" st') = Found (JAtom "false").
Proof.
  intros st.
  destruct (update_config false "processing.debug" (JAtom "false") st)
    as [[ok st']|] eqn:E; [|vm_compute in E; discriminate].
  assert (ok = false) as -> by (vm_compute in E; congruence).
  exists st'. split; [reflexivity|]. split; [reflexivity|].
  exact (updated_value_is_read_back false false "processing.debug" (JAtom "false")
           st st' false E (or_intror eq_refl)).
Defined.

(** X28 — the defaults are the object that is changed.  An update
    made while the configuration file can be read leaves
    [DEFAULT_CONFIG] as it was.  An update made while the file is
    missing or cannot be read changes [DEFAULT_CONFIG] itself: from
    then on the defaults carry the new value, and saving the defaults
    again, as the menu does to restore them, still gives the new
    value to the next reader. *)
Theorem update_without_file_changes_the_defaults
    (writable writable' writable'' : bool) (key : string) (value : Json)
    (st st' : Store) (ok : bool)
    (Hupdate : update_config writable key value st = Some (ok, st')) :
  (readable st = true -> default_config st' = default_config st) /\
  (readable st = false ->
   read_key key (default_config st') = Found value /\
   fst (get_config_value writable'' key
          (snd (save_config writable' (default_config st') st')))
   = Found value).
Proof.
  destruct (update_config_store _ _ _ _ _ _ Hupdate)
    as (config & config' & Hassign & -> & Hfile & Hdefault).
  split; intros Hr; rewrite Hr in Hdefault.
  - apply Hdefault.
  - destruct Hdefault as [-> Hd]. rewrite Hd.
    pose proof (read_assigned _ _ _ _ Hassign) as Hread.
    split; [exact Hread|].
    unfold get_config_value, load_config, save_config.
    destruct writable'; cbn [snd file default_config fst]; [exact Hread|].
    unfold readable in Hr.
    destruct writable.
    + rewrite Hfile. exact Hread.
    + rewrite Hfile.
      destruct (file st) as [| |document]; [| |discriminate];
        destruct writable''; cbn [fst default_config]; rewrite Hd; exact Hread.
Qed.

Lemma update_without_file_changes_the_defaults_witness :
  let st := mkStore Missing (JObj [("debug", JAtom "true")]) in
  exists st',
    update_config true "debug" (JAtom "false") st = Some (true, st') /\
    readable st = false /\
    read_key "debug" (default_config st') = Found (JAtom "false").
Proof.
  intros st.
  destruct (update_config true "debug" (JAtom "false") st)
    as [[ok st']|] eqn:E; [|vm_compute in E; discriminate].
  assert (ok = true) as -> by (vm_compute in E; congruence).
  exists st'. split; [reflexivity|]. split; [reflexivity|].
  exact (proj1 (proj2 (update_without_file_changes_the_defaults
                         true true true "debug" (JAtom "false") st st' true E)
                      eq_refl)).
Defined.

End ConfigFacts.

(* ===================================================================== *)
(** * Restoring a file that was moved twice *)
(* ===================================================================== *)

Module RestoreChain.
Import PyStr FilesOps FilesOpsFacts BatchFacts.

Lemma placed_on_free_name (Result : Type)
    (plan : Result -> string -> string -> string + string)
    (now out src dst data : string) (r : Result) (d : Disk) :
  files d !! src = Some data -> files d !! dst = None ->
  plan r out (basename src) = inr dst ->
  snd (process_file_operation Result plan reliable now src r out d)
  = mkDisk (move src dst (files d))
           (backup d ++ [mkRecord (basename src) src (basename dst) dst
                                  "success" now]).
Proof.
  intros Hsrc Hdst Hplan. unfold process_file_operation.
  assert (exists_path (files d) src = true) as Hex
    by (apply exists_path_true; eauto).
  rewrite Hex, Hplan. cbn [negb]. unfold safe_move_file.
  rewrite Hex. cbn [negb reliable makedirs_fails move_fails].
  apply exists_path_false in Hdst. rewrite Hdst. reflexivity.
Qed.

Lemma restore_row_replayed name new_name src dst now data st :
  r_files st !! dst = Some data ->
  restore_row reliable (mkRecord name src new_name dst "success" now) st
  = Some (mkRestore (move dst src (r_files st)) (S (restored st)) (errors st)
                    (moves st ++ [(dst, src)])).
Proof.
  intros H. unfold restore_row.
  cbn [status ruta_nueva ruta_original].
  assert (exists_path (r_files st) dst = true) as ->
    by (apply exists_path_true; eauto).
  reflexivity.
Qed.

Lemma restore_row_passed_over r st :
  r_files st !! ruta_nueva r = None -> restore_row reliable r st = Some st.
Proof.
  intros H. unfold restore_row. apply exists_path_false in H.
  rewrite H, andb_false_r. reflexivity.
Qed.

(** C6 — a file that two runs moved, first from [a] to [b], then from
    [b] to [c], both moves logged as success rows in the same backup
    log.  Restore reads the log front to back: the first row does not
    find [b] and is passed over, the second row moves the file from [c]
    to [b]; one file is counted as restored and it is left at [b], not
    at its original place [a].  Replayed last row first, the same log
    brings the file back to [a]. *)
Theorem restore_strands_a_file_moved_twice (Result : Type)
    (plan : Result -> string -> string -> string + string)
    (now out a b c data : string) (r1 r2 : Result) (fs : FS) :
  a <> b -> b <> c -> a <> c ->
  fs !! a = Some data -> fs !! b = None -> fs !! c = None ->
  plan r1 out (basename a) = inr b ->
  plan r2 out (basename b) = inr c ->
  let d1 := snd (process_file_operation Result plan reliable now a r1 out
                   (mkDisk fs [])) in
  let d2 := snd (process_file_operation Result plan reliable now b r2 out d1) in
  let R := restore_from_backup reliable d2 in
  map move_of (List.filter is_success (backup d2)) = [(b, a); (c, b)] /\
  files d2 !! a = None /\ files d2 !! b = None /\ files d2 !! c = Some data /\
  moves R = [(c, b)] /\ restored R = 1%nat /\ errors R = 0%nat /\
  r_files R !! a = None /\ r_files R !! b = Some data /\
  r_files R !! c = None /\
  r_files (restore_rows reliable (rev (backup d2))
             (mkRestore (files d2) 0 0 [])) !! a = Some data.
Proof.
  intros Hab Hbc Hac Ha Hb Hc Hp1 Hp2 d1 d2 R.
  assert (d1 = mkDisk (move a b fs)
                 [mkRecord (basename a) a (basename b) b "success" now]) as Hd1.
  { unfold d1. rewrite (placed_on_free_name _ plan now out a b data r1);
      [reflexivity|exact Ha|exact Hb|exact Hp1]. }
  assert (move a b fs !! a = None) as H1a.
  { rewrite move_lookup, Ha. destruct (decide (a = b)); [congruence|].
    destruct (decide (a = a)); congruence. }
  assert (move a b fs !! b = Some data) as H1b.
  { rewrite move_lookup, Ha. destruct (decide (b = b)); congruence. }
  assert (move a b fs !! c = None) as H1c.
  { rewrite move_lookup_other by congruence. exact Hc. }
  set (fs2 := move b c (move a b fs)).
  assert (d2 = mkDisk fs2
                 [mkRecord (basename a) a (basename b) b "success" now;
                  mkRecord (basename b) b (basename c) c "success" now]) as Hd2.
  { unfold d2. rewrite (placed_on_free_name _ plan now out b c data r2);
      rewrite ?Hd1; cbn [files backup app]; auto. }
  assert (fs2 !! a = None) as H2a.
  { unfold fs2. rewrite move_lookup_other by congruence. exact H1a. }
  assert (fs2 !! b = None) as H2b.
  { unfold fs2. rewrite move_lookup, H1b.
    destruct (decide (b = c)); [congruence|].
    destruct (decide (b = b)); congruence. }
  assert (fs2 !! c = Some data) as H2c.
  { unfold fs2. rewrite move_lookup, H1b. destruct (decide (c = c)); congruence. }
  assert (move c b fs2 !! b = Some data) as H3b.
  { rewrite move_lookup, H2c. destruct (decide (b = b)); congruence. }
  assert (R = mkRestore (move c b fs2) 1 0 [(c, b)]) as HR.
  { unfold R, restore_from_backup. rewrite Hd2. cbn [backup files restore_rows].
    rewrite restore_row_passed_over by exact H2b.
    rewrite (restore_row_replayed _ _ _ _ _ data) by exact H2c.
    reflexivity. }
  rewrite Hd2, HR. cbn [backup files moves restored errors r_files].
  repeat match goal with |- _ /\ _ => split end; auto.
  - rewrite move_lookup_other by congruence. exact H2a.
  - rewrite move_lookup, H2c. destruct (decide (c = b)); [congruence|].
    destruct (decide (c = c)); congruence.
  - cbn [rev app restore_rows].
    rewrite (restore_row_replayed _ _ _ _ _ data) by exact H2c.
    rewrite (restore_row_replayed _ _ _ _ _ data) by exact H3b.
    cbn [r_files]. rewrite move_lookup, H3b.
    destruct (decide (a = a)); congruence.
Qed.

Lemma restore_strands_a_file_moved_twice_witness :
  let plan := fun (dest : string) (_ _ : string) => @inr string string dest in
  let fs : FS := {[ "in/a.mkv" := "film" ]} in
  let d1 := snd (process_file_operation string plan reliable "t" "in/a.mkv"
                   "in/lib/b.mkv" "in/lib" (mkDisk fs [])) in
  let d2 := snd (process_file_operation string plan reliable "t" "in/lib/b.mkv"
                   "in/lib/c.mkv" "in/lib" d1) in
  let R := restore_from_backup reliable d2 in
  map move_of (List.filter is_success (backup d2))
    = [("in/lib/b.mkv", "in/a.mkv"); ("in/lib/c.mkv", "in/lib/b.mkv")] /\
  files d2 !! "in/a.mkv" = None /\ files d2 !! "in/lib/b.mkv" = None /\
  files d2 !! "in/lib/c.mkv" = Some "film" /\
  moves R = [("in/lib/c.mkv", "in/lib/b.mkv")] /\ restored R = 1%nat /\
  errors R = 0%nat /\
  r_files R !! "in/a.mkv" = None /\ r_files R !! "in/lib/b.mkv" = Some "film" /\
  r_files R !! "in/lib/c.mkv" = None /\
  r_files (restore_rows reliable (rev (backup d2))
             (mkRestore (files d2) 0 0 [])) !! "in/a.mkv" = Some "film".
Proof.
  intros plan fs.
  apply (restore_strands_a_file_moved_twice string plan "t" "in/lib"
           "in/a.mkv" "in/lib/b.mkv" "in/lib/c.mkv" "film"
           "in/lib/b.mkv" "in/lib/c.mkv" fs);
    first [discriminate | reflexivity].
Defined.

End RestoreChain.

(* ===================================================================== *)
(** * The whole of [process_single_video] *)
(* ===================================================================== *)

Module ProcessEntryFacts.
Import PyStr Tmdb Process ChainSpec TmdbFacts ProcessFacts ProcessEntry.

(** C8 — what a call of [process_single_video] can end with.
    (1) Whatever the network does, one metadata query runs at most
    [attempts] rounds (at most [attempts - 1] retries) of at most four
    requests each.  (2) A query whose every request raises is retried
    [attempts - 1] times, asked once more in both languages and given
    up with no result.  (3) A file that fails the validity test gets
    the "invalid" dictionary and no request is sent.  (4) Once the
    temporary directory has been created the call returns a
    dictionary, whatever the network answers; the "Error: ..."
    dictionary is returned only when a local step raised.  (5) On a
    network where every request raises, every candidate source is
    still tried, in order, and the file comes out unmatched.  (6) But
    [os.makedirs] stands before the [try]: when it raises, the
    exception leaves [process_single_video]; no dictionary is returned
    and no request is sent. *)
Theorem makedirs_error_leaves_the_pipeline :
  (forall net cfg q ser attempts tr,
      exists new,
        snd (search_tmdb_multilang net attempts cfg q ser tr) = tr ++ new /\
        (length new <= 4 * Nat.max attempts 1)%nat /\
        (rounds new <= Nat.max attempts 1)%nat) /\
  (forall net cfg q ser attempts tr,
      unreachable_for net q ->
      search_tmdb_multilang net attempts cfg q ser tr
      = ((None, None),
         tr ++ replicate (attempts - 1) (SearchTitle ser q "es")
            ++ [SearchTitle ser q "es"; SearchTitle ser q "en"])) /\
  (forall net clean_filename TEMP_DIR host debug filepath cfg loc temp_dir tr,
      valid_video host filepath = false ->
      process_single_video net clean_filename TEMP_DIR host debug
        filepath cfg loc temp_dir tr
      = (mkEnded (Return Invalid) false, tr)) /\
  (forall net clean_filename TEMP_DIR host debug filepath cfg loc temp_dir tr,
      valid_video host filepath = true ->
      makedirs_error host
        (temp_dir_for clean_filename TEMP_DIR host
           (FilesOps.basename filepath) temp_dir) = None ->
      exists res,
        outcome (fst (process_single_video net clean_filename TEMP_DIR host
                        debug filepath cfg loc temp_dir tr)) = Return res /\
        (forall mensaje, res = Failed mensaje ->
                         exists m, detect cfg loc = Raise m)) /\
  (forall clean_filename TEMP_DIR host debug filepath cfg loc temp_dir tr
          studios actors,
      valid_video host filepath = true ->
      makedirs_error host
        (temp_dir_for clean_filename TEMP_DIR host
           (FilesOps.basename filepath) temp_dir) = None ->
      detect cfg loc = Return (studios, actors) ->
      process_single_video dead_net clean_filename TEMP_DIR host debug
        filepath cfg loc temp_dir tr
      = (mkEnded (Return (NotIdentified (quality (content loc)) studios actors))
                 (left_after_cleanup host debug
                    (temp_dir_for clean_filename TEMP_DIR host
                       (FilesOps.basename filepath) temp_dir)),
         tr ++ flat_map failing_requests
                 (candidates (clean_filename (FilesOps.basename filepath))
                             (content loc) actors))) /\
  (forall net clean_filename TEMP_DIR host debug filepath cfg loc temp_dir tr msg,
      valid_video host filepath = true ->
      makedirs_error host
        (temp_dir_for clean_filename TEMP_DIR host
           (FilesOps.basename filepath) temp_dir) = Some msg ->
      process_single_video net clean_filename TEMP_DIR host debug
        filepath cfg loc temp_dir tr
      = (mkEnded (Raise msg) false, tr)).
Proof.
  destruct network_errors_inside_try as (H1 & H2 & H3 & _ & H5).
  split; [exact H1|]. split; [exact H2|].
  split; [|split; [|split]].
  - intros net clean_filename TEMP_DIR host debug filepath cfg loc temp_dir tr Hv.
    unfold process_single_video. rewrite Hv. reflexivity.
  - intros net clean_filename TEMP_DIR host debug filepath cfg loc temp_dir tr
           Hv Hmk.
    unfold process_single_video. rewrite Hv, Hmk. cbn [negb]. unfold bind.
    destruct (Process.process_single_video net clean_filename true
                (FilesOps.basename filepath) cfg loc tr) as [res tr'] eqn:E.
    exists res. split; [reflexivity|].
    intros mensaje ->.
    apply (H3 net clean_filename true (FilesOps.basename filepath) cfg loc tr
              mensaje).
    rewrite E. reflexivity.
  - intros clean_filename TEMP_DIR host debug filepath cfg loc temp_dir tr
           studios actors Hv Hmk Hdet.
    unfold process_single_video. rewrite Hv, Hmk. cbn [negb]. unfold bind.
    rewrite (H5 clean_filename (FilesOps.basename filepath) cfg loc tr
                studios actors Hdet).
    reflexivity.
  - intros net clean_filename TEMP_DIR host debug filepath cfg loc temp_dir tr
           msg Hv Hmk.
    unfold process_single_video. rewrite Hv, Hmk. reflexivity.
Qed.

Lemma makedirs_error_leaves_the_pipeline_witness :
  let filepath := "in/" +:+ long_name in
  let temp_dir :=
    "temp/" +:+ string_of_list_ascii (repeat "a"%char 246)
            +:+ "_20240131_235959" in
  String.length (FilesOps.basename filepath) = 250%nat /\
  valid_video posix_host filepath = true /\
  temp_dir_for CleanName.clean_filename "temp" posix_host
    (FilesOps.basename filepath) None = temp_dir /\
  forall net cfg loc tr,
    process_single_video net CleanName.clean_filename "temp" posix_host false
      filepath cfg loc None tr
    = (mkEnded (Raise ("[Errno 36] File name too long: '" +:+ temp_dir +:+ "'"))
               false, tr).
Proof.
  intros filepath temp_dir.
  split; [vm_compute; reflexivity|]. split; [reflexivity|].
  split; [vm_compute; reflexivity|].
  intros net cfg loc tr.
  apply (proj2 (proj2 (proj2 (proj2 (proj2 makedirs_error_leaves_the_pipeline))))
           net CleanName.clean_filename "temp" posix_host false filepath cfg loc
           None tr).
  - reflexivity.
  - vm_compute. reflexivity.
Defined.

End ProcessEntryFacts.

(* ===================================================================== *)
(** * The matcher on [str] *)
(* ===================================================================== *)

Module UnicodeReFacts.
Import PyStr Re Unicode UnicodeRe.

Section WithUcd.
Variable u : Ucd.

Local Abbreviation class_mem := (UnicodeRe.class_mem u).
Local Abbreviation run_length := (UnicodeRe.run_length u).
Local Abbreviation match_here := (UnicodeRe.match_here u).
Local Abbreviation search := (UnicodeRe.search u).
Local Abbreviation Matches := (UnicodeRe.Matches u).
Local Abbreviation occurs := (UnicodeRe.occurs u).


Lemma run_length_take_u k s :
  Forall (fun x => class_mem k x = true) (take (run_length k s) s).
Proof.
  induction s as [|x s IH]; simpl; [constructor|].
  destruct (class_mem k x) eqn:E; simpl; [|constructor].
  constructor; assumption.
Qed.

Lemma run_length_ge_u k cs r :
  Forall (fun x => class_mem k x = true) cs ->
  (length cs <= run_length k (cs ++ r))%nat.
Proof.
  induction 1 as [|x cs Hx _ IH]; simpl; [lia|].
  rewrite Hx. lia.
Qed.

Lemma run_length_le_u k s : (run_length k s <= length s)%nat.
Proof.
  induction s as [|x s IH]; simpl; [lia|].
  destruct (class_mem k x); simpl; lia.
Qed.

Lemma cap_at_le_u m n : (cap_at m n <= n)%nat.
Proof. destruct m; simpl; lia. Qed.

Lemma take_Forall_le_u {A} (P : A -> Prop) (s : list A) j n :
  (j <= n)%nat -> Forall P (take n s) -> Forall P (take j s).
Proof.
  intros Hj H. replace j with (Nat.min j n) by lia.
  rewrite <- take_take. apply Forall_take. assumption.
Qed.

Lemma try_down_Some_u {R} (f : nat -> option R) lo k r :
  try_down f lo k = Some r ->
  exists j, (lo <= j <= k)%nat /\ f j = Some r /\
            forall i, (j < i <= k)%nat -> f i = None.
Proof.
  induction k as [|k IH]; simpl.
  - destruct (0 <? lo)%nat eqn:E; [discriminate|].
    apply Nat.ltb_ge in E.
    destruct (f 0%nat) eqn:F; [|discriminate].
    intros [= <-]. exists 0%nat.
    split; [lia|]. split; [assumption|]. intros i Hi; lia.
  - destruct (S k <? lo)%nat eqn:E; [discriminate|].
    apply Nat.ltb_ge in E.
    destruct (f (S k)) eqn:F.
    + intros [= <-]. exists (S k).
      split; [lia|]. split; [assumption|]. intros i Hi; lia.
    + intros H. destruct (IH H) as (j & Hj & Fj & Hn).
      exists j. split; [lia|]. split; [assumption|].
      intros i Hi. destruct (decide (i = S k)) as [->|]; [assumption|].
      apply Hn; lia.
Qed.

Lemma try_down_complete_u {R} (f : nat -> option R) lo k j :
  (lo <= j <= k)%nat -> is_Some (f j) -> is_Some (try_down f lo k).
Proof.
  induction k as [|k IH]; simpl; intros Hj Hs.
  - assert (j = 0)%nat as -> by lia.
    destruct (0 <? lo)%nat eqn:E; [apply Nat.ltb_lt in E; lia|].
    destruct (f 0%nat); [eauto|]. destruct Hs; discriminate.
  - destruct (S k <? lo)%nat eqn:E; [apply Nat.ltb_lt in E; lia|].
    destruct (f (S k)) eqn:F; [eauto|].
    apply IH; [|assumption].
    destruct (decide (j = S k)) as [->|]; [|lia].
    rewrite F in Hs. destruct Hs; discriminate.
Qed.

(** Soundness: what the matcher accepts is a match of the pattern. *)
Lemma match_here_sound_u p : forall s caps rest,
  match_here p s = Some (caps, rest) ->
  exists m, s = m ++ rest /\ Matches p m caps.
Proof.
  induction p as [|a p IH]; simpl; intros s caps rest H.
  - injection H as <- <-. exists []. split; [reflexivity|constructor].
  - apply try_down_Some_u in H as (j & Hj & Fj & _).
    destruct (match_here p (drop j s)) as [[caps' rest']|] eqn:E;
      [|discriminate].
    injection Fj as <- <-.
    destruct (IH _ _ _ E) as (m & Hm & HM).
    exists (take j s ++ m). split.
    + rewrite <- app_assoc, <- Hm. symmetry. apply take_drop.
    + pose proof (cap_at_le_u (rmax a) (run_length (cls a) s)) as Hc.
      pose proof (run_length_le_u (cls a) s) as Hl.
      constructor; auto.
      * apply take_Forall_le_u with (n := run_length (cls a) s); [lia|].
        apply run_length_take_u.
      * rewrite length_take. lia.
      * intros b Hb. rewrite length_take. rewrite Hb in Hj. simpl in Hj. lia.
Qed.

(** Completeness: wherever the pattern matches, the matcher succeeds. *)
Lemma match_here_complete_u p m caps :
  Matches p m caps -> forall rest, is_Some (match_here p (m ++ rest)).
Proof.
  induction 1 as [|a p cs m caps Hcs Hmin Hmax HM IH]; intros rest; simpl.
  - eauto.
  - apply try_down_complete_u with (j := length cs).
    + split; [assumption|].
      rewrite <- app_assoc.
      pose proof (run_length_ge_u (cls a) cs (m ++ rest) Hcs) as Hr.
      destruct (rmax a) as [b|] eqn:Eb; simpl; [|lia].
      specialize (Hmax b eq_refl). lia.
    + rewrite <- app_assoc, drop_app_length.
      destruct (IH rest) as [[caps' rest'] ->]. eauto.
Qed.

(** Greediness: after a match whose last atom is unbounded, the text
    left over does not begin inside that atom's class. *)
Lemma match_here_greedy_last_u p a : forall s caps rest,
  rmax a = None ->
  match_here (p ++ [a]) s = Some (caps, rest) ->
  run_length (cls a) rest = 0%nat.
Proof.
  induction p as [|b p IH]; simpl; intros s caps rest Ha H.
  - rewrite Ha in H. simpl in H.
    apply try_down_Some_u in H as (j & Hj & Fj & Hn).
    injection Fj as _ <-.
    destruct (decide (j = run_length (cls a) s)) as [->|Hne].
    + clear. induction s as [|x s IH]; simpl; [reflexivity|].
      destruct (class_mem (cls a) x) eqn:E; simpl; [assumption|].
      rewrite E. reflexivity.
    + specialize (Hn (run_length (cls a) s)). simpl in Hn.
      discriminate Hn. lia.
  - apply try_down_Some_u in H as (j & _ & Fj & _).
    destruct (match_here (p ++ [a]) (drop j s)) as [[caps' rest']|] eqn:E;
      [|discriminate].
    injection Fj as _ <-. eapply IH; eauto.
Qed.

Lemma Matches_groups_u p m caps :
  Matches p m caps -> length caps = length (List.filter capture p).
Proof.
  induction 1 as [|a p cs m caps _ _ _ _ IH]; [reflexivity|].
  simpl. destruct (capture a); simpl; congruence.
Qed.

(** [search] returns the match at the leftmost start position. *)
Lemma search_Some_u p : forall s r,
  search p s = Some r ->
  exists pre suf, s = pre ++ suf /\ match_here p suf = Some r /\
    forall pre1 suf1, s = pre1 ++ suf1 -> (length pre1 < length pre)%nat ->
                      match_here p suf1 = None.
Proof.
  induction s as [|x s IH]; intros r H.
  - simpl in H. destruct (match_here p []) eqn:E; [|discriminate].
    exists [], []. repeat split; [congruence|]. simpl; intros; lia.
  - simpl in H. destruct (match_here p (x :: s)) eqn:E.
    + exists [], (x :: s). repeat split; [congruence|]. simpl; intros; lia.
    + destruct (IH _ H) as (pre & suf & -> & Hm & Hleft).
      exists (x :: pre), suf. repeat split; auto.
      intros [|y pre1] suf1 Heq Hlen; simpl in *.
      * subst suf1. assumption.
      * injection Heq as -> Heq. apply (Hleft pre1 suf1 Heq). lia.
Qed.

Lemma search_None_u p : forall s,
  search p s = None ->
  forall pre suf, s = pre ++ suf -> match_here p suf = None.
Proof.
  induction s as [|x s IH]; simpl; intros H pre suf Heq.
  - destruct (match_here p []) eqn:E; [discriminate|].
    symmetry in Heq. apply app_eq_nil in Heq as [-> ->]. assumption.
  - destruct (match_here p (x :: s)) eqn:E; [discriminate|].
    destruct pre as [|y pre]; simpl in Heq.
    + subst suf. assumption.
    + injection Heq as -> Heq. eapply IH; eauto.
Qed.

Lemma search_occurs_u p s : is_Some (search p s) <-> occurs p s.
Proof.
  split.
  - intros [[caps rest] H].
    apply search_Some_u in H as (pre & suf & -> & Hm & _).
    apply match_here_sound_u in Hm as (m & -> & HM).
    exists pre, m, rest, caps. split; [reflexivity|assumption].
  - intros (pre & m & post & caps & -> & HM).
    destruct (search p (pre ++ m ++ post)) eqn:E; [eauto|].
    pose proof (search_None_u _ _ E pre (m ++ post) eq_refl) as Hn.
    destruct (match_here_complete_u _ _ _ HM post) as [r Hr]. congruence.
Qed.

End WithUcd.

End UnicodeReFacts.

(* ===================================================================== *)
(** * Season and episode of a file name, on [str] *)
(* ===================================================================== *)

Module UnicodeSeasonEpisode.
Import PyStr Re Unicode UnicodeRe UnicodeReFacts VideoAnalysis.

Lemma code_inj c d : code c = code d -> c = d.
Proof.
  unfold code. intros H.
  rewrite <- (ascii_N_embedding c), <- (ascii_N_embedding d), H. reflexivity.
Qed.

Lemma upper_letter_moves c :
  is_upper c = true -> N.eqb (code c) (code (to_lower c)) = false.
Proof.
  destruct c as [[] [] [] [] [] [] [] []]; intros H;
    first [discriminate H | reflexivity].
Qed.

Section WithUcd.
Variable u : Ucd.
Hypothesis Hu : coherent u.

Local Abbreviation class_mem := (UnicodeRe.class_mem u).
Local Abbreviation run_length := (UnicodeRe.run_length u).
Local Abbreviation match_here := (UnicodeRe.match_here u).
Local Abbreviation search := (UnicodeRe.search u).
Local Abbreviation Matches := (UnicodeRe.Matches u).
Local Abbreviation occurs := (UnicodeRe.occurs u).
Local Abbreviation reads_as := (UnicodeRe.reads_as u).
Local Abbreviation all_digits := (UnicodeRe.all_digits u).
Local Abbreviation number := (UnicodeRe.number u).
Local Abbreviation is_SxxEyy := (UnicodeRe.is_SxxEyy u).
Local Abbreviation is_NxNN := (UnicodeRe.is_NxNN u).
Local Abbreviation leftmost_longest := (UnicodeRe.leftmost_longest u).
Local Abbreviation int_of_digits := (UnicodeRe.int_of_digits u).
Local Abbreviation first_match := (UnicodeRe.first_match u).

(** ** Letters and digits *)

Lemma letter_is_cased c :
  is_ascii_letter c = true -> iscased u (code c) = true.
Proof.
  intros Hc. destruct Hu as (H1 & _). destruct (H1 c Hc) as [Hlo Hup].
  unfold iscased. rewrite Hlo. destruct (is_upper c) eqn:E.
  - rewrite (upper_letter_moves c E). reflexivity.
  - specialize (Hup eq_refl). apply orb_true_iff. right.
    apply negb_true_iff, N.eqb_neq. congruence.
Qed.

Lemma literal_reads c x :
  is_ascii_letter c = true -> literal_mem u c x = true <-> reads_as c x.
Proof.
  intros Hc. unfold literal_mem, UnicodeRe.reads_as.
  rewrite (letter_is_cased c Hc).
  destruct Hu as (H1 & _). destruct (H1 c Hc) as [-> _].
  cbn [existsb]. rewrite orb_true_iff, N.eqb_eq, existsb_exists. split.
  - intros [H|(y & Hy & Heq)]; [left; exact H|right].
    apply N.eqb_eq in Heq. rewrite Heq. exact Hy.
  - intros [H|H]; [left; exact H|right].
    exists (tolower u x). split; [exact H|apply N.eqb_refl].
Qed.

Lemma reads_as_not_decimal c x :
  is_ascii_letter c = true -> reads_as c x -> decimal u x = None.
Proof.
  intros Hc Hr. destruct (decimal u x) as [v|] eqn:E; [|reflexivity].
  exfalso. destruct Hu as (_ & H2 & H3).
  destruct (H3 c Hc) as [Hsmall Hfix].
  unfold UnicodeRe.reads_as in Hr. rewrite (H2 x v E) in Hr.
  destruct Hr as [Hr|Hr].
  - rewrite Hr in E. congruence.
  - rewrite List.Forall_forall in Hfix. rewrite (Hfix x Hr) in E. discriminate.
Qed.

Lemma is_decimal_true x :
  is_decimal u x = true <-> exists v, decimal u x = Some v.
Proof.
  unfold is_decimal. destruct (decimal u x) as [v|]; split.
  - eauto.
  - reflexivity.
  - discriminate.
  - intros [v H]. discriminate.
Qed.

Lemma class_digits d :
  Forall (fun x => class_mem CDigit x = true) d <-> all_digits d.
Proof.
  unfold UnicodeRe.all_digits. rewrite !List.Forall_forall.
  split; intros H x Hx; apply is_decimal_true, H, Hx.
Qed.

Lemma run_length_digit_zero post :
  run_length CDigit post = 0%nat <->
  forall x rest, post = x :: rest -> decimal u x = None.
Proof.
  destruct post as [|y post]; cbn [UnicodeRe.run_length UnicodeRe.class_mem].
  - split; [intros _ x rest; discriminate|reflexivity].
  - unfold is_decimal. destruct (decimal u y) as [v|] eqn:E; split.
    + discriminate.
    + intros H. specialize (H y post eq_refl). congruence.
    + intros _ x rest [= <- <-]. exact E.
    + reflexivity.
Qed.

(** The value [int] computes, digit by digit from the left, is the
    number the digits write. *)
Lemma int_of_digits_from d : forall acc,
  fold_left (fun acc x => 10 * acc + digit_val u x)%N d acc
  = (acc * 10 ^ N.of_nat (length d) + number d)%N.
Proof.
  induction d as [|x d IH]; intros acc;
    cbn [fold_left UnicodeRe.number length].
  - cbn. lia.
  - rewrite IH. rewrite Nat2N.inj_succ, N.pow_succ_r'.
    unfold digit_val. destruct (decimal u x) as [v|]; lia.
Qed.

Lemma int_of_digits_number d : int_of_digits d = number d.
Proof.
  unfold UnicodeRe.int_of_digits. rewrite int_of_digits_from. lia.
Qed.

(** ** The two shapes *)

Lemma Matches_nil_inv_u m caps : Matches [] m caps -> m = [] /\ caps = [].
Proof. inversion 1; auto. Qed.

Lemma Matches_lit_inv_u c p m caps :
  Matches (lit c :: p) m caps ->
  exists x m', m = x :: m' /\ literal_mem u c x = true /\ Matches p m' caps.
Proof.
  inversion 1 as [|a p' cs m' caps' Hcs Hmin Hmax HM]; subst.
  simpl in *. specialize (Hmax 1%nat eq_refl).
  destruct cs as [|x [|y cs]]; simpl in *; try lia.
  exists x, m'. split; [reflexivity|]. split; [|assumption].
  apply Forall_cons in Hcs as [Hx _]. exact Hx.
Qed.

Lemma Matches_lit_intro_u c p x m caps :
  literal_mem u c x = true -> Matches p m caps ->
  Matches (lit c :: p) (x :: m) caps.
Proof.
  intros Hx HM.
  apply (Matches_cons u (lit c) p [x] m caps); simpl; auto.
  intros b [= <-]. lia.
Qed.

Lemma Matches_digits1_inv_u p m caps :
  Matches (digits1 :: p) m caps ->
  exists d m' caps', m = d ++ m' /\ all_digits d /\ d <> [] /\
                     caps = d :: caps' /\ Matches p m' caps'.
Proof.
  inversion 1 as [|a p' cs m' caps' Hcs Hmin Hmax HM]; subst.
  simpl in *. exists cs, m', caps'.
  split; [reflexivity|]. split; [apply class_digits; exact Hcs|].
  split; [|auto]. intros ->. simpl in Hmin. lia.
Qed.

Lemma Matches_digits1_intro_u p d m caps :
  all_digits d -> d <> [] -> Matches p m caps ->
  Matches (digits1 :: p) (d ++ m) (d :: caps).
Proof.
  intros Hd Hne HM.
  apply (Matches_cons u digits1 p d m caps); simpl; auto.
  - apply class_digits. exact Hd.
  - destruct d; [congruence|simpl; lia].
  - discriminate.
Qed.

Lemma Matches_SxxEyy_u m caps :
  Matches pat_SxxEyy m caps <->
  exists d1 d2, is_SxxEyy m d1 d2 /\ caps = [d1; d2].
Proof.
  unfold pat_SxxEyy, lits; simpl. split.
  - intros H.
    apply Matches_lit_inv_u in H as (c1 & m1 & -> & Hc1 & H).
    apply Matches_digits1_inv_u in H
      as (d1 & m2 & caps1 & -> & Hd1 & Hn1 & -> & H).
    apply Matches_lit_inv_u in H as (c2 & m3 & -> & Hc2 & H).
    apply Matches_digits1_inv_u in H
      as (d2 & m4 & caps2 & -> & Hd2 & Hn2 & -> & H).
    apply Matches_nil_inv_u in H as [-> ->].
    exists d1, d2. split; [|reflexivity].
    exists c1, c2. rewrite app_nil_r.
    apply literal_reads in Hc1; [|reflexivity].
    apply literal_reads in Hc2; [|reflexivity].
    repeat split; auto.
  - intros (d1 & d2 & (c1 & c2 & -> & Hc1 & Hc2 & Hd1 & Hn1 & Hd2 & Hn2) & ->).
    apply Matches_lit_intro_u; [apply literal_reads; [reflexivity|exact Hc1]|].
    apply Matches_digits1_intro_u; auto.
    apply Matches_lit_intro_u; [apply literal_reads; [reflexivity|exact Hc2]|].
    rewrite <- (app_nil_r d2) at 1.
    apply Matches_digits1_intro_u; auto. constructor.
Qed.

Lemma Matches_NxNN_u m caps :
  Matches pat_NxNN m caps <->
  exists d1 d2, is_NxNN m d1 d2 /\ caps = [d1; d2].
Proof.
  unfold pat_NxNN, lits; simpl. split.
  - intros H.
    apply Matches_digits1_inv_u in H
      as (d1 & m2 & caps1 & -> & Hd1 & Hn1 & -> & H).
    apply Matches_lit_inv_u in H as (c2 & m3 & -> & Hc2 & H).
    apply Matches_digits1_inv_u in H
      as (d2 & m4 & caps2 & -> & Hd2 & Hn2 & -> & H).
    apply Matches_nil_inv_u in H as [-> ->].
    exists d1, d2. split; [|reflexivity].
    exists c2. rewrite app_nil_r.
    apply literal_reads in Hc2; [|reflexivity].
    repeat split; auto.
  - intros (d1 & d2 & (c & -> & Hc & Hd1 & Hn1 & Hd2 & Hn2) & ->).
    apply Matches_digits1_intro_u; auto.
    apply Matches_lit_intro_u; [apply literal_reads; [reflexivity|exact Hc]|].
    rewrite <- (app_nil_r d2) at 1.
    apply Matches_digits1_intro_u; auto. constructor.
Qed.

(** A pattern that ends in [(\d+)], read through its shape: the
    search returns the leftmost occurrence, its last number read in
    full. *)
Lemma search_leftmost_longest_u (shape : Shape) (p0 : Pattern) (s : Str) :
  (forall m caps, Matches (p0 ++ [digits1]) m caps <->
                  exists d1 d2, shape m d1 d2 /\ caps = [d1; d2]) ->
  contains shape s ->
  exists pre d1 d2 post,
    leftmost_longest shape s pre d1 d2 post /\
    search (p0 ++ [digits1]) s = Some ([d1; d2], post).
Proof.
  intros Hshape (pre0 & e1 & e2 & post0 & m0 & Hs0 & Hm0).
  assert (occurs (p0 ++ [digits1]) s) as Hoc.
  { exists pre0, m0, post0, [e1; e2]. split; [assumption|].
    apply Hshape. eauto. }
  apply search_occurs_u in Hoc as [[caps post] Hsearch].
  destruct (search_Some_u _ _ _ _ Hsearch) as (pre & suf & Hs & Hm & Hleft).
  pose proof (match_here_greedy_last_u u p0 digits1 _ _ _ eq_refl Hm)
    as Hgreedy.
  simpl in Hgreedy.
  destruct (match_here_sound_u _ _ _ _ _ Hm) as (m & -> & HM).
  apply Hshape in HM as (d1 & d2 & Hsh & ->).
  exists pre, d1, d2, post. split; [|assumption].
  split; [exists m; auto|].
  split; [apply run_length_digit_zero; exact Hgreedy|].
  intros pre' f1 f2 post' (m' & Hs' & Hsh').
  destruct (le_lt_dec (length pre) (length pre')) as [|Hlt]; [assumption|].
  assert (Matches (p0 ++ [digits1]) m' [f1; f2]) as HM'
    by (apply Hshape; eauto).
  destruct (match_here_complete_u u _ _ _ HM' post') as [r Hr].
  rewrite (Hleft pre' (m' ++ post') Hs') in Hr; [discriminate|lia].
Qed.

(** A run of digits followed by something that is not a digit can
    be cut in one way only. *)
Lemma digits_split_unique_u d : forall d' r r',
  all_digits d -> all_digits d' -> d ++ r = d' ++ r' ->
  (forall x rest, r = x :: rest -> decimal u x = None) ->
  (forall x rest, r' = x :: rest -> decimal u x = None) ->
  d = d' /\ r = r'.
Proof.
  induction d as [|x d IH]; intros [|y d'] r r' Hd Hd' Heq Hr Hr'; simpl in *.
  - auto.
  - subst r. apply Forall_cons in Hd' as [[v Hy] _].
    rewrite (Hr y _ eq_refl) in Hy. discriminate.
  - subst r'. apply Forall_cons in Hd as [[v Hx] _].
    rewrite (Hr' x _ eq_refl) in Hx. discriminate.
  - injection Heq as -> Heq.
    apply Forall_cons in Hd as [_ Hd]. apply Forall_cons in Hd' as [_ Hd'].
    destruct (IH d' r r' Hd Hd' Heq Hr Hr') as [-> ->]. auto.
Qed.

Lemma leftmost_same_start_u (shape : Shape) s pre d1 d2 post pre' e1 e2 post' :
  leftmost_longest shape s pre d1 d2 post ->
  leftmost_longest shape s pre' e1 e2 post' ->
  exists m m', shape m d1 d2 /\ shape m' e1 e2 /\ pre = pre' /\
               m ++ post = m' ++ post'.
Proof.
  intros (Ho & _ & Hl) (Ho' & _ & Hl').
  pose proof (Hl _ _ _ _ Ho') as H1. pose proof (Hl' _ _ _ _ Ho) as H2.
  destruct Ho as (m & Hs & Hm). destruct Ho' as (m' & Hs' & Hm').
  exists m, m'. rewrite Hs in Hs'.
  apply app_inj_1 in Hs' as [-> ->]; [auto|lia].
Qed.

Lemma letter_ends_digits c rest :
  is_ascii_letter c = true ->
  forall y, reads_as c y ->
  forall x rest', y :: rest = x :: rest' -> decimal u x = None.
Proof.
  intros Hc y Hy x rest' [= <- _]. exact (reads_as_not_decimal c y Hc Hy).
Qed.

Lemma leftmost_longest_SxxEyy_unique_u s pre d1 d2 post pre' e1 e2 post' :
  leftmost_longest is_SxxEyy s pre d1 d2 post ->
  leftmost_longest is_SxxEyy s pre' e1 e2 post' ->
  e1 = d1 /\ e2 = d2.
Proof.
  intros H H'.
  destruct (leftmost_same_start_u _ _ _ _ _ _ _ _ _ _ H H')
    as (m & m' & Hm & Hm' & _ & Heq).
  destruct H as (_ & Hp & _). destruct H' as (_ & Hp' & _).
  destruct Hm as (c1 & c2 & -> & _ & Hc2 & Hd1 & _ & Hd2 & _).
  destruct Hm' as (c1' & c2' & -> & _ & Hc2' & He1 & _ & He2 & _).
  simpl in Heq. injection Heq as _ Heq.
  rewrite <- !app_assoc in Heq. simpl in Heq.
  apply digits_split_unique_u in Heq as [-> Heq]; auto.
  - injection Heq as _ Heq.
    apply digits_split_unique_u in Heq as [-> _]; auto.
  - apply (letter_ends_digits "E"); [reflexivity|exact Hc2].
  - apply (letter_ends_digits "E"); [reflexivity|exact Hc2'].
Qed.

Lemma leftmost_longest_NxNN_unique_u s pre d1 d2 post pre' e1 e2 post' :
  leftmost_longest is_NxNN s pre d1 d2 post ->
  leftmost_longest is_NxNN s pre' e1 e2 post' ->
  e1 = d1 /\ e2 = d2.
Proof.
  intros H H'.
  destruct (leftmost_same_start_u _ _ _ _ _ _ _ _ _ _ H H')
    as (m & m' & Hm & Hm' & _ & Heq).
  destruct H as (_ & Hp & _). destruct H' as (_ & Hp' & _).
  destruct Hm as (c & -> & Hc & Hd1 & _ & Hd2 & _).
  destruct Hm' as (c' & -> & Hc' & He1 & _ & He2 & _).
  rewrite <- !app_assoc in Heq. simpl in Heq.
  apply digits_split_unique_u in Heq as [-> Heq]; auto.
  - injection Heq as _ Heq.
    apply digits_split_unique_u in Heq as [-> _]; auto.
  - apply (letter_ends_digits "x"); [reflexivity|exact Hc].
  - apply (letter_ends_digits "x"); [reflexivity|exact Hc'].
Qed.

Lemma search_two_groups_u p s caps rest :
  length (List.filter capture p) = 2%nat ->
  search p s = Some (caps, rest) ->
  exists g1 g2, caps = [g1; g2].
Proof.
  intros H2 Hs.
  apply search_Some_u in Hs as (pre & suf & _ & Hm & _).
  apply match_here_sound_u in Hm as (m & _ & HM).
  apply Matches_groups_u in HM. rewrite H2 in HM.
  destruct caps as [|g1 [|g2 [|g3 caps]]]; simpl in HM; try lia. eauto.
Qed.

Lemma first_match_None_u ps s :
  Forall (fun p => length (List.filter capture p) = 2%nat) ps ->
  (first_match ps s = None <-> forall p, In p ps -> ~ occurs p s).
Proof.
  induction 1 as [|p ps H2 _ IH]; simpl.
  - split; [intros _ p []|reflexivity].
  - destruct (search p s) as [[caps rest]|] eqn:E.
    + destruct (search_two_groups_u _ _ _ _ H2 E) as (g1 & g2 & ->). simpl.
      split; [discriminate|]. intros Hno. exfalso.
      apply (Hno p); [auto|]. apply search_occurs_u. eauto.
    + rewrite IH. split.
      * intros Hno q [<-|Hq]; [|auto].
        intros Hoc. apply search_occurs_u in Hoc as [r Hr]. congruence.
      * intros Hno q Hq. apply Hno. auto.
Qed.

Lemma contains_occurs_SxxEyy_u s :
  contains is_SxxEyy s <-> occurs pat_SxxEyy s.
Proof.
  split.
  - intros (pre & d1 & d2 & post & m & Hs & Hm).
    exists pre, m, post, [d1; d2]. split; [assumption|].
    apply Matches_SxxEyy_u. eauto.
  - intros (pre & m & post & caps & Hs & HM).
    apply Matches_SxxEyy_u in HM as (d1 & d2 & Hm & _).
    exists pre, d1, d2, post, m. auto.
Qed.

(** C3 — season/episode extraction, for every file name (a [str] of
    any characters) and every character database that is coherent.
    (1) A file name that contains an SxxEyy pattern yields the two
    numbers written, in base ten, by the digits of its leftmost
    occurrence, the episode number read to its last digit; that
    occurrence is the only one of this kind.  (2) A file name
    without SxxEyy that contains an NxNN pattern yields, in the same
    way, the numbers of its leftmost NxNN occurrence.  (3) The
    answer is "not found" exactly when none of the seven patterns
    occurs in the file name; no default value is ever produced. *)
Theorem season_and_episode_are_the_numbers_written (filename : Str) :
  (contains is_SxxEyy filename ->
     exists pre d1 d2 post,
       leftmost_longest is_SxxEyy filename pre d1 d2 post /\
       (forall pre' e1 e2 post',
           leftmost_longest is_SxxEyy filename pre' e1 e2 post' ->
           e1 = d1 /\ e2 = d2) /\
       UnicodeRe.extract_season_episode_from_filename u filename
         = Some (number d1, number d2)) /\
  (~ contains is_SxxEyy filename -> contains is_NxNN filename ->
     exists pre d1 d2 post,
       leftmost_longest is_NxNN filename pre d1 d2 post /\
       (forall pre' e1 e2 post',
           leftmost_longest is_NxNN filename pre' e1 e2 post' ->
           e1 = d1 /\ e2 = d2) /\
       UnicodeRe.extract_season_episode_from_filename u filename
         = Some (number d1, number d2)) /\
  ((forall p, In p patterns -> ~ occurs p filename) <->
     UnicodeRe.extract_season_episode_from_filename u filename = None).
Proof.
  unfold UnicodeRe.extract_season_episode_from_filename.
  split; [|split].
  - intros Hc.
    destruct (search_leftmost_longest_u is_SxxEyy
                [lit "S"%char; digits1; lit "E"%char] filename
                Matches_SxxEyy_u Hc)
      as (pre & d1 & d2 & post & Hll & Hsearch).
    exists pre, d1, d2, post. split; [assumption|]. split.
    + intros pre' e1 e2 post' Hll'.
      eapply leftmost_longest_SxxEyy_unique_u; eauto.
    + unfold patterns. cbn [UnicodeRe.first_match].
      change (search pat_SxxEyy filename)
        with (search ([lit "S"%char; digits1; lit "E"%char] ++ [digits1])
                     filename).
      rewrite Hsearch. cbn [UnicodeRe.groups_to_pair].
      rewrite !int_of_digits_number. reflexivity.
  - intros Hno Hc.
    destruct (search_leftmost_longest_u is_NxNN
                [digits1; lit "x"%char] filename Matches_NxNN_u Hc)
      as (pre & d1 & d2 & post & Hll & Hsearch).
    exists pre, d1, d2, post. split; [assumption|]. split.
    + intros pre' e1 e2 post' Hll'.
      eapply leftmost_longest_NxNN_unique_u; eauto.
    + unfold patterns. cbn [UnicodeRe.first_match].
      destruct (search pat_SxxEyy filename) as [r|] eqn:E.
      * exfalso. apply Hno, contains_occurs_SxxEyy_u, search_occurs_u. eauto.
      * change (search pat_NxNN filename)
          with (search ([digits1; lit "x"%char] ++ [digits1]) filename).
        rewrite Hsearch. cbn [UnicodeRe.groups_to_pair].
        rewrite !int_of_digits_number. reflexivity.
  - symmetry. apply first_match_None_u, SeasonEpisodeFacts.patterns_two_groups.
Qed.

End WithUcd.

(** The rows of [Unicode.rows] are coherent. *)
Lemma rows_coherent : coherent rows.
Proof.
  split; [|split].
  - intros c. destruct c as [[] [] [] [] [] [] [] []]; intros H;
      first [discriminate H
            | split; [reflexivity
                     |intros E; first [discriminate E
                                      |apply N.eqb_neq; reflexivity]]].
  - intros x v. cbn [decimal tolower rows]. unfold between.
    repeat match goal with
           | |- context [(?a <=? ?b)%N] => destruct (N.leb_spec a b)
           | |- context [(?a =? ?b)%N] => destruct (N.eqb_spec a b)
           end; cbn [andb negb]; intros Hdec; first [discriminate Hdec | lia | reflexivity].
  - intros c. destruct c as [[] [] [] [] [] [] [] []]; intros H;
      first [discriminate H
            | split; [reflexivity|repeat constructor]].
Qed.

(** Show S01E02.mkv, its digits written with fullwidth characters. *)
Lemma season_and_episode_are_the_numbers_written_witness :
  let filename :=
    str "Show S" ++ [65296; 65297]%N ++ str "E" ++ [65296; 65298]%N
                 ++ str ".mkv" in
  coherent rows /\
  contains (is_SxxEyy rows) filename /\
  UnicodeRe.extract_season_episode_from_filename rows filename = Some (1, 2)%N /\
  exists pre d1 d2 post,
    leftmost_longest rows (is_SxxEyy rows) filename pre d1 d2 post /\
    (forall pre' e1 e2 post',
        leftmost_longest rows (is_SxxEyy rows) filename pre' e1 e2 post' ->
        e1 = d1 /\ e2 = d2) /\
    UnicodeRe.extract_season_episode_from_filename rows filename
      = Some (number rows d1, number rows d2).
Proof.
  intros filename.
  assert (contains (is_SxxEyy rows) filename) as Hc.
  { exists (str "Show "), [65296; 65297]%N, [65296; 65298]%N, (str ".mkv"),
      (str "S" ++ [65296; 65297]%N ++ str "E" ++ [65296; 65298]%N).
    split; [reflexivity|].
    exists 83%N, 69%N. split; [reflexivity|].
    split; [left; reflexivity|]. split; [left; reflexivity|].
    split; [repeat constructor; eexists; reflexivity|].
    split; [discriminate|].
    split; [repeat constructor; eexists; reflexivity|discriminate]. }
  split; [exact rows_coherent|]. split; [exact Hc|].
  split; [vm_compute; reflexivity|].
  exact (proj1 (season_and_episode_are_the_numbers_written rows rows_coherent
                  filename) Hc).
Defined.

End UnicodeSeasonEpisode.

(* ===================================================================== *)
(** * The text detector on [str] *)
(* ===================================================================== *)

Module UnicodeDetectFacts.
Import Unicode UnicodeDetect.

Lemma is_prefix_spec pattern : forall text,
  is_prefix pattern text = true <-> exists post, text = pattern ++ post.
Proof.
  induction pattern as [|x pattern IH]; intros text; cbn [is_prefix].
  - split; [intros _; exists text; reflexivity|reflexivity].
  - destruct text as [|y text].
    + split; [discriminate|intros [post H]; discriminate].
    + rewrite andb_true_iff, N.eqb_eq, IH. split.
      * intros [-> [post ->]]. exists post. reflexivity.
      * intros [post [= -> ->]]. split; [reflexivity|]. exists post. reflexivity.
Qed.

Lemma is_substring_occurs pattern : forall text,
  is_substring pattern text = true <-> occurs_in pattern text.
Proof.
  induction text as [|y text IH]; cbn [is_substring].
  - rewrite orb_false_r, is_prefix_spec. split.
    + intros [post H]. exists [], post. exact H.
    + intros ([|c pre] & post & H); [exists post; exact H|discriminate].
  - rewrite orb_true_iff, is_prefix_spec, IH. split.
    + intros [[post H]|(pre & post & H)].
      * exists [], post. exact H.
      * exists (y :: pre), post. rewrite H. reflexivity.
    + intros ([|c pre] & post & H).
      * left. exists post. exact H.
      * right. injection H as _ H. exists pre, post. exact H.
Qed.

Lemma entry_hits lower text entry :
  existsb (fun pattern => is_substring pattern (lower text)) (snd entry) = true
  <-> hits lower text entry.
Proof.
  rewrite existsb_exists. unfold hits.
  split; intros (p & Hp & H); exists p; (split; [exact Hp|]);
    apply is_substring_occurs; exact H.
Qed.

(** X9 — the text detector, on any text and with the lower-casing of
    Python, whatever it does to each character: the answer is the
    first studio of the table one of whose patterns stands in the
    lower-cased text, and it is nothing exactly when the text is empty
    or no pattern of any studio stands in the lower-cased text. *)
Theorem text_detector_takes_first_hit (lower : Str -> Str) (ocr_text : Str)
    (mapping : Mapping) :
  (forall studio,
      detect_studio_from_text lower ocr_text mapping = Some studio ->
      ocr_text <> [] /\
      exists before patterns after,
        mapping = before ++ (studio, patterns) :: after /\
        hits lower ocr_text (studio, patterns) /\
        forall entry, In entry before -> ~ hits lower ocr_text entry) /\
  (detect_studio_from_text lower ocr_text mapping = None <->
   ocr_text = [] \/ forall entry, In entry mapping -> ~ hits lower ocr_text entry).
Proof.
  unfold detect_studio_from_text.
  destruct ocr_text as [|c text].
  { split; [discriminate|]. split; auto. }
  set (t := c :: text).
  set (f := fun entry : Str * list Str =>
              existsb (fun pattern => is_substring pattern (lower t)) (snd entry)).
  destruct (List.find f mapping) as [[studio patterns]|] eqn:E.
  - destruct (DetectFacts.find_first _ _ _ E) as (l1 & l2 & Hm & Hx & Hl1).
    split.
    + intros s [= <-]. split; [discriminate|].
      exists l1, patterns, l2. split; [exact Hm|].
      split; [apply entry_hits; exact Hx|].
      intros entry Hin Hh. apply entry_hits in Hh.
      specialize (Hl1 entry Hin). unfold f in Hl1. congruence.
    + split; [discriminate|]. intros [H|H]; [discriminate|]. exfalso.
      apply (H (studio, patterns)).
      * rewrite Hm. apply in_app_iff. right. left. reflexivity.
      * apply entry_hits. exact Hx.
  - split; [discriminate|]. split; [|reflexivity]. intros _. right.
    intros entry Hin Hh. apply entry_hits in Hh.
    pose proof (List.find_none _ _ E entry Hin) as Hn. unfold f in Hn. congruence.
Qed.

(** A text in accented capitals is found by a pattern in accented
    small letters. *)
Example accented_capitals_are_found :
  lower_rows television_espanola = television_espanola_small /\
  detect_studio_from_text lower_rows television_espanola
    [(str "HBO", [str "hbo"]); (str "TVE", [television_espanola_small])]
  = Some (str "TVE").
Proof. split; vm_compute; reflexivity. Qed.

End UnicodeDetectFacts.

(* ===================================================================== *)
(** * ASCII names: the two models of the extraction agree *)
(* ===================================================================== *)

Module AsciiNamesFacts.
Import PyStr Re Unicode VideoAnalysis AsciiNames.

Lemma every_ascii (P : ascii -> bool) :
  forallb P (map ascii_of_nat (seq 0 256)) = true -> forall x, P x = true.
Proof.
  intros H x. rewrite forallb_forall in H. apply H.
  rewrite <- (ascii_nat_embedding x). apply in_map, in_seq.
  pose proof (nat_ascii_bounded x). lia.
Qed.

Lemma class_mem_code k x :
  of_letters k = true ->
  UnicodeRe.class_mem rows k (code x) = Re.class_mem k x.
Proof.
  destruct k as [| |c]; cbn [of_letters].
  - intros _. revert x.
    assert (forall x, Bool.eqb (UnicodeRe.class_mem rows CDigit (code x))
                               (Re.class_mem CDigit x) = true) as H
      by (apply every_ascii; vm_compute; reflexivity).
    intros x. apply Bool.eqb_prop, H.
  - intros _. revert x.
    assert (forall x, Bool.eqb (UnicodeRe.class_mem rows CNonDigit (code x))
                               (Re.class_mem CNonDigit x) = true) as H
      by (apply every_ascii; vm_compute; reflexivity).
    intros x. apply Bool.eqb_prop, H.
  - revert c x.
    assert (forall c,
               forallb (fun x => implb (is_ascii_letter c)
                                       (Bool.eqb (UnicodeRe.class_mem rows (CLit c) (code x))
                                                 (Re.class_mem (CLit c) x)))
                       (map ascii_of_nat (seq 0 256)) = true) as H
      by (apply every_ascii; vm_compute; reflexivity).
    intros c x Hc. specialize (H c).
    pose proof (every_ascii _ H x) as Hx. cbv beta in Hx.
    rewrite Hc in Hx. apply Bool.eqb_prop, Hx.
Qed.

Lemma run_length_code k s :
  of_letters k = true ->
  UnicodeRe.run_length rows k (map code s) = Re.run_length k s.
Proof.
  intros Hk. induction s as [|x s IH]; [reflexivity|].
  cbn [map UnicodeRe.run_length Re.run_length].
  rewrite (class_mem_code k x Hk), IH. reflexivity.
Qed.

Lemma try_down_lift (f : nat -> option (list (list ascii) * list ascii))
    (g : nat -> option (list Str * Str)) lo :
  forall k, (forall j, (j <= k)%nat -> g j = option_map lift (f j)) ->
            try_down g lo k = option_map lift (try_down f lo k).
Proof.
  induction k as [|k IH]; intros H; cbn [try_down].
  - destruct (0 <? lo)%nat; [reflexivity|].
    rewrite (H 0%nat) by lia. destruct (f 0%nat); reflexivity.
  - destruct (S k <? lo)%nat; [reflexivity|].
    rewrite (H (S k)) by lia.
    destruct (f (S k)); [reflexivity|]. cbn [option_map].
    apply IH. intros j Hj. apply H. lia.
Qed.

Lemma match_here_code p : forall s,
  atoms_of_letters p ->
  UnicodeRe.match_here rows p (map code s) = option_map lift (Re.match_here p s).
Proof.
  induction p as [|a p IH]; intros s Hp.
  - reflexivity.
  - apply Forall_cons in Hp as [Ha Hp].
    cbn [UnicodeRe.match_here Re.match_here].
    rewrite (run_length_code _ _ Ha).
    apply try_down_lift. intros j _.
    rewrite List.skipn_map, (IH _ Hp).
    destruct (Re.match_here p (drop j s)) as [[caps rest]|]; [|reflexivity].
    cbn [option_map lift fst snd].
    destruct (capture a); [|reflexivity].
    cbn [map]. rewrite List.firstn_map. reflexivity.
Qed.

Lemma search_code p : forall s,
  atoms_of_letters p ->
  UnicodeRe.search rows p (map code s) = option_map lift (Re.search p s).
Proof.
  intros s Hp. induction s as [|x s IH].
  - pose proof (match_here_code p [] Hp) as H0.
    cbn [map UnicodeRe.search Re.search] in H0 |- *. rewrite H0.
    destruct (Re.match_here p []); reflexivity.
  - pose proof (match_here_code p (x :: s) Hp) as H0.
    cbn [map UnicodeRe.search Re.search] in H0 |- *. rewrite H0.
    destruct (Re.match_here p (x :: s)); [reflexivity|exact IH].
Qed.

Lemma digit_val_code x :
  is_digit x = true -> UnicodeRe.digit_val rows (code x) = PyStr.digit_val x.
Proof.
  revert x.
  assert (forall x, implb (is_digit x)
                          (N.eqb (UnicodeRe.digit_val rows (code x))
                                 (PyStr.digit_val x)) = true) as H
    by (apply every_ascii; vm_compute; reflexivity).
  intros x Hx. specialize (H x). rewrite Hx in H. apply N.eqb_eq, H.
Qed.

Lemma int_of_digits_code d :
  Forall (fun x => is_digit x = true) d ->
  UnicodeRe.int_of_digits rows (map code d) = PyStr.int_of_digits d.
Proof.
  unfold UnicodeRe.int_of_digits, PyStr.int_of_digits.
  generalize 0%N. induction d as [|x d IH]; intros acc Hd; [reflexivity|].
  apply Forall_cons in Hd as [Hx Hd].
  cbn [map fold_left]. rewrite (digit_val_code x Hx). apply IH, Hd.
Qed.

Lemma Matches_digit_groups p m caps :
  ReSpec.Matches p m caps -> captures_digits p ->
  Forall (Forall (fun x => is_digit x = true)) caps.
Proof.
  induction 1 as [|a p cs m caps Hcs _ _ _ IH]; intros Hp; [constructor|].
  apply Forall_cons in Hp as [Ha Hp].
  destruct (capture a); [|exact (IH Hp)].
  constructor; [|exact (IH Hp)].
  rewrite (Ha eq_refl) in Hcs. exact Hcs.
Qed.

Lemma first_match_code ps s :
  Forall atoms_of_letters ps -> Forall captures_digits ps ->
  UnicodeRe.first_match rows ps (map code s) = first_match ps s.
Proof.
  induction ps as [|p ps IH]; intros Hl Hd; [reflexivity|].
  apply Forall_cons in Hl as [Hp Hl]. apply Forall_cons in Hd as [Hpd Hd].
  cbn [UnicodeRe.first_match first_match].
  rewrite (search_code p s Hp).
  destruct (Re.search p s) as [[caps rest]|] eqn:E; [|exact (IH Hl Hd)].
  cbn [option_map lift fst snd].
  apply ReFacts.search_Some in E as (pre & suf & _ & Hm & _).
  apply ReFacts.match_here_sound in Hm as (m & _ & HM).
  pose proof (Matches_digit_groups _ _ _ HM Hpd) as Hcaps.
  destruct caps as [|g1 [|g2 [|g3 caps]]]; try reflexivity.
  cbn [map UnicodeRe.groups_to_pair groups_to_pair].
  apply Forall_cons in Hcaps as [H1 Hcaps].
  apply Forall_cons in Hcaps as [H2 _].
  rewrite (int_of_digits_code g1 H1), (int_of_digits_code g2 H2). reflexivity.
Qed.

(** On a file name of ASCII characters (of Latin-1 characters, for
    that matter) the extraction on [str], with the rows of
    [Unicode.rows], is the extraction of the ASCII model. *)
Lemma extraction_agrees_on_ascii (filename : string) :
  UnicodeRe.extract_season_episode_from_filename rows (str filename)
  = extract_season_episode_from_filename filename.
Proof.
  unfold UnicodeRe.extract_season_episode_from_filename,
    extract_season_episode_from_filename, str.
  apply first_match_code; unfold patterns;
    repeat (constructor; [repeat constructor; discriminate|]); constructor.
Qed.

End AsciiNamesFacts.
